(** * applechess: search agents over an external chess rules engine

    A shallow embedding of the Go sources, with the properties of these
    programs.  The sources and where each is embedded:
    - [src/alphabeta/alphabeta.go], lines 1-199: package alphabeta
      ([Module alphabeta]);
    - the same file, lines 200-451: package mcts, the revision that runs
      one goroutine per child of the root, rollouts of 20 plies
      ([Module mcts_core] and [Module mcts_parallel]);
    - the same file, lines 452-607: package mcts, the revision that grows
      one tree, rollouts of 50 plies ([Module mcts_core] and
      [Module mcts_single]);
    - the same file, lines 608-787: package minmax with the evaluator of
      package alphabeta ([minmax.evaluate_threat]);
    - [src/minmax/minmax.go]: package minmax with the exchange evaluator
      ([Module minmax], [minmax.evaluate]);
    - [src/main.go]: the command-line harness ([Module main]).

    Conventions.
    - [float64] values are modelled by the rationals they denote ([Q]);
      the searchers only compare scores, and the sentinel [math.MaxFloat64]
      is the rational [(2^53 - 1) * 2^971].  Arithmetic is exact in the
      model; every constant used in a closed example below is an integer or
      a half, for which float64 arithmetic is exact as well.
    - [int] and [int64] are 64-bit two's complement; increments are written
      with their wrap-around ([incr64]).
    - The package [github.com/brighamskarda/chess] is not part of this
      repository.  Its types are modelled in [Module chess]; its functions
      are the fields of [chess.RulesEngine], over which every definition is
      parameterised.
    - Pointers to positions ([*chess.Position]) are modelled by passing the
      position value; a function of this repository that writes through the
      pointer returns the updated position. *)

From Stdlib Require Import ZArith QArith Lqa List Bool Lia String Ascii.
Import ListNotations.

Close Scope Q_scope.
#[local] Set Warnings "-register-all".

(** ** Numbers *)

(** [a < b] on float64, as a boolean. *)
Definition Qltb (a b : Q) : bool := negb (Qle_bool b a).

(** [math.MaxFloat64 = 0x1p1023 * (1 + (1 - 0x1p-52))]. *)
Definition MaxFloat64 : Q := inject_Z ((2 ^ 53 - 1) * 2 ^ 971).

(** Two's complement wrap-around of a 64-bit signed integer. *)
Definition wrap64 (z : Z) : Z := ((z + 2 ^ 63) mod 2 ^ 64 - 2 ^ 63)%Z.

(** [x++] on an [int] / [int64]. *)
Definition incr64 (z : Z) : Z := wrap64 (z + 1).

(** [x--] on an [int]. *)
Definition decr64 (z : Z) : Z := wrap64 (z - 1).

Definition MaxInt64 : Z := (2 ^ 63 - 1)%Z.

(** ** The rules engine's data types (package chess) *)

Module chess.

Inductive Color : Set := NoColor | White | Black.

Inductive PieceType : Set :=
  NoPieceType | Pawn | Rook | Knight | Bishop | Queen | King.

Definition Color_eqb (a b : Color) : bool :=
  match a, b with
  | NoColor, NoColor | White, White | Black, Black => true
  | _, _ => false
  end.

Definition PieceType_eqb (a b : PieceType) : bool :=
  match a, b with
  | NoPieceType, NoPieceType | Pawn, Pawn | Rook, Rook | Knight, Knight
  | Bishop, Bishop | Queen, Queen | King, King => true
  | _, _ => false
  end.

(** [chess.Piece]: fields [Type] and [Color]. *)
Record Piece : Set := mkPiece { PType : PieceType; PColor : Color }.

(** Squares are numbered; [0] is the zero value of the type. *)
Definition Square : Set := nat.

(** [chess.Move]; [chess.Move{}] is [noMove]. *)
Record Move : Set :=
  mkMove { FromSquare : Square; ToSquare : Square; Promotion : PieceType }.

Definition noMove : Move := mkMove 0 0 NoPieceType.

Definition Move_eqb (a b : Move) : bool :=
  Nat.eqb (FromSquare a) (FromSquare b)
  && Nat.eqb (ToSquare a) (ToSquare b)
  && PieceType_eqb (Promotion a) (Promotion b).

(** [chess.Position].  This repository reads [Board] (ranged over as a
    sequence of pieces) and reads and writes [Turn]; the remaining fields
    (castling rights, en-passant square, clocks) are only passed around
    and are kept as one opaque component [Rest]. *)
Record Position : Set :=
  mkPosition { Board : list Piece; Turn : Color; Rest : nat }.

(** [p.Turn = c] *)
Definition setTurn (p : Position) (c : Color) : Position :=
  mkPosition (Board p) c (Rest p).

(** The functions and constants of package chess used by the agents.
    Every function that takes a [*chess.Position] without this repository
    expecting a change is a pure query; [Position_Move] is the method
    [p.Move(m)], which updates [p] in place. *)
Record RulesEngine : Type := mkRulesEngine {
  GenerateLegalMoves : Position -> list Move;
  GeneratePseudoLegalMoves : Position -> list Move;
  IsCheckMate : Position -> bool;
  IsStaleMate : Position -> bool;
  Position_Move : Position -> Move -> Position;
  PieceAt : Position -> Square -> Piece;
  AllSquares : list Square;
  NoSquare : Square
}.

End chess.

Import chess.

(** ** package alphabeta *)

Module alphabeta.
Local Open Scope Q_scope.
Section WithEngine.

Variable E : RulesEngine.

Definition getPieceValue (p : Piece) : Q :=
  let pawn := 1 in
  let rook := 5 in
  let knight := 29 # 10 in
  let bishop := 3 in
  let queen := 8 in
  let king := 10000 in
  let val :=
    match PType p with
    | Pawn => pawn
    | Rook => rook
    | Knight => knight
    | Bishop => bishop
    | Queen => queen
    | King => king
    | NoPieceType => 0
    end in
  if Color_eqb (PColor p) White then val else - val.

Definition sumMaterial (p : Position) : Q :=
  fold_left (fun totalValue piece => totalValue + getPieceValue piece)
            (Board p) 0.

(** The first square of [chess.AllSquares] holding the king of colour
    [c], [chess.NoSquare] when there is none. *)
Fixpoint findKing_loop (p : Position) (c : Color) (squares : list Square)
  : Square :=
  match squares with
  | [] => NoSquare E
  | square :: rest =>
      let piece := PieceAt E p square in
      if PieceType_eqb (PType piece) King && Color_eqb (PColor piece) c
      then square
      else findKing_loop p c rest
  end.

Definition findKing (p : Position) (c : Color) : Square :=
  findKing_loop p c (AllSquares E).

(** [numPseudoLegalChecks] writes [p.Turn] through its pointer argument;
    the position it leaves behind is the second component. *)
Definition numPseudoLegalChecks (p : Position) : Z * Position :=
  let origTurn := Turn p in
  let total := 0%Z in
  let p := setTurn p White in
  let blackKing := findKing p Black in
  let pLegalMoves := GeneratePseudoLegalMoves E p in
  let total :=
    fold_left (fun total move =>
                 if Nat.eqb (ToSquare move) blackKing
                 then incr64 total else total)
              pLegalMoves total in
  let p := setTurn p Black in
  let whiteKing := findKing p White in
  let pLegalMoves := GeneratePseudoLegalMoves E p in
  let total :=
    fold_left (fun total move =>
                 if Nat.eqb (ToSquare move) whiteKing
                 then decr64 total else total)
              pLegalMoves total in
  let p := setTurn p origTurn in
  (total, p).

(** [evaluate] takes the position by pointer and hands it on to
    [numPseudoLegalChecks]; it returns the score and the position as it
    is left. *)
Definition evaluate (p : Position) : Q * Position :=
  let total := sumMaterial p in
  let '(checks, p) := numPseudoLegalChecks p in
  let total := total + inject_Z checks * (1 # 5) in
  (total, p).

(** *** The depth-0 loops of [min] and [max] *)

Fixpoint min_leaf (p : Position) (alpha : Q) (moves : list Move)
         (lowestScore : Q) (bestMove : Move) : Move * Q :=
  match moves with
  | [] => (bestMove, lowestScore)
  | move :: rest =>
      let newPos := Position_Move E p move in
      let score := fst (evaluate newPos) in
      let '(lowestScore, bestMove) :=
        if Qltb score lowestScore then (score, move)
        else (lowestScore, bestMove) in
      if Qltb lowestScore alpha then (bestMove, lowestScore)
      else min_leaf p alpha rest lowestScore bestMove
  end.

Fixpoint max_leaf (p : Position) (beta : Q) (moves : list Move)
         (highestScore : Q) (bestMove : Move) : Move * Q :=
  match moves with
  | [] => (bestMove, highestScore)
  | move :: rest =>
      let newPos := Position_Move E p move in
      let score := fst (evaluate newPos) in
      let '(highestScore, bestMove) :=
        if Qltb highestScore score then (score, move)
        else (highestScore, bestMove) in
      if Qltb beta highestScore then (bestMove, highestScore)
      else max_leaf p beta rest highestScore bestMove
  end.

(** *** The loops of [min] and [max] at positive depth

    [search'] is [search] at [depth - 1]. *)

Section Loops.
Variable search' : Position -> Q -> Q -> Move * Q.

Fixpoint min_loop (p : Position) (moves : list Move) (alpha beta : Q)
         (lowestScore : Q) (bestMove : Move) : Move * Q :=
  match moves with
  | [] => (bestMove, lowestScore)
  | move :: rest =>
      let newPos := Position_Move E p move in
      if IsCheckMate E newPos then (move, - MaxFloat64)
      else if IsStaleMate E newPos && Qltb 0 lowestScore then
        min_loop p rest alpha beta 0 move
      else
        let score := snd (search' newPos alpha beta) in
        let '(lowestScore, bestMove) :=
          if Qltb score lowestScore then (score, move)
          else (lowestScore, bestMove) in
        if Qltb lowestScore alpha then (bestMove, lowestScore)
        else
          let beta := if Qltb lowestScore beta then lowestScore else beta in
          min_loop p rest alpha beta lowestScore bestMove
  end.

Fixpoint max_loop (p : Position) (moves : list Move) (alpha beta : Q)
         (highestScore : Q) (bestMove : Move) : Move * Q :=
  match moves with
  | [] => (bestMove, highestScore)
  | move :: rest =>
      let newPos := Position_Move E p move in
      if IsCheckMate E newPos then (move, MaxFloat64)
      else if IsStaleMate E newPos && Qltb highestScore 0 then
        max_loop p rest alpha beta 0 move
      else
        let score := snd (search' newPos alpha beta) in
        let '(highestScore, bestMove) :=
          if Qltb highestScore score then (score, move)
          else (highestScore, bestMove) in
        if Qltb beta highestScore then (bestMove, highestScore)
        else
          let alpha :=
            if Qltb alpha highestScore then highestScore else alpha in
          max_loop p rest alpha beta highestScore bestMove
  end.
End Loops.

(** [search], with the bodies of [max] and [min] in place: the three Go
    functions are mutually recursive and [depth] decreases only through
    [search].  [depth] is a natural number: with a negative [Depth] the
    Go code never reaches its [depth == 0] case. *)
Fixpoint search (depth : nat) (p : Position) (alpha beta : Q) : Move * Q :=
  match Turn p with
  | White =>
      match depth with
      | O => max_leaf p beta (GenerateLegalMoves E p) (- MaxFloat64) noMove
      | S d => max_loop (search d) p (GenerateLegalMoves E p) alpha beta
                        (- MaxFloat64) noMove
      end
  | Black =>
      match depth with
      | O => min_leaf p alpha (GenerateLegalMoves E p) MaxFloat64 noMove
      | S d => min_loop (search d) p (GenerateLegalMoves E p) alpha beta
                        MaxFloat64 noMove
      end
  | NoColor => (noMove, 0)
  end.

Definition max (p : Position) (depth : nat) (alpha beta : Q) : Move * Q :=
  match depth with
  | O => max_leaf p beta (GenerateLegalMoves E p) (- MaxFloat64) noMove
  | S d => max_loop (search d) p (GenerateLegalMoves E p) alpha beta
                    (- MaxFloat64) noMove
  end.

Definition min (p : Position) (depth : nat) (alpha beta : Q) : Move * Q :=
  match depth with
  | O => min_leaf p alpha (GenerateLegalMoves E p) MaxFloat64 noMove
  | S d => min_loop (search d) p (GenerateLegalMoves E p) alpha beta
                    MaxFloat64 noMove
  end.

(** [AlphaBeta.GetMove] *)
Definition GetMove (Depth : nat) (p : Position) : Move :=
  fst (search Depth p (- MaxFloat64) MaxFloat64).

End WithEngine.
End alphabeta.

(** ** package minmax

    Two revisions of the package are in the repository.  Their [search],
    [max] and [min] are the same text and differ in [evaluate] only:
    - [minmax/minmax.go]: material plus [calcAttacks] (captures simulated on
      every square);
    - the revision kept beside package alphabeta: material plus
      [0.2 * numPseudoLegalChecks], the very functions of package alphabeta.

    [simulateAttacks] recurses for as long as the rules engine offers a move
    to the square, so it is defined with fuel and [evaluate] may yield
    [None]; the search loops propagate that. *)

Module minmax.
Local Open Scope Q_scope.
Section WithEngine.

Variable E : RulesEngine.

Definition getPieceValue (p : Piece) : Q :=
  let pawn := 1 in
  let rook := 5 in
  let knight := 29 # 10 in
  let bishop := 3 in
  let queen := 8 in
  let king := 10000 in
  let val :=
    match PType p with
    | Pawn => pawn
    | Rook => rook
    | Knight => knight
    | Bishop => bishop
    | Queen => queen
    | King => king
    | NoPieceType => 0
    end in
  if Color_eqb (PColor p) White then val else - val.

Definition sumMaterial (p : Position) : Q :=
  fold_left (fun totalValue piece => totalValue + getPieceValue piece)
            (Board p) 0.

(** The [for] loop of [simulateAttacks]. *)
Fixpoint simulateAttacks_loop (p : Position) (square : Square)
         (legalMoves : list Move) (lowestCost : Q) (lowestCostMove : Move)
  : Q * Move :=
  match legalMoves with
  | [] => (lowestCost, lowestCostMove)
  | move :: rest =>
      if negb (Nat.eqb (ToSquare move) square) then
        simulateAttacks_loop p square rest lowestCost lowestCostMove
      else
        let cost := getPieceValue (PieceAt E p (FromSquare move)) in
        let '(lowestCost, lowestCostMove) :=
          if Color_eqb (Turn p) White && Qltb cost lowestCost
          then (cost, move) else (lowestCost, lowestCostMove) in
        let '(lowestCost, lowestCostMove) :=
          if Color_eqb (Turn p) Black && Qltb lowestCost cost
          then (cost, move) else (lowestCost, lowestCostMove) in
        simulateAttacks_loop p square rest lowestCost lowestCostMove
  end.

(** [simulateAttacks] moves on the position it is given; its only caller
    hands it a private copy, so the score alone is returned. *)
Fixpoint simulateAttacks (fuel : nat) (p : Position) (square : Square)
  : option Q :=
  match fuel with
  | O => None
  | S fuel =>
      let legalMoves := GenerateLegalMoves E p in
      let lowestCost := MaxFloat64 in
      let lowestCost :=
        if Color_eqb (Turn p) Black then lowestCost * (- (1)) else lowestCost in
      let '(lowestCost, lowestCostMove) :=
        simulateAttacks_loop p square legalMoves lowestCost noMove in
      if Move_eqb lowestCostMove noMove then Some 0
      else
        let p := Position_Move E p lowestCostMove in
        match simulateAttacks fuel p square with
        | None => None
        | Some r => Some (r - lowestCost)
        end
  end.

Fixpoint calcAttacks_loop (fuel : nat) (p : Position)
         (squares : list Square) (total : Q) : option Q :=
  match squares with
  | [] => Some total
  | square :: rest =>
      let newPos := p in
      match simulateAttacks fuel newPos square with
      | None => None
      | Some r => calcAttacks_loop fuel p rest (total + r)
      end
  end.

Definition calcAttacks (fuel : nat) (p : Position) : option Q :=
  calcAttacks_loop fuel p (AllSquares E) 0.

(** [evaluate] of [minmax/minmax.go]. *)
Definition evaluate (fuel : nat) (p : Position) : option Q :=
  let total := sumMaterial p in
  match calcAttacks fuel p with
  | None => None
  | Some a => Some (total + a)
  end.

(** [evaluate] of the other revision: the text of [alphabeta.evaluate]. *)
Definition evaluate_threat (p : Position) : option Q :=
  Some (fst (alphabeta.evaluate E p)).

Section Search.
(** The evaluator in force. *)
Variable ev : Position -> option Q.

Fixpoint min_leaf (p : Position) (moves : list Move)
         (lowestScore : Q) (bestMove : Move) : option (Move * Q) :=
  match moves with
  | [] => Some (bestMove, lowestScore)
  | move :: rest =>
      let newPos := Position_Move E p move in
      match ev newPos with
      | None => None
      | Some score =>
          if Qltb score lowestScore then min_leaf p rest score move
          else min_leaf p rest lowestScore bestMove
      end
  end.

Fixpoint max_leaf (p : Position) (moves : list Move)
         (highestScore : Q) (bestMove : Move) : option (Move * Q) :=
  match moves with
  | [] => Some (bestMove, highestScore)
  | move :: rest =>
      let newPos := Position_Move E p move in
      match ev newPos with
      | None => None
      | Some score =>
          if Qltb highestScore score then max_leaf p rest score move
          else max_leaf p rest highestScore bestMove
      end
  end.

Section Loops.
(** [search] at [depth - 1]. *)
Variable search' : Position -> option (Move * Q).

Fixpoint min_loop (p : Position) (moves : list Move)
         (lowestScore : Q) (bestMove : Move) : option (Move * Q) :=
  match moves with
  | [] => Some (bestMove, lowestScore)
  | move :: rest =>
      let newPos := Position_Move E p move in
      if IsCheckMate E newPos then Some (move, - MaxFloat64)
      else if IsStaleMate E newPos && Qltb 0 lowestScore then
        min_loop p rest 0 move
      else
        match search' newPos with
        | None => None
        | Some (_, score) =>
            if Qltb score lowestScore then min_loop p rest score move
            else min_loop p rest lowestScore bestMove
        end
  end.

Fixpoint max_loop (p : Position) (moves : list Move)
         (highestScore : Q) (bestMove : Move) : option (Move * Q) :=
  match moves with
  | [] => Some (bestMove, highestScore)
  | move :: rest =>
      let newPos := Position_Move E p move in
      if IsCheckMate E newPos then Some (move, MaxFloat64)
      else if IsStaleMate E newPos && Qltb highestScore 0 then
        max_loop p rest 0 move
      else
        match search' newPos with
        | None => None
        | Some (_, score) =>
            if Qltb highestScore score then max_loop p rest score move
            else max_loop p rest highestScore bestMove
        end
  end.
End Loops.

(** [search] with the bodies of [max] and [min] in place, as in
    package alphabeta. *)
Fixpoint search (depth : nat) (p : Position) : option (Move * Q) :=
  match Turn p with
  | White =>
      match depth with
      | O => max_leaf p (GenerateLegalMoves E p) (- MaxFloat64) noMove
      | S d => max_loop (search d) p (GenerateLegalMoves E p)
                        (- MaxFloat64) noMove
      end
  | Black =>
      match depth with
      | O => min_leaf p (GenerateLegalMoves E p) MaxFloat64 noMove
      | S d => min_loop (search d) p (GenerateLegalMoves E p)
                        MaxFloat64 noMove
      end
  | NoColor => Some (noMove, 0)
  end.

Definition max (p : Position) (depth : nat) : option (Move * Q) :=
  match depth with
  | O => max_leaf p (GenerateLegalMoves E p) (- MaxFloat64) noMove
  | S d => max_loop (search d) p (GenerateLegalMoves E p)
                    (- MaxFloat64) noMove
  end.

Definition min (p : Position) (depth : nat) : option (Move * Q) :=
  match depth with
  | O => min_leaf p (GenerateLegalMoves E p) MaxFloat64 noMove
  | S d => min_loop (search d) p (GenerateLegalMoves E p)
                    MaxFloat64 noMove
  end.

(** [Minmax.GetMove] *)
Definition GetMove (Depth : nat) (p : Position) : option Move :=
  match search Depth p with
  | None => None
  | Some (move, _) => Some move
  end.
End Search.

End WithEngine.
End minmax.

(** ** package mcts: what the two revisions share

    [node], [fillInChildren], [calcUCB], [selectNode], [iterate] and
    [bestMove] are the same text in the parallel-root and in the single-tree
    revision.  The tree is owned top-down and never shared, so a [*node] is
    modelled by the node value and an update in place by the updated value.

    - [math/rand/v2] is modelled by [Rand], an arbitrary sequence of draws
      with a cursor; [IntN] reduces a draw into [[0, k)].
    - [math.Sqrt] and [math.Log] are parameters; [/] on float64 is exact
      rational division (which yields 0 for a zero divisor, where Go yields
      an infinity or NaN: [calcUCB] is reached only when every child has
      been visited).
    - A run-time panic (indexing an empty [children]) is [None]. *)

Module mcts_core.
Local Open Scope Q_scope.

(** [float64(math.Sqrt2)] *)
Definition c : Q := 6369051672525773 # 4503599627370496.

Definition iterationsBetweenTimeChecks : nat := 100.

Local Unset Elimination Schemes.
Inductive node : Type :=
  Node { w : Q; n : Z; mov : Move; pos : Position; children : list node }.
Local Set Elimination Schemes.

Record Rand : Type := mkRand { draws : nat -> nat; cursor : nat }.

(** [rand.IntN(k)] *)
Definition IntN (g : Rand) (k : nat) : nat * Rand :=
  (Nat.modulo (draws g (cursor g)) k, mkRand (draws g) (S (cursor g))).

(** [selectedNode.n++; selectedNode.w += result] *)
Definition backpropagate (selectedNode : node) (result : Q) : node :=
  Node (w selectedNode + result) (incr64 (n selectedNode))
       (mov selectedNode) (pos selectedNode) (children selectedNode).

(** [l] with its [i]-th element replaced by [x]. *)
Fixpoint replace_nth {A : Type} (i : nat) (x : A) (l : list A) : list A :=
  match l, i with
  | [], _ => []
  | _ :: l', O => x :: l'
  | y :: l', S i' => y :: replace_nth i' x l'
  end.

(** [k] rounds of a loop whose body is [step]; a panic ends the run. *)
Fixpoint repeat_step {A : Type} (step : A -> option A) (k : nat) (st : A)
  : option A :=
  match k with
  | O => Some st
  | S k =>
      match step st with
      | None => None
      | Some st' => repeat_step step k st'
      end
  end.

Section WithEngine.

Variable E : RulesEngine.
Variables Sqrt Log : Q -> Q.

Definition fillInChildren (t : node) : node :=
  let legalMoves := GenerateLegalMoves E (pos t) in
  let new :=
    map (fun move =>
           let newPos := Position_Move E (pos t) move in
           Node 0 0 move newPos [])
        legalMoves in
  Node (w t) (n t) (mov t) (pos t) (children t ++ new).

(** [mctsn] is the receiver's field [mcts.n]. *)
Definition calcUCB (mctsn : Z) (t : node) : Q :=
  w t / inject_Z (n t) + c * Sqrt (Log (inject_Z mctsn) / inject_Z (n t)).

(** First loop of [selectNode]: index of the first child with [n == 0]. *)
Fixpoint firstUnvisited (cs : list node) (i : nat) : option nat :=
  match cs with
  | [] => None
  | child :: rest =>
      if (n child =? 0)%Z then Some i else firstUnvisited rest (S i)
  end.

(** Second loop of [selectNode]. *)
Fixpoint maxUCB_loop (mctsn : Z) (cs : list node) (i : nat)
         (maxUCB : Q) (bestChild : nat) : nat :=
  match cs with
  | [] => bestChild
  | child :: rest =>
      let ucb := calcUCB mctsn child in
      if Qltb maxUCB ucb then maxUCB_loop mctsn rest (S i) ucb i
      else maxUCB_loop mctsn rest (S i) maxUCB bestChild
  end.

(** [selectNode] returns a pointer into [n.children]; the model returns
    the index of that child. *)
Definition selectNode (mctsn : Z) (cs : list node) : option nat :=
  match firstUnvisited cs 0 with
  | Some i => Some i
  | None =>
      match cs with
      | [] => None
      | _ :: _ => Some (maxUCB_loop mctsn cs 0 (- MaxFloat64) 0%nat)
      end
  end.

(** The selected child is reached by walking down the child list: [visit
    f l k] applies [f] to the [k]-th node of [l] and puts the node that
    [f] returns, back-propagated, in its place. *)
Section Visit.
Variable f : node -> option (Q * node * Rand).

Fixpoint visit (l : list node) (k : nat) {struct l}
  : option (Q * list node * Rand) :=
  match l with
  | [] => None
  | selectedNode :: l' =>
      match k with
      | O =>
          match f selectedNode with
          | None => None
          | Some (result, selectedNode', g') =>
              Some (result, backpropagate selectedNode' result :: l', g')
          end
      | S k' =>
          match visit l' k' with
          | None => None
          | Some (result, l'', g') => Some (result, selectedNode :: l'', g')
          end
      end
  end.
End Visit.

Section Iterate.
Variable randomRollout : Position -> Color -> Rand -> Q * Rand.

(** [iterate], by recursion on the tree.  A node without children is
    expanded first; its children are then all new, so the one selected
    has [n == 0] and the rollout branch is the one taken.
    [iterate_unfold] (among the properties) shows that [iterate] satisfies
    [iterate_body], which has the shape of the Go text, at every node. *)
Fixpoint iterate (mctsn : Z) (agentColor : Color) (t : node) (g : Rand)
  {struct t} : option (Q * node * Rand) :=
  match t with
  | Node w0 n0 mov0 pos0 cs =>
      if IsCheckMate E pos0 && negb (Color_eqb (Turn pos0) agentColor)
      then Some (1, Node (w0 + 1) (incr64 n0) mov0 pos0 cs, g)
      else if IsStaleMate E pos0 || IsCheckMate E pos0
      then Some (0, Node w0 (incr64 n0) mov0 pos0 cs, g)
      else
        match cs with
        | [] =>
            let cs' := children (fillInChildren t) in
            match selectNode mctsn cs' with
            | None => None
            | Some i =>
                match nth_error cs' i with
                | None => None
                | Some selectedNode =>
                    let '(result, g') := randomRollout pos0 agentColor g in
                    Some (result,
                          Node w0 n0 mov0 pos0
                               (replace_nth i
                                  (backpropagate selectedNode result) cs'),
                          g')
                end
            end
        | _ :: _ =>
            match selectNode mctsn cs with
            | None => None
            | Some i =>
                match
                  visit (fun selectedNode =>
                           if (n selectedNode =? 0)%Z
                           then
                             let '(result, g') :=
                               randomRollout pos0 agentColor g in
                             Some (result, selectedNode, g')
                           else iterate mctsn agentColor selectedNode g)
                        cs i
                with
                | None => None
                | Some (result, cs', g') =>
                    Some (result, Node w0 n0 mov0 pos0 cs', g')
                end
            end
        end
  end.

(** The body of the Go function [iterate], [self] standing for the
    recursive call. *)
Definition iterate_body
           (self : Z -> Color -> node -> Rand -> option (Q * node * Rand))
           (mctsn : Z) (agentColor : Color) (t : node) (g : Rand)
  : option (Q * node * Rand) :=
  if IsCheckMate E (pos t) && negb (Color_eqb (Turn (pos t)) agentColor)
  then Some (1, Node (w t + 1) (incr64 (n t)) (mov t) (pos t) (children t), g)
  else if IsStaleMate E (pos t) || IsCheckMate E (pos t)
  then Some (0, Node (w t) (incr64 (n t)) (mov t) (pos t) (children t), g)
  else
    let t :=
      if Nat.eqb (List.length (children t)) 0 then fillInChildren t else t in
    match selectNode mctsn (children t) with
    | None => None
    | Some i =>
        match nth_error (children t) i with
        | None => None
        | Some selectedNode =>
            match
              (if (n selectedNode =? 0)%Z
               then
                 let '(result, g') := randomRollout (pos t) agentColor g in
                 Some (result, selectedNode, g')
               else self mctsn agentColor selectedNode g)
            with
            | None => None
            | Some (result, selectedNode', g') =>
                Some (result,
                      Node (w t) (n t) (mov t) (pos t)
                           (replace_nth i
                              (backpropagate selectedNode' result)
                              (children t)),
                      g')
            end
        end
    end.
End Iterate.

Fixpoint bestMove_loop (cs : list node) (bestMove : Move)
         (bestMoveScore : Q) : Move :=
  match cs with
  | [] => bestMove
  | child :: rest =>
      let score := w child / inject_Z (n child) in
      if Qltb bestMoveScore score then bestMove_loop rest (mov child) score
      else bestMove_loop rest bestMove bestMoveScore
  end.

Definition bestMove (t : node) : option Move :=
  match children t with
  | [] => None
  | first :: _ =>
      Some (bestMove_loop (children t) (mov first) (- MaxFloat64))
  end.

End WithEngine.
End mcts_core.

(** ** package mcts, parallel-root revision

    One goroutine per child of the root runs [concurrentIterate] on that
    child's subtree.  The goroutines share no node and no position, so each
    is modelled as a sequential run on its own subtree.  The wall-clock
    loop condition is modelled by the number of times it held ([batches]);
    each goroutine consumes its own sequence of random draws. *)

Module mcts_parallel.
Import mcts_core.
Local Open Scope Q_scope.

Definition randomRolloutLength : nat := 20.

Section WithEngine.

Variable E : RulesEngine.
Variables Sqrt Log : Q -> Q.

(** The loop of [makeParentNode].  It copies [p] into [newPos] and then
    moves on [p] itself, the variable the parent node points to. *)
Fixpoint makeParentNode_loop (p : Position) (legalMoves : list Move)
         (children : list node) : Position * list node :=
  match legalMoves with
  | [] => (p, children)
  | move :: rest =>
      let newPos := p in
      let p := Position_Move E p move in
      makeParentNode_loop p rest (children ++ [Node 0 0 move newPos []])
  end.

Definition makeParentNode (p : Position) : node :=
  let legalMoves := GenerateLegalMoves E p in
  let '(p, children) := makeParentNode_loop p legalMoves [] in
  Node 0 0 noMove p children.

Definition getPositionValue (p : Position) : Q :=
  let pawn := 1 in
  let rook := 5 in
  let knight := 29 # 10 in
  let bishop := 3 in
  let queen := 8 in
  let king := 10000 in
  fold_left
    (fun totalValue piece =>
       let val :=
         match PType piece with
         | Pawn => pawn
         | Rook => rook
         | Knight => knight
         | Bishop => bishop
         | Queen => queen
         | King => king
         | NoPieceType => 0
         end in
       if Color_eqb (PColor piece) White then totalValue + val
       else if Color_eqb (PColor piece) Black then totalValue - val
       else totalValue)
    (Board p) 0.

Definition determineReward (p : Position) (agentColor : Color) : Q :=
  let limitForWin := 8 in
  let positionValue := getPositionValue p in
  match agentColor with
  | White =>
      if Qltb limitForWin positionValue then 1
      else if Qltb positionValue (- limitForWin) then 0
      else 1 # 2
  | Black =>
      if Qltb limitForWin positionValue then 0
      else if Qltb positionValue (- limitForWin) then 1
      else 1 # 2
  | NoColor => 1 # 2
  end.

(** The loop of [randomRollout] with [i] rounds to go. *)
Fixpoint randomRollout_loop (i : nat) (p : Position) (agentColor : Color)
         (g : Rand) : Q * Rand :=
  match i with
  | O => (determineReward p agentColor, g)
  | S i =>
      if IsCheckMate E p && negb (Color_eqb (Turn p) agentColor) then (1, g)
      else if IsCheckMate E p && Color_eqb (Turn p) agentColor then (0, g)
      else
        let legalMoves := GenerateLegalMoves E p in
        if Nat.eqb (List.length legalMoves) 0 then (1 # 2, g)
        else
          let '(k, g) := IntN g (List.length legalMoves) in
          let move := nth k legalMoves noMove in
          let p := Position_Move E p move in
          randomRollout_loop i p agentColor g
  end.

Definition randomRollout (p : Position) (agentColor : Color) (g : Rand)
  : Q * Rand :=
  randomRollout_loop randomRolloutLength p agentColor g.

Definition iterate := mcts_core.iterate E Sqrt Log randomRollout.

(** Go leaves open whether the operand [n.w] of
    [n.w += mcts.iterate(n, agentColor)] is read before or after the call
    (which may itself add to [n.w]); [readFirst] selects the order. *)
Variable readFirst : bool.

(** One round of the inner loop of [concurrentIterate]:
    [n.w += mcts.iterate(n, agentColor); n.n++; mcts.n++]. *)
Definition concurrentIterate_step (agentColor : Color)
           (st : Z * node * Rand) : option (Z * node * Rand) :=
  let '(mctsn, t, g) := st in
  match iterate mctsn agentColor t g with
  | None => None
  | Some (result, t', g') =>
      let w' := (if readFirst then w t else w t') + result in
      Some (incr64 mctsn,
            Node w' (incr64 (n t')) (mov t') (pos t') (children t'),
            g')
  end.

(** [concurrentIterate] with the clock admitting [batches] rounds of the
    outer loop; the receiver is the fresh [Mcts{Duration: ...}], whose
    [n] is 0. *)
Definition concurrentIterate (batches : nat) (t : node)
           (agentColor : Color) (g : Rand) : option (Z * node * Rand) :=
  repeat_step
    (repeat_step (concurrentIterate_step agentColor)
                 iterationsBetweenTimeChecks)
    batches (0%Z, t, g).

(** The goroutines of [GetMove], child by child. *)
Fixpoint runChildren (batches : nat -> nat) (rands : nat -> Rand)
         (agentColor : Color) (i : nat) (cs : list node)
  : option (list node) :=
  match cs with
  | [] => Some []
  | child :: rest =>
      match concurrentIterate (batches i) child agentColor (rands i) with
      | None => None
      | Some (_, child', _) =>
          match runChildren batches rands agentColor (S i) rest with
          | None => None
          | Some rest' => Some (child' :: rest')
          end
      end
  end.

Definition totalIterations (cs : list node) : Z :=
  fold_left (fun total child => wrap64 (total + n child)) cs 0%Z.

(** [Mcts.GetMove] of the parallel-root revision. *)
Definition GetMove (batches : nat -> nat) (rands : nat -> Rand)
           (p : Position) : option Move :=
  let parentNode := makeParentNode p in
  match runChildren batches rands (Turn p) 0 (children parentNode) with
  | None => None
  | Some cs =>
      bestMove (Node (w parentNode) (n parentNode) (mov parentNode)
                     (pos parentNode) cs)
  end.

End WithEngine.
End mcts_parallel.

(** ** package mcts, single-tree revision *)

Module mcts_single.
Import mcts_core.
Local Open Scope Q_scope.

Definition randomRolloutLength : nat := 50.

Section WithEngine.

Variable E : RulesEngine.
Variables Sqrt Log : Q -> Q.

Fixpoint randomRollout_loop (i : nat) (p : Position) (agentColor : Color)
         (g : Rand) : Q * Rand :=
  match i with
  | O => (1 # 2, g)
  | S i =>
      if IsCheckMate E p && negb (Color_eqb (Turn p) agentColor) then (1, g)
      else if IsCheckMate E p && Color_eqb (Turn p) agentColor then (0, g)
      else
        let legalMoves := GenerateLegalMoves E p in
        if Nat.eqb (List.length legalMoves) 0 then (1 # 2, g)
        else
          let '(k, g) := IntN g (List.length legalMoves) in
          let move := nth k legalMoves noMove in
          let p := Position_Move E p move in
          randomRollout_loop i p agentColor g
  end.

Definition randomRollout (p : Position) (agentColor : Color) (g : Rand)
  : Q * Rand :=
  randomRollout_loop randomRolloutLength p agentColor g.

Definition iterate := mcts_core.iterate E Sqrt Log randomRollout.

(** One round of the inner loop of [GetMove]:
    [mcts.iterate(parentNode, p.Turn); mcts.n++]. *)
Definition GetMove_step (agentColor : Color) (st : Z * node * Rand)
  : option (Z * node * Rand) :=
  let '(mctsn, parentNode, g) := st in
  match iterate mctsn agentColor parentNode g with
  | None => None
  | Some (_, parentNode', g') => Some (incr64 mctsn, parentNode', g')
  end.

(** The tree after the iteration loop of [GetMove], the clock admitting
    [batches] rounds of the outer loop; the receiver's [n] starts at 0. *)
Definition GetMove_loop (batches : nat) (p : Position) (g : Rand)
  : option (Z * node * Rand) :=
  let parentNode := Node 0 0 noMove p [] in
  repeat_step
    (repeat_step (GetMove_step (Turn p)) iterationsBetweenTimeChecks)
    batches (0%Z, parentNode, g).

(** [Mcts.GetMove] of the single-tree revision. *)
Definition GetMove (batches : nat) (p : Position) (g : Rand)
  : option Move :=
  match GetMove_loop batches p g with
  | None => None
  | Some (_, parentNode, _) => bestMove parentNode
  end.

End WithEngine.
End mcts_single.

(** ** package main: the harness

    [chess.Game] and its methods belong to the rules engine and are the
    fields of [GameEngine].  Standard input is the list of lines still to
    be read.  [os.Exit(code)] ends the run; the model returns the call site
    reached together with its code.  The game loop may run for ever, so it
    takes fuel (the number of rounds) and yields [None] when the fuel is
    used up with the game still on.  [flag.Parse] is outside the
    repository: [parseArgs] starts from the parsed flag values, which are
    ASCII strings. *)

Module main.
Local Open Scope string_scope.

(** The [os.Exit] call sites of [main.go]. *)
Inductive ExitSite : Set :=
| HelpPrinted            (* parseArgs, after flag.PrintDefaults *)
| BadPlayer1             (* parseArgs, "could not parse -p1 argument" *)
| BadPlayer2             (* parseArgs, "could not parse -p2 argument" *)
| BadTurn                (* main, "game.Turn() is not black or white" *)
| InvalidMove            (* main, "agent provided invalid move" *)
| CheckmateEnded         (* main, after "White Wins!" / "Black Wins!" *)
| DrawClaimed            (* main, "The Game has been automatically Drawn" *)
| NoReason               (* main, "the program ended without checkmate or draw" *)
| InGetMove.             (* inside an agent's GetMove *)

Definition Exit : Set := (ExitSite * Z)%type.

Definition Stdin : Set := list string.

(** What a call of [GetMove] comes to: a move, or the end of the run by
    [os.Exit(code)] inside the agent. *)
Inductive AgentResult : Set :=
| Return (move : Move)
| OsExit (code : Z).

(** [interface { GetMove(chess.Position) chess.Move }].  A value of the
    interface is the method it carries. *)
Definition ChessAgent : Type := Position -> Stdin -> AgentResult * Stdin.

Record GameEngine : Type := mkGameEngine {
  Game : Type;
  NewGame : Game;
  Game_IsCheckMate : Game -> bool;
  Game_CanClaimDraw : Game -> bool;
  Game_Turn : Game -> Color;
  Game_Position : Game -> Position;
(** [game.Move(move)]: [None] is a non-nil error. *)
Game_Move : Game -> Move -> option Game
}.

Record Flags : Set := mkFlags {
  help : bool;
  player1 : string;
  player2 : string;
  player1Option : Z;
  player2Option : Z;
  logLevel : string
}.

Definition toLowerAscii (a : ascii) : ascii :=
  let k := nat_of_ascii a in
  if (Nat.leb 65 k && Nat.leb k 90)%bool then ascii_of_nat (k + 32) else a.

(** [strings.ToLower] on ASCII. *)
Fixpoint ToLower (s : string) : string :=
  match s with
  | EmptyString => EmptyString
  | String a s' => String (toLowerAscii a) (ToLower s')
  end.

Section WithEngine.

Variable E : RulesEngine.
Variable G : GameEngine.

(** [chess.ParseUCIMove]; [None] is a non-nil error. *)
Variable ParseUCIMove : string -> option Move.

(** The agents of the packages above as interface values, by their
    configuration ([Duration] or [Depth]). *)
Variables Mcts Minmax AlphaBeta : Z -> ChessAgent.

(** The scanner loop of [Human.GetMove]. *)
Fixpoint Human_scan (legalMoves : list Move) (stdin : Stdin)
  : AgentResult * Stdin :=
  match stdin with
  | [] => (OsExit 1%Z, [])
  | input :: rest =>
      match ParseUCIMove input with
      | None => Human_scan legalMoves rest
      | Some move =>
          if existsb (Move_eqb move) legalMoves then (Return move, rest)
          else Human_scan legalMoves rest
      end
  end.

Definition Human : ChessAgent :=
  fun p stdin =>
    let legalMoves := GenerateLegalMoves E p in
    Human_scan legalMoves stdin.

(** One of the two [switch strings.ToLower(...)] blocks of [parseArgs];
    [None] is its [default] case. *)
Definition parseAgent (player : string) (playerOption : Z)
  : option ChessAgent :=
  let name := ToLower player in
  if String.eqb name "human" then Some Human
  else if String.eqb name "mcts" then Some (Mcts playerOption)
  else if String.eqb name "minmax" then Some (Minmax playerOption)
  else if String.eqb name "ab" then Some (AlphaBeta playerOption)
  else None.

(** [parseArgs]; the log level only configures [slog]. *)
Definition parseArgs (f : Flags) : Exit + ChessAgent * ChessAgent :=
  if help f then inl (HelpPrinted, 0%Z)
  else
    match parseAgent (player1 f) (player1Option f) with
    | None => inl (BadPlayer1, 1%Z)
    | Some agent0 =>
        match parseAgent (player2 f) (player2Option f) with
        | None => inl (BadPlayer2, 1%Z)
        | Some agent1 => inr (agent0, agent1)
        end
    end.

(** What follows the game loop in [main]. *)
Definition afterLoop (game : Game G) : Exit :=
  if Game_IsCheckMate G game then (CheckmateEnded, 0%Z)
  else if Game_CanClaimDraw G game then (DrawClaimed, 1%Z)
  else (NoReason, 1%Z).

(** The game loop of [main] followed by [afterLoop]. *)
Fixpoint play (fuel : nat) (agents : ChessAgent * ChessAgent)
         (game : Game G) (stdin : Stdin) : option Exit :=
  if negb (Game_IsCheckMate G game) && negb (Game_CanClaimDraw G game)
  then
    match fuel with
    | O => None
    | S fuel =>
        let got :=
          match Game_Turn G game with
          | White => Some (fst agents (Game_Position G game) stdin)
          | Black => Some (snd agents (Game_Position G game) stdin)
          | NoColor => None
          end in
        match got with
        | None => Some (BadTurn, 1%Z)
        | Some (OsExit code, _) => Some (InGetMove, code)
        | Some (Return move, stdin) =>
            match Game_Move G game move with
            | None => Some (InvalidMove, 1%Z)
            | Some game => play fuel agents game stdin
            end
        end
    end
  else Some (afterLoop game).

Definition main (fuel : nat) (f : Flags) (stdin : Stdin) : option Exit :=
  match parseArgs f with
  | inl e => Some e
  | inr agents => play fuel agents (NewGame G) stdin
  end.

End WithEngine.
End main.

(** ** Rules engines given by a table

    A finite game as an instance of [RulesEngine]: the position with
    [Rest = k] is the [k]-th entry of a table, which lists its board, the
    side to move, its legal moves in generation order with the entry each
    leads to, and whether it is checkmate.  A position is stalemate when it
    has no legal move and is not checkmate.  Squares are numbered a1 = 0,
    b1 = 1, ..., h8 = 63. *)

Module table.

Record Entry : Set := mkEntry {
  board : list Piece;
  turn : Color;
  moves : list (Move * nat);
  checkmate : bool
}.

Definition empty : Piece := mkPiece NoPieceType NoColor.

Definition noEntry : Entry := mkEntry [] NoColor [] false.

Definition entry (t : list Entry) (k : nat) : Entry := nth k t noEntry.

Definition position (t : list Entry) (k : nat) : Position :=
  mkPosition (board (entry t k)) (turn (entry t k)) k.

Fixpoint target (m : Move) (l : list (Move * nat)) : option nat :=
  match l with
  | [] => None
  | (m', k) :: l' => if Move_eqb m m' then Some k else target m l'
  end.

Definition engine (t : list Entry) : RulesEngine :=
  {| GenerateLegalMoves := fun p => map fst (moves (entry t (Rest p)));
     GeneratePseudoLegalMoves := fun _ => [];
     IsCheckMate := fun p => checkmate (entry t (Rest p));
     IsStaleMate := fun p =>
       match moves (entry t (Rest p)) with
       | [] => negb (checkmate (entry t (Rest p)))
       | _ :: _ => false
       end;
     Position_Move := fun p m =>
       match target m (moves (entry t (Rest p))) with
       | Some k => position t k
       | None => p
       end;
     PieceAt := fun p sq => nth sq (Board p) empty;
     AllSquares := seq 0 64;
     NoSquare := 64 |}.

(** A board from the pieces on it. *)
Fixpoint setup (pieces : list (Square * Piece)) : list Piece :=
  match pieces with
  | [] => repeat empty 64
  | (sq, pc) :: rest => mcts_core.replace_nth sq pc (setup rest)
  end.

Definition wK := mkPiece King White.
Definition wQ := mkPiece Queen White.
Definition wR := mkPiece Rook White.
Definition wB := mkPiece Bishop White.
Definition wP := mkPiece Pawn White.
Definition bK := mkPiece King Black.
Definition bQ := mkPiece Queen Black.
Definition bR := mkPiece Rook Black.
Definition bP := mkPiece Pawn Black.

Definition mv (from to : Square) : Move := mkMove from to NoPieceType.

(** *** A game in which a stalemating move follows a pruned sibling

    Entry 0 (White to move) has two moves.  The first leads through
    forced replies (entries 1, 3, 4) to entry 5, where White is a bishop
    up.  The second leads through a forced reply (entry 2) to entry 6,
    where White chooses between entry 7 and the stalemate entry 8; from
    entry 7 Black reaches entry 9 (White a pawn up) or entry 10 (Black a
    rook up), in this order. *)
Definition kings : list (Square * Piece) := [(4, wK); (60, bK)].

Definition stalemateGame : list Entry :=
  [ (* 0 *) mkEntry (setup kings) White [(mv 4 3, 1); (mv 4 5, 2)] false;
    (* 1 *) mkEntry (setup kings) Black [(mv 60 59, 3)] false;
    (* 2 *) mkEntry (setup kings) Black [(mv 60 61, 6)] false;
    (* 3 *) mkEntry (setup kings) White [(mv 3 2, 4)] false;
    (* 4 *) mkEntry (setup kings) Black [(mv 59 58, 5)] false;
    (* 5 *) mkEntry (setup ((10, wB) :: kings)) White [] false;
    (* 6 *) mkEntry (setup kings) White [(mv 5 6, 7); (mv 5 14, 8)] false;
    (* 7 *) mkEntry (setup kings) Black [(mv 61 62, 9); (mv 61 53, 10)] false;
    (* 8 *) mkEntry (setup kings) Black [] false;
    (* 9 *) mkEntry (setup ((8, wP) :: kings)) White [] false;
    (* 10 *) mkEntry (setup ((48, bR) :: kings)) White [] false ].

(** *** Kg1 against Kg3 and Qh2, White to move

    Entry 0 is the position 8/8/8/8/8/6k1/7q/6K1 w: White is in check and
    Kf1 is the only legal move.  In entry 1 Black has, among others, the
    quiet Qh8 (entry 2, where White answers Ke1, entry 3) and the mating
    Qf2 (entry 4). *)
Definition forcedMateGame : list Entry :=
  [ (* 0 *) mkEntry (setup [(6, wK); (22, bK); (15, bQ)]) White
                    [(mv 6 5, 1)] false;
    (* 1 *) mkEntry (setup [(5, wK); (22, bK); (15, bQ)]) Black
                    [(mv 15 63, 2); (mv 15 13, 4)] false;
    (* 2 *) mkEntry (setup [(5, wK); (22, bK); (63, bQ)]) White
                    [(mv 5 4, 3)] false;
    (* 3 *) mkEntry (setup [(4, wK); (22, bK); (63, bQ)]) Black [] false;
    (* 4 *) mkEntry (setup [(5, wK); (22, bK); (13, bQ)]) White [] true ].

(** *** A position whose only legal move mates

    Entry 0 is 4R3/8/8/8/8/8/3R2PP/1k2r2K w: White is in check from the
    rook on e1 and Rxe1 is the only legal move; it is checkmate
    (entry 1). *)
Definition mateInOneGame : list Entry :=
  [ (* 0 *) mkEntry (setup [(7, wK); (60, wR); (11, wR); (14, wP); (15, wP);
                            (1, bK); (4, bR)]) White
                    [(mv 60 4, 1)] false;
    (* 1 *) mkEntry (setup [(7, wK); (4, wR); (11, wR); (14, wP); (15, wP);
                            (1, bK)]) Black [] true ].

(** *** King and queen against king, the kings shuffling

    White is exactly a queen up in both entries; each side has one move,
    which leads to the other entry. *)
Definition queenUpGame : list Entry :=
  [ (* 0 *) mkEntry (setup [(4, wK); (3, wQ); (60, bK)]) White
                    [(mv 4 5, 1)] false;
    (* 1 *) mkEntry (setup [(4, wK); (3, wQ); (60, bK)]) Black
                    [(mv 60 61, 0)] false ].

(** The random source whose every draw is 0. *)
Definition zeros : mcts_core.Rand := mcts_core.mkRand (fun _ => 0) 0.

End table.

(** ** King against king

    The rules of chess for the positions in which the two kings are alone
    on the board, as an instance of [RulesEngine]: the king of the side to
    move steps to a neighbouring square; the step is legal when it does
    not end next to the other king.  A lone king is never in check, so no
    position is checkmate.  Moves are generated by target square,
    ascending; the scores stated below for this engine do not depend on
    the order.  Squares are numbered as for the tables. *)

Module bareKings.

Definition file (sq : Square) : nat := Nat.modulo sq 8.
Definition rank (sq : Square) : nat := Nat.div sq 8.

(** Distinct squares of the board that touch. *)
Definition adjacent (a b : Square) : bool :=
  Nat.ltb a 64 && Nat.ltb b 64 && negb (Nat.eqb a b)
  && Nat.leb (file a - file b + (file b - file a)) 1
  && Nat.leb (rank a - rank b + (rank b - rank a)) 1.

Definition isKing (c : Color) (pc : Piece) : bool :=
  PieceType_eqb (PType pc) King && Color_eqb (PColor pc) c.

(** The square of the king of colour [c] on a board whose first square is
    [sq]; 64 if there is none. *)
Fixpoint kingSquare (c : Color) (board : list Piece) (sq : Square) : Square :=
  match board with
  | [] => 64
  | pc :: rest => if isKing c pc then sq else kingSquare c rest (S sq)
  end.

Definition other (c : Color) : Color :=
  match c with
  | White => Black
  | Black => White
  | NoColor => NoColor
  end.

(** The steps of the king of the side to move.  With [safe], the legal
    ones; without, the pseudo-legal ones, which may end next to the other
    king or on its square. *)
Definition steps (safe : bool) (p : Position) : list Move :=
  let from := kingSquare (Turn p) (Board p) 0 in
  let enemy := kingSquare (other (Turn p)) (Board p) 0 in
  map (table.mv from)
      (filter (fun to =>
                 adjacent from to
                 && negb (safe && (Nat.eqb to enemy || adjacent to enemy)))
              (seq 0 64)).

(** The piece on the move's first square is put on its second, and the
    turn passes. *)
Definition move (p : Position) (m : Move) : Position :=
  let piece := nth (FromSquare m) (Board p) table.empty in
  mkPosition
    (mcts_core.replace_nth (ToSquare m) piece
       (mcts_core.replace_nth (FromSquare m) table.empty (Board p)))
    (other (Turn p)) (Rest p).

Definition engine : RulesEngine :=
  {| GenerateLegalMoves := steps true;
     GeneratePseudoLegalMoves := steps false;
     IsCheckMate := fun _ => false;
     IsStaleMate := fun p => Nat.eqb (List.length (steps true p)) 0;
     Position_Move := move;
     PieceAt := fun p sq => nth sq (Board p) table.empty;
     AllSquares := seq 0 64;
     NoSquare := 64 |}.


End bareKings.

(** ** Games for the harness *)

Module games.
Import main.

(** A game that can be claimed drawn from the start. *)
Definition drawn : GameEngine :=
  {| Game := unit;
     NewGame := tt;
     Game_IsCheckMate := fun _ => false;
     Game_CanClaimDraw := fun _ => true;
     Game_Turn := fun _ => White;
     Game_Position := fun _ => mkPosition [] White 0;
     Game_Move := fun g _ => Some g |}.

(** A game of three states: in state 0 White is to move and only the move
    to a1 is accepted, which mates (state 1); state 2 is never reached. *)
Definition oneMove : GameEngine :=
  {| Game := nat;
     NewGame := 0;
     Game_IsCheckMate := fun g => Nat.eqb g 1;
     Game_CanClaimDraw := fun _ => false;
     Game_Turn := fun g => if Nat.eqb g 0 then White else Black;
     Game_Position := fun g => mkPosition [] White g;
     Game_Move := fun g m =>
       if Nat.eqb g 0 && Nat.eqb (ToSquare m) 0 then Some 1 else None |}.

(** An agent that always answers with the move [m]. *)
Definition always (m : Move) : ChessAgent := fun _ stdin => (Return m, stdin).

Definition noParse : string -> option Move := fun _ => None.

Definition flags (p1 p2 : string) : Flags :=
  mkFlags false p1 p2 2 2 "ERROR".

End games.

(** ** Vocabulary of the properties *)

(** The values a rollout may return. *)
Definition isReward (q : Q) : Prop := q = 0%Q \/ q = (1 # 2)%Q \/ q = 1%Q.

(** [playedOut E i p g] is the position reached when the loop of
    [randomRollout] runs all of its [i] rounds from [p], that is when no
    round meets a checkmate or a position without legal moves; it is
    [None] when some round returns early. *)
Fixpoint playedOut (E : RulesEngine) (i : nat) (p : Position)
         (g : mcts_core.Rand) : option Position :=
  match i with
  | O => Some p
  | S i =>
      if IsCheckMate E p then None
      else
        let legalMoves := GenerateLegalMoves E p in
        if Nat.eqb (List.length legalMoves) 0 then None
        else
          let '(k, g) := mcts_core.IntN g (List.length legalMoves) in
          playedOut E i (Position_Move E p (nth k legalMoves noMove)) g
  end.

(** The material fallback in the words of the specification: decisive as
    soon as the magnitude of the material difference is at least 8. *)
Definition rewardAtCap_spec (positionValue : Q) (agentColor : Color) : Q :=
  let favour :=
    match agentColor with
    | Black => (- positionValue)%Q
    | _ => positionValue
    end in
  if Qle_bool 8 favour then 1%Q
  else if Qle_bool 8 (- favour) then 0%Q
  else (1 # 2)%Q.

(** The three ways a run of the harness may end that the specification
    tells apart by exit code. *)
Inductive Outcome : Set := ByCheckmate | ByDraw | ByFailure.

Definition outcome (s : main.ExitSite) : option Outcome :=
  match s with
  | main.CheckmateEnded => Some ByCheckmate
  | main.DrawClaimed => Some ByDraw
  | main.InvalidMove | main.BadPlayer1 | main.BadPlayer2 => Some ByFailure
  | _ => None
  end.

(** Induction on search trees: a property holds of every node if it holds
    of a node whenever it holds of all its children. *)
Fixpoint node_ind' (P : mcts_core.node -> Prop)
         (step : forall w n mov pos cs,
             Forall P cs -> P (mcts_core.Node w n mov pos cs))
         (t : mcts_core.node) {struct t} : P t :=
  match t with
  | mcts_core.Node w n mov pos cs =>
      step w n mov pos cs
           ((fix all (l : list mcts_core.node) : Forall P l :=
               match l with
               | [] => Forall_nil P
               | c :: l' => Forall_cons c (node_ind' P step c) (all l')
               end) cs)
  end.

(** The invariant of C7 on a whole tree: [0 <= w <= n] at every node. *)
Inductive Inv : mcts_core.node -> Prop :=
| Inv_node w n mov pos cs :
    (0 <= w)%Q -> (w <= inject_Z n)%Q -> Forall Inv cs ->
    Inv (mcts_core.Node w n mov pos cs).

(** Every visit counter of the tree is at most [B]. *)
Inductive Below (B : Z) : mcts_core.node -> Prop :=
| Below_node w n mov pos cs :
    (n <= B)%Z -> Forall (Below B) cs ->
    Below B (mcts_core.Node w n mov pos cs).

(** [Grown t t']: [t'] is [t] at a later time.  Every node of [t] is still
    there, at the same place, with a visit counter that is not smaller;
    a node that had no children may have got some. *)
Inductive Grown : mcts_core.node -> mcts_core.node -> Prop :=
| Grown_node w n mov pos cs w' n' mov' pos' cs' :
    (n <= n')%Z -> cs = [] \/ Forall2 Grown cs cs' ->
    Grown (mcts_core.Node w n mov pos cs) (mcts_core.Node w' n' mov' pos' cs').

(** The node as [iterate] selects from it: expanded if it had no
    children. *)
Definition expanded (E : RulesEngine) (t : mcts_core.node) : mcts_core.node :=
  if Nat.eqb (List.length (mcts_core.children t)) 0
  then mcts_core.fillInChildren E t else t.

(** Neither of the two terminal branches of [iterate] applies at [t]. *)
Definition nonTerminal (E : RulesEngine) (t : mcts_core.node) : Prop :=
  IsCheckMate E (mcts_core.pos t) = false
  /\ IsStaleMate E (mcts_core.pos t) = false.

(** A rules engine in which a position without legal moves is checkmate
    or stalemate. *)
Definition sane (E : RulesEngine) : Prop :=
  forall q, GenerateLegalMoves E q = [] ->
            IsCheckMate E q || IsStaleMate E q = true.

(** What a step leaves of the tree [t] it started from: the invariant
    holds again and no counter went down. *)
Definition keeps {A : Type} (t : mcts_core.node)
           (res : option (A * mcts_core.node * mcts_core.Rand)) : Prop :=
  match res with
  | Some (_, t', _) => Inv t' /\ Grown t t'
  | None => True
  end.

(** The exit code that [main.go] attaches to each call site it owns. *)
Definition codeAt (e : main.Exit) : Prop :=
  match e with
  | (main.CheckmateEnded, code) => code = 0%Z
  | (main.DrawClaimed, code) | (main.InvalidMove, code)
  | (main.BadPlayer1, code) | (main.BadPlayer2, code) => code = 1%Z
  | _ => True
  end.

(** The sum of the visit counters of a list of children. *)
Definition sumVisits (cs : list mcts_core.node) : Z :=
  fold_right (fun child total => (mcts_core.n child + total)%Z) 0%Z cs.

(** [v] lies within [+-MaxFloat64]. *)
Definition inRange (v : Q) : bool :=
  Qle_bool (- MaxFloat64) v && Qle_bool v MaxFloat64.

(** [stalemateFree E depth p]: in the tree that a search of [p] to [depth]
    may walk, no move leads to a stalemate position, and the evaluations
    at the horizon lie within [+-MaxFloat64].  (Below a move that mates
    nothing is required: the search returns there.) *)
Fixpoint stalemateFree (E : RulesEngine) (depth : nat) (p : Position) : bool :=
  match depth with
  | O =>
      forallb (fun move =>
                 inRange (fst (alphabeta.evaluate E (Position_Move E p move))))
              (GenerateLegalMoves E p)
  | S d =>
      forallb (fun move =>
                 let newPos := Position_Move E p move in
                 IsCheckMate E newPos
                 || (negb (IsStaleMate E newPos) && stalemateFree E d newPos))
              (GenerateLegalMoves E p)
  end.

(** The condition of [stalemateFree] at depth [S d] on a list of moves. *)
Definition childrenInScope (E : RulesEngine) (d : nat) (p : Position)
           (moves : list Move) : bool :=
  forallb (fun move =>
             let newPos := Position_Move E p move in
             IsCheckMate E newPos
             || (negb (IsStaleMate E newPos) && stalemateFree E d newPos))
          moves.

(** How the score [r] that alpha-beta returns for the window [(alpha,
    beta)] relates to the minimax score [v]: it is [v], or both lie above
    [beta] with [r <= v], or both lie below [alpha] with [v <= r]. *)
Definition bounds (v r alpha beta : Q) : Prop :=
  r = v \/ (beta < r /\ r <= v)%Q \/ (v <= r /\ r < alpha)%Q.

(** The score a searcher gives to a position without legal moves: the
    initial value of its running best. *)
Definition sentinel (c : Color) : Q :=
  match c with
  | White => (- MaxFloat64)%Q
  | Black => MaxFloat64
  | NoColor => 0%Q
  end.

(** The score a searcher attaches to a move that mates, by the side to
    move. *)
Definition mateScore (c : Color) : Q :=
  match c with
  | White => MaxFloat64
  | Black => (- MaxFloat64)%Q
  | NoColor => 0%Q
  end.

(** [evaluationsInRange E depth p]: every evaluation that a search of [p]
    to [depth] may compute lies within [+-MaxFloat64].  (Below a move that
    mates nothing is required: the search returns there.) *)
Fixpoint evaluationsInRange (E : RulesEngine) (depth : nat) (p : Position)
  : bool :=
  match depth with
  | O =>
      forallb (fun move =>
                 inRange (fst (alphabeta.evaluate E (Position_Move E p move))))
              (GenerateLegalMoves E p)
  | S d =>
      forallb (fun move =>
                 let newPos := Position_Move E p move in
                 IsCheckMate E newPos || evaluationsInRange E d newPos)
              (GenerateLegalMoves E p)
  end.

(** [better c a b]: the side [c] prefers the score [a] to the score [b]. *)
Definition better (c : Color) (a b : Q) : Prop :=
  match c with
  | White => (b < a)%Q
  | Black => (a < b)%Q
  | NoColor => False
  end.

(** [firstBest c score moves m]: [m] is the first of [moves] whose score no
    other of them betters, for the side [c]. *)
Definition firstBest (c : Color) (score : Move -> Q) (moves : list Move)
           (m : Move) : Prop :=
  exists l1 l2,
    moves = l1 ++ m :: l2
    /\ Forall (fun x => better c (score m) (score x)) l1
    /\ Forall (fun x => ~ better c (score x) (score m)) l2.

(** The other side. *)
Definition opponent (c : Color) : Color :=
  match c with
  | White => Black
  | Black => White
  | NoColor => NoColor
  end.

(** The piece of the same type and the other colour. *)
Definition swapPiece (pc : Piece) : Piece :=
  mkPiece (PType pc) (opponent (PColor pc)).

(** The position with the colours of all pieces exchanged. *)
Definition swapColors (p : Position) : Position :=
  mkPosition (map swapPiece (Board p)) (Turn p) (Rest p).

(** A piece without a colour has no type either: the empty square. *)
Definition colored (pc : Piece) : Prop :=
  PColor pc = NoColor -> PType pc = NoPieceType.

(** What [getPositionValue] adds for one piece. *)
Definition positionValueOf (pc : Piece) : Q :=
  let val :=
    match PType pc with
    | Pawn => 1
    | Rook => 5
    | Knight => 29 # 10
    | Bishop => 3
    | Queen => 8
    | King => 10000
    | NoPieceType => 0
    end%Q in
  if Color_eqb (PColor pc) White then val
  else if Color_eqb (PColor pc) Black then (- val)%Q
  else 0%Q.

(** The number of pseudo-legal moves of [attacker], were it to move in
    [p], that end on the square of the opponent's king as [findKing]
    reports it. *)
Definition checksBy (E : RulesEngine) (p : Position) (attacker : Color) : nat :=
  let q := setTurn p attacker in
  let king := alphabeta.findKing E q (opponent attacker) in
  List.length (filter (fun move => Nat.eqb (ToSquare move) king)
                      (GeneratePseudoLegalMoves E q)).

(** The average reward of a node, [w / n]. *)
Definition average (c : mcts_core.node) : Q :=
  (mcts_core.w c / inject_Z (mcts_core.n c))%Q.

(** [firstGreatest value cs i]: the [i]-th element of [cs] is the first
    whose [value] no other element exceeds. *)
Definition firstGreatest {A : Type} (value : A -> Q) (cs : list A) (i : nat)
  : Prop :=
  exists l1 c l2,
    cs = l1 ++ c :: l2 /\ List.length l1 = i
    /\ Forall (fun x => value x < value c)%Q l1
    /\ Forall (fun x => value x <= value c)%Q l2.

(** The children that the loop of [makeParentNode] appends, in closed
    form: each child gets the position as it is before its own move is
    made on it. *)
Fixpoint parentChildren (E : RulesEngine) (p : Position) (moves : list Move)
  : list mcts_core.node :=
  match moves with
  | [] => []
  | move :: rest =>
      mcts_core.Node 0 0 move p []
      :: parentChildren E (Position_Move E p move) rest
  end.

(** The positions that play by legal moves reaches from [p]. *)
Inductive reachable (E : RulesEngine) (p : Position) : Position -> Prop :=
| reachable_start : reachable E p p
| reachable_move q m :
    reachable E p q -> In m (GenerateLegalMoves E q) ->
    reachable E p (Position_Move E q m).

(** A line of input that [Human.GetMove] passes over: it does not parse,
    or it parses to a move that is not legal. *)
Definition rejected (ParseUCIMove : string -> option Move)
           (legalMoves : list Move) (input : string) : Prop :=
  match ParseUCIMove input with
  | None => True
  | Some move => ~ In move legalMoves
  end.

(** The exit codes an agent may end the run with: any but 0. *)
Definition exitsNonZero (agent : main.ChessAgent) : Prop :=
  forall p stdin, fst (agent p stdin) <> main.OsExit 0%Z.

(** [gameTree E t]: the tree below [t] follows the game.  A node that has
    children has one per legal move of its position, in generation order,
    each holding that move and the position after it. *)
Inductive gameTree (E : RulesEngine) : mcts_core.node -> Prop :=
| gameTree_node w n mov pos cs :
    cs = []
    \/ map (fun c => (mcts_core.mov c, mcts_core.pos c)) cs
       = map (fun move => (move, Position_Move E pos move))
             (GenerateLegalMoves E pos) ->
    Forall (gameTree E) cs ->
    gameTree E (mcts_core.Node w n mov pos cs).

(** The running best of the side [c] after it has seen [score]: the new
    score replaces it only when strictly better. *)
Definition pick (c : Color) (best score : Q) : Q :=
  match c with
  | White => if Qltb best score then score else best
  | Black => if Qltb score best then score else best
  | NoColor => best
  end.

(** The minimax value of [p] to [depth], as the textbooks have it: the
    best, for the side to move, of the values of its legal moves, where a
    move at the horizon is worth the evaluation of the position it leads
    to, a mating move is worth [+-MaxFloat64], and any other move is
    worth the minimax value of the position it leads to, one ply
    shallower.  A side without legal moves gets its worst score. *)
Fixpoint minimaxValue (E : RulesEngine) (depth : nat) (p : Position) : Q :=
  fold_left
    (fun best move =>
       let newPos := Position_Move E p move in
       pick (Turn p) best
            match depth with
            | O => fst (alphabeta.evaluate E newPos)
            | S d =>
                if IsCheckMate E newPos then mateScore (Turn p)
                else minimaxValue E d newPos
            end)
    (GenerateLegalMoves E p) (sentinel (Turn p)).

(** The number of children that have not been visited. *)
Definition unvisited (cs : list mcts_core.node) : nat :=
  List.length (filter (fun c => (mcts_core.n c =? 0)%Z) cs).

(** [creditedAlong E Sqrt Log mctsn result t t']: [t'] is [t] after
    [result] was back-propagated along the path that selection takes from
    [t].  A terminal [t] ends the path and counts the visit itself.
    Otherwise [t] keeps its own [w] and [n], and of the children of the
    expanded [t] only the one at the index that [selectNode] returns is
    replaced: by itself with [n + 1] and [w + result], after [result] was
    back-propagated in the same way below it if it had been visited
    before. *)
Inductive creditedAlong (E : RulesEngine) (Sqrt Log : Q -> Q) (mctsn : Z)
          (result : Q) : mcts_core.node -> mcts_core.node -> Prop :=
| credited_terminal t w' :
    IsCheckMate E (mcts_core.pos t) = true
    \/ IsStaleMate E (mcts_core.pos t) = true ->
    (result = 1%Q /\ w' = (mcts_core.w t + 1)%Q)
    \/ (result = 0%Q /\ w' = mcts_core.w t) ->
    creditedAlong E Sqrt Log mctsn result t
      (mcts_core.Node w' (incr64 (mcts_core.n t)) (mcts_core.mov t)
                      (mcts_core.pos t) (mcts_core.children t))
| credited_first_visit t i sel :
    nonTerminal E t ->
    mcts_core.selectNode Sqrt Log mctsn (mcts_core.children (expanded E t))
    = Some i ->
    nth_error (mcts_core.children (expanded E t)) i = Some sel ->
    mcts_core.n sel = 0%Z ->
    creditedAlong E Sqrt Log mctsn result t
      (mcts_core.Node
         (mcts_core.w t) (mcts_core.n t) (mcts_core.mov t) (mcts_core.pos t)
         (mcts_core.replace_nth i (mcts_core.backpropagate sel result)
                                (mcts_core.children (expanded E t))))
| credited_below t i sel sel' :
    nonTerminal E t ->
    mcts_core.selectNode Sqrt Log mctsn (mcts_core.children (expanded E t))
    = Some i ->
    nth_error (mcts_core.children (expanded E t)) i = Some sel ->
    mcts_core.n sel <> 0%Z ->
    creditedAlong E Sqrt Log mctsn result sel sel' ->
    creditedAlong E Sqrt Log mctsn result t
      (mcts_core.Node
         (mcts_core.w t) (mcts_core.n t) (mcts_core.mov t) (mcts_core.pos t)
         (mcts_core.replace_nth i (mcts_core.backpropagate sel' result)
                                (mcts_core.children (expanded E t)))).

(** [iterated E Sqrt Log k mctsn t t']: [t'] is [t] after [k] results were
    back-propagated one after the other, each along the selection path of
    its time, the receiver's field [n] counting up from [mctsn]. *)
Inductive iterated (E : RulesEngine) (Sqrt Log : Q -> Q)
  : nat -> Z -> mcts_core.node -> mcts_core.node -> Prop :=
| iterated_none mctsn t : iterated E Sqrt Log 0 mctsn t t
| iterated_more k mctsn result t t1 t2 :
    creditedAlong E Sqrt Log mctsn result t t1 ->
    iterated E Sqrt Log k (incr64 mctsn) t1 t2 ->
    iterated E Sqrt Log (S k) mctsn t t2.

(** * Properties *)


(** ** Numbers *)

Lemma Qltb_lt (a b : Q) : Qltb a b = true <-> (a < b)%Q.
Proof.
  unfold Qltb. rewrite negb_true_iff.
  split; intro H.
  - apply Qnot_le_lt. intro Hle. apply Qle_bool_iff in Hle. congruence.
  - destruct (Qle_bool b a) eqn:Hb; [|reflexivity].
    apply Qle_bool_iff in Hb. exfalso. apply (Qlt_not_le _ _ H Hb).
Qed.

Lemma Qltb_ge (a b : Q) : Qltb a b = false <-> (b <= a)%Q.
Proof.
  unfold Qltb. rewrite negb_false_iff. apply Qle_bool_iff.
Qed.

Lemma Qltb_irrefl (a : Q) : Qltb a a = false.
Proof. apply Qltb_ge. apply Qle_refl. Qed.

Lemma incr64_small (z : Z) :
  (- 2 ^ 63 <= z < MaxInt64)%Z -> incr64 z = (z + 1)%Z.
Proof.
  unfold incr64, wrap64, MaxInt64. intros H.
  rewrite Z.mod_small; lia.
Qed.

Lemma Color_eqb_refl (c : Color) : Color_eqb c c = true.
Proof. destruct c; reflexivity. Qed.

Lemma Color_eqb_eq (a b : Color) : Color_eqb a b = true <-> a = b.
Proof. destruct a, b; simpl; split; congruence. Qed.

(** ** The evaluator of package alphabeta *)

(** C10.  [numPseudoLegalChecks] sets [p.Turn] to White and then to Black
    and puts the original value back before it returns: the position that
    [numPseudoLegalChecks], and hence [evaluate], leaves behind is the
    position it was given, side to move and board included. *)
Theorem evaluate_restores_position (E : RulesEngine) (p : Position) :
  snd (alphabeta.numPseudoLegalChecks E p) = p
  /\ snd (alphabeta.evaluate E p) = p
  /\ Turn (snd (alphabeta.evaluate E p)) = Turn p
  /\ Board (snd (alphabeta.evaluate E p)) = Board p.
Proof.
  assert (H : snd (alphabeta.numPseudoLegalChecks E p) = p).
  { destruct p as [b t r]. reflexivity. }
  assert (H' : snd (alphabeta.evaluate E p) = p).
  { unfold alphabeta.evaluate.
    destruct (alphabeta.numPseudoLegalChecks E p) as [checks p'] eqn:Hc.
    simpl in *. exact H. }
  repeat split; try assumption; rewrite H'; reflexivity.
Qed.

(** ** Rollouts *)

Lemma determineReward_isReward (p : Position) (agentColor : Color) :
  isReward (mcts_parallel.determineReward p agentColor).
Proof.
  unfold mcts_parallel.determineReward, isReward.
  destruct agentColor;
    repeat match goal with |- context [if ?b then _ else _] => destruct b end;
    auto.
Qed.

Lemma parallel_rollout_isReward (E : RulesEngine) (i : nat) :
  forall p agentColor g,
    isReward (fst (mcts_parallel.randomRollout_loop E i p agentColor g)).
Proof.
  induction i as [|i IH]; intros p agentColor g; simpl.
  - apply determineReward_isReward.
  - destruct (IsCheckMate E p && negb (Color_eqb (Turn p) agentColor));
      [right; right; reflexivity|].
    destruct (IsCheckMate E p && Color_eqb (Turn p) agentColor);
      [left; reflexivity|].
    destruct (Nat.eqb (List.length (GenerateLegalMoves E p)) 0);
      [right; left; reflexivity|].
    destruct (mcts_core.IntN g (List.length (GenerateLegalMoves E p)))
      as [k g'].
    apply IH.
Qed.

Lemma single_rollout_isReward (E : RulesEngine) (i : nat) :
  forall p agentColor g,
    isReward (fst (mcts_single.randomRollout_loop E i p agentColor g)).
Proof.
  induction i as [|i IH]; intros p agentColor g; simpl.
  - right; left; reflexivity.
  - destruct (IsCheckMate E p && negb (Color_eqb (Turn p) agentColor));
      [right; right; reflexivity|].
    destruct (IsCheckMate E p && Color_eqb (Turn p) agentColor);
      [left; reflexivity|].
    destruct (Nat.eqb (List.length (GenerateLegalMoves E p)) 0);
      [right; left; reflexivity|].
    destruct (mcts_core.IntN g (List.length (GenerateLegalMoves E p)))
      as [k g'].
    apply IH.
Qed.

Lemma isReward_range (q : Q) : isReward q -> (0 <= q /\ q <= 1)%Q.
Proof.
  intros [H|[H|H]]; subst q; split; unfold Qle; simpl; lia.
Qed.

(** C5.  Whatever the position, the agent's colour, the rules engine and
    the random draws, [randomRollout] returns 0, 0.5 or 1, in the
    parallel-root revision (whose material fallback [determineReward] does
    so too) and in the single-tree revision. *)
Theorem rollout_reward_domain
        (E : RulesEngine) (p : Position) (agentColor : Color)
        (g : mcts_core.Rand) :
  isReward (fst (mcts_parallel.randomRollout E p agentColor g))
  /\ isReward (mcts_parallel.determineReward p agentColor)
  /\ isReward (fst (mcts_single.randomRollout E p agentColor g)).
Proof.
  split; [|split].
  - apply parallel_rollout_isReward.
  - apply determineReward_isReward.
  - apply single_rollout_isReward.
Qed.

Lemma parallel_rollout_playedOut (E : RulesEngine) (agentColor : Color)
      (i : nat) :
  forall p g q,
    playedOut E i p g = Some q ->
    fst (mcts_parallel.randomRollout_loop E i p agentColor g)
    = mcts_parallel.determineReward q agentColor.
Proof.
  induction i as [|i IH]; intros p g q H; simpl in *.
  - inversion H. reflexivity.
  - destruct (IsCheckMate E p); [discriminate|]. simpl.
    destruct (Nat.eqb (List.length (GenerateLegalMoves E p)) 0);
      [discriminate|].
    destruct (mcts_core.IntN g (List.length (GenerateLegalMoves E p)))
      as [k g'].
    apply IH. exact H.
Qed.

Lemma determineReward_cases (q : Position) (agentColor : Color) :
  let v := mcts_parallel.getPositionValue q in
  let r := mcts_parallel.determineReward q agentColor in
  match agentColor with
  | White =>
      ((8 < v)%Q -> r = 1%Q) /\ ((v < - (8))%Q -> r = 0%Q)
      /\ ((- (8) <= v)%Q /\ (v <= 8)%Q -> r = (1 # 2)%Q)
  | Black =>
      ((8 < v)%Q -> r = 0%Q) /\ ((v < - (8))%Q -> r = 1%Q)
      /\ ((- (8) <= v)%Q /\ (v <= 8)%Q -> r = (1 # 2)%Q)
  | NoColor => r = (1 # 2)%Q
  end.
Proof.
  intros v r. unfold r, mcts_parallel.determineReward. fold v.
  destruct agentColor; [reflexivity| |];
    destruct (Qltb 8 v) eqn:H1; destruct (Qltb v (- (8))) eqn:H2;
    try (apply Qltb_lt in H1); try (apply Qltb_lt in H2);
    try (apply Qltb_ge in H1); try (apply Qltb_ge in H2);
    repeat split; intros; try reflexivity; exfalso; lra.
Qed.

(** C6 fails as stated: with White exactly a queen up (material
    difference 8) a rollout of the parallel-root revision that plays all 20
    plies returns 0.5, where the specification's wording (magnitude at
    least 8) gives 1. *)
Lemma rollout_cap_at_difference_8 :
  exists q,
    playedOut (table.engine table.queenUpGame)
              mcts_parallel.randomRolloutLength
              (table.position table.queenUpGame 0) table.zeros = Some q
    /\ Qeq_bool (mcts_parallel.getPositionValue q) 8 = true
    /\ fst (mcts_parallel.randomRollout
              (table.engine table.queenUpGame)
              (table.position table.queenUpGame 0) White table.zeros)
       = (1 # 2)%Q
    /\ rewardAtCap_spec (mcts_parallel.getPositionValue q) White = 1%Q.
Proof.
  eexists. split; [vm_compute; reflexivity|].
  split; [vm_compute; reflexivity|].
  split; vm_compute; reflexivity.
Qed.

(** C6, amended.  When the loop of [randomRollout] (parallel-root
    revision) plays all of its 20 plies and ends in [q], the result is
    [determineReward q]: for a White agent 1 if the material value of [q]
    is greater than 8, 0 if it is less than -8 and 0.5 otherwise (8 and -8
    included); for a Black agent the same with 1 and 0 exchanged; for any
    other colour 0.5. *)
Theorem rollout_cap_reward
        (E : RulesEngine) (p q : Position) (agentColor : Color)
        (g : mcts_core.Rand) :
  playedOut E mcts_parallel.randomRolloutLength p g = Some q ->
  let v := mcts_parallel.getPositionValue q in
  let r := fst (mcts_parallel.randomRollout E p agentColor g) in
  r = mcts_parallel.determineReward q agentColor
  /\ match agentColor with
     | White =>
         ((8 < v)%Q -> r = 1%Q) /\ ((v < - (8))%Q -> r = 0%Q)
         /\ ((- (8) <= v)%Q /\ (v <= 8)%Q -> r = (1 # 2)%Q)
     | Black =>
         ((8 < v)%Q -> r = 0%Q) /\ ((v < - (8))%Q -> r = 1%Q)
         /\ ((- (8) <= v)%Q /\ (v <= 8)%Q -> r = (1 # 2)%Q)
     | NoColor => r = (1 # 2)%Q
     end.
Proof.
  intros H v r.
  assert (Hr : r = mcts_parallel.determineReward q agentColor).
  { apply parallel_rollout_playedOut. exact H. }
  split; [exact Hr|].
  rewrite Hr. apply determineReward_cases.
Qed.

Lemma rollout_cap_reward_witness :
  fst (mcts_parallel.randomRollout
         (table.engine table.queenUpGame)
         (table.position table.queenUpGame 0) White table.zeros)
  = mcts_parallel.determineReward (table.position table.queenUpGame 0) White.
Proof.
  refine (proj1 (rollout_cap_reward (table.engine table.queenUpGame)
                   (table.position table.queenUpGame 0)
                   (table.position table.queenUpGame 0) White table.zeros _)).
  vm_compute. reflexivity.
Defined.

(** ** Selection *)

Lemma firstUnvisited_spec (cs : list mcts_core.node) :
  forall k,
    match mcts_core.firstUnvisited cs k with
    | Some i =>
        (k <= i)%nat
        /\ (exists c, nth_error cs (i - k) = Some c /\ mcts_core.n c = 0%Z)
        /\ (forall j c, (j < i - k)%nat -> nth_error cs j = Some c ->
                        mcts_core.n c <> 0%Z)
    | None => forall c, In c cs -> mcts_core.n c <> 0%Z
    end.
Proof.
  induction cs as [|c cs IH]; intros k; simpl.
  - intros c [].
  - destruct (mcts_core.n c =? 0)%Z eqn:Hn.
    + apply Z.eqb_eq in Hn. split; [lia|]. rewrite Nat.sub_diag. split.
      * exists c. split; [reflexivity|exact Hn].
      * intros j c' Hj. lia.
    + apply Z.eqb_neq in Hn. specialize (IH (S k)).
      destruct (mcts_core.firstUnvisited cs (S k)) as [i|].
      * destruct IH as (Hle & (c' & Hc' & Hz) & Hbefore).
        split; [lia|].
        replace (i - k)%nat with (S (i - S k)) by lia. split.
        -- exists c'. split; [exact Hc'|exact Hz].
        -- intros j c'' Hj Hnth. destruct j as [|j]; simpl in Hnth.
           ++ inversion Hnth; subst; exact Hn.
           ++ apply (Hbefore j c''); [lia|exact Hnth].
      * intros c' [Heq|Hin]; [subst; exact Hn|apply IH; exact Hin].
Qed.

(** C4.  Whenever some child has [n == 0], [selectNode] (the same
    function in both revisions) returns a child with [n == 0] before which,
    in the order of the child list, every child has [n != 0]: the first
    unvisited child.  In particular the child returned has no visits, so a
    visited child is never returned while an unvisited sibling exists. *)
Theorem selectNode_first_unvisited
        (Sqrt Log : Q -> Q) (mctsn : Z) (cs : list mcts_core.node) :
  (exists c, In c cs /\ mcts_core.n c = 0%Z) ->
  exists i c,
    mcts_core.selectNode Sqrt Log mctsn cs = Some i
    /\ nth_error cs i = Some c
    /\ mcts_core.n c = 0%Z
    /\ (forall j c', (j < i)%nat -> nth_error cs j = Some c' ->
                     mcts_core.n c' <> 0%Z).
Proof.
  intros (c0 & Hin & Hz). unfold mcts_core.selectNode.
  pose proof (firstUnvisited_spec cs 0) as H.
  destruct (mcts_core.firstUnvisited cs 0) as [i|].
  - destruct H as (_ & (c & Hc & Hn) & Hbefore).
    rewrite Nat.sub_0_r in *.
    exists i, c. repeat split; assumption.
  - exfalso. apply (H c0 Hin Hz).
Qed.

Lemma selectNode_first_unvisited_witness :
  exists i c,
    mcts_core.selectNode (fun x => x) (fun x => x) 5
      [mcts_core.Node 1 2 noMove (mkPosition [] White 0) [];
       mcts_core.Node 0 0 noMove (mkPosition [] Black 1) [];
       mcts_core.Node 0 0 noMove (mkPosition [] Black 2) []] = Some i
    /\ nth_error
         [mcts_core.Node 1 2 noMove (mkPosition [] White 0) [];
          mcts_core.Node 0 0 noMove (mkPosition [] Black 1) [];
          mcts_core.Node 0 0 noMove (mkPosition [] Black 2) []] i = Some c
    /\ mcts_core.n c = 0%Z
    /\ (forall j c', (j < i)%nat ->
          nth_error
            [mcts_core.Node 1 2 noMove (mkPosition [] White 0) [];
             mcts_core.Node 0 0 noMove (mkPosition [] Black 1) [];
             mcts_core.Node 0 0 noMove (mkPosition [] Black 2) []] j = Some c' ->
          mcts_core.n c' <> 0%Z).
Proof.
  apply (selectNode_first_unvisited (fun x => x) (fun x => x) 5).
  exists (mcts_core.Node 0 0 noMove (mkPosition [] Black 1) []).
  split; [simpl; auto|reflexivity].
Defined.

(** ** The harness *)

Lemma play_codeAt (E : RulesEngine) (G : main.GameEngine) (fuel : nat) :
  forall agents game stdin,
    match main.play G fuel agents game stdin with
    | Some e => codeAt e
    | None => True
    end.
Proof.
  induction fuel as [|fuel IH]; intros agents game stdin; simpl.
  - destruct (main.Game_IsCheckMate G game) eqn:Hm; simpl.
    + unfold main.afterLoop. rewrite Hm. reflexivity.
    + destruct (main.Game_CanClaimDraw G game) eqn:Hd; simpl; [|exact I].
      unfold main.afterLoop. rewrite Hm, Hd. reflexivity.
  - destruct (main.Game_IsCheckMate G game) eqn:Hm; simpl.
    + unfold main.afterLoop. rewrite Hm. reflexivity.
    + destruct (main.Game_CanClaimDraw G game) eqn:Hd; simpl.
      * unfold main.afterLoop. rewrite Hm, Hd. reflexivity.
      * destruct (main.Game_Turn G game); simpl; try exact I.
        -- destruct (fst agents (main.Game_Position G game) stdin)
             as [[move|code] stdin']; simpl; [|exact I].
           destruct (main.Game_Move G game move); [apply IH|reflexivity].
        -- destruct (snd agents (main.Game_Position G game) stdin)
             as [[move|code] stdin']; simpl; [|exact I].
           destruct (main.Game_Move G game move); [apply IH|reflexivity].
Qed.

(** C9 fails as stated: a run that ends by a claimed draw, a run that
    fails on an unknown agent name and a run that fails on an invalid agent
    move all exit with code 1; only the run that ends by checkmate has a
    code of its own, 0. *)
Lemma draw_and_failures_share_exit_code :
  main.main (table.engine table.queenUpGame) games.drawn games.noParse
            (fun _ => games.always noMove) (fun _ => games.always noMove)
            (fun _ => games.always noMove)
            1 (games.flags "ab" "ab") []
  = Some (main.DrawClaimed, 1%Z)
  /\ main.main (table.engine table.queenUpGame) games.oneMove games.noParse
               (fun _ => games.always noMove) (fun _ => games.always noMove)
               (fun _ => games.always noMove)
               1 (games.flags "nobody" "ab") []
     = Some (main.BadPlayer1, 1%Z)
  /\ main.main (table.engine table.queenUpGame) games.oneMove games.noParse
               (fun _ => games.always noMove) (fun _ => games.always noMove)
               (fun _ => games.always (table.mv 0 7))
               1 (games.flags "AB" "ab") []
     = Some (main.InvalidMove, 1%Z)
  /\ outcome main.DrawClaimed = Some ByDraw
  /\ outcome main.BadPlayer1 = Some ByFailure
  /\ outcome main.InvalidMove = Some ByFailure.
Proof.
  repeat split.
Qed.

(** C9, amended.  The game loop stops as soon as the game is checkmate or
    a draw can be claimed: on checkmate the run exits with code 0, on a
    claimable draw (and no checkmate) with code 1.  In every run of [main],
    an exit after checkmate has code 0, and an exit after a claimed draw,
    after an invalid agent move or after an unknown agent name has code 1:
    the code of checkmate differs from the other three, which coincide. *)
Theorem harness_exit_codes
        (E : RulesEngine) (G : main.GameEngine)
        (ParseUCIMove : string -> option Move)
        (Mcts Minmax AlphaBeta : Z -> main.ChessAgent) :
  (forall fuel agents game stdin,
      if main.Game_IsCheckMate G game
      then main.play G fuel agents game stdin
           = Some (main.CheckmateEnded, 0%Z)
      else if main.Game_CanClaimDraw G game
           then main.play G fuel agents game stdin
                = Some (main.DrawClaimed, 1%Z)
           else True)
  /\ (forall fuel f stdin,
         match main.main E G ParseUCIMove Mcts Minmax AlphaBeta fuel f stdin
         with
         | Some e => codeAt e
         | None => True
         end).
Proof.
  split.
  - intros fuel agents game stdin.
    destruct (main.Game_IsCheckMate G game) eqn:Hm.
    + destruct fuel; simpl; rewrite Hm; simpl; unfold main.afterLoop;
        rewrite Hm; reflexivity.
    + destruct (main.Game_CanClaimDraw G game) eqn:Hd; [|exact I].
      destruct fuel; simpl; rewrite Hm, Hd; simpl; unfold main.afterLoop;
        rewrite Hm, Hd; reflexivity.
  - intros fuel f stdin. unfold main.main, main.parseArgs.
    destruct (main.help f); [reflexivity|].
    destruct (main.parseAgent E ParseUCIMove Mcts Minmax AlphaBeta
                (main.player1 f) (main.player1Option f)); [|reflexivity].
    destruct (main.parseAgent E ParseUCIMove Mcts Minmax AlphaBeta
                (main.player2 f) (main.player2Option f)); [|reflexivity].
    apply (play_codeAt E).
Qed.

(** ** Minimax and alpha-beta *)


(** The hypothesis that no stalemate lies within the horizon, under which
    the scores of [alphabeta.search] and of [minmax.search] with the same
    evaluator are proved equal below, cannot be dropped for an arbitrary
    rules engine.  In [table.stalemateGame] at depth 3, [minmax.search]
    returns the first move with score 3 (under either evaluator), while
    [alphabeta.search], called as [AlphaBeta.GetMove] calls it, returns the
    second move with score [MaxFloat64].  Below White's second move the
    child entry 7 is cut off at score 1 (its true value is -5), so the
    running best is not negative when the stalemating move is reached; the
    test [IsStaleMate && highestScore < 0] then fails, the stalemate
    position is searched, and having no legal move it yields the
    minimizer's initial value [MaxFloat64]. *)
Lemma cutoff_before_stalemate_raises_the_score :
  minmax.search (table.engine table.stalemateGame)
                (minmax.evaluate (table.engine table.stalemateGame) 1)
                3 (table.position table.stalemateGame 0)
  = Some (table.mv 4 3, 3%Q)
  /\ (exists score,
         minmax.search (table.engine table.stalemateGame)
                       (minmax.evaluate_threat
                          (table.engine table.stalemateGame))
                       3 (table.position table.stalemateGame 0)
         = Some (table.mv 4 3, score)
         /\ Qeq_bool score 3 = true)
  /\ fst (alphabeta.search (table.engine table.stalemateGame) 3
                           (table.position table.stalemateGame 0)
                           (- MaxFloat64) MaxFloat64)
     = table.mv 4 5
  /\ Qeq_bool (snd (alphabeta.search (table.engine table.stalemateGame) 3
                                     (table.position table.stalemateGame 0)
                                     (- MaxFloat64) MaxFloat64))
              MaxFloat64 = true
  /\ Qeq_bool 3 MaxFloat64 = false.
Proof.
  split; [vm_compute; reflexivity|].
  split; [eexists; split; vm_compute; reflexivity|].
  split; [vm_compute; reflexivity|].
  split; vm_compute; reflexivity.
Qed.

(** C2, on the code.  In [table.forcedMateGame] White has exactly one
    legal move, after which Black can mate at once.  At depth 2 both
    searchers return the null move [chess.Move{}]: the reply's score is
    [-MaxFloat64], which is not greater than the initial [highestScore],
    so [bestMove] is never assigned.  At depth 1 the move is returned. *)
Theorem only_legal_move_not_returned :
  GenerateLegalMoves (table.engine table.forcedMateGame)
                     (table.position table.forcedMateGame 0)
  = [table.mv 6 5]
  /\ minmax.GetMove (table.engine table.forcedMateGame)
                    (minmax.evaluate (table.engine table.forcedMateGame) 1)
                    2 (table.position table.forcedMateGame 0)
     = Some noMove
  /\ minmax.GetMove (table.engine table.forcedMateGame)
                    (minmax.evaluate_threat
                       (table.engine table.forcedMateGame))
                    2 (table.position table.forcedMateGame 0)
     = Some noMove
  /\ alphabeta.GetMove (table.engine table.forcedMateGame) 2
                       (table.position table.forcedMateGame 0)
     = noMove
  /\ alphabeta.GetMove (table.engine table.forcedMateGame) 1
                       (table.position table.forcedMateGame 0)
     = table.mv 6 5.
Proof.
  repeat split; vm_compute; reflexivity.
Qed.

(** The same for every rules engine and every depth from 2: if [p], White
    to move, has the single legal move [m], the position after [m] is
    neither checkmate nor stalemate with Black to move, and Black has a
    mating reply there, then [search] scores [p] at [-MaxFloat64] and
    returns the null move. *)
Section ForcedMate.

Variable E : RulesEngine.
Variables (p : Position) (m m' : Move).

Let q := Position_Move E p m.

Hypothesis white_to_move : Turn p = White.
Hypothesis only_move : GenerateLegalMoves E p = [m].
Hypothesis black_replies : Turn q = Black.
Hypothesis not_checkmate : IsCheckMate E q = false.
Hypothesis not_stalemate : IsStaleMate E q = false.
Hypothesis reply : In m' (GenerateLegalMoves E q).
Hypothesis reply_mates : IsCheckMate E (Position_Move E q m') = true.

Lemma minmax_min_loop_mate
      (search' : Position -> option (Move * Q)) (moves : list Move) :
  In m' moves ->
  forall lowestScore bestMove r,
    minmax.min_loop E search' q moves lowestScore bestMove = Some r ->
    snd r = (- MaxFloat64)%Q.
Proof.
  induction moves as [|move rest IH]; intros Hin lo best r H; [destruct Hin|].
  simpl in H.
  destruct (IsCheckMate E (Position_Move E q move)) eqn:Hm.
  - inversion H. reflexivity.
  - assert (Hin' : In m' rest).
    { destruct Hin as [Heq|Hin']; [|exact Hin'].
      subst move. rewrite reply_mates in Hm. discriminate. }
    destruct (IsStaleMate E (Position_Move E q move) && Qltb 0 lo).
    + apply (IH Hin' _ _ _ H).
    + destruct (search' (Position_Move E q move)) as [[mv score]|];
        [|discriminate].
      destruct (Qltb score lo); apply (IH Hin' _ _ _ H).
Qed.

Lemma minmax_forced_mate (ev : Position -> option Q) (d : nat) :
  forall r, minmax.search E ev (S (S d)) p = Some r ->
            r = (noMove, (- MaxFloat64)%Q).
Proof.
  intros r H. simpl in H. rewrite white_to_move, only_move in H.
  simpl in H. fold q in H. rewrite not_checkmate, not_stalemate in H.
  simpl in H. rewrite black_replies in H.
  destruct (minmax.min_loop E (minmax.search E ev d) q
              (GenerateLegalMoves E q) MaxFloat64 noMove)
    as [[mv score]|] eqn:Hmin; [|discriminate].
  apply (minmax_min_loop_mate _ _ reply) in Hmin. simpl in Hmin. subst score.
  rewrite Qltb_irrefl in H. inversion H. reflexivity.
Qed.

Lemma alphabeta_min_loop_mate
      (search' : Position -> Q -> Q -> Move * Q) (moves : list Move)
      (alpha : Q) :
  In m' moves ->
  (alpha <= - MaxFloat64)%Q ->
  forall beta lowestScore bestMove,
    (snd (alphabeta.min_loop E search' q moves alpha beta
                             lowestScore bestMove)
     <= - MaxFloat64)%Q.
Proof.
  intros Hin Ha.
  induction moves as [|move rest IH]; intros beta lo best; [destruct Hin|].
  simpl.
  destruct (IsCheckMate E (Position_Move E q move)) eqn:Hm.
  - simpl. apply Qle_refl.
  - assert (Hin' : In m' rest).
    { destruct Hin as [Heq|Hin']; [|exact Hin'].
      subst move. rewrite reply_mates in Hm. discriminate. }
    destruct (IsStaleMate E (Position_Move E q move) && Qltb 0 lo).
    + apply (IH Hin').
    + destruct (Qltb (snd (search' (Position_Move E q move) alpha beta)) lo).
      * destruct (Qltb (snd (search' (Position_Move E q move) alpha beta))
                       alpha) eqn:Hcut.
        -- simpl. apply Qltb_lt in Hcut. lra.
        -- apply (IH Hin').
      * destruct (Qltb lo alpha) eqn:Hcut.
        -- simpl. apply Qltb_lt in Hcut. lra.
        -- apply (IH Hin').
Qed.

Lemma alphabeta_forced_mate (d : nat) :
  alphabeta.GetMove E (S (S d)) p = noMove.
Proof.
  unfold alphabeta.GetMove. simpl.
  rewrite white_to_move, only_move. simpl. fold q.
  rewrite not_checkmate, not_stalemate. simpl. rewrite black_replies.
  pose proof (alphabeta_min_loop_mate (alphabeta.search E d)
                (GenerateLegalMoves E q) (- MaxFloat64) reply
                (Qle_refl _) MaxFloat64 MaxFloat64 noMove) as Hle.
  destruct (Qltb (- MaxFloat64)
              (snd (alphabeta.min_loop E (alphabeta.search E d) q
                      (GenerateLegalMoves E q) (- MaxFloat64) MaxFloat64
                      MaxFloat64 noMove))) eqn:Hlt.
  - apply Qltb_lt in Hlt. exfalso. lra.
  - replace (Qltb MaxFloat64 (- MaxFloat64)) with false
      by (vm_compute; reflexivity).
    reflexivity.
Qed.

End ForcedMate.

(** ** Search trees *)

Lemma nth_error_replace_nth_same {A : Type} (l : list A) :
  forall i x a, nth_error l i = Some a ->
                nth_error (mcts_core.replace_nth i x l) i = Some x.
Proof.
  induction l as [|y l IH]; intros [|i] x a H; simpl in *;
    try discriminate; [reflexivity|apply (IH i x a H)].
Qed.

Lemma nth_error_replace_nth_other {A : Type} (l : list A) :
  forall i j x, i <> j ->
                nth_error (mcts_core.replace_nth i x l) j = nth_error l j.
Proof.
  induction l as [|y l IH]; intros [|i] [|j] x H; simpl; try reflexivity.
  - contradiction.
  - apply IH. congruence.
Qed.

Lemma Forall_replace_nth {A : Type} (P : A -> Prop) (l : list A) :
  forall i x, Forall P l -> P x -> Forall P (mcts_core.replace_nth i x l).
Proof.
  induction l as [|y l IH]; intros [|i] x Hl Hx; simpl; auto;
    inversion Hl; subst; constructor; auto.
Qed.

Lemma Forall2_replace_nth {A : Type} (R : A -> A -> Prop) (l : list A) :
  forall i a x,
    Forall2 R l l -> nth_error l i = Some a -> R a x ->
    Forall2 R l (mcts_core.replace_nth i x l).
Proof.
  induction l as [|y l IH]; intros [|i] a x Hl Hn Hx; simpl in *;
    try discriminate; inversion Hl; subst; constructor; auto.
  - inversion Hn; subst. exact Hx.
  - apply (IH i a x); assumption.
Qed.

Lemma visit_spec (f : mcts_core.node -> option (Q * mcts_core.node * mcts_core.Rand))
      (l : list mcts_core.node) :
  forall k,
    mcts_core.visit f l k =
    match nth_error l k with
    | None => None
    | Some selectedNode =>
        match f selectedNode with
        | None => None
        | Some (result, selectedNode', g') =>
            Some (result,
                  mcts_core.replace_nth
                    k (mcts_core.backpropagate selectedNode' result) l,
                  g')
        end
    end.
Proof.
  induction l as [|c l IH]; intros [|k]; simpl; try reflexivity.
  rewrite IH. destruct (nth_error l k) as [sel|]; [|reflexivity].
  destruct (f sel) as [[[r c'] g']|]; reflexivity.
Qed.

Lemma fillInChildren_fresh (E : RulesEngine) (t c : mcts_core.node) :
  mcts_core.children t = [] ->
  In c (mcts_core.children (mcts_core.fillInChildren E t)) ->
  mcts_core.n c = 0%Z /\ mcts_core.w c = 0%Q /\ mcts_core.children c = [].
Proof.
  intros Hcs Hin. unfold mcts_core.fillInChildren in Hin. simpl in Hin.
  rewrite Hcs in Hin. simpl in Hin. apply in_map_iff in Hin.
  destruct Hin as (move & Hc & _). subst c. simpl. auto.
Qed.

Section Trees.

Variable E : RulesEngine.
Variables Sqrt Log : Q -> Q.
Variable randomRollout : Position -> Color -> mcts_core.Rand -> Q * mcts_core.Rand.

Let iterate := mcts_core.iterate E Sqrt Log randomRollout.

(** [iterate] satisfies the equation of the Go function. *)
Lemma iterate_unfold (mctsn : Z) (agentColor : Color) (t : mcts_core.node)
      (g : mcts_core.Rand) :
  iterate mctsn agentColor t g
  = mcts_core.iterate_body E Sqrt Log randomRollout iterate
                           mctsn agentColor t g.
Proof.
  destruct t as [w0 n0 mov0 pos0 cs].
  unfold iterate, mcts_core.iterate_body.
  cbn -[mcts_core.visit mcts_core.selectNode mcts_core.fillInChildren
        mcts_core.replace_nth nth_error].
  destruct (IsCheckMate E pos0 && negb (Color_eqb (Turn pos0) agentColor));
    [reflexivity|].
  destruct (IsStaleMate E pos0 || IsCheckMate E pos0); [reflexivity|].
  destruct cs as [|c cs].
  - cbn -[mcts_core.selectNode mcts_core.fillInChildren
          mcts_core.replace_nth nth_error].
    set (t := mcts_core.Node w0 n0 mov0 pos0 []).
    destruct (mcts_core.selectNode Sqrt Log mctsn
                (mcts_core.children (mcts_core.fillInChildren E t)))
      as [i|]; [|reflexivity].
    destruct (nth_error (mcts_core.children (mcts_core.fillInChildren E t)) i)
      as [sel|] eqn:Hsel; [|reflexivity].
    apply nth_error_In in Hsel.
    apply (fillInChildren_fresh E t sel eq_refl) in Hsel.
    destruct Hsel as (Hn & _). rewrite Hn.
    change (pos0) with (mcts_core.pos (mcts_core.fillInChildren E t)) at 1.
    destruct (randomRollout (mcts_core.pos (mcts_core.fillInChildren E t))
                            agentColor g) as [r g'].
    reflexivity.
  - cbn -[mcts_core.visit mcts_core.selectNode mcts_core.replace_nth
          nth_error].
    destruct (mcts_core.selectNode Sqrt Log mctsn (c :: cs)) as [i|];
      [|reflexivity].
    rewrite visit_spec.
    destruct (nth_error (c :: cs) i) as [sel|]; [|reflexivity].
    destruct (mcts_core.n sel =? 0)%Z.
    + destruct (randomRollout pos0 agentColor g) as [r g']. reflexivity.
    + fold iterate.
      destruct (iterate mctsn agentColor sel g) as [[[r sel'] g']|];
        reflexivity.
Qed.


Lemma firstUnvisited_bound (cs : list mcts_core.node) :
  forall k i, mcts_core.firstUnvisited cs k = Some i ->
              (k <= i < k + List.length cs)%nat.
Proof.
  induction cs as [|c cs IH]; intros k i H; simpl in H; [discriminate|].
  destruct (mcts_core.n c =? 0)%Z.
  - inversion H. simpl. lia.
  - apply IH in H. simpl. lia.
Qed.

Lemma maxUCB_loop_bound (mctsn : Z) (cs : list mcts_core.node) :
  forall i maxUCB bestChild,
    let r := mcts_core.maxUCB_loop Sqrt Log mctsn cs i maxUCB bestChild in
    r = bestChild \/ (i <= r < i + List.length cs)%nat.
Proof.
  induction cs as [|c cs IH]; intros i maxUCB best; simpl; [left; reflexivity|].
  destruct (Qltb maxUCB (mcts_core.calcUCB Sqrt Log mctsn c)).
  - destruct (IH (S i) (mcts_core.calcUCB Sqrt Log mctsn c) i) as [H|H];
      right; lia.
  - destruct (IH (S i) maxUCB best) as [H|H]; [left; exact H|right; lia].
Qed.

(** [selectNode] panics on an empty child list only, and otherwise returns
    the index of a child. *)
Lemma selectNode_some (mctsn : Z) (cs : list mcts_core.node) :
  cs <> [] ->
  exists i sel, mcts_core.selectNode Sqrt Log mctsn cs = Some i
                /\ nth_error cs i = Some sel.
Proof.
  intros Hne. unfold mcts_core.selectNode.
  destruct (mcts_core.firstUnvisited cs 0) as [i|] eqn:Hf.
  - apply firstUnvisited_bound in Hf.
    destruct (nth_error cs i) as [sel|] eqn:Hn.
    + exists i, sel. split; [reflexivity|exact Hn].
    + apply nth_error_None in Hn. lia.
  - destruct cs as [|c cs]; [contradiction|].
    set (i := mcts_core.maxUCB_loop Sqrt Log mctsn (c :: cs) 0
                                    (- MaxFloat64)%Q 0%nat).
    assert (Hi : (i < List.length (c :: cs))%nat).
    { destruct (maxUCB_loop_bound mctsn (c :: cs) 0 (- MaxFloat64)%Q 0%nat)
        as [H|H]; fold i in H; simpl in *; lia. }
    destruct (nth_error (c :: cs) i) as [sel|] eqn:Hn.
    + exists i, sel. split; [reflexivity|exact Hn].
    + apply nth_error_None in Hn. lia.
Qed.

Lemma expanded_nonempty (t : mcts_core.node) :
  sane E -> nonTerminal E t -> mcts_core.children (expanded E t) <> [].
Proof.
  intros Hsane [Hm Hs]. unfold expanded.
  destruct (mcts_core.children t) as [|c cs] eqn:Hcs; simpl.
  - unfold mcts_core.fillInChildren. simpl. rewrite Hcs. simpl.
    destruct (GenerateLegalMoves E (mcts_core.pos t)) eqn:Hl.
    + apply Hsane in Hl. rewrite Hm, Hs in Hl. discriminate.
    + simpl. discriminate.
  - rewrite Hcs. discriminate.
Qed.

(** In a sane engine [iterate] never panics. *)
Lemma iterate_total (mctsn : Z) (agentColor : Color) :
  sane E ->
  forall t g, iterate mctsn agentColor t g <> None.
Proof.
  intros Hsane t. induction t as [w0 n0 mov0 pos0 cs IH] using node_ind'.
  intros g. rewrite iterate_unfold. unfold mcts_core.iterate_body.
  set (t := mcts_core.Node w0 n0 mov0 pos0 cs).
  fold (expanded E t).
  change (mcts_core.pos t) with pos0.
  destruct (IsCheckMate E pos0 && negb (Color_eqb (Turn pos0) agentColor));
    [discriminate|].
  destruct (IsStaleMate E pos0 || IsCheckMate E pos0) eqn:Hterm;
    [discriminate|].
  apply orb_false_iff in Hterm. destruct Hterm as [Hs Hm].
  destruct (selectNode_some mctsn (mcts_core.children (expanded E t)))
    as (i & sel & Hsel & Hnth).
  { apply expanded_nonempty; [exact Hsane|split; assumption]. }
  rewrite Hsel, Hnth.
  destruct (mcts_core.n sel =? 0)%Z eqn:Hn.
  - destruct (randomRollout (mcts_core.pos (expanded E t)) agentColor g).
    discriminate.
  - assert (Hin : In sel cs).
    { unfold expanded in Hnth. simpl in Hnth.
      destruct cs as [|c cs']; simpl in Hnth.
      - apply nth_error_In in Hnth.
        apply (fillInChildren_fresh E t sel eq_refl) in Hnth.
        destruct Hnth as (H0 & _). rewrite H0 in Hn. discriminate.
      - apply nth_error_In in Hnth. exact Hnth. }
    rewrite Forall_forall in IH. specialize (IH sel Hin g).
    destruct (iterate mctsn agentColor sel g) as [[[r sel'] g']|];
      [discriminate|contradiction].
Qed.

(** One call of [iterate] on a node that is not terminal leaves the
    node's own [w], [n], move and position alone and replaces exactly one
    child of the (expanded) node. *)
Lemma iterate_frame (mctsn : Z) (agentColor : Color) (t : mcts_core.node)
      (g : mcts_core.Rand) r t' g' :
  nonTerminal E t ->
  iterate mctsn agentColor t g = Some (r, t', g') ->
  mcts_core.w t' = mcts_core.w t
  /\ mcts_core.n t' = mcts_core.n t
  /\ mcts_core.mov t' = mcts_core.mov t
  /\ mcts_core.pos t' = mcts_core.pos t
  /\ exists i, forall j, j <> i ->
       nth_error (mcts_core.children t') j
       = nth_error (mcts_core.children (expanded E t)) j.
Proof.
  intros [Hm Hs] H. rewrite iterate_unfold in H.
  unfold mcts_core.iterate_body in H. rewrite Hm, Hs in H. simpl in H.
  fold (expanded E t) in H.
  destruct (mcts_core.selectNode Sqrt Log mctsn
              (mcts_core.children (expanded E t))) as [i|]; [|discriminate].
  destruct (nth_error (mcts_core.children (expanded E t)) i) as [sel|];
    [|discriminate].
  assert (Hsame : mcts_core.w (expanded E t) = mcts_core.w t
                  /\ mcts_core.n (expanded E t) = mcts_core.n t
                  /\ mcts_core.mov (expanded E t) = mcts_core.mov t
                  /\ mcts_core.pos (expanded E t) = mcts_core.pos t).
  { unfold expanded.
    destruct (Nat.eqb (List.length (mcts_core.children t)) 0); simpl; auto. }
  destruct Hsame as (Hw & Hn & Hmov & Hpos).
  destruct (if (mcts_core.n sel =? 0)%Z
            then let '(result, g'0) :=
                   randomRollout (mcts_core.pos (expanded E t)) agentColor g in
                 Some (result, sel, g'0)
            else iterate mctsn agentColor sel g) as [[[r0 sel'] g0]|];
    [|discriminate].
  inversion H; subst. simpl. repeat split; try assumption.
  exists i. intros j Hj. apply nth_error_replace_nth_other. congruence.
Qed.

Lemma expanded_cases (t : mcts_core.node) :
  (mcts_core.children t = []
   /\ forall c, In c (mcts_core.children (expanded E t)) ->
                mcts_core.n c = 0%Z /\ mcts_core.w c = 0%Q
                /\ mcts_core.children c = [])
  \/ (mcts_core.children t <> [] /\ expanded E t = t).
Proof.
  unfold expanded. destruct (mcts_core.children t) as [|c cs] eqn:Hcs.
  - left. split; [reflexivity|]. simpl. intros c Hin.
    apply (fillInChildren_fresh E t c Hcs Hin).
  - right. split; [discriminate|reflexivity].
Qed.

Lemma expanded_fields (t : mcts_core.node) :
  mcts_core.w (expanded E t) = mcts_core.w t
  /\ mcts_core.n (expanded E t) = mcts_core.n t
  /\ mcts_core.mov (expanded E t) = mcts_core.mov t
  /\ mcts_core.pos (expanded E t) = mcts_core.pos t.
Proof.
  unfold expanded.
  destruct (Nat.eqb (List.length (mcts_core.children t)) 0); simpl; auto.
Qed.

(** One call of [iterate] on a node that is not terminal, in full: the
    child at the index that [selectNode] returns is replaced by the
    back-propagated result of its own step (the rollout from the position
    of [t] if that child was unvisited, the recursive call otherwise);
    nothing else of the expanded node changes. *)
Lemma iterate_path (mctsn : Z) (agentColor : Color) (t : mcts_core.node)
      (g : mcts_core.Rand) r t' g' :
  nonTerminal E t ->
  iterate mctsn agentColor t g = Some (r, t', g') ->
  exists i sel sel',
    mcts_core.selectNode Sqrt Log mctsn (mcts_core.children (expanded E t))
    = Some i
    /\ nth_error (mcts_core.children (expanded E t)) i = Some sel
    /\ t' = mcts_core.Node
              (mcts_core.w t) (mcts_core.n t) (mcts_core.mov t)
              (mcts_core.pos t)
              (mcts_core.replace_nth i (mcts_core.backpropagate sel' r)
                                     (mcts_core.children (expanded E t)))
    /\ (if (mcts_core.n sel =? 0)%Z
        then sel' = sel
             /\ randomRollout (mcts_core.pos t) agentColor g = (r, g')
        else iterate mctsn agentColor sel g = Some (r, sel', g')).
Proof.
  intros [Hm Hs] H. rewrite iterate_unfold in H.
  unfold mcts_core.iterate_body in H. rewrite Hm, Hs in H. simpl in H.
  fold (expanded E t) in H.
  destruct (expanded_fields t) as (Hw & Hn & Hmov & Hpos).
  destruct (mcts_core.selectNode Sqrt Log mctsn
              (mcts_core.children (expanded E t))) as [i|]; [|discriminate].
  destruct (nth_error (mcts_core.children (expanded E t)) i) as [sel|] eqn:Hnth;
    [|discriminate].
  exists i, sel.
  destruct (mcts_core.n sel =? 0)%Z.
  - rewrite Hpos in H.
    destruct (randomRollout (mcts_core.pos t) agentColor g) as [r0 g0].
    inversion H; subst. exists sel. rewrite Hw, Hn, Hmov.
    repeat split; first [reflexivity|assumption].
  - destruct (iterate mctsn agentColor sel g) as [[[r0 sel'] g0]|];
      [|discriminate].
    inversion H; subst. exists sel'. rewrite Hw, Hn, Hmov, Hpos.
    repeat split; first [reflexivity|assumption].
Qed.

(** One call of [iterate] on a terminal node: the node counts the visit
    itself, adding 1 to [w] when the position is a checkmate of the side
    that is not the agent's, draws nothing and keeps its children. *)
Lemma iterate_terminal (mctsn : Z) (agentColor : Color) (t : mcts_core.node)
      (g : mcts_core.Rand) r t' g' :
  IsCheckMate E (mcts_core.pos t) = true
  \/ IsStaleMate E (mcts_core.pos t) = true ->
  iterate mctsn agentColor t g = Some (r, t', g') ->
  g' = g
  /\ exists w',
       t' = mcts_core.Node w' (incr64 (mcts_core.n t)) (mcts_core.mov t)
                           (mcts_core.pos t) (mcts_core.children t)
       /\ (if IsCheckMate E (mcts_core.pos t)
              && negb (Color_eqb (Turn (mcts_core.pos t)) agentColor)
           then r = 1%Q /\ w' = (mcts_core.w t + 1)%Q
           else r = 0%Q /\ w' = mcts_core.w t).
Proof.
  intros Hterm H. rewrite iterate_unfold in H.
  unfold mcts_core.iterate_body in H.
  destruct (IsCheckMate E (mcts_core.pos t)
            && negb (Color_eqb (Turn (mcts_core.pos t)) agentColor)).
  - inversion H; subst. split; [reflexivity|]. eexists. split; [reflexivity|].
    split; reflexivity.
  - assert (Ht : IsStaleMate E (mcts_core.pos t)
                 || IsCheckMate E (mcts_core.pos t) = true).
    { apply orb_true_iff. tauto. }
    rewrite Ht in H. inversion H; subst. split; [reflexivity|].
    eexists. split; [reflexivity|]. split; reflexivity.
Qed.

(** The tree that [iterate] returns is the tree it was given with the
    result back-propagated along the selection path. *)
Lemma iterate_creditedAlong (mctsn : Z) (agentColor : Color) :
  forall t g r t' g',
    iterate mctsn agentColor t g = Some (r, t', g') ->
    creditedAlong E Sqrt Log mctsn r t t'.
Proof.
  intros t. induction t as [w0 n0 mov0 pos0 cs IH] using node_ind'.
  intros g r t' g' H.
  set (t := mcts_core.Node w0 n0 mov0 pos0 cs) in *.
  destruct (IsCheckMate E (mcts_core.pos t)) eqn:Hm.
  { destruct (iterate_terminal mctsn agentColor t g r t' g'
                (or_introl Hm) H) as (_ & w' & Ht' & Hw).
    subst t'. apply credited_terminal; [left; exact Hm|].
    destruct (_ && _) in Hw; [left|right]; exact Hw. }
  destruct (IsStaleMate E (mcts_core.pos t)) eqn:Hs.
  { destruct (iterate_terminal mctsn agentColor t g r t' g'
                (or_intror Hs) H) as (_ & w' & Ht' & Hw).
    subst t'. apply credited_terminal; [right; exact Hs|].
    destruct (_ && _) in Hw; [left|right]; exact Hw. }
  assert (Hnt : nonTerminal E t) by (split; assumption).
  destruct (iterate_path mctsn agentColor t g r t' g' Hnt H)
    as (i & sel & sel' & Hsel & Hnth & Ht' & Hstep).
  subst t'.
  destruct (mcts_core.n sel =? 0)%Z eqn:Hn.
  - destruct Hstep as [Heq _]. subst sel'.
    apply (credited_first_visit E Sqrt Log mctsn r t i sel Hnt Hsel Hnth).
    apply Z.eqb_eq. exact Hn.
  - apply Z.eqb_neq in Hn.
    apply (credited_below E Sqrt Log mctsn r t i sel sel' Hnt Hsel Hnth Hn).
    assert (Hin : In sel cs).
    { destruct (expanded_cases t) as [[_ Hfresh]|[_ Hsame]].
      - apply nth_error_In in Hnth. apply Hfresh in Hnth.
        destruct Hnth as (H0 & _). contradiction.
      - rewrite Hsame in Hnth. apply nth_error_In in Hnth. exact Hnth. }
    rewrite Forall_forall in IH. apply (IH sel Hin g r sel' g' Hstep).
Qed.

End Trees.

Lemma Inv_nonneg (t : mcts_core.node) : Inv t -> (0 <= mcts_core.n t)%Z.
Proof.
  intros H. inversion H; subst. simpl. rewrite Zle_Qle.
  change (inject_Z 0) with 0%Q. apply Qle_trans with (y := w); assumption.
Qed.

Lemma Grown_refl (t : mcts_core.node) : Grown t t.
Proof.
  induction t as [w n mov pos cs IH] using node_ind'.
  constructor; [lia|]. right.
  induction IH; constructor; assumption.
Qed.

Lemma Forall2_Grown_refl (cs : list mcts_core.node) : Forall2 Grown cs cs.
Proof.
  induction cs; constructor; [apply Grown_refl|assumption].
Qed.

Lemma inject_Z_incr64 (n : Z) :
  (0 <= n < MaxInt64)%Z -> (inject_Z (incr64 n) == inject_Z n + 1)%Q.
Proof.
  intros H. rewrite incr64_small by (unfold MaxInt64 in *; lia).
  rewrite inject_Z_plus. reflexivity.
Qed.

Lemma backpropagate_keeps (sel sel' : mcts_core.node) (r : Q) :
  Inv sel' -> Grown sel sel' ->
  (mcts_core.n sel' < MaxInt64)%Z ->
  (0 <= r)%Q -> (r <= 1)%Q ->
  Inv (mcts_core.backpropagate sel' r)
  /\ Grown sel (mcts_core.backpropagate sel' r).
Proof.
  intros HInv HG Hlt Hr0 Hr1.
  pose proof (Inv_nonneg _ HInv) as Hn.
  pose proof (inject_Z_incr64 (mcts_core.n sel') (conj Hn Hlt)) as Hinj.
  unfold mcts_core.backpropagate. split.
  - inversion HInv; subst. simpl in *. constructor; [lra|lra|assumption].
  - inversion HG; subst. simpl in *. constructor; [|assumption].
    rewrite incr64_small by (unfold MaxInt64 in *; lia). lia.
Qed.

Lemma Below_mono (B B' : Z) (t : mcts_core.node) :
  (B <= B')%Z -> Below B t -> Below B' t.
Proof.
  intros HB. induction t as [w n mov pos cs IH] using node_ind'.
  intros H. inversion H as [? ? ? ? ? Hn Hcs]; subst.
  constructor; [lia|].
  rewrite Forall_forall in *. intros c Hc. apply (IH c Hc). apply (Hcs c Hc).
Qed.

Lemma Grown_trans (t1 : mcts_core.node) :
  forall t2 t3, Grown t1 t2 -> Grown t2 t3 -> Grown t1 t3.
Proof.
  induction t1 as [w1 n1 mov1 pos1 cs1 IH] using node_ind'.
  intros t2 t3 H12 H23.
  inversion H12 as [? ? ? ? ? w2 n2 mov2 pos2 cs2 Hn12 Hc12]; subst.
  inversion H23 as [? ? ? ? ? w3 n3 mov3 pos3 cs3 Hn23 Hc23]; subst.
  constructor; [lia|].
  destruct Hc12 as [Hnil|Hc12]; [left; exact Hnil|].
  destruct Hc23 as [Hnil|Hc23].
  - subst cs2. inversion Hc12. left. reflexivity.
  - right. clear Hn12 Hn23 H12 H23.
    revert cs3 Hc23. induction Hc12 as [|c1 c2 cs1 cs2 Hc Hcs IHcs];
      intros cs3 Hc23; inversion Hc23; subst; constructor.
    + inversion IH; subst. eauto.
    + apply IHcs; [inversion IH; subst; assumption|assumption].
Qed.

Section Invariant.

Variable E : RulesEngine.
Variables Sqrt Log : Q -> Q.
Variable randomRollout : Position -> Color -> mcts_core.Rand -> Q * mcts_core.Rand.
Hypothesis rollout_reward :
  forall p agentColor g, isReward (fst (randomRollout p agentColor g)).

Let iterate := mcts_core.iterate E Sqrt Log randomRollout.

(** One call of [iterate] on a tree that satisfies the invariant and whose
    counters are at most [B], itself at least 2 below the largest int64:
    the result is between 0 and 1, the invariant holds again, no counter
    of the tree went down, the counter of the node itself went up by at
    most 1 and no counter exceeds [B + 2]. *)
Lemma iterate_keeps (mctsn : Z) (agentColor : Color) (B : Z) :
  (B <= MaxInt64 - 2)%Z ->
  forall t,
    Inv t -> Below B t ->
    forall g r t' g',
      iterate mctsn agentColor t g = Some (r, t', g') ->
      (0 <= r)%Q /\ (r <= 1)%Q /\ Inv t' /\ Grown t t'
      /\ (mcts_core.n t' <= mcts_core.n t + 1)%Z
      /\ Below (B + 2) t'.
Proof.
  intros HB t. induction t as [w0 n0 mov0 pos0 cs IH] using node_ind'.
  intros HInv HBelow g r t' g' H. unfold iterate in *.
  pose proof (Inv_nonneg _ HInv) as Hn0. simpl in Hn0.
  inversion HInv as [? ? ? ? ? Hw0 Hwn HInvs]; subst.
  inversion HBelow as [? ? ? ? ? Hb HBelows]; subst.
  assert (Hinj : (inject_Z (incr64 n0) == inject_Z n0 + 1)%Q).
  { apply inject_Z_incr64. unfold MaxInt64 in *. lia. }
  assert (Hinc : incr64 n0 = (n0 + 1)%Z).
  { apply incr64_small. unfold MaxInt64 in *. lia. }
  assert (HBelows' : Forall (Below (B + 2)) cs).
  { rewrite Forall_forall in *. intros c Hc.
    apply (Below_mono B); [lia|auto]. }
  rewrite (iterate_unfold E Sqrt Log randomRollout) in H.
  unfold mcts_core.iterate_body in H.
  set (t := mcts_core.Node w0 n0 mov0 pos0 cs) in *.
  fold (expanded E t) in H.
  change (mcts_core.pos t) with pos0 in H.
  change (mcts_core.w t) with w0 in H.
  change (mcts_core.n t) with n0 in H.
  change (mcts_core.mov t) with mov0 in H.
  change (mcts_core.children t) with cs in H.
  destruct (IsCheckMate E pos0 && negb (Color_eqb (Turn pos0) agentColor)).
  { injection H as Hr' Ht' Hg'. subst r t' g'. simpl.
    split; [lra|]. split; [lra|]. split; [|split; [|split]].
    - constructor; [lra|lra|assumption].
    - constructor; [lia|right; apply Forall2_Grown_refl].
    - lia.
    - constructor; [lia|assumption]. }
  destruct (IsStaleMate E pos0 || IsCheckMate E pos0).
  { injection H as Hr' Ht' Hg'. subst r t' g'. simpl.
    split; [lra|]. split; [lra|]. split; [|split; [|split]].
    - constructor; [lra|lra|assumption].
    - constructor; [lia|right; apply Forall2_Grown_refl].
    - lia.
    - constructor; [lia|assumption]. }
  destruct (mcts_core.selectNode Sqrt Log mctsn
              (mcts_core.children (expanded E t))) as [i|]; [|discriminate].
  destruct (nth_error (mcts_core.children (expanded E t)) i) as [sel|] eqn:Hnth;
    [|discriminate].
  destruct (expanded_fields E t) as (Hew & Hen & Hemov & Hepos).
  rewrite Hew, Hen, Hemov, Hepos in H.
  change (mcts_core.pos t) with pos0 in H.
  change (mcts_core.w t) with w0 in H.
  change (mcts_core.n t) with n0 in H.
  change (mcts_core.mov t) with mov0 in H.
  (* what is known of the children selected from *)
  assert (Hkids :
            Forall Inv (mcts_core.children (expanded E t))
            /\ Forall (Below B) (mcts_core.children (expanded E t))
            /\ (cs = [] \/ mcts_core.children (expanded E t) = cs)).
  { destruct (expanded_cases E t) as [[Hcs Hfresh]|[Hcs Hsame]].
    - change (mcts_core.children t) with cs in Hcs.
      split; [|split; [|left; exact Hcs]]; apply Forall_forall; intros c Hc;
        destruct (Hfresh c Hc) as (Hcn & Hcw & Hcc);
        destruct c as [cw cn cmov cpos ccs]; simpl in Hcn, Hcw, Hcc;
        subst cn cw ccs.
      + constructor; [lra| |constructor].
        change (inject_Z 0) with 0%Q. lra.
      + constructor; [lia|constructor].
    - rewrite Hsame. change (mcts_core.children t) with cs.
      split; [assumption|split; [assumption|right; reflexivity]]. }
  destruct Hkids as (HkInv & HkBelow & Hkcs).
  pose proof (nth_error_In _ _ Hnth) as Hin.
  assert (HselInv : Inv sel) by (rewrite Forall_forall in HkInv; auto).
  assert (HselBelow : Below B sel)
    by (rewrite Forall_forall in HkBelow; auto).
  (* the selected child after the rollout or the recursive call *)
  assert (Hstep : exists sel',
             t' = mcts_core.Node w0 n0 mov0 pos0
                    (mcts_core.replace_nth
                       i (mcts_core.backpropagate sel' r)
                       (mcts_core.children (expanded E t)))
             /\ (0 <= r)%Q /\ (r <= 1)%Q /\ Inv sel' /\ Grown sel sel'
             /\ (mcts_core.n sel' <= mcts_core.n sel + 1)%Z
             /\ Below (B + 2) sel').
  { destruct (mcts_core.n sel =? 0)%Z eqn:Hseln.
    - pose proof (rollout_reward pos0 agentColor g) as Hr.
      destruct (randomRollout pos0 agentColor g) as [r0 g0].
      injection H as Hr' Ht' Hg'. subst r0 t' g0.
      simpl in Hr. apply isReward_range in Hr.
      exists sel. repeat split; try tauto; try apply Grown_refl; try lia.
      apply (Below_mono B); [lia|exact HselBelow].
    - assert (Hsel_cs : In sel cs).
      { destruct (expanded_cases E t) as [[Hcs Hfresh]|[Hcs Hsame]].
        - destruct (Hfresh sel Hin) as (Hz & _). rewrite Hz in Hseln.
          discriminate.
        - rewrite Hsame in Hin. exact Hin. }
      rewrite Forall_forall in IH.
      destruct (mcts_core.iterate E Sqrt Log randomRollout mctsn agentColor
                  sel g) as [[[r0 sel'] g0]|] eqn:Hrec; [|discriminate].
      injection H as Hr' Ht' Hg'. subst r0 t' g0.
      destruct (IH sel Hsel_cs HselInv HselBelow g r sel' g' Hrec)
        as (Hr0 & Hr1 & Hi & Hg & Hle & Hbel).
      exists sel'. repeat split; assumption. }
  destruct Hstep as (sel' & Ht' & Hr0 & Hr1 & HInv' & HG' & Hle & Hbel').
  assert (Hselle : (mcts_core.n sel <= B)%Z).
  { inversion HselBelow; subst. simpl. assumption. }
  assert (Hsel'lt : (mcts_core.n sel' < MaxInt64)%Z).
  { unfold MaxInt64 in *. lia. }
  destruct (backpropagate_keeps sel sel' r HInv' HG' Hsel'lt Hr0 Hr1)
    as (HbInv & HbG).
  assert (HbBelow : Below (B + 2) (mcts_core.backpropagate sel' r)).
  { pose proof (Inv_nonneg _ HInv') as Hn'.
    inversion Hbel' as [? ? ? ? ? Hbn Hbcs]; subst.
    unfold mcts_core.backpropagate. simpl in *. constructor; [|assumption].
    rewrite incr64_small by (unfold MaxInt64 in *; lia). lia. }
  subst t'. simpl.
  split; [exact Hr0|]. split; [exact Hr1|]. split; [|split; [|split]].
  - constructor; [assumption|assumption|].
    apply Forall_replace_nth; assumption.
  - constructor; [lia|].
    destruct Hkcs as [Hcs|Hcs]; [left; exact Hcs|right].
    rewrite Hcs in *.
    apply (Forall2_replace_nth Grown cs i sel); auto using Forall2_Grown_refl.
  - lia.
  - constructor; [lia|].
    apply Forall_replace_nth; [|exact HbBelow].
    rewrite Forall_forall in *. intros c Hc.
    apply (Below_mono B); [lia|auto].
Qed.

End Invariant.

Lemma Inv_average (t : mcts_core.node) :
  Inv t -> (0 < mcts_core.n t)%Z ->
  (0 <= mcts_core.w t / inject_Z (mcts_core.n t))%Q
  /\ (mcts_core.w t / inject_Z (mcts_core.n t) <= 1)%Q.
Proof.
  intros H Hn. inversion H as [w n ? ? ? Hw Hwn _]; subst. simpl in *.
  assert (Hpos : (0 < inject_Z n)%Q).
  { change 0%Q with (inject_Z 0). rewrite <- Zlt_Qlt. exact Hn. }
  split.
  - apply Qle_shift_div_l; [exact Hpos|]. lra.
  - apply Qle_shift_div_r; [exact Hpos|]. lra.
Qed.

Lemma concurrentIterate_step_keeps
      (E : RulesEngine) (Sqrt Log : Q -> Q) (readFirst : bool)
      (agentColor : Color) (B mctsn : Z) (t : mcts_core.node)
      (g : mcts_core.Rand) :
  (B <= MaxInt64 - 2)%Z ->
  Inv t -> Below B t ->
  match mcts_parallel.concurrentIterate_step E Sqrt Log readFirst
          agentColor (mctsn, t, g) with
  | Some (_, t', _) => Inv t' /\ Grown t t' /\ Below (B + 2) t'
  | None => True
  end.
Proof.
  intros HB HInv HBelow. unfold mcts_parallel.concurrentIterate_step.
  destruct (mcts_parallel.iterate E Sqrt Log mctsn agentColor t g)
    as [[[r t1] g1]|] eqn:Hit; [|exact I].
  destruct (iterate_keeps E Sqrt Log (mcts_parallel.randomRollout E)
              (fun p a g0 => parallel_rollout_isReward E _ p a g0)
              mctsn agentColor B HB t HInv HBelow g r t1 g1 Hit)
    as (Hr0 & Hr1 & HInv1 & HG & Hle & Hbel).
  pose proof (Inv_nonneg _ HInv1) as Hn1.
  assert (Hlt : (mcts_core.n t1 < MaxInt64)%Z).
  { inversion HBelow; subst. simpl in *. unfold MaxInt64 in *. lia. }
  pose proof (inject_Z_incr64 _ (conj Hn1 Hlt)) as Hinj.
  assert (Hinc : incr64 (mcts_core.n t1) = (mcts_core.n t1 + 1)%Z).
  { apply incr64_small. unfold MaxInt64 in *. lia. }
  inversion HInv as [w0 n0 ? ? ? Hw0 Hwn0 _]; subst.
  inversion HInv1 as [w1 n1 ? ? ? Hw1 Hwn1 HInvs1]; subst.
  inversion HG as [? ? ? ? ? ? ? ? ? ? Hnn Hcs]; subst.
  inversion HBelow as [? ? ? ? ? Hb0 _]; subst.
  inversion Hbel as [? ? ? ? ? _ Hbcs]; subst.
  simpl in *. split; [|split].
  - constructor; [destruct readFirst; lra| |assumption].
    assert (Hq : (inject_Z n0 <= inject_Z n1)%Q) by (rewrite <- Zle_Qle; lia).
    destruct readFirst; lra.
  - constructor; [lia|assumption].
  - constructor; [lia|assumption].
Qed.

(** C7.  Take a tree in which [0 <= w <= n] holds at every node and whose
    counters are at least 2 below the largest int64.  After one call of
    [iterate], in the single-tree and in the parallel-root revision, and
    after one round of [concurrentIterate] (in either evaluation order of
    [n.w += mcts.iterate(n, agentColor)]), [0 <= w <= n] holds at every
    node again and no node's [n] is smaller than before ([Grown]).  In a
    sane rules engine none of the three panics.  Where the invariant holds
    and [n > 0], the average [w / n] lies between 0 and 1. *)
Theorem visits_and_rewards_invariant
        (E : RulesEngine) (Sqrt Log : Q -> Q) (readFirst : bool)
        (mctsn : Z) (agentColor : Color) (t : mcts_core.node)
        (g : mcts_core.Rand) :
  Inv t -> Below (MaxInt64 - 2) t ->
  keeps t (mcts_single.iterate E Sqrt Log mctsn agentColor t g)
  /\ keeps t (mcts_parallel.iterate E Sqrt Log mctsn agentColor t g)
  /\ keeps t (mcts_parallel.concurrentIterate_step
                E Sqrt Log readFirst agentColor (mctsn, t, g))
  /\ (sane E ->
      mcts_single.iterate E Sqrt Log mctsn agentColor t g <> None
      /\ mcts_parallel.iterate E Sqrt Log mctsn agentColor t g <> None
      /\ mcts_parallel.concurrentIterate_step
           E Sqrt Log readFirst agentColor (mctsn, t, g) <> None)
  /\ (forall u, Inv u -> (0 < mcts_core.n u)%Z ->
                (0 <= mcts_core.w u / inject_Z (mcts_core.n u))%Q
                /\ (mcts_core.w u / inject_Z (mcts_core.n u) <= 1)%Q).
Proof.
  intros HInv HBelow. split; [|split; [|split; [|split]]].
  - unfold keeps.
    destruct (mcts_single.iterate E Sqrt Log mctsn agentColor t g)
      as [[[r t1] g1]|] eqn:Hit; [|exact I].
    destruct (iterate_keeps E Sqrt Log (mcts_single.randomRollout E)
                (fun p a g0 => single_rollout_isReward E _ p a g0)
                mctsn agentColor (MaxInt64 - 2) (Z.le_refl _)
                t HInv HBelow g r t1 g1 Hit)
      as (_ & _ & HInv1 & HG & _).
    split; assumption.
  - unfold keeps.
    destruct (mcts_parallel.iterate E Sqrt Log mctsn agentColor t g)
      as [[[r t1] g1]|] eqn:Hit; [|exact I].
    destruct (iterate_keeps E Sqrt Log (mcts_parallel.randomRollout E)
                (fun p a g0 => parallel_rollout_isReward E _ p a g0)
                mctsn agentColor (MaxInt64 - 2) (Z.le_refl _)
                t HInv HBelow g r t1 g1 Hit)
      as (_ & _ & HInv1 & HG & _).
    split; assumption.
  - pose proof (concurrentIterate_step_keeps E Sqrt Log readFirst agentColor
                  (MaxInt64 - 2) mctsn t g (Z.le_refl _) HInv HBelow) as Hk.
    unfold keeps.
    destruct (mcts_parallel.concurrentIterate_step E Sqrt Log readFirst
                agentColor (mctsn, t, g)) as [[[N t'] g']|]; [|exact I].
    destruct Hk as (Hi & Hg & _). split; assumption.
  - intros Hsane. split; [|split].
    + apply iterate_total. exact Hsane.
    + apply iterate_total. exact Hsane.
    + unfold mcts_parallel.concurrentIterate_step.
      pose proof (iterate_total E Sqrt Log (mcts_parallel.randomRollout E)
                    mctsn agentColor Hsane t g) as Hne.
      unfold mcts_parallel.iterate.
      destruct (mcts_core.iterate E Sqrt Log (mcts_parallel.randomRollout E)
                  mctsn agentColor t g) as [[[r t1] g1]|];
        [discriminate|contradiction].
  - apply Inv_average.
Qed.

(** ** The iteration loops *)

Lemma repeat_step_add {A : Type} (step : A -> option A) (a b : nat) :
  forall st,
    mcts_core.repeat_step step (a + b) st
    = match mcts_core.repeat_step step a st with
      | Some st' => mcts_core.repeat_step step b st'
      | None => None
      end.
Proof.
  induction a as [|a IH]; intros st; simpl; [reflexivity|].
  destruct (step st) as [st1|]; [apply IH|reflexivity].
Qed.

Lemma repeat_step_mul {A : Type} (step : A -> option A) (a b : nat) :
  forall st,
    mcts_core.repeat_step (mcts_core.repeat_step step a) b st
    = mcts_core.repeat_step step (b * a) st.
Proof.
  induction b as [|b IH]; intros st; simpl; [reflexivity|].
  rewrite repeat_step_add.
  destruct (mcts_core.repeat_step step a st) as [st1|]; [apply IH|reflexivity].
Qed.

Lemma repeat_step_preserves {A : Type} (step : A -> option A)
      (P : A -> Prop) :
  (forall st st', P st -> step st = Some st' -> P st') ->
  forall k st st', P st -> mcts_core.repeat_step step k st = Some st' -> P st'.
Proof.
  intros Hstep k. induction k as [|k IH]; intros st st' HP H; simpl in H.
  - inversion H; subst. exact HP.
  - destruct (step st) as [st1|] eqn:H1; [|discriminate].
    apply (IH st1 st' (Hstep st st1 HP H1) H).
Qed.

Lemma repeat_step_total {A : Type} (step : A -> option A) :
  (forall st, step st <> None) ->
  forall k st, mcts_core.repeat_step step k st <> None.
Proof.
  intros Hstep k. induction k as [|k IH]; intros st; simpl; [discriminate|].
  destruct (step st) as [st1|] eqn:H1; [apply IH|].
  exfalso. apply (Hstep st H1).
Qed.

(** In a sane rules engine the iteration loop of the single-tree
    [GetMove] never panics. *)
Lemma GetMove_loop_total
      (E : RulesEngine) (Sqrt Log : Q -> Q) (batches : nat) (p : Position)
      (g : mcts_core.Rand) :
  sane E -> mcts_single.GetMove_loop E Sqrt Log batches p g <> None.
Proof.
  intros Hsane. unfold mcts_single.GetMove_loop.
  apply repeat_step_total. intros st. apply repeat_step_total.
  intros [[N t] g0]. unfold mcts_single.GetMove_step.
  pose proof (iterate_total E Sqrt Log (mcts_single.randomRollout E)
                N (Turn p) Hsane t g0) as Hne.
  unfold mcts_single.iterate.
  destruct (mcts_core.iterate E Sqrt Log (mcts_single.randomRollout E)
              N (Turn p) t g0) as [[[r t'] g']|];
    [discriminate|contradiction].
Qed.

(** ** The invariant along a whole search *)

(** A loop body that keeps the invariant and raises no counter by more
    than 2 keeps the invariant for as many rounds as the counters have
    room for. *)
Lemma repeat_step_keeps
      (step : Z * mcts_core.node * mcts_core.Rand ->
              option (Z * mcts_core.node * mcts_core.Rand)) :
  (forall B N t g,
      (B <= MaxInt64 - 2)%Z -> Inv t -> Below B t ->
      match step (N, t, g) with
      | Some (_, t', _) => Inv t' /\ Grown t t' /\ Below (B + 2) t'
      | None => True
      end) ->
  forall k B N t g,
    (B + 2 * Z.of_nat k <= MaxInt64)%Z -> Inv t -> Below B t ->
    match mcts_core.repeat_step step k (N, t, g) with
    | Some (_, t', _) =>
        Inv t' /\ Grown t t' /\ Below (B + 2 * Z.of_nat k) t'
    | None => True
    end.
Proof.
  intros Hstep k. induction k as [|k IH]; intros B N t g HB HInv HBelow.
  - simpl. split; [exact HInv|]. split; [apply Grown_refl|].
    apply (Below_mono B); [lia|exact HBelow].
  - cbn [mcts_core.repeat_step].
    pose proof (Hstep B N t g) as H1.
    destruct (step (N, t, g)) as [[[N1 t1] g1]|]; [|exact I].
    destruct H1 as (HInv1 & HG1 & HBelow1); [lia|exact HInv|exact HBelow|].
    pose proof (IH (B + 2)%Z N1 t1 g1) as H2.
    destruct (mcts_core.repeat_step step k (N1, t1, g1))
      as [[[N2 t2] g2]|]; [|exact I].
    destruct H2 as (HInv2 & HG2 & HBelow2); [lia|exact HInv1|exact HBelow1|].
    split; [exact HInv2|]. split; [apply (Grown_trans t t1 t2); assumption|].
    apply (Below_mono (B + 2 + 2 * Z.of_nat k)); [lia|exact HBelow2].
Qed.

Lemma GetMove_step_keeps
      (E : RulesEngine) (Sqrt Log : Q -> Q) (agentColor : Color)
      (B N : Z) (t : mcts_core.node) (g : mcts_core.Rand) :
  (B <= MaxInt64 - 2)%Z -> Inv t -> Below B t ->
  match mcts_single.GetMove_step E Sqrt Log agentColor (N, t, g) with
  | Some (_, t', _) => Inv t' /\ Grown t t' /\ Below (B + 2) t'
  | None => True
  end.
Proof.
  intros HB HI HBl.
  unfold mcts_single.GetMove_step, mcts_single.iterate.
  destruct (mcts_core.iterate E Sqrt Log (mcts_single.randomRollout E)
              N agentColor t g) as [[[r t1] g1]|] eqn:Hit; [|exact I].
  destruct (iterate_keeps E Sqrt Log (mcts_single.randomRollout E)
              (fun p0 a g2 => single_rollout_isReward E _ p0 a g2)
              N agentColor B HB t HI HBl g r t1 g1 Hit)
    as (_ & _ & HI' & HG' & _ & HB').
  auto.
Qed.

(** X5.  Along a whole call of [GetMove]: from the tree each loop starts with,
    through any number of batches that the int64 counters have room for,
    [0 <= w <= n] holds at every node of the tree the loop leaves, and no
    node's [n] is smaller than at the start: for the loop of the
    single-tree revision on its root, and for [concurrentIterate] of the
    parallel-root revision on the child it is given. *)
Theorem invariant_throughout_the_search
        (E : RulesEngine) (Sqrt Log : Q -> Q) (readFirst : bool)
        (batches : nat) (p : Position) (move : Move) (agentColor : Color)
        (g : mcts_core.Rand) :
  (200 * Z.of_nat batches <= MaxInt64)%Z ->
  keeps (mcts_core.Node 0 0 noMove p [])
        (mcts_single.GetMove_loop E Sqrt Log batches p g)
  /\ keeps (mcts_core.Node 0 0 move p [])
           (mcts_parallel.concurrentIterate
              E Sqrt Log readFirst batches
              (mcts_core.Node 0 0 move p []) agentColor g).
Proof.
  intros Hroom.
  assert (Hstart : forall mv, Inv (mcts_core.Node 0 0 mv p [])
                              /\ Below 0 (mcts_core.Node 0 0 mv p [])).
  { intros mv. split; constructor; try constructor; try lia; try lra.
    change (inject_Z 0) with 0%Q. lra. }
  split.
  - unfold mcts_single.GetMove_loop. cbv zeta. rewrite repeat_step_mul.
    destruct (Hstart noMove) as [HInv HBelow].
    pose proof (repeat_step_keeps
                  (mcts_single.GetMove_step E Sqrt Log (Turn p))
                  (fun B N t g0 =>
                     GetMove_step_keeps E Sqrt Log (Turn p) B N t g0)
                  (batches * mcts_core.iterationsBetweenTimeChecks)%nat
                  0%Z 0%Z (mcts_core.Node 0 0 noMove p []) g) as Hrun.
    unfold keeps.
    destruct (mcts_core.repeat_step
                (mcts_single.GetMove_step E Sqrt Log (Turn p))
                (batches * mcts_core.iterationsBetweenTimeChecks)
                (0%Z, mcts_core.Node 0 0 noMove p [], g))
      as [[[N t] g']|]; [|exact I].
    destruct Hrun as (HI & HG & _);
      [unfold mcts_core.iterationsBetweenTimeChecks; lia|exact HInv
      |exact HBelow|].
    split; assumption.
  - unfold mcts_parallel.concurrentIterate. rewrite repeat_step_mul.
    destruct (Hstart move) as [HInv HBelow].
    pose proof (repeat_step_keeps
                  (mcts_parallel.concurrentIterate_step
                     E Sqrt Log readFirst agentColor)
                  (fun B N t g0 =>
                     concurrentIterate_step_keeps
                       E Sqrt Log readFirst agentColor B N t g0)
                  (batches * mcts_core.iterationsBetweenTimeChecks)%nat
                  0%Z 0%Z (mcts_core.Node 0 0 move p []) g) as Hrun.
    unfold keeps.
    destruct (mcts_core.repeat_step
                (mcts_parallel.concurrentIterate_step
                   E Sqrt Log readFirst agentColor)
                (batches * mcts_core.iterationsBetweenTimeChecks)
                (0%Z, mcts_core.Node 0 0 move p [], g))
      as [[[N t] g']|]; [|exact I].
    destruct Hrun as (HI & HG & _);
      [unfold mcts_core.iterationsBetweenTimeChecks; lia|exact HInv
      |exact HBelow|].
    split; assumption.
Qed.

(** The rounds of the inner loop of the single-tree [GetMove], one after
    the other: each back-propagates its result along the selection path of
    the tree it finds. *)
Lemma GetMove_steps_iterated
      (E : RulesEngine) (Sqrt Log : Q -> Q) (agentColor : Color) (k : nat) :
  forall N t g N' t' g',
    mcts_core.repeat_step (mcts_single.GetMove_step E Sqrt Log agentColor)
                          k (N, t, g)
    = Some (N', t', g') ->
    iterated E Sqrt Log k N t t'.
Proof.
  induction k as [|k IH]; intros N t g N' t' g' H; simpl in H.
  - inversion H; subst. constructor.
  - unfold mcts_single.iterate in H.
    destruct (mcts_core.iterate E Sqrt Log (mcts_single.randomRollout E)
                N agentColor t g) as [[[r t1] g1]|] eqn:Hit; [|discriminate].
    apply (iterated_more E Sqrt Log k N r t t1 t').
    + apply (iterate_creditedAlong E Sqrt Log (mcts_single.randomRollout E)
               N agentColor t g r t1 g1 Hit).
    + apply (IH _ _ _ _ _ _ H).
Qed.

(** C8.  From a root position that is neither checkmate nor stalemate,
    whatever the number of batches, the root that the iteration loop of
    the single-tree [GetMove] leaves has [n = 0] and [w = 0] (and still
    the null move and the position [p]); in a sane rules engine the loop
    does complete.  Each call of [iterate] on a node that is not terminal
    leaves that node's own [w] and [n] alone; of the children of the
    expanded node it replaces the one at the index that [selectNode]
    returns, and no other: that child gets [n + 1] and [w + result] after
    its own step, which is the rollout from the node's position if the
    child was unvisited (the child is then otherwise as it was) and the
    recursive call of [iterate] on the child if not.  A terminal node
    counts the visit itself (adding 1 to its [w] when the position is a
    checkmate of the side that is not the agent's) and keeps its children.  So every call
    back-propagates its result along the selection path ([creditedAlong]),
    and the tree after the loop is the initial root after one such step
    per iteration ([iterated]). *)
Theorem root_visit_counter_stays_zero
        (E : RulesEngine) (Sqrt Log : Q -> Q) (p : Position)
        (batches : nat) (g : mcts_core.Rand) :
  IsCheckMate E p = false -> IsStaleMate E p = false ->
  (forall mctsn parentNode g',
      mcts_single.GetMove_loop E Sqrt Log batches p g
      = Some (mctsn, parentNode, g') ->
      mcts_core.n parentNode = 0%Z
      /\ mcts_core.w parentNode = 0%Q
      /\ mcts_core.mov parentNode = noMove
      /\ mcts_core.pos parentNode = p)
  /\ (sane E -> mcts_single.GetMove_loop E Sqrt Log batches p g <> None)
  /\ (forall mctsn agentColor t g0 r t' g',
         nonTerminal E t ->
         mcts_single.iterate E Sqrt Log mctsn agentColor t g0
         = Some (r, t', g') ->
         mcts_core.w t' = mcts_core.w t
         /\ mcts_core.n t' = mcts_core.n t
         /\ exists i sel sel',
              mcts_core.selectNode Sqrt Log mctsn
                                   (mcts_core.children (expanded E t))
              = Some i
              /\ nth_error (mcts_core.children (expanded E t)) i = Some sel
              /\ mcts_core.children t'
                 = mcts_core.replace_nth
                     i (mcts_core.backpropagate sel' r)
                     (mcts_core.children (expanded E t))
              /\ nth_error (mcts_core.children t') i
                 = Some (mcts_core.backpropagate sel' r)
              /\ (forall j, j <> i ->
                    nth_error (mcts_core.children t') j
                    = nth_error (mcts_core.children (expanded E t)) j)
              /\ (if (mcts_core.n sel =? 0)%Z
                  then sel' = sel
                       /\ mcts_single.randomRollout E (mcts_core.pos t)
                                                    agentColor g0
                          = (r, g')
                  else mcts_single.iterate E Sqrt Log mctsn agentColor sel g0
                       = Some (r, sel', g')))
  /\ (forall mctsn agentColor t g0 r t' g',
         IsCheckMate E (mcts_core.pos t) = true
         \/ IsStaleMate E (mcts_core.pos t) = true ->
         mcts_single.iterate E Sqrt Log mctsn agentColor t g0
         = Some (r, t', g') ->
         mcts_core.n t' = incr64 (mcts_core.n t)
         /\ mcts_core.children t' = mcts_core.children t
         /\ g' = g0
         /\ (if IsCheckMate E (mcts_core.pos t)
                && negb (Color_eqb (Turn (mcts_core.pos t)) agentColor)
             then r = 1%Q /\ mcts_core.w t' = (mcts_core.w t + 1)%Q
             else r = 0%Q /\ mcts_core.w t' = mcts_core.w t))
  /\ (forall mctsn agentColor t g0 r t' g',
         mcts_single.iterate E Sqrt Log mctsn agentColor t g0
         = Some (r, t', g') ->
         creditedAlong E Sqrt Log mctsn r t t')
  /\ (forall mctsn parentNode g',
         mcts_single.GetMove_loop E Sqrt Log batches p g
         = Some (mctsn, parentNode, g') ->
         iterated E Sqrt Log
                  (batches * mcts_core.iterationsBetweenTimeChecks) 0%Z
                  (mcts_core.Node 0 0 noMove p []) parentNode).
Proof.
  intros Hm Hs. split; [|split; [|split; [|split; [|split]]]].
  - set (P := fun st : Z * mcts_core.node * mcts_core.Rand =>
                mcts_core.n (snd (fst st)) = 0%Z
                /\ mcts_core.w (snd (fst st)) = 0%Q
                /\ mcts_core.mov (snd (fst st)) = noMove
                /\ mcts_core.pos (snd (fst st)) = p).
    assert (Hstep : forall st st', P st ->
              mcts_single.GetMove_step E Sqrt Log (Turn p) st = Some st' ->
              P st').
    { intros [[N t] g0] st' (Hn & Hw & Hmov & Hpos) H. simpl in *.
      unfold mcts_single.GetMove_step, mcts_single.iterate in H.
      destruct (mcts_core.iterate E Sqrt Log (mcts_single.randomRollout E)
                  N (Turn p) t g0) as [[[r t'] g']|] eqn:Hit;
        [|discriminate].
      inversion H; subst st'.
      assert (Hnt : nonTerminal E t) by (unfold nonTerminal; rewrite Hpos; auto).
      destruct (iterate_frame E Sqrt Log (mcts_single.randomRollout E)
                  N (Turn p) t g0 r t' g' Hnt Hit)
        as (Hw' & Hn' & Hmov' & Hpos' & _).
      unfold P. simpl. repeat split; congruence. }
    intros mctsn parentNode g' Hrun.
    apply (repeat_step_preserves
             (mcts_core.repeat_step
                (mcts_single.GetMove_step E Sqrt Log (Turn p))
                mcts_core.iterationsBetweenTimeChecks)
             P
             (repeat_step_preserves _ P Hstep
                mcts_core.iterationsBetweenTimeChecks)
             batches _ _) in Hrun.
    + exact Hrun.
    + unfold P. simpl. auto.
  - intros Hsane. apply GetMove_loop_total. exact Hsane.
  - intros mctsn agentColor t g0 r t' g' Hnt Hit.
    destruct (iterate_path E Sqrt Log (mcts_single.randomRollout E)
                mctsn agentColor t g0 r t' g' Hnt Hit)
      as (i & sel & sel' & Hsel & Hnth & Ht' & Hstep).
    subst t'. cbn [mcts_core.w mcts_core.n mcts_core.children].
    split; [reflexivity|]. split; [reflexivity|].
    exists i, sel, sel'.
    split; [exact Hsel|]. split; [exact Hnth|]. split; [reflexivity|].
    split; [apply (nth_error_replace_nth_same _ _ _ _ Hnth)|].
    split; [|exact Hstep].
    intros j Hj. apply nth_error_replace_nth_other. congruence.
  - intros mctsn agentColor t g0 r t' g' Hterm Hit.
    destruct (iterate_terminal E Sqrt Log (mcts_single.randomRollout E)
                mctsn agentColor t g0 r t' g' Hterm Hit)
      as (Hg & w' & Ht' & Hw).
    subst t'. cbn [mcts_core.w mcts_core.n mcts_core.children].
    split; [reflexivity|]. split; [reflexivity|]. split; [exact Hg|exact Hw].
  - intros mctsn agentColor t g0 r t' g' Hit.
    apply (iterate_creditedAlong E Sqrt Log (mcts_single.randomRollout E)
             mctsn agentColor t g0 r t' g' Hit).
  - intros mctsn parentNode g' Hrun.
    unfold mcts_single.GetMove_loop in Hrun. cbv zeta in Hrun.
    rewrite repeat_step_mul in Hrun.
    apply (GetMove_steps_iterated E Sqrt Log (Turn p) _ _ _ _ _ _ _ Hrun).
Qed.

Lemma selectNode_singleton (Sqrt Log : Q -> Q) (mctsn : Z) (c : mcts_core.node) :
  mcts_core.selectNode Sqrt Log mctsn [c] = Some 0%nat.
Proof.
  unfold mcts_core.selectNode. simpl.
  destruct (mcts_core.n c =? 0)%Z; [reflexivity|]. simpl.
  destruct (Qltb (- MaxFloat64) (mcts_core.calcUCB Sqrt Log mctsn c));
    reflexivity.
Qed.

(** The visit counter of a terminal child that is the root's only child:
    1 after the first iteration and 2 more with every later one. *)
Section OnlyMoveEndsTheGame.

Variable E : RulesEngine.
Variables Sqrt Log : Q -> Q.
Variables (p : Position) (m : Move).

Let q := Position_Move E p m.

Hypothesis root_not_checkmate : IsCheckMate E p = false.
Hypothesis root_not_stalemate : IsStaleMate E p = false.
Hypothesis only_move : GenerateLegalMoves E p = [m].
Hypothesis child_terminal : IsCheckMate E q || IsStaleMate E q = true.

(** The state of the loop of [GetMove] after [j] iterations. *)
Let after (j : nat) (st : Z * mcts_core.node * mcts_core.Rand) : Prop :=
  fst (fst st) = Z.of_nat j
  /\ exists wq,
      snd (fst st)
      = mcts_core.Node 0 0 noMove p
          [mcts_core.Node wq (2 * Z.of_nat j - 1) m q []].

Lemma first_iteration (g : mcts_core.Rand) :
  exists st',
    mcts_single.GetMove_step E Sqrt Log (Turn p)
      (0%Z, mcts_core.Node 0 0 noMove p [], g) = Some st'
    /\ after 1 st'.
Proof.
  unfold mcts_single.GetMove_step, mcts_single.iterate.
  rewrite iterate_unfold. unfold mcts_core.iterate_body.
  cbn [mcts_core.pos mcts_core.children mcts_core.w mcts_core.n mcts_core.mov
       List.length Nat.eqb].
  rewrite root_not_checkmate, root_not_stalemate.
  cbn [andb orb].
  unfold mcts_core.fillInChildren.
  cbn [mcts_core.pos mcts_core.children mcts_core.w mcts_core.n mcts_core.mov].
  rewrite only_move. cbn [map app]. fold q.
  rewrite selectNode_singleton.
  cbn [nth_error mcts_core.n Z.eqb].
  destruct (mcts_single.randomRollout E p (Turn p) g) as [r g'].
  eexists. split; [reflexivity|].
  unfold after. cbn [fst snd]. split; [reflexivity|].
  eexists. reflexivity.
Qed.

Lemma next_iteration (j : nat) (st : Z * mcts_core.node * mcts_core.Rand) :
  (1 <= j)%nat -> (2 * Z.of_nat j + 2 < MaxInt64)%Z ->
  after j st ->
  exists st',
    mcts_single.GetMove_step E Sqrt Log (Turn p) st = Some st'
    /\ after (S j) st'.
Proof.
  intros Hj Hsmall. destruct st as [[N t] g]. intros [HN [wq Ht]].
  cbn [fst snd] in HN, Ht. subst N t.
  assert (Hnz : (2 * Z.of_nat j - 1 =? 0)%Z = false)
    by (apply Z.eqb_neq; lia).
  unfold mcts_single.GetMove_step, mcts_single.iterate.
  rewrite iterate_unfold. unfold mcts_core.iterate_body.
  cbn [mcts_core.pos mcts_core.children mcts_core.w mcts_core.n mcts_core.mov
       List.length Nat.eqb].
  rewrite root_not_checkmate, root_not_stalemate. cbn [andb orb].
  rewrite selectNode_singleton.
  cbn [nth_error mcts_core.n]. rewrite Hnz.
  rewrite iterate_unfold. unfold mcts_core.iterate_body.
  cbn [mcts_core.pos mcts_core.children mcts_core.w mcts_core.n mcts_core.mov].
  assert (Hinc : incr64 (incr64 (2 * Z.of_nat j - 1))
                 = (2 * Z.of_nat (S j) - 1)%Z).
  { rewrite (incr64_small (2 * Z.of_nat j - 1))
      by (unfold MaxInt64 in *; lia).
    rewrite incr64_small by (unfold MaxInt64 in *; lia). lia. }
  assert (HN : incr64 (Z.of_nat j) = Z.of_nat (S j)).
  { rewrite incr64_small; unfold MaxInt64 in *; lia. }
  destruct (IsCheckMate E q && negb (Color_eqb (Turn q) (Turn p))).
  - eexists. split; [reflexivity|].
    unfold after. cbn [fst snd]. split; [exact HN|].
    eexists. unfold mcts_core.backpropagate.
    cbn [mcts_core.replace_nth mcts_core.pos mcts_core.children mcts_core.w
         mcts_core.n mcts_core.mov].
    rewrite Hinc. reflexivity.
  - replace (IsStaleMate E q || IsCheckMate E q) with true
      by (rewrite orb_comm; symmetry; exact child_terminal).
    eexists. split; [reflexivity|].
    unfold after. cbn [fst snd]. split; [exact HN|].
    eexists. unfold mcts_core.backpropagate.
    cbn [mcts_core.replace_nth mcts_core.pos mcts_core.children mcts_core.w
         mcts_core.n mcts_core.mov].
    rewrite Hinc. reflexivity.
Qed.

Lemma later_iterations (k : nat) :
  forall j st,
    (1 <= j)%nat -> (2 * Z.of_nat (j + k) < MaxInt64)%Z ->
    after j st ->
    exists st',
      mcts_core.repeat_step (mcts_single.GetMove_step E Sqrt Log (Turn p)) k st
      = Some st'
      /\ after (j + k) st'.
Proof.
  induction k as [|k IH]; intros j st Hj Hsmall Hst; simpl.
  - exists st. rewrite Nat.add_0_r. split; [reflexivity|exact Hst].
  - destruct (next_iteration j st Hj) as (st1 & H1 & Hst1);
      [lia|exact Hst|].
    rewrite H1. replace (j + S k)%nat with (S j + k)%nat by lia.
    apply IH; [lia|lia|exact Hst1].
Qed.

(** After [batches >= 1] batches, that is [100 * batches] iterations, the
    only child of the root has been credited with
    [2 * (100 * batches) - 1] visits. *)
Lemma only_child_counted_twice (batches : nat) (g : mcts_core.Rand) :
  (1 <= batches)%nat -> (200 * Z.of_nat batches < MaxInt64)%Z ->
  exists parentNode g',
    mcts_single.GetMove_loop E Sqrt Log batches p g
    = Some (100 * Z.of_nat batches, parentNode, g')%Z
    /\ sumVisits (mcts_core.children parentNode)
       = (2 * (100 * Z.of_nat batches) - 1)%Z.
Proof.
  intros Hb Hsmall. unfold mcts_single.GetMove_loop.
  rewrite repeat_step_mul.
  unfold mcts_core.iterationsBetweenTimeChecks.
  destruct (batches * 100)%nat as [|k] eqn:Hk; [lia|].
  cbn [mcts_core.repeat_step].
  destruct (first_iteration g) as (st1 & H1 & Hst1). rewrite H1.
  destruct (later_iterations k 1 st1) as ([[N t] g'] & Hrun & HN & wq & Ht);
    [lia|lia|exact Hst1|].
  cbn [fst snd] in HN, Ht. rewrite Hrun.
  exists t, g'. split.
  - f_equal. f_equal. f_equal. lia.
  - rewrite Ht. cbn [mcts_core.children sumVisits fold_right mcts_core.n]. lia.
Qed.

End OnlyMoveEndsTheGame.

(** C3, on the code.  At the position 4R3/8/8/8/8/8/3R2PP/1k2r2K w
    ([table.mateInOneGame]), whose only legal move mates, one batch of the
    single-tree [GetMove] completes 100 iterations and leaves the root's
    only child with [n = 199]: a terminal child that is selected again is
    incremented in [iterate]'s terminal branch and once more by the
    caller. *)
Theorem root_children_visits_exceed_iterations
        (Sqrt Log : Q -> Q) (g : mcts_core.Rand) :
  exists parentNode g',
    mcts_single.GetMove_loop (table.engine table.mateInOneGame) Sqrt Log 1
                             (table.position table.mateInOneGame 0) g
    = Some (100%Z, parentNode, g')
    /\ sumVisits (mcts_core.children parentNode) = 199%Z.
Proof.
  destruct (only_child_counted_twice
              (table.engine table.mateInOneGame) Sqrt Log
              (table.position table.mateInOneGame 0) (table.mv 60 4)
              eq_refl eq_refl eq_refl eq_refl 1 g)
    as (parentNode & g' & Hrun & Hsum); [lia|vm_compute; reflexivity|].
  exists parentNode, g'. split; [exact Hrun|exact Hsum].
Qed.

(** ** MCTS on a position with a single legal move *)

Lemma iterate_same_node
      (E : RulesEngine) (Sqrt Log : Q -> Q)
      (randomRollout : Position -> Color -> mcts_core.Rand -> Q * mcts_core.Rand)
      (mctsn : Z) (agentColor : Color) (t : mcts_core.node)
      (g : mcts_core.Rand) r t' g' :
  mcts_core.iterate E Sqrt Log randomRollout mctsn agentColor t g
  = Some (r, t', g') ->
  mcts_core.mov t' = mcts_core.mov t /\ mcts_core.pos t' = mcts_core.pos t.
Proof.
  intros H. rewrite iterate_unfold in H. unfold mcts_core.iterate_body in H.
  destruct (IsCheckMate E (mcts_core.pos t)
            && negb (Color_eqb (Turn (mcts_core.pos t)) agentColor)).
  { inversion H; subst. simpl. auto. }
  destruct (IsStaleMate E (mcts_core.pos t) || IsCheckMate E (mcts_core.pos t)).
  { inversion H; subst. simpl. auto. }
  fold (expanded E t) in H.
  destruct (expanded_fields E t) as (_ & _ & Hmov & Hpos).
  destruct (mcts_core.selectNode Sqrt Log mctsn
              (mcts_core.children (expanded E t))) as [i|]; [|discriminate].
  destruct (nth_error (mcts_core.children (expanded E t)) i) as [sel|];
    [|discriminate].
  destruct (if (mcts_core.n sel =? 0)%Z
            then let '(result, g'0) :=
                   randomRollout (mcts_core.pos (expanded E t)) agentColor g in
                 Some (result, sel, g'0)
            else mcts_core.iterate E Sqrt Log randomRollout mctsn agentColor
                                   sel g) as [[[r0 sel'] g0]|];
    [|discriminate].
  inversion H; subst. simpl. auto.
Qed.

Lemma iterate_single_child
      (E : RulesEngine) (Sqrt Log : Q -> Q)
      (randomRollout : Position -> Color -> mcts_core.Rand -> Q * mcts_core.Rand)
      (mctsn : Z) (agentColor : Color) (t c : mcts_core.node)
      (g : mcts_core.Rand) r t' g' :
  nonTerminal E t ->
  mcts_core.children (expanded E t) = [c] ->
  mcts_core.iterate E Sqrt Log randomRollout mctsn agentColor t g
  = Some (r, t', g') ->
  exists c', mcts_core.children t' = [c']
             /\ mcts_core.mov c' = mcts_core.mov c.
Proof.
  intros [Hm Hs] Hc H. rewrite iterate_unfold in H.
  unfold mcts_core.iterate_body in H. rewrite Hm, Hs in H. simpl in H.
  fold (expanded E t) in H. rewrite Hc in H.
  rewrite selectNode_singleton in H. simpl in H.
  destruct (mcts_core.n c =? 0)%Z.
  - destruct (randomRollout (mcts_core.pos (expanded E t)) agentColor g)
      as [r0 g0].
    inversion H; subst. simpl. eexists. split; reflexivity.
  - destruct (mcts_core.iterate E Sqrt Log randomRollout mctsn agentColor c g)
      as [[[r0 c'] g0]|] eqn:Hit; [|discriminate].
    apply iterate_same_node in Hit. destruct Hit as [Hmov _].
    inversion H; subst. simpl. eexists. split; [reflexivity|exact Hmov].
Qed.

Lemma bestMove_single_child (t c : mcts_core.node) :
  mcts_core.children t = [c] -> mcts_core.bestMove t = Some (mcts_core.mov c).
Proof.
  intros H. unfold mcts_core.bestMove. rewrite H. simpl.
  destruct (Qltb (- MaxFloat64) (mcts_core.w c / inject_Z (mcts_core.n c)));
    reflexivity.
Qed.

(** X4.  With a single legal move [m] at a root that is not terminal, both
    revisions of [Mcts.GetMove] return [m] in a sane rules engine: the
    single-tree revision once a batch has run, the parallel-root revision
    for any number of batches. *)
Theorem mcts_returns_the_only_legal_move
        (E : RulesEngine) (Sqrt Log : Q -> Q) (readFirst : bool)
        (p : Position) (m : Move) :
  sane E ->
  IsCheckMate E p = false -> IsStaleMate E p = false ->
  GenerateLegalMoves E p = [m] ->
  (forall batches g,
      (1 <= batches)%nat ->
      mcts_single.GetMove E Sqrt Log batches p g = Some m)
  /\ (forall batches rands,
         mcts_parallel.GetMove E Sqrt Log readFirst batches rands p = Some m).
Proof.
  intros Hsane Hm Hs Hmoves. split.
  - intros batches g Hb.
    set (R := fun st : Z * mcts_core.node * mcts_core.Rand =>
                mcts_core.pos (snd (fst st)) = p
                /\ (mcts_core.children (snd (fst st)) = []
                    \/ exists c, mcts_core.children (snd (fst st)) = [c]
                                 /\ mcts_core.mov c = m)).
    set (R' := fun st : Z * mcts_core.node * mcts_core.Rand =>
                 mcts_core.pos (snd (fst st)) = p
                 /\ exists c, mcts_core.children (snd (fst st)) = [c]
                              /\ mcts_core.mov c = m).
    assert (Hstep : forall st st', R st ->
              mcts_single.GetMove_step E Sqrt Log (Turn p) st = Some st' ->
              R' st').
    { intros [[N t] g0] st' [Hpos Hkids] H. cbn [fst snd] in Hpos, Hkids.
      unfold mcts_single.GetMove_step, mcts_single.iterate in H.
      destruct (mcts_core.iterate E Sqrt Log (mcts_single.randomRollout E)
                  N (Turn p) t g0) as [[[r t'] g']|] eqn:Hit;
        [|discriminate].
      inversion H; subst st'. unfold R'. cbn [fst snd].
      assert (Hnt : nonTerminal E t) by (unfold nonTerminal; rewrite Hpos; auto).
      destruct (iterate_same_node _ _ _ _ _ _ _ _ _ _ _ Hit) as [_ Hpos'].
      split; [congruence|].
      assert (Hexp : exists c, mcts_core.children (expanded E t) = [c]
                               /\ mcts_core.mov c = m).
      { unfold expanded. destruct Hkids as [Hnil|(c & Hc & Hmc)].
        - rewrite Hnil. simpl. unfold mcts_core.fillInChildren. simpl.
          rewrite Hnil, Hpos, Hmoves. simpl. eexists. split; reflexivity.
        - rewrite Hc. simpl. exists c. rewrite Hc. auto. }
      destruct Hexp as (c & Hc & Hmc).
      destruct (iterate_single_child _ _ _ _ _ _ _ _ _ _ _ _ Hnt Hc Hit)
        as (c' & Hc' & Hmc').
      exists c'. split; [exact Hc'|congruence]. }
    assert (HR'R : forall st, R' st -> R st).
    { intros st [Hpos Hc]. split; [exact Hpos|right; exact Hc]. }
    unfold mcts_single.GetMove.
    destruct (mcts_single.GetMove_loop E Sqrt Log batches p g)
      as [[[N t] g']|] eqn:Hrun.
    + unfold mcts_single.GetMove_loop in Hrun.
      rewrite repeat_step_mul in Hrun.
      unfold mcts_core.iterationsBetweenTimeChecks in Hrun.
      destruct (batches * 100)%nat as [|k] eqn:Hk; [lia|].
      cbn [mcts_core.repeat_step] in Hrun.
      destruct (mcts_single.GetMove_step E Sqrt Log (Turn p)
                  (0%Z, mcts_core.Node 0 0 noMove p [], g))
        as [st1|] eqn:H1; [|discriminate].
      assert (HR1 : R' st1).
      { apply (Hstep _ st1) in H1; [exact H1|].
        unfold R. cbn [fst snd mcts_core.pos mcts_core.children]. auto. }
      apply (repeat_step_preserves _ R'
               (fun st st' HP H => Hstep st st' (HR'R st HP) H)
               k st1 _ HR1) in Hrun.
      destruct Hrun as [_ (c & Hc & Hmc)]. cbn [fst snd] in Hc.
      rewrite (bestMove_single_child t c Hc). congruence.
    + exfalso. apply (GetMove_loop_total E Sqrt Log batches p g Hsane Hrun).
  - intros batches rands.
    unfold mcts_parallel.GetMove, mcts_parallel.makeParentNode.
    rewrite Hmoves. cbn [mcts_parallel.makeParentNode_loop app].
    cbn [mcts_core.children mcts_core.w mcts_core.n mcts_core.mov mcts_core.pos].
    cbn [mcts_parallel.runChildren].
    set (S := fun st : Z * mcts_core.node * mcts_core.Rand =>
                mcts_core.mov (snd (fst st)) = m).
    assert (Hstep : forall st st', S st ->
              mcts_parallel.concurrentIterate_step
                E Sqrt Log readFirst (Turn p) st = Some st' -> S st').
    { intros [[N t] g0] st' HS H. unfold S in HS. cbn [fst snd] in HS.
      unfold mcts_parallel.concurrentIterate_step, mcts_parallel.iterate in H.
      destruct (mcts_core.iterate E Sqrt Log (mcts_parallel.randomRollout E)
                  N (Turn p) t g0) as [[[r t'] g']|] eqn:Hit;
        [|discriminate].
      inversion H; subst st'. unfold S. cbn [fst snd mcts_core.mov].
      destruct (iterate_same_node _ _ _ _ _ _ _ _ _ _ _ Hit) as [Hmov _].
      congruence. }
    assert (Htotal : forall st,
              mcts_parallel.concurrentIterate_step
                E Sqrt Log readFirst (Turn p) st <> None).
    { intros [[N t] g0].
      unfold mcts_parallel.concurrentIterate_step, mcts_parallel.iterate.
      pose proof (iterate_total E Sqrt Log (mcts_parallel.randomRollout E)
                    N (Turn p) Hsane t g0) as Hne.
      destruct (mcts_core.iterate E Sqrt Log (mcts_parallel.randomRollout E)
                  N (Turn p) t g0) as [[[r t'] g']|];
        [discriminate|contradiction]. }
    destruct (mcts_parallel.concurrentIterate E Sqrt Log readFirst
                (batches 0%nat) (mcts_core.Node 0 0 m p []) (Turn p)
                (rands 0%nat)) as [[[N t] g']|] eqn:Hrun.
    + unfold mcts_parallel.concurrentIterate in Hrun.
      apply (repeat_step_preserves _ S
               (repeat_step_preserves _ S Hstep
                  mcts_core.iterationsBetweenTimeChecks)
               (batches 0%nat)) in Hrun; [|reflexivity].
      unfold S in Hrun. cbn [fst snd] in Hrun.
      unfold mcts_core.bestMove.
      cbn [mcts_core.children mcts_core.bestMove_loop].
      destruct (Qltb (- MaxFloat64) (mcts_core.w t / inject_Z (mcts_core.n t)));
        congruence.
    + exfalso. unfold mcts_parallel.concurrentIterate in Hrun.
      revert Hrun. apply repeat_step_total. intros st.
      apply repeat_step_total. exact Htotal.
Qed.

(** ** Alpha-beta against minimax where no stalemate is in sight *)

Lemma inRange_spec (v : Q) :
  inRange v = true <-> (- MaxFloat64 <= v /\ v <= MaxFloat64)%Q.
Proof.
  unfold inRange. rewrite andb_true_iff, !Qle_bool_iff. reflexivity.
Qed.

Lemma MaxFloat64_pos : (- MaxFloat64 <= MaxFloat64)%Q.
Proof. unfold Qle. vm_compute. discriminate. Qed.

Section Pruning.

Variable E : RulesEngine.

Let ev := minmax.evaluate_threat E.

Lemma max_leaf_bounds (p : Position) (beta : Q) (moves : list Move) :
  forallb (fun move =>
             inRange (fst (alphabeta.evaluate E (Position_Move E p move))))
          moves = true ->
  forall h bm ba,
    (h <= MaxFloat64)%Q ->
    exists mv v,
      minmax.max_leaf E ev p moves h bm = Some (mv, v)
      /\ (h <= v)%Q /\ (v <= MaxFloat64)%Q
      /\ (snd (alphabeta.max_leaf E p beta moves h ba) = v
          \/ (beta < snd (alphabeta.max_leaf E p beta moves h ba)
              /\ snd (alphabeta.max_leaf E p beta moves h ba) <= v)%Q).
Proof.
  induction moves as [|move rest IH]; intros Hr h bm ba Hh;
    cbn [minmax.max_leaf alphabeta.max_leaf].
  - exists bm, h. repeat split; try lra. left. reflexivity.
  - cbn [forallb] in Hr. apply andb_true_iff in Hr. destruct Hr as [He Hr].
    apply inRange_spec in He. unfold ev, minmax.evaluate_threat.
    set (e := fst (alphabeta.evaluate E (Position_Move E p move))) in *.
    destruct (Qltb h e) eqn:Hlt.
    + apply Qltb_lt in Hlt.
      destruct (IH Hr e move move) as (mv & v & Hmm & Hev & Hv & Hab);
        [lra|].
      exists mv, v. split; [exact Hmm|]. split; [lra|]. split; [exact Hv|].
      destruct (Qltb beta e) eqn:Hcut.
      * apply Qltb_lt in Hcut. simpl. right. split; lra.
      * exact Hab.
    + apply Qltb_ge in Hlt.
      destruct (IH Hr h bm ba) as (mv & v & Hmm & Hev & Hv & Hab); [lra|].
      exists mv, v. split; [exact Hmm|]. split; [lra|]. split; [exact Hv|].
      destruct (Qltb beta h) eqn:Hcut.
      * apply Qltb_lt in Hcut. simpl. right. split; lra.
      * exact Hab.
Qed.

Lemma min_leaf_bounds (p : Position) (alpha : Q) (moves : list Move) :
  forallb (fun move =>
             inRange (fst (alphabeta.evaluate E (Position_Move E p move))))
          moves = true ->
  forall l bm ba,
    (- MaxFloat64 <= l)%Q ->
    exists mv v,
      minmax.min_leaf E ev p moves l bm = Some (mv, v)
      /\ (v <= l)%Q /\ (- MaxFloat64 <= v)%Q
      /\ (snd (alphabeta.min_leaf E p alpha moves l ba) = v
          \/ (v <= snd (alphabeta.min_leaf E p alpha moves l ba)
              /\ snd (alphabeta.min_leaf E p alpha moves l ba) < alpha)%Q).
Proof.
  induction moves as [|move rest IH]; intros Hr l bm ba Hl;
    cbn [minmax.min_leaf alphabeta.min_leaf].
  - exists bm, l. repeat split; try lra. left. reflexivity.
  - cbn [forallb] in Hr. apply andb_true_iff in Hr. destruct Hr as [He Hr].
    apply inRange_spec in He. unfold ev, minmax.evaluate_threat.
    set (e := fst (alphabeta.evaluate E (Position_Move E p move))) in *.
    destruct (Qltb e l) eqn:Hlt.
    + apply Qltb_lt in Hlt.
      destruct (IH Hr e move move) as (mv & v & Hmm & Hev & Hv & Hab);
        [lra|].
      exists mv, v. split; [exact Hmm|]. split; [lra|]. split; [exact Hv|].
      destruct (Qltb e alpha) eqn:Hcut.
      * apply Qltb_lt in Hcut. simpl. right. split; lra.
      * exact Hab.
    + apply Qltb_ge in Hlt.
      destruct (IH Hr l bm ba) as (mv & v & Hmm & Hev & Hv & Hab); [lra|].
      exists mv, v. split; [exact Hmm|]. split; [lra|]. split; [exact Hv|].
      destruct (Qltb l alpha) eqn:Hcut.
      * apply Qltb_lt in Hcut. simpl. right. split; lra.
      * exact Hab.
Qed.

(** The loops at positive depth, given the statement for the depth
    below. *)
Section Step.

Variable d : nat.

Hypothesis search_bounds :
  forall q alpha beta,
    (- MaxFloat64 <= alpha)%Q -> (alpha <= beta)%Q -> (beta <= MaxFloat64)%Q ->
    stalemateFree E d q = true ->
    exists mv v,
      minmax.search E ev d q = Some (mv, v)
      /\ (- MaxFloat64 <= v)%Q /\ (v <= MaxFloat64)%Q
      /\ bounds v (snd (alphabeta.search E d q alpha beta)) alpha beta.

Lemma child_cases (p : Position) (move : Move) (rest : list Move) :
  childrenInScope E d p (move :: rest) = true ->
  childrenInScope E d p rest = true
  /\ (IsCheckMate E (Position_Move E p move) = true
      \/ (IsCheckMate E (Position_Move E p move) = false
          /\ IsStaleMate E (Position_Move E p move) = false
          /\ stalemateFree E d (Position_Move E p move) = true)).
Proof.
  unfold childrenInScope. cbn [forallb]. intros H.
  apply andb_true_iff in H. destruct H as [H Hr]. split; [exact Hr|].
  destruct (IsCheckMate E (Position_Move E p move)); [left; reflexivity|].
  right. simpl in H. apply andb_true_iff in H. destruct H as [H1 H2].
  apply negb_true_iff in H1. auto.
Qed.

Lemma minmax_max_loop_total (p : Position) (moves : list Move) :
  childrenInScope E d p moves = true ->
  forall h bm,
    (h <= MaxFloat64)%Q ->
    exists mv v,
      minmax.max_loop E (minmax.search E ev d) p moves h bm = Some (mv, v)
      /\ (h <= v)%Q /\ (v <= MaxFloat64)%Q.
Proof.
  induction moves as [|move rest IH]; intros Hsc h bm Hh;
    cbn [minmax.max_loop].
  - exists bm, h. repeat split; lra.
  - destruct (child_cases p move rest Hsc) as [Hrest [Hmate|(Hmate & Hst & Hq)]];
      rewrite Hmate.
    + exists move, MaxFloat64. repeat split; lra.
    + rewrite Hst. cbn [andb].
      destruct (search_bounds (Position_Move E p move) (- MaxFloat64)
                  MaxFloat64 (Qle_refl _) MaxFloat64_pos (Qle_refl _) Hq)
        as (mvq & vq & Hs & Hlo & Hhi & _).
      rewrite Hs.
      destruct (Qltb h vq) eqn:Hlt.
      * apply Qltb_lt in Hlt.
        destruct (IH Hrest vq move Hhi) as (mv & v & Hm & Hv1 & Hv2).
        exists mv, v. repeat split; try assumption; lra.
      * destruct (IH Hrest h bm Hh) as (mv & v & Hm & Hv1 & Hv2).
        exists mv, v. repeat split; assumption.
Qed.

Lemma minmax_min_loop_total (p : Position) (moves : list Move) :
  childrenInScope E d p moves = true ->
  forall l bm,
    (- MaxFloat64 <= l)%Q ->
    exists mv v,
      minmax.min_loop E (minmax.search E ev d) p moves l bm = Some (mv, v)
      /\ (v <= l)%Q /\ (- MaxFloat64 <= v)%Q.
Proof.
  induction moves as [|move rest IH]; intros Hsc l bm Hl;
    cbn [minmax.min_loop].
  - exists bm, l. repeat split; lra.
  - destruct (child_cases p move rest Hsc) as [Hrest [Hmate|(Hmate & Hst & Hq)]];
      rewrite Hmate.
    + exists move, (- MaxFloat64)%Q. repeat split; lra.
    + rewrite Hst. cbn [andb].
      destruct (search_bounds (Position_Move E p move) (- MaxFloat64)
                  MaxFloat64 (Qle_refl _) MaxFloat64_pos (Qle_refl _) Hq)
        as (mvq & vq & Hs & Hlo & Hhi & _).
      rewrite Hs.
      destruct (Qltb vq l) eqn:Hlt.
      * apply Qltb_lt in Hlt.
        destruct (IH Hrest vq move Hlo) as (mv & v & Hm & Hv1 & Hv2).
        exists mv, v. repeat split; try assumption; lra.
      * destruct (IH Hrest l bm Hl) as (mv & v & Hm & Hv1 & Hv2).
        exists mv, v. repeat split; assumption.
Qed.

Ltac qtests :=
  repeat match goal with
         | H : Qltb _ _ = true |- _ => apply Qltb_lt in H
         | H : Qltb _ _ = false |- _ => apply Qltb_ge in H
         end.

Lemma max_loop_bounds (p : Position) (alpha0 beta : Q) (moves : list Move) :
  (- MaxFloat64 <= alpha0)%Q -> (alpha0 <= beta)%Q -> (beta <= MaxFloat64)%Q ->
  childrenInScope E d p moves = true ->
  forall hm ha alpha bm ba,
    (hm <= MaxFloat64)%Q ->
    ha = hm \/ (hm <= ha /\ ha < alpha0)%Q ->
    (alpha0 <= alpha)%Q -> (ha <= alpha)%Q ->
    (alpha <= alpha0 \/ alpha <= ha)%Q ->
    (alpha <= beta)%Q ->
    exists mv v,
      minmax.max_loop E (minmax.search E ev d) p moves hm bm = Some (mv, v)
      /\ (hm <= v)%Q /\ (v <= MaxFloat64)%Q
      /\ bounds v
                (snd (alphabeta.max_loop E (alphabeta.search E d) p moves
                                         alpha beta ha ba))
                alpha0 beta.
Proof.
  intros Ha0 Hab Hb.
  induction moves as [|move rest IH];
    intros Hsc hm ha alpha bm ba Hhm HJ HA1 HA2 HA3 HA4;
    cbn [minmax.max_loop alphabeta.max_loop].
  - exists bm, hm. split; [reflexivity|]. split; [lra|]. split; [exact Hhm|].
    cbn [snd]. unfold bounds. destruct HJ as [HJ|HJ]; [left; exact HJ|].
    right. right. exact HJ.
  - destruct (child_cases p move rest Hsc) as [Hrest [Hmate|(Hmate & Hst & Hq)]];
      rewrite Hmate.
    { exists move, MaxFloat64. split; [reflexivity|]. split; [exact Hhm|].
      split; [lra|]. left. reflexivity. }
    rewrite Hst. cbn [andb].
    destruct (search_bounds (Position_Move E p move) alpha beta)
      as (mvq & vq & Hs & Hlo & Hhi & Hbq); [lra|lra|lra|exact Hq|].
    rewrite Hs.
    set (rq := snd (alphabeta.search E d (Position_Move E p move) alpha beta))
      in *.
    destruct HA3 as [HA3|HA3];
      (destruct HJ as [HJ|[HJ1 HJ2]];
       [assert (HJq : (ha == hm)%Q) by (rewrite HJ; reflexivity)|]);
      (destruct Hbq as [HB|[[HB1 HB2]|[HB1 HB2]]];
       [assert (HBq : (rq == vq)%Q) by (rewrite HB; reflexivity)| |]);
      destruct (Qltb hm vq) eqn:T1; destruct (Qltb ha rq) eqn:T2;
      cbv beta iota zeta;
      match goal with
      | |- context [Qltb beta ?h] => destruct (Qltb beta h) eqn:T3
      end;
      qtests; try (exfalso; lra).
    all: try match goal with
             | |- context [Qltb ?a ?h] => destruct (Qltb a h) eqn:T4
             end; qtests; try (exfalso; lra).
    all: match goal with
         | |- context [minmax.max_loop _ _ _ _ ?hmX ?bmX] =>
             match goal with
             | |- context [alphabeta.max_loop _ _ _ _ ?aX _ ?haX ?baX] =>
                 destruct (IH Hrest hmX haX aX bmX baX)
                   as (mv & v & Hm & Hv1 & Hv2 & Hbd);
                 [ lra
                 | first [ left; congruence | right; split; lra ]
                 | lra | lra
                 | first [ left; lra | right; lra ]
                 | lra
                 | exists mv, v; split; [exact Hm|]; split; [lra|];
                   split; [exact Hv2|exact Hbd] ]
             | _ =>
                 destruct (minmax_max_loop_total p rest Hrest hmX bmX)
                   as (mv & v & Hm & Hv1 & Hv2);
                 [ lra
                 | exists mv, v; split; [exact Hm|]; split; [lra|];
                   split; [exact Hv2|]; cbn [snd]; right; left; split; lra ]
             end
         end.
Qed.

Lemma min_loop_bounds (p : Position) (alpha beta0 : Q) (moves : list Move) :
  (- MaxFloat64 <= alpha)%Q -> (alpha <= beta0)%Q -> (beta0 <= MaxFloat64)%Q ->
  childrenInScope E d p moves = true ->
  forall lm la beta bm ba,
    (- MaxFloat64 <= lm)%Q ->
    la = lm \/ (la <= lm /\ beta0 < la)%Q ->
    (beta <= beta0)%Q -> (beta <= la)%Q ->
    (beta0 <= beta \/ la <= beta)%Q ->
    (alpha <= beta)%Q ->
    exists mv v,
      minmax.min_loop E (minmax.search E ev d) p moves lm bm = Some (mv, v)
      /\ (v <= lm)%Q /\ (- MaxFloat64 <= v)%Q
      /\ bounds v
                (snd (alphabeta.min_loop E (alphabeta.search E d) p moves
                                         alpha beta la ba))
                alpha beta0.
Proof.
  intros Ha Hab Hb0.
  induction moves as [|move rest IH];
    intros Hsc lm la beta bm ba Hlm HJ HA1 HA2 HA3 HA4;
    cbn [minmax.min_loop alphabeta.min_loop].
  - exists bm, lm. split; [reflexivity|]. split; [lra|]. split; [exact Hlm|].
    cbn [snd]. unfold bounds. destruct HJ as [HJ|HJ]; [left; exact HJ|].
    right. left. split; lra.
  - destruct (child_cases p move rest Hsc) as [Hrest [Hmate|(Hmate & Hst & Hq)]];
      rewrite Hmate.
    { exists move, (- MaxFloat64)%Q. split; [reflexivity|].
      split; [exact Hlm|]. split; [lra|]. left. reflexivity. }
    rewrite Hst. cbn [andb].
    destruct (search_bounds (Position_Move E p move) alpha beta)
      as (mvq & vq & Hs & Hlo & Hhi & Hbq); [lra|lra|lra|exact Hq|].
    rewrite Hs.
    set (rq := snd (alphabeta.search E d (Position_Move E p move) alpha beta))
      in *.
    destruct HA3 as [HA3|HA3];
      (destruct HJ as [HJ|[HJ1 HJ2]];
       [assert (HJq : (la == lm)%Q) by (rewrite HJ; reflexivity)|]);
      (destruct Hbq as [HB|[[HB1 HB2]|[HB1 HB2]]];
       [assert (HBq : (rq == vq)%Q) by (rewrite HB; reflexivity)| |]);
      destruct (Qltb vq lm) eqn:T1; destruct (Qltb rq la) eqn:T2;
      cbv beta iota zeta;
      match goal with
      | |- context [Qltb ?l alpha] => destruct (Qltb l alpha) eqn:T3
      end;
      qtests; try (exfalso; lra).
    all: try match goal with
             | |- context [Qltb ?l ?b] => destruct (Qltb l b) eqn:T4
             end; qtests; try (exfalso; lra).
    all: match goal with
         | |- context [minmax.min_loop _ _ _ _ ?lmX ?bmX] =>
             match goal with
             | |- context [alphabeta.min_loop _ _ _ _ _ ?bX ?laX ?baX] =>
                 destruct (IH Hrest lmX laX bX bmX baX)
                   as (mv & v & Hm & Hv1 & Hv2 & Hbd);
                 [ lra
                 | first [ left; congruence | right; split; lra ]
                 | lra | lra
                 | first [ left; lra | right; lra ]
                 | lra
                 | exists mv, v; split; [exact Hm|]; split; [lra|];
                   split; [exact Hv2|exact Hbd] ]
             | _ =>
                 destruct (minmax_min_loop_total p rest Hrest lmX bmX)
                   as (mv & v & Hm & Hv1 & Hv2);
                 [ lra
                 | exists mv, v; split; [exact Hm|]; split; [lra|];
                   split; [exact Hv2|]; cbn [snd]; right; right; split; lra ]
             end
         end.
Qed.

End Step.

Lemma bounds_of_cut_above (v r alpha beta : Q) :
  r = v \/ (beta < r /\ r <= v)%Q -> bounds v r alpha beta.
Proof. unfold bounds. tauto. Qed.

Lemma bounds_of_cut_below (v r alpha beta : Q) :
  r = v \/ (v <= r /\ r < alpha)%Q -> bounds v r alpha beta.
Proof. unfold bounds. tauto. Qed.

Lemma search_bounds_all (depth : nat) :
  forall q alpha beta,
    (- MaxFloat64 <= alpha)%Q -> (alpha <= beta)%Q -> (beta <= MaxFloat64)%Q ->
    stalemateFree E depth q = true ->
    exists mv v,
      minmax.search E ev depth q = Some (mv, v)
      /\ (- MaxFloat64 <= v)%Q /\ (v <= MaxFloat64)%Q
      /\ bounds v (snd (alphabeta.search E depth q alpha beta)) alpha beta.
Proof.
  induction depth as [|d IH]; intros q alpha beta Ha Hab Hb Hsc;
    cbn [minmax.search alphabeta.search stalemateFree] in *;
    destruct (Turn q).
  - exists noMove, 0%Q. split; [reflexivity|].
    split; [unfold Qle; vm_compute; discriminate|].
    split; [unfold Qle; vm_compute; discriminate|]. left. reflexivity.
  - destruct (max_leaf_bounds q beta (GenerateLegalMoves E q) Hsc
                (- MaxFloat64)%Q noMove noMove MaxFloat64_pos)
      as (mv & v & Hm & Hv1 & Hv2 & Hr).
    exists mv, v. split; [exact Hm|]. split; [exact Hv1|].
    split; [exact Hv2|]. apply bounds_of_cut_above. exact Hr.
  - destruct (min_leaf_bounds q alpha (GenerateLegalMoves E q) Hsc
                MaxFloat64 noMove noMove MaxFloat64_pos)
      as (mv & v & Hm & Hv1 & Hv2 & Hr).
    exists mv, v. split; [exact Hm|]. split; [exact Hv2|].
    split; [exact Hv1|]. apply bounds_of_cut_below. exact Hr.
  - exists noMove, 0%Q. split; [reflexivity|].
    split; [unfold Qle; vm_compute; discriminate|].
    split; [unfold Qle; vm_compute; discriminate|]. left. reflexivity.
  - destruct (max_loop_bounds d IH q alpha beta (GenerateLegalMoves E q)
                Ha Hab Hb Hsc (- MaxFloat64)%Q (- MaxFloat64)%Q alpha
                noMove noMove MaxFloat64_pos (or_introl eq_refl)
                (Qle_refl _) Ha (or_introl (Qle_refl _)) Hab)
      as (mv & v & Hm & Hv1 & Hv2 & Hr).
    exists mv, v. repeat split; assumption.
  - destruct (min_loop_bounds d IH q alpha beta (GenerateLegalMoves E q)
                Ha Hab Hb Hsc MaxFloat64 MaxFloat64 beta
                noMove noMove MaxFloat64_pos (or_introl eq_refl)
                (Qle_refl _) Hb (or_introl (Qle_refl _)) Hab)
      as (mv & v & Hm & Hv1 & Hv2 & Hr).
    exists mv, v. repeat split; assumption.
Qed.

End Pruning.

(** X1.  Where no stalemate lies within the horizon (and the leaf evaluations
    lie within [+-MaxFloat64]), [AlphaBeta]'s search, started as [GetMove]
    starts it, returns the score of [Minmax]'s search with the same
    (threat-count) evaluator. *)
Theorem alphabeta_equals_minmax_without_stalemate
        (E : RulesEngine) (depth : nat) (p : Position) :
  stalemateFree E depth p = true ->
  exists move score,
    minmax.search E (minmax.evaluate_threat E) depth p = Some (move, score)
    /\ snd (alphabeta.search E depth p (- MaxFloat64) MaxFloat64) = score.
Proof.
  intros H.
  destruct (search_bounds_all E depth p (- MaxFloat64)%Q MaxFloat64
              (Qle_refl _) MaxFloat64_pos (Qle_refl _) H)
    as (mv & v & Hm & Hv1 & Hv2 & [Hr|[[Hr1 Hr2]|[Hr1 Hr2]]]).
  - exists mv, v. split; [exact Hm|exact Hr].
  - exfalso. lra.
  - exfalso. lra.
Qed.

(** ** Instances *)

(** A rules engine given by a table is sane. *)
Lemma table_engine_sane (t : list table.Entry) : sane (table.engine t).
Proof.
  intros q H. simpl in *.
  destruct (table.moves (table.entry t (Rest q))); [|discriminate].
  destruct (table.checkmate (table.entry t (Rest q))); reflexivity.
Qed.

Lemma visits_and_rewards_invariant_witness :
  keeps (mcts_core.Node 1 2 noMove (table.position table.queenUpGame 0) [])
        (mcts_single.iterate (table.engine table.queenUpGame)
           (fun x => x) (fun x => x) 2 White
           (mcts_core.Node 1 2 noMove (table.position table.queenUpGame 0) [])
           table.zeros)
  /\ sane (table.engine table.queenUpGame).
Proof.
  split; [|apply table_engine_sane].
  refine (proj1 (visits_and_rewards_invariant
                   (table.engine table.queenUpGame) (fun x => x) (fun x => x)
                   true 2 White
                   (mcts_core.Node 1 2 noMove
                                   (table.position table.queenUpGame 0) [])
                   table.zeros _ _)).
  - constructor; [discriminate|discriminate|constructor].
  - constructor; [vm_compute; discriminate|constructor].
Defined.

Lemma root_visit_counter_stays_zero_witness :
  (forall mctsn parentNode g',
      mcts_single.GetMove_loop (table.engine table.queenUpGame)
                               (fun x => x) (fun x => x) 1
                               (table.position table.queenUpGame 0)
                               table.zeros
      = Some (mctsn, parentNode, g') ->
      (mcts_core.n parentNode = 0%Z
       /\ mcts_core.w parentNode = 0%Q
       /\ mcts_core.mov parentNode = noMove
       /\ mcts_core.pos parentNode = table.position table.queenUpGame 0)
      /\ iterated (table.engine table.queenUpGame) (fun x => x) (fun x => x)
                  100 0%Z
                  (mcts_core.Node 0 0 noMove
                                  (table.position table.queenUpGame 0) [])
                  parentNode)
  /\ mcts_single.GetMove_loop (table.engine table.queenUpGame)
                              (fun x => x) (fun x => x) 1
                              (table.position table.queenUpGame 0)
                              table.zeros
     <> None.
Proof.
  pose proof (root_visit_counter_stays_zero
                (table.engine table.queenUpGame) (fun x => x) (fun x => x)
                (table.position table.queenUpGame 0) 1 table.zeros
                eq_refl eq_refl) as (Hroot & Hruns & _ & _ & _ & Hpath).
  split.
  - intros mctsn parentNode g' Hrun.
    split; [apply (Hroot mctsn parentNode g' Hrun)
           |apply (Hpath mctsn parentNode g' Hrun)].
  - apply Hruns. apply table_engine_sane.
Defined.

(** ** The general statements behind the closed examples *)

(** X3.  In every rules engine: if the root is not terminal and its only legal
    move leads to a checkmate or stalemate position, then after
    [batches >= 1] batches of the single-tree [GetMove] (100 iterations
    each, no counter overflowing) the visits of the root's children sum to
    [2 * (100 * batches) - 1]. *)
Theorem terminal_only_child_counted_twice
        (E : RulesEngine) (Sqrt Log : Q -> Q) (p : Position) (m : Move)
        (batches : nat) (g : mcts_core.Rand) :
  IsCheckMate E p = false ->
  IsStaleMate E p = false ->
  GenerateLegalMoves E p = [m] ->
  IsCheckMate E (Position_Move E p m) || IsStaleMate E (Position_Move E p m)
  = true ->
  (1 <= batches)%nat -> (200 * Z.of_nat batches < MaxInt64)%Z ->
  exists parentNode g',
    mcts_single.GetMove_loop E Sqrt Log batches p g
    = Some (100 * Z.of_nat batches, parentNode, g')%Z
    /\ sumVisits (mcts_core.children parentNode)
       = (2 * (100 * Z.of_nat batches) - 1)%Z.
Proof.
  intros H1 H2 H3 H4 H5 H6.
  apply (only_child_counted_twice E Sqrt Log p m H1 H2 H3 H4 batches g H5 H6).
Qed.

Lemma terminal_only_child_counted_twice_witness :
  exists parentNode g',
    mcts_single.GetMove_loop (table.engine table.mateInOneGame)
                             (fun x => x) (fun x => x) 2
                             (table.position table.mateInOneGame 0)
                             table.zeros
    = Some (100 * Z.of_nat 2, parentNode, g')%Z
    /\ sumVisits (mcts_core.children parentNode)
       = (2 * (100 * Z.of_nat 2) - 1)%Z.
Proof.
  apply (terminal_only_child_counted_twice
           (table.engine table.mateInOneGame) (fun x => x) (fun x => x)
           (table.position table.mateInOneGame 0) (table.mv 60 4) 2
           table.zeros);
    try reflexivity.
  lia.
Defined.

Lemma mcts_returns_the_only_legal_move_witness :
  (forall batches g,
      (1 <= batches)%nat ->
      mcts_single.GetMove (table.engine table.forcedMateGame)
                          (fun x => x) (fun x => x) batches
                          (table.position table.forcedMateGame 0) g
      = Some (table.mv 6 5))
  /\ (forall batches rands,
         mcts_parallel.GetMove (table.engine table.forcedMateGame)
                               (fun x => x) (fun x => x) true batches rands
                               (table.position table.forcedMateGame 0)
         = Some (table.mv 6 5)).
Proof.
  apply (mcts_returns_the_only_legal_move
           (table.engine table.forcedMateGame) (fun x => x) (fun x => x) true
           (table.position table.forcedMateGame 0) (table.mv 6 5));
    try reflexivity.
  apply table_engine_sane.
Defined.

Lemma alphabeta_equals_minmax_without_stalemate_witness :
  exists move score,
    minmax.search (table.engine table.forcedMateGame)
                  (minmax.evaluate_threat (table.engine table.forcedMateGame))
                  2 (table.position table.forcedMateGame 0)
    = Some (move, score)
    /\ snd (alphabeta.search (table.engine table.forcedMateGame) 2
                             (table.position table.forcedMateGame 0)
                             (- MaxFloat64) MaxFloat64) = score.
Proof.
  apply (alphabeta_equals_minmax_without_stalemate
           (table.engine table.forcedMateGame) 2
           (table.position table.forcedMateGame 0)).
  vm_compute. reflexivity.
Defined.

Lemma invariant_throughout_the_search_witness :
  (200 * Z.of_nat 1 <= MaxInt64)%Z
  /\ keeps (mcts_core.Node 0 0 noMove (table.position table.queenUpGame 0) [])
           (mcts_single.GetMove_loop (table.engine table.queenUpGame)
              (fun x => x) (fun x => x) 1
              (table.position table.queenUpGame 0) table.zeros).
Proof.
  split; [vm_compute; discriminate|].
  refine (proj1 (invariant_throughout_the_search
                   (table.engine table.queenUpGame) (fun x => x) (fun x => x)
                   true 1 (table.position table.queenUpGame 0) noMove White
                   table.zeros _)).
  vm_compute. discriminate.
Defined.

(** ** The move a searcher returns *)

Section ReturnedMove.

Variable E : RulesEngine.

Lemma alphabeta_max_leaf_move (p : Position) (beta : Q) (moves : list Move) :
  forall h bm,
    fst (alphabeta.max_leaf E p beta moves h bm) = bm
    \/ In (fst (alphabeta.max_leaf E p beta moves h bm)) moves.
Proof.
  induction moves as [|move rest IH]; intros h bm; cbn [alphabeta.max_leaf];
    [left; reflexivity|].
  destruct (Qltb h (fst (alphabeta.evaluate E (Position_Move E p move)))).
  - destruct (Qltb beta _); [right; left; reflexivity|].
    destruct (IH (fst (alphabeta.evaluate E (Position_Move E p move))) move)
      as [H|H]; right; [left; symmetry; exact H|right; exact H].
  - destruct (Qltb beta h); [left; reflexivity|].
    destruct (IH h bm) as [H|H]; [left; exact H|right; right; exact H].
Qed.

Lemma alphabeta_min_leaf_move (p : Position) (alpha : Q) (moves : list Move) :
  forall l bm,
    fst (alphabeta.min_leaf E p alpha moves l bm) = bm
    \/ In (fst (alphabeta.min_leaf E p alpha moves l bm)) moves.
Proof.
  induction moves as [|move rest IH]; intros l bm; cbn [alphabeta.min_leaf];
    [left; reflexivity|].
  destruct (Qltb (fst (alphabeta.evaluate E (Position_Move E p move))) l).
  - destruct (Qltb _ alpha); [right; left; reflexivity|].
    destruct (IH (fst (alphabeta.evaluate E (Position_Move E p move))) move)
      as [H|H]; right; [left; symmetry; exact H|right; exact H].
  - destruct (Qltb l alpha); [left; reflexivity|].
    destruct (IH l bm) as [H|H]; [left; exact H|right; right; exact H].
Qed.

Lemma alphabeta_max_loop_move (search' : Position -> Q -> Q -> Move * Q)
      (p : Position) (moves : list Move) :
  forall alpha beta h bm,
    fst (alphabeta.max_loop E search' p moves alpha beta h bm) = bm
    \/ In (fst (alphabeta.max_loop E search' p moves alpha beta h bm)) moves.
Proof.
  induction moves as [|move rest IH]; intros alpha beta h bm;
    cbn [alphabeta.max_loop]; [left; reflexivity|].
  destruct (IsCheckMate E (Position_Move E p move));
    [right; left; reflexivity|].
  destruct (IsStaleMate E (Position_Move E p move) && Qltb h 0).
  - destruct (IH alpha beta 0%Q move) as [H|H]; right;
      [left; symmetry; exact H|right; exact H].
  - destruct (Qltb h (snd (search' (Position_Move E p move) alpha beta))).
    + destruct (Qltb beta _); [right; left; reflexivity|].
      match goal with
      | |- context [alphabeta.max_loop E search' p rest ?a ?b ?s move] =>
          destruct (IH a b s move) as [H|H]
      end; right; [left; symmetry; exact H|right; exact H].
    + destruct (Qltb beta h); [left; reflexivity|].
      match goal with
      | |- context [alphabeta.max_loop E search' p rest ?a ?b h bm] =>
          destruct (IH a b h bm) as [H|H]
      end; [left; exact H|right; right; exact H].
Qed.

Lemma alphabeta_min_loop_move (search' : Position -> Q -> Q -> Move * Q)
      (p : Position) (moves : list Move) :
  forall alpha beta l bm,
    fst (alphabeta.min_loop E search' p moves alpha beta l bm) = bm
    \/ In (fst (alphabeta.min_loop E search' p moves alpha beta l bm)) moves.
Proof.
  induction moves as [|move rest IH]; intros alpha beta l bm;
    cbn [alphabeta.min_loop]; [left; reflexivity|].
  destruct (IsCheckMate E (Position_Move E p move));
    [right; left; reflexivity|].
  destruct (IsStaleMate E (Position_Move E p move) && Qltb 0 l).
  - destruct (IH alpha beta 0%Q move) as [H|H]; right;
      [left; symmetry; exact H|right; exact H].
  - destruct (Qltb (snd (search' (Position_Move E p move) alpha beta)) l).
    + destruct (Qltb _ alpha); [right; left; reflexivity|].
      match goal with
      | |- context [alphabeta.min_loop E search' p rest ?a ?b ?s move] =>
          destruct (IH a b s move) as [H|H]
      end; right; [left; symmetry; exact H|right; exact H].
    + destruct (Qltb l alpha); [left; reflexivity|].
      match goal with
      | |- context [alphabeta.min_loop E search' p rest ?a ?b l bm] =>
          destruct (IH a b l bm) as [H|H]
      end; [left; exact H|right; right; exact H].
Qed.

Variable ev : Position -> option Q.

Lemma minmax_max_leaf_move (p : Position) (moves : list Move) :
  forall h bm m s,
    minmax.max_leaf E ev p moves h bm = Some (m, s) -> m = bm \/ In m moves.
Proof.
  induction moves as [|move rest IH]; intros h bm m s H;
    cbn [minmax.max_leaf] in H.
  - inversion H. left; reflexivity.
  - destruct (ev (Position_Move E p move)) as [score|]; [|discriminate].
    destruct (Qltb h score); apply IH in H; destruct H as [H|H];
      [right; left; symmetry; exact H|right; right; exact H
      |left; exact H|right; right; exact H].
Qed.

Lemma minmax_min_leaf_move (p : Position) (moves : list Move) :
  forall l bm m s,
    minmax.min_leaf E ev p moves l bm = Some (m, s) -> m = bm \/ In m moves.
Proof.
  induction moves as [|move rest IH]; intros l bm m s H;
    cbn [minmax.min_leaf] in H.
  - inversion H. left; reflexivity.
  - destruct (ev (Position_Move E p move)) as [score|]; [|discriminate].
    destruct (Qltb score l); apply IH in H; destruct H as [H|H];
      [right; left; symmetry; exact H|right; right; exact H
      |left; exact H|right; right; exact H].
Qed.

Lemma minmax_max_loop_move (search' : Position -> option (Move * Q))
      (p : Position) (moves : list Move) :
  forall h bm m s,
    minmax.max_loop E search' p moves h bm = Some (m, s) ->
    m = bm \/ In m moves.
Proof.
  induction moves as [|move rest IH]; intros h bm m s H;
    cbn [minmax.max_loop] in H.
  - inversion H. left; reflexivity.
  - destruct (IsCheckMate E (Position_Move E p move)).
    { inversion H; subst. right; left; reflexivity. }
    destruct (IsStaleMate E (Position_Move E p move) && Qltb h 0).
    { apply IH in H. destruct H as [H|H];
        [right; left; symmetry; exact H|right; right; exact H]. }
    destruct (search' (Position_Move E p move)) as [[m0 score]|];
      [|discriminate].
    destruct (Qltb h score); apply IH in H; destruct H as [H|H];
      [right; left; symmetry; exact H|right; right; exact H
      |left; exact H|right; right; exact H].
Qed.

Lemma minmax_min_loop_move (search' : Position -> option (Move * Q))
      (p : Position) (moves : list Move) :
  forall l bm m s,
    minmax.min_loop E search' p moves l bm = Some (m, s) ->
    m = bm \/ In m moves.
Proof.
  induction moves as [|move rest IH]; intros l bm m s H;
    cbn [minmax.min_loop] in H.
  - inversion H. left; reflexivity.
  - destruct (IsCheckMate E (Position_Move E p move)).
    { inversion H; subst. right; left; reflexivity. }
    destruct (IsStaleMate E (Position_Move E p move) && Qltb 0 l).
    { apply IH in H. destruct H as [H|H];
        [right; left; symmetry; exact H|right; right; exact H]. }
    destruct (search' (Position_Move E p move)) as [[m0 score]|];
      [|discriminate].
    destruct (Qltb score l); apply IH in H; destruct H as [H|H];
      [right; left; symmetry; exact H|right; right; exact H
      |left; exact H|right; right; exact H].
Qed.

Lemma alphabeta_search_move (depth : nat) (p : Position) (alpha beta : Q) :
  fst (alphabeta.search E depth p alpha beta) = noMove
  \/ In (fst (alphabeta.search E depth p alpha beta)) (GenerateLegalMoves E p).
Proof.
  destruct depth as [|d]; cbn [alphabeta.search];
    destruct (Turn p); try (left; reflexivity).
  - apply alphabeta_max_leaf_move.
  - apply alphabeta_min_leaf_move.
  - apply alphabeta_max_loop_move.
  - apply alphabeta_min_loop_move.
Qed.

Lemma minmax_search_move (depth : nat) (p : Position) (m : Move) (s : Q) :
  minmax.search E ev depth p = Some (m, s) ->
  m = noMove \/ In m (GenerateLegalMoves E p).
Proof.
  destruct depth as [|d]; cbn [minmax.search];
    destruct (Turn p); intros H;
    try (inversion H; left; reflexivity).
  - apply (minmax_max_leaf_move _ _ _ _ _ _ H).
  - apply (minmax_min_leaf_move _ _ _ _ _ _ H).
  - apply (minmax_max_loop_move _ _ _ _ _ _ _ H).
  - apply (minmax_min_loop_move _ _ _ _ _ _ _ H).
Qed.

End ReturnedMove.

(** X6.  Whatever the rules engine, the depth and the position,
    [AlphaBeta.GetMove] and [Minmax.GetMove] (with either evaluator, or any
    other) return a legal move of the position or the null move
    [chess.Move{}], never anything else.  On a position without legal
    moves, at every depth and for every window, [search] returns the null
    move with the initial value of the running best as score:
    [-MaxFloat64] when White is to move, [MaxFloat64] when Black is, and 0
    when the turn is neither. *)
Theorem searchers_return_a_legal_move_or_none
        (E : RulesEngine) (ev : Position -> option Q) (Depth : nat)
        (p : Position) :
  (alphabeta.GetMove E Depth p = noMove
   \/ In (alphabeta.GetMove E Depth p) (GenerateLegalMoves E p))
  /\ match minmax.GetMove E ev Depth p with
     | Some move => move = noMove \/ In move (GenerateLegalMoves E p)
     | None => True
     end
  /\ (GenerateLegalMoves E p = [] ->
      (forall alpha beta,
          alphabeta.search E Depth p alpha beta = (noMove, sentinel (Turn p)))
      /\ minmax.search E ev Depth p = Some (noMove, sentinel (Turn p))).
Proof.
  split; [apply alphabeta_search_move|]. split.
  - unfold minmax.GetMove.
    destruct (minmax.search E ev Depth p) as [[m s]|] eqn:H; [|exact I].
    apply (minmax_search_move E ev Depth p m s H).
  - intros Hnil. split; [intros alpha beta|];
      destruct Depth; cbn [alphabeta.search minmax.search];
      rewrite Hnil; destruct (Turn p); reflexivity.
Qed.

Lemma searchers_return_a_legal_move_or_none_witness :
  alphabeta.search (table.engine table.stalemateGame) 2
                   (table.position table.stalemateGame 8) 0 1
  = (noMove, MaxFloat64).
Proof.
  refine (proj1 (proj2 (proj2 (searchers_return_a_legal_move_or_none
                                 (table.engine table.stalemateGame)
                                 (fun _ => None) 2
                                 (table.position table.stalemateGame 8)))
                       _) 0%Q 1%Q).
  reflexivity.
Defined.

(** ** Alpha-beta at the root: the move of minimax *)

Section RootMove.

Variable E : RulesEngine.

Let ev := minmax.evaluate_threat E.

(** With [beta = MaxFloat64] the depth-0 loop of [max] never breaks. *)
Lemma max_leaf_root (p : Position) (moves : list Move) :
  forallb (fun move =>
             inRange (fst (alphabeta.evaluate E (Position_Move E p move))))
          moves = true ->
  forall h bm,
    (h <= MaxFloat64)%Q ->
    minmax.max_leaf E ev p moves h bm
    = Some (alphabeta.max_leaf E p MaxFloat64 moves h bm).
Proof.
  induction moves as [|move rest IH]; intros Hr h bm Hh;
    cbn [minmax.max_leaf alphabeta.max_leaf]; [reflexivity|].
  cbn [forallb] in Hr. apply andb_true_iff in Hr. destruct Hr as [He Hr].
  apply inRange_spec in He. unfold ev, minmax.evaluate_threat.
  set (e := fst (alphabeta.evaluate E (Position_Move E p move))) in *.
  destruct (Qltb h e) eqn:Hlt.
  - assert (Hcut : Qltb MaxFloat64 e = false) by (apply Qltb_ge; lra).
    rewrite Hcut. apply (IH Hr e move). lra.
  - assert (Hcut : Qltb MaxFloat64 h = false) by (apply Qltb_ge; lra).
    rewrite Hcut. apply (IH Hr h bm Hh).
Qed.

Lemma min_leaf_root (p : Position) (moves : list Move) :
  forallb (fun move =>
             inRange (fst (alphabeta.evaluate E (Position_Move E p move))))
          moves = true ->
  forall l bm,
    (- MaxFloat64 <= l)%Q ->
    minmax.min_leaf E ev p moves l bm
    = Some (alphabeta.min_leaf E p (- MaxFloat64) moves l bm).
Proof.
  induction moves as [|move rest IH]; intros Hr l bm Hl;
    cbn [minmax.min_leaf alphabeta.min_leaf]; [reflexivity|].
  cbn [forallb] in Hr. apply andb_true_iff in Hr. destruct Hr as [He Hr].
  apply inRange_spec in He. unfold ev, minmax.evaluate_threat.
  set (e := fst (alphabeta.evaluate E (Position_Move E p move))) in *.
  destruct (Qltb e l) eqn:Hlt.
  - assert (Hcut : Qltb e (- MaxFloat64) = false) by (apply Qltb_ge; lra).
    rewrite Hcut. apply (IH Hr e move). lra.
  - assert (Hcut : Qltb l (- MaxFloat64) = false) by (apply Qltb_ge; lra).
    rewrite Hcut. apply (IH Hr l bm Hl).
Qed.

(** The loop of [max] at the root: the window is [(highestScore,
    MaxFloat64)] throughout, a child cut off below [alpha] is passed over
    by both searchers, and any other child has its minimax score. *)
Lemma max_loop_root (d : nat) (p : Position) (moves : list Move) :
  childrenInScope E d p moves = true ->
  forall h bm,
    (- MaxFloat64 <= h)%Q -> (h <= MaxFloat64)%Q ->
    minmax.max_loop E (minmax.search E ev d) p moves h bm
    = Some (alphabeta.max_loop E (alphabeta.search E d) p moves
                               h MaxFloat64 h bm).
Proof.
  induction moves as [|move rest IH]; intros Hsc h bm Hlo Hhi;
    cbn [minmax.max_loop alphabeta.max_loop]; [reflexivity|].
  destruct (child_cases E d p move rest Hsc)
    as [Hrest [Hmate|(Hmate & Hst & Hq)]]; rewrite Hmate; [reflexivity|].
  rewrite Hst. cbn [andb].
  destruct (search_bounds_all E d (Position_Move E p move) h MaxFloat64
              Hlo Hhi (Qle_refl _) Hq)
    as (mvq & vq & Hs & Hvlo & Hvhi & Hbq).
  fold ev in Hs. rewrite Hs.
  set (rq := snd (alphabeta.search E d (Position_Move E p move) h MaxFloat64))
    in *.
  destruct Hbq as [HB|[[HB1 HB2]|[HB1 HB2]]].
  - rewrite HB.
    destruct (Qltb h vq) eqn:T1.
    + assert (Hcut : Qltb MaxFloat64 vq = false) by (apply Qltb_ge; lra).
      rewrite Hcut. rewrite T1. apply (IH Hrest vq move Hvlo Hvhi).
    + assert (Hcut : Qltb MaxFloat64 h = false) by (apply Qltb_ge; lra).
      rewrite Hcut. rewrite Qltb_irrefl. apply (IH Hrest h bm Hlo Hhi).
  - exfalso. lra.
  - assert (T1 : Qltb h vq = false) by (apply Qltb_ge; lra).
    assert (T2 : Qltb h rq = false) by (apply Qltb_ge; lra).
    assert (Hcut : Qltb MaxFloat64 h = false) by (apply Qltb_ge; lra).
    rewrite T1, T2, Hcut, Qltb_irrefl. apply (IH Hrest h bm Hlo Hhi).
Qed.

Lemma min_loop_root (d : nat) (p : Position) (moves : list Move) :
  childrenInScope E d p moves = true ->
  forall l bm,
    (- MaxFloat64 <= l)%Q -> (l <= MaxFloat64)%Q ->
    minmax.min_loop E (minmax.search E ev d) p moves l bm
    = Some (alphabeta.min_loop E (alphabeta.search E d) p moves
                               (- MaxFloat64) l l bm).
Proof.
  induction moves as [|move rest IH]; intros Hsc l bm Hlo Hhi;
    cbn [minmax.min_loop alphabeta.min_loop]; [reflexivity|].
  destruct (child_cases E d p move rest Hsc)
    as [Hrest [Hmate|(Hmate & Hst & Hq)]]; rewrite Hmate; [reflexivity|].
  rewrite Hst. cbn [andb].
  destruct (search_bounds_all E d (Position_Move E p move) (- MaxFloat64) l
              (Qle_refl _) Hlo Hhi Hq)
    as (mvq & vq & Hs & Hvlo & Hvhi & Hbq).
  fold ev in Hs. rewrite Hs.
  set (rq := snd (alphabeta.search E d (Position_Move E p move)
                                   (- MaxFloat64) l)) in *.
  destruct Hbq as [HB|[[HB1 HB2]|[HB1 HB2]]].
  - rewrite HB.
    destruct (Qltb vq l) eqn:T1.
    + assert (Hcut : Qltb vq (- MaxFloat64) = false) by (apply Qltb_ge; lra).
      rewrite Hcut. rewrite T1. apply (IH Hrest vq move Hvlo Hvhi).
    + assert (Hcut : Qltb l (- MaxFloat64) = false) by (apply Qltb_ge; lra).
      rewrite Hcut. rewrite Qltb_irrefl. apply (IH Hrest l bm Hlo Hhi).
  - assert (T1 : Qltb vq l = false) by (apply Qltb_ge; lra).
    assert (T2 : Qltb rq l = false) by (apply Qltb_ge; lra).
    assert (Hcut : Qltb l (- MaxFloat64) = false) by (apply Qltb_ge; lra).
    rewrite T1, T2, Hcut, Qltb_irrefl. apply (IH Hrest l bm Hlo Hhi).
  - exfalso. lra.
Qed.

Lemma search_root (depth : nat) (p : Position) :
  stalemateFree E depth p = true ->
  minmax.search E ev depth p
  = Some (alphabeta.search E depth p (- MaxFloat64) MaxFloat64).
Proof.
  intros Hsc.
  destruct depth as [|d];
    cbn [minmax.search alphabeta.search stalemateFree] in *;
    destruct (Turn p); try reflexivity.
  - apply (max_leaf_root p _ Hsc _ _ MaxFloat64_pos).
  - apply (min_leaf_root p _ Hsc _ _ MaxFloat64_pos).
  - apply (max_loop_root d p _ Hsc _ _ (Qle_refl _) MaxFloat64_pos).
  - apply (min_loop_root d p _ Hsc _ _ MaxFloat64_pos (Qle_refl _)).
Qed.

End RootMove.



(** X7.  Where no stalemate lies within the horizon (and the leaf
    evaluations lie within [+-MaxFloat64]), [AlphaBeta.GetMove] returns the
    very move that [Minmax.GetMove] returns with the same (threat-count)
    evaluator, and [search] returns the same score: pruning changes
    neither. *)
Theorem alphabeta_returns_the_minmax_move
        (E : RulesEngine) (depth : nat) (p : Position) :
  stalemateFree E depth p = true ->
  minmax.search E (minmax.evaluate_threat E) depth p
  = Some (alphabeta.search E depth p (- MaxFloat64) MaxFloat64)
  /\ minmax.GetMove E (minmax.evaluate_threat E) depth p
     = Some (alphabeta.GetMove E depth p).
Proof.
  intros H. pose proof (search_root E depth p H) as Hs.
  split; [exact Hs|].
  unfold minmax.GetMove, alphabeta.GetMove. rewrite Hs.
  destruct (alphabeta.search E depth p (- MaxFloat64) MaxFloat64).
  reflexivity.
Qed.

Lemma alphabeta_returns_the_minmax_move_witness :
  minmax.GetMove (table.engine table.queenUpGame)
                 (minmax.evaluate_threat (table.engine table.queenUpGame))
                 3 (table.position table.queenUpGame 0)
  = Some (alphabeta.GetMove (table.engine table.queenUpGame) 3
                            (table.position table.queenUpGame 0)).
Proof.
  refine (proj2 (alphabeta_returns_the_minmax_move
                   (table.engine table.queenUpGame) 3
                   (table.position table.queenUpGame 0) _)).
  vm_compute. reflexivity.
Defined.

(** ** Mate in one *)

Section ScoreRange.

Variable E : RulesEngine.

Lemma inRange_sentinels :
  inRange (- MaxFloat64) = true /\ inRange 0 = true
  /\ inRange MaxFloat64 = true.
Proof. repeat split; vm_compute; reflexivity. Qed.

Lemma alphabeta_max_leaf_range (p : Position) (beta : Q) (moves : list Move) :
  forallb (fun move =>
             inRange (fst (alphabeta.evaluate E (Position_Move E p move))))
          moves = true ->
  forall h bm, inRange h = true ->
               inRange (snd (alphabeta.max_leaf E p beta moves h bm)) = true.
Proof.
  induction moves as [|move rest IH]; intros Hr h bm Hh;
    cbn [alphabeta.max_leaf]; [exact Hh|].
  cbn [forallb] in Hr. apply andb_true_iff in Hr. destruct Hr as [He Hr].
  destruct (Qltb h _).
  - destruct (Qltb beta _); [exact He|apply (IH Hr _ _ He)].
  - destruct (Qltb beta h); [exact Hh|apply (IH Hr _ _ Hh)].
Qed.

Lemma alphabeta_min_leaf_range (p : Position) (alpha : Q) (moves : list Move) :
  forallb (fun move =>
             inRange (fst (alphabeta.evaluate E (Position_Move E p move))))
          moves = true ->
  forall l bm, inRange l = true ->
               inRange (snd (alphabeta.min_leaf E p alpha moves l bm)) = true.
Proof.
  induction moves as [|move rest IH]; intros Hr l bm Hl;
    cbn [alphabeta.min_leaf]; [exact Hl|].
  cbn [forallb] in Hr. apply andb_true_iff in Hr. destruct Hr as [He Hr].
  destruct (Qltb _ l).
  - destruct (Qltb _ alpha); [exact He|apply (IH Hr _ _ He)].
  - destruct (Qltb l alpha); [exact Hl|apply (IH Hr _ _ Hl)].
Qed.

Section Step.

Variable d : nat.
Hypothesis search_range :
  forall q alpha beta,
    evaluationsInRange E d q = true ->
    inRange (snd (alphabeta.search E d q alpha beta)) = true.

Let inScope (p : Position) (moves : list Move) : bool :=
  forallb (fun move =>
             let newPos := Position_Move E p move in
             IsCheckMate E newPos || evaluationsInRange E d newPos)
          moves.

Lemma alphabeta_max_loop_range (p : Position) (moves : list Move) :
  inScope p moves = true ->
  forall alpha beta h bm,
    inRange h = true ->
    inRange (snd (alphabeta.max_loop E (alphabeta.search E d) p moves
                                     alpha beta h bm)) = true.
Proof.
  induction moves as [|move rest IH]; intros Hr alpha beta h bm Hh;
    cbn [alphabeta.max_loop]; [exact Hh|].
  unfold inScope in Hr. cbn [forallb] in Hr.
  apply andb_true_iff in Hr. destruct Hr as [He Hr]. cbv zeta in He.
  destruct (IsCheckMate E (Position_Move E p move));
    [apply inRange_sentinels|].
  cbn [orb] in He.
  destruct (IsStaleMate E (Position_Move E p move) && Qltb h 0).
  { apply (IH Hr). apply inRange_sentinels. }
  pose proof (search_range (Position_Move E p move) alpha beta He) as Hq.
  destruct (Qltb h _).
  - destruct (Qltb beta _); [exact Hq|apply (IH Hr _ _ _ _ Hq)].
  - destruct (Qltb beta h); [exact Hh|apply (IH Hr _ _ _ _ Hh)].
Qed.

Lemma alphabeta_min_loop_range (p : Position) (moves : list Move) :
  inScope p moves = true ->
  forall alpha beta l bm,
    inRange l = true ->
    inRange (snd (alphabeta.min_loop E (alphabeta.search E d) p moves
                                     alpha beta l bm)) = true.
Proof.
  induction moves as [|move rest IH]; intros Hr alpha beta l bm Hl;
    cbn [alphabeta.min_loop]; [exact Hl|].
  unfold inScope in Hr. cbn [forallb] in Hr.
  apply andb_true_iff in Hr. destruct Hr as [He Hr]. cbv zeta in He.
  destruct (IsCheckMate E (Position_Move E p move));
    [apply inRange_sentinels|].
  cbn [orb] in He.
  destruct (IsStaleMate E (Position_Move E p move) && Qltb 0 l).
  { apply (IH Hr). apply inRange_sentinels. }
  pose proof (search_range (Position_Move E p move) alpha beta He) as Hq.
  destruct (Qltb _ l).
  - destruct (Qltb _ alpha); [exact Hq|apply (IH Hr _ _ _ _ Hq)].
  - destruct (Qltb l alpha); [exact Hl|apply (IH Hr _ _ _ _ Hl)].
Qed.

End Step.

(** The score of [search] is one of the two sentinels, 0, or an
    evaluation: it lies within [+-MaxFloat64] when the evaluations do. *)
Lemma alphabeta_search_range (depth : nat) :
  forall q alpha beta,
    evaluationsInRange E depth q = true ->
    inRange (snd (alphabeta.search E depth q alpha beta)) = true.
Proof.
  induction depth as [|d IH]; intros q alpha beta H;
    cbn [alphabeta.search evaluationsInRange] in *; destruct (Turn q);
    try apply inRange_sentinels.
  - apply (alphabeta_max_leaf_range _ _ _ H). apply inRange_sentinels.
  - apply (alphabeta_min_leaf_range _ _ _ H). apply inRange_sentinels.
  - apply (alphabeta_max_loop_range d IH _ _ H). apply inRange_sentinels.
  - apply (alphabeta_min_loop_range d IH _ _ H). apply inRange_sentinels.
Qed.

End ScoreRange.

Section MateInOne.

Variable E : RulesEngine.
Variable d : nat.
Variables (p : Position) (m : Move).

Hypothesis m_mates : IsCheckMate E (Position_Move E p m) = true.

Lemma alphabeta_max_loop_mate_in_one (l1 l2 : list Move) :
  Forall (fun x => IsCheckMate E (Position_Move E p x) = false) l1 ->
  forallb (fun move =>
             let newPos := Position_Move E p move in
             IsCheckMate E newPos || evaluationsInRange E d newPos)
          l1 = true ->
  forall alpha h bm,
    inRange h = true ->
    alphabeta.max_loop E (alphabeta.search E d) p (l1 ++ m :: l2)
                       alpha MaxFloat64 h bm
    = (m, MaxFloat64).
Proof.
  induction l1 as [|x l1 IH]; intros Hno Hr alpha h bm Hh;
    cbn [app alphabeta.max_loop]; [rewrite m_mates; reflexivity|].
  inversion Hno as [|? ? Hx Hno']; subst.
  cbn [forallb] in Hr. apply andb_true_iff in Hr. destruct Hr as [He Hr].
  cbv zeta in He. rewrite Hx in *. cbn [orb] in He.
  destruct (IsStaleMate E (Position_Move E p x) && Qltb h 0).
  { apply (IH Hno' Hr). apply inRange_sentinels. }
  pose proof (alphabeta_search_range E d (Position_Move E p x) alpha
                MaxFloat64 He) as Hq.
  destruct (Qltb h _).
  - apply inRange_spec in Hq.
    match goal with
    | |- context [Qltb MaxFloat64 ?s] =>
        assert (Hcut : Qltb MaxFloat64 s = false) by (apply Qltb_ge; lra);
        rewrite Hcut
    end.
    apply (IH Hno' Hr). apply inRange_spec. exact Hq.
  - pose proof Hh as Hh'. apply inRange_spec in Hh'.
    assert (Hcut : Qltb MaxFloat64 h = false) by (apply Qltb_ge; lra).
    rewrite Hcut. apply (IH Hno' Hr _ _ _ Hh).
Qed.

Lemma alphabeta_min_loop_mate_in_one (l1 l2 : list Move) :
  Forall (fun x => IsCheckMate E (Position_Move E p x) = false) l1 ->
  forallb (fun move =>
             let newPos := Position_Move E p move in
             IsCheckMate E newPos || evaluationsInRange E d newPos)
          l1 = true ->
  forall beta l bm,
    inRange l = true ->
    alphabeta.min_loop E (alphabeta.search E d) p (l1 ++ m :: l2)
                       (- MaxFloat64) beta l bm
    = (m, (- MaxFloat64)%Q).
Proof.
  induction l1 as [|x l1 IH]; intros Hno Hr beta l bm Hl;
    cbn [app alphabeta.min_loop]; [rewrite m_mates; reflexivity|].
  inversion Hno as [|? ? Hx Hno']; subst.
  cbn [forallb] in Hr. apply andb_true_iff in Hr. destruct Hr as [He Hr].
  cbv zeta in He. rewrite Hx in *. cbn [orb] in He.
  destruct (IsStaleMate E (Position_Move E p x) && Qltb 0 l).
  { apply (IH Hno' Hr). apply inRange_sentinels. }
  pose proof (alphabeta_search_range E d (Position_Move E p x)
                (- MaxFloat64)%Q beta He) as Hq.
  destruct (Qltb _ l).
  - apply inRange_spec in Hq.
    match goal with
    | |- context [Qltb ?s (- MaxFloat64)] =>
        assert (Hcut : Qltb s (- MaxFloat64) = false) by (apply Qltb_ge; lra);
        rewrite Hcut
    end.
    apply (IH Hno' Hr). apply inRange_spec. exact Hq.
  - pose proof Hl as Hl'. apply inRange_spec in Hl'.
    assert (Hcut : Qltb l (- MaxFloat64) = false) by (apply Qltb_ge; lra).
    rewrite Hcut. apply (IH Hno' Hr _ _ _ Hl).
Qed.

Variable ev : Position -> option Q.
Hypothesis ev_total : forall q, ev q <> None.

Lemma minmax_leaf_total (q : Position) (moves : list Move) :
  forall s bm,
    minmax.max_leaf E ev q moves s bm <> None
    /\ minmax.min_leaf E ev q moves s bm <> None.
Proof.
  induction moves as [|move rest IH]; intros s bm;
    cbn [minmax.max_leaf minmax.min_leaf]; [split; discriminate|].
  pose proof (ev_total (Position_Move E q move)) as Hev.
  destruct (ev (Position_Move E q move)) as [score|]; [|contradiction].
  split.
  - destruct (Qltb s score); apply IH.
  - destruct (Qltb score s); apply IH.
Qed.

Lemma minmax_loop_total (search' : Position -> option (Move * Q))
      (q : Position) (moves : list Move) :
  (forall r, search' r <> None) ->
  forall s bm,
    minmax.max_loop E search' q moves s bm <> None
    /\ minmax.min_loop E search' q moves s bm <> None.
Proof.
  intros Hs.
  induction moves as [|move rest IH]; intros s bm;
    cbn [minmax.max_loop minmax.min_loop]; [split; discriminate|].
  destruct (IsCheckMate E (Position_Move E q move)); [split; discriminate|].
  pose proof (Hs (Position_Move E q move)) as Hq.
  destruct (search' (Position_Move E q move)) as [[m0 score]|];
    [|contradiction].
  split.
  - destruct (IsStaleMate E (Position_Move E q move) && Qltb s 0);
      [apply IH|]. destruct (Qltb s score); apply IH.
  - destruct (IsStaleMate E (Position_Move E q move) && Qltb 0 s);
      [apply IH|]. destruct (Qltb score s); apply IH.
Qed.

(** With an evaluator that always answers, [search] always answers. *)
Lemma minmax_search_total (depth : nat) :
  forall q, minmax.search E ev depth q <> None.
Proof.
  induction depth as [|k IH]; intros q; cbn [minmax.search];
    destruct (Turn q); try discriminate;
    try apply minmax_leaf_total; apply (minmax_loop_total _ _ _ IH).
Qed.

Lemma minmax_loop_mate_in_one (l1 l2 : list Move) :
  Forall (fun x => IsCheckMate E (Position_Move E p x) = false) l1 ->
  forall s bm,
    minmax.max_loop E (minmax.search E ev d) p (l1 ++ m :: l2) s bm
    = Some (m, MaxFloat64)
    /\ minmax.min_loop E (minmax.search E ev d) p (l1 ++ m :: l2) s bm
       = Some (m, (- MaxFloat64)%Q).
Proof.
  induction l1 as [|x l1 IH]; intros Hno s bm;
    cbn [app minmax.max_loop minmax.min_loop];
    [rewrite m_mates; split; reflexivity|].
  inversion Hno as [|? ? Hx Hno']; subst. rewrite Hx.
  pose proof (minmax_search_total d (Position_Move E p x)) as Hq.
  destruct (minmax.search E ev d (Position_Move E p x)) as [[m0 score]|];
    [|contradiction].
  split.
  - destruct (IsStaleMate E (Position_Move E p x) && Qltb s 0);
      [apply (IH Hno')|]. destruct (Qltb s score); apply (IH Hno').
  - destruct (IsStaleMate E (Position_Move E p x) && Qltb 0 s);
      [apply (IH Hno')|]. destruct (Qltb score s); apply (IH Hno').
Qed.

End MateInOne.

(** X8.  Mate in one is played.  If [m] is the first legal move, in
    generation order, after which the opponent is checkmated, then at every
    depth from 1 [Minmax]'s search (with an evaluator that always answers)
    returns [m], and so does [AlphaBeta]'s search started as [GetMove]
    starts it, provided the evaluations it computes on the way lie within
    [+-MaxFloat64]; the score is [MaxFloat64] when White is to move and
    [-MaxFloat64] when Black is. *)
Theorem mate_in_one_is_played
        (E : RulesEngine) (ev : Position -> option Q) (d : nat)
        (p : Position) (l1 l2 : list Move) (m : Move) :
  Turn p <> NoColor ->
  GenerateLegalMoves E p = l1 ++ m :: l2 ->
  Forall (fun x => IsCheckMate E (Position_Move E p x) = false) l1 ->
  IsCheckMate E (Position_Move E p m) = true ->
  ((forall q, ev q <> None) ->
   minmax.search E ev (S d) p = Some (m, mateScore (Turn p)))
  /\ (evaluationsInRange E (S d) p = true ->
      alphabeta.search E (S d) p (- MaxFloat64) MaxFloat64
      = (m, mateScore (Turn p))).
Proof.
  intros Hturn Hmoves Hno Hmate. split.
  - intros Hev. cbn [minmax.search]. rewrite Hmoves.
    destruct (Turn p); [contradiction| |];
      apply (minmax_loop_mate_in_one E d p m Hmate ev Hev l1 l2 Hno).
  - intros Hr. cbn [alphabeta.search evaluationsInRange] in *.
    rewrite Hmoves in *. rewrite forallb_app in Hr.
    apply andb_true_iff in Hr. destruct Hr as [Hr _].
    destruct (Turn p); [contradiction| |].
    + apply (alphabeta_max_loop_mate_in_one E d p m Hmate l1 l2 Hno Hr).
      apply inRange_sentinels.
    + apply (alphabeta_min_loop_mate_in_one E d p m Hmate l1 l2 Hno Hr).
      apply inRange_sentinels.
Qed.

Lemma mate_in_one_is_played_witness :
  minmax.search (table.engine table.forcedMateGame)
                (minmax.evaluate_threat (table.engine table.forcedMateGame))
                1 (table.position table.forcedMateGame 1)
  = Some (table.mv 15 13, (- MaxFloat64)%Q)
  /\ alphabeta.search (table.engine table.forcedMateGame) 1
                      (table.position table.forcedMateGame 1)
                      (- MaxFloat64) MaxFloat64
     = (table.mv 15 13, (- MaxFloat64)%Q).
Proof.
  pose proof (mate_in_one_is_played
                (table.engine table.forcedMateGame)
                (minmax.evaluate_threat (table.engine table.forcedMateGame))
                0 (table.position table.forcedMateGame 1)
                [table.mv 15 63] [] (table.mv 15 13)) as H.
  destruct H as [H1 H2];
    [discriminate|reflexivity|repeat constructor|reflexivity|].
  split; [apply H1; discriminate|apply H2; vm_compute; reflexivity].
Defined.

(** ** A forced mate after the only move *)

(** X2.  In every rules engine and at every depth from 2: if White, to move,
    has a single legal move, and Black has a mating reply to it, then
    [AlphaBeta.GetMove] returns the null move, and so does [Minmax.GetMove],
    its search returning the null move with score [-MaxFloat64]: with the
    threat-count evaluator, and with any evaluator that answers on every
    position.  With an evaluator that may fail to answer, [Minmax]'s search
    returns nothing else. *)
Theorem forced_mate_returns_null_move
        (E : RulesEngine) (p : Position) (m m' : Move)
        (ev : Position -> option Q) (d : nat) :
  Turn p = White ->
  GenerateLegalMoves E p = [m] ->
  Turn (Position_Move E p m) = Black ->
  IsCheckMate E (Position_Move E p m) = false ->
  IsStaleMate E (Position_Move E p m) = false ->
  In m' (GenerateLegalMoves E (Position_Move E p m)) ->
  IsCheckMate E (Position_Move E (Position_Move E p m) m') = true ->
  alphabeta.GetMove E (S (S d)) p = noMove
  /\ minmax.search E (minmax.evaluate_threat E) (S (S d)) p
     = Some (noMove, (- MaxFloat64)%Q)
  /\ minmax.GetMove E (minmax.evaluate_threat E) (S (S d)) p = Some noMove
  /\ ((forall q, ev q <> None) ->
      minmax.search E ev (S (S d)) p = Some (noMove, (- MaxFloat64)%Q)
      /\ minmax.GetMove E ev (S (S d)) p = Some noMove)
  /\ (forall r, minmax.search E ev (S (S d)) p = Some r ->
                r = (noMove, (- MaxFloat64)%Q)).
Proof.
  intros H1 H2 H3 H4 H5 H6 H7.
  assert (Htotal : forall ev' : Position -> option Q,
             (forall q, ev' q <> None) ->
             minmax.search E ev' (S (S d)) p = Some (noMove, (- MaxFloat64)%Q)
             /\ minmax.GetMove E ev' (S (S d)) p = Some noMove).
  { intros ev' Hev.
    assert (Hs : minmax.search E ev' (S (S d)) p
                 = Some (noMove, (- MaxFloat64)%Q)).
    { pose proof (minmax_search_total E ev' Hev (S (S d)) p) as Hsome.
      destruct (minmax.search E ev' (S (S d)) p) as [r|] eqn:Hr;
        [|contradiction].
      rewrite (minmax_forced_mate E p m m' H1 H2 H3 H4 H5 H6 H7 ev' d r Hr).
      reflexivity. }
    split; [exact Hs|]. unfold minmax.GetMove. rewrite Hs. reflexivity. }
  assert (Hthreat : forall q, minmax.evaluate_threat E q <> None)
    by (intros q; discriminate).
  split; [apply (alphabeta_forced_mate E p m m' H1 H2 H3 H4 H5 H6 H7)|].
  split; [apply (Htotal _ Hthreat)|].
  split; [apply (Htotal _ Hthreat)|].
  split; [apply Htotal|].
  apply (minmax_forced_mate E p m m' H1 H2 H3 H4 H5 H6 H7).
Qed.

Lemma forced_mate_returns_null_move_witness :
  alphabeta.GetMove (table.engine table.forcedMateGame) 2
                    (table.position table.forcedMateGame 0) = noMove
  /\ minmax.search (table.engine table.forcedMateGame)
                   (minmax.evaluate_threat (table.engine table.forcedMateGame))
                   2 (table.position table.forcedMateGame 0)
     = Some (noMove, (- MaxFloat64)%Q)
  /\ minmax.GetMove (table.engine table.forcedMateGame)
                    (minmax.evaluate_threat (table.engine table.forcedMateGame))
                    2 (table.position table.forcedMateGame 0)
     = Some noMove.
Proof.
  pose proof (forced_mate_returns_null_move
                (table.engine table.forcedMateGame)
                (table.position table.forcedMateGame 0)
                (table.mv 6 5) (table.mv 15 13)
                (minmax.evaluate_threat (table.engine table.forcedMateGame)) 0
                eq_refl eq_refl eq_refl eq_refl eq_refl
                (or_intror (or_introl eq_refl)) eq_refl)
    as (Hab & Hsearch & Hmove & _).
  split; [exact Hab|]. split; [exact Hsearch|exact Hmove].
Defined.

(** ** The search at depth 0 *)

Section DepthZero.

Variable E : RulesEngine.
Variable ev : Position -> option Q.
Variable p : Position.
Variable score : Move -> Q.

Lemma minmax_max_leaf_first_best (moves : list Move) :
  (forall x, In x moves -> ev (Position_Move E p x) = Some (score x)) ->
  forall h bm,
    (minmax.max_leaf E ev p moves h bm = Some (bm, h)
     /\ Forall (fun x => score x <= h)%Q moves)
    \/ exists m,
         minmax.max_leaf E ev p moves h bm = Some (m, score m)
         /\ (h < score m)%Q
         /\ firstBest White score moves m.
Proof.
  induction moves as [|move rest IH]; intros Hev h bm;
    cbn [minmax.max_leaf]; [left; split; [reflexivity|constructor]|].
  rewrite (Hev move (or_introl eq_refl)).
  assert (Hev' : forall x, In x rest ->
                           ev (Position_Move E p x) = Some (score x))
    by (intros x Hx; apply Hev; right; exact Hx).
  destruct (Qltb h (score move)) eqn:T; [apply Qltb_lt in T|apply Qltb_ge in T].
  - right. destruct (IH Hev' (score move) move) as [[Hr Hall]|(m & Hr & Hlt & Hfb)].
    + exists move. split; [exact Hr|]. split; [exact T|].
      exists [], rest. split; [reflexivity|]. split; [constructor|].
      apply Forall_forall. intros x Hx. cbn [better].
      rewrite Forall_forall in Hall. specialize (Hall x Hx). lra.
    + exists m. split; [exact Hr|]. split; [lra|].
      destruct Hfb as (l1 & l2 & Heq & H1 & H2).
      exists (move :: l1), l2. split; [rewrite Heq; reflexivity|].
      split; [constructor; [exact Hlt|exact H1]|exact H2].
  - destruct (IH Hev' h bm) as [[Hr Hall]|(m & Hr & Hlt & Hfb)].
    + left. split; [exact Hr|constructor; assumption].
    + right. exists m. split; [exact Hr|]. split; [exact Hlt|].
      destruct Hfb as (l1 & l2 & Heq & H1 & H2).
      exists (move :: l1), l2. split; [rewrite Heq; reflexivity|].
      split; [constructor; [cbn [better]; lra|exact H1]|exact H2].
Qed.

Lemma minmax_min_leaf_first_best (moves : list Move) :
  (forall x, In x moves -> ev (Position_Move E p x) = Some (score x)) ->
  forall l bm,
    (minmax.min_leaf E ev p moves l bm = Some (bm, l)
     /\ Forall (fun x => l <= score x)%Q moves)
    \/ exists m,
         minmax.min_leaf E ev p moves l bm = Some (m, score m)
         /\ (score m < l)%Q
         /\ firstBest Black score moves m.
Proof.
  induction moves as [|move rest IH]; intros Hev l bm;
    cbn [minmax.min_leaf]; [left; split; [reflexivity|constructor]|].
  rewrite (Hev move (or_introl eq_refl)).
  assert (Hev' : forall x, In x rest ->
                           ev (Position_Move E p x) = Some (score x))
    by (intros x Hx; apply Hev; right; exact Hx).
  destruct (Qltb (score move) l) eqn:T; [apply Qltb_lt in T|apply Qltb_ge in T].
  - right. destruct (IH Hev' (score move) move) as [[Hr Hall]|(m & Hr & Hlt & Hfb)].
    + exists move. split; [exact Hr|]. split; [exact T|].
      exists [], rest. split; [reflexivity|]. split; [constructor|].
      apply Forall_forall. intros x Hx. cbn [better].
      rewrite Forall_forall in Hall. specialize (Hall x Hx). lra.
    + exists m. split; [exact Hr|]. split; [lra|].
      destruct Hfb as (l1 & l2 & Heq & H1 & H2).
      exists (move :: l1), l2. split; [rewrite Heq; reflexivity|].
      split; [constructor; [exact Hlt|exact H1]|exact H2].
  - destruct (IH Hev' l bm) as [[Hr Hall]|(m & Hr & Hlt & Hfb)].
    + left. split; [exact Hr|constructor; assumption].
    + right. exists m. split; [exact Hr|]. split; [exact Hlt|].
      destruct Hfb as (l1 & l2 & Heq & H1 & H2).
      exists (move :: l1), l2. split; [rewrite Heq; reflexivity|].
      split; [constructor; [cbn [better]; lra|exact H1]|exact H2].
Qed.

Lemma minmax_depth0_first_best :
  Turn p <> NoColor ->
  GenerateLegalMoves E p <> [] ->
  (forall x, In x (GenerateLegalMoves E p) ->
             ev (Position_Move E p x) = Some (score x)
             /\ (- MaxFloat64 < score x)%Q /\ (score x < MaxFloat64)%Q) ->
  exists m,
    minmax.search E ev 0 p = Some (m, score m)
    /\ firstBest (Turn p) score (GenerateLegalMoves E p) m.
Proof.
  intros Hturn Hne Hsc. cbn [minmax.search].
  assert (Hev : forall x, In x (GenerateLegalMoves E p) ->
                          ev (Position_Move E p x) = Some (score x))
    by (intros x Hx; apply (Hsc x Hx)).
  destruct (GenerateLegalMoves E p) as [|x0 rest] eqn:Hmoves;
    [contradiction|].
  destruct (Turn p); [contradiction| |].
  - destruct (minmax_max_leaf_first_best (x0 :: rest) Hev
                (- MaxFloat64)%Q noMove) as [[_ Hall]|(m & Hr & _ & Hfb)].
    + exfalso. inversion Hall; subst.
      destruct (Hsc x0 (or_introl eq_refl)) as (_ & Hlo & _). lra.
    + exists m. split; assumption.
  - destruct (minmax_min_leaf_first_best (x0 :: rest) Hev
                MaxFloat64 noMove) as [[_ Hall]|(m & Hr & _ & Hfb)].
    + exfalso. inversion Hall; subst.
      destruct (Hsc x0 (or_introl eq_refl)) as (_ & _ & Hhi). lra.
    + exists m. split; assumption.
Qed.

End DepthZero.

(** X9.  At depth 0, on a position with a legal move, the searchers return
    the first legal move, in generation order, whose resulting position has
    the greatest evaluation (White to move) or the least (Black to move),
    with that evaluation as score: [Minmax] for any evaluator whose values
    on the resulting positions lie strictly within [+-MaxFloat64], and
    [AlphaBeta], started as [GetMove] starts it, for its own. *)
Theorem depth_zero_returns_the_first_best_move
        (E : RulesEngine) (ev : Position -> option Q) (score : Move -> Q)
        (p : Position) :
  Turn p <> NoColor ->
  GenerateLegalMoves E p <> [] ->
  ((forall x, In x (GenerateLegalMoves E p) ->
              ev (Position_Move E p x) = Some (score x)
              /\ (- MaxFloat64 < score x)%Q /\ (score x < MaxFloat64)%Q) ->
   exists m,
     minmax.search E ev 0 p = Some (m, score m)
     /\ firstBest (Turn p) score (GenerateLegalMoves E p) m)
  /\ ((forall x, In x (GenerateLegalMoves E p) ->
                 (- MaxFloat64
                  < fst (alphabeta.evaluate E (Position_Move E p x)))%Q
                 /\ (fst (alphabeta.evaluate E (Position_Move E p x))
                     < MaxFloat64)%Q) ->
      exists m,
        alphabeta.search E 0 p (- MaxFloat64) MaxFloat64
        = (m, fst (alphabeta.evaluate E (Position_Move E p m)))
        /\ firstBest (Turn p)
                     (fun x => fst (alphabeta.evaluate E (Position_Move E p x)))
                     (GenerateLegalMoves E p) m).
Proof.
  intros Hturn Hne. split.
  - apply minmax_depth0_first_best; assumption.
  - intros Hsc.
    destruct (minmax_depth0_first_best E (minmax.evaluate_threat E) p
                (fun x => fst (alphabeta.evaluate E (Position_Move E p x)))
                Hturn Hne)
      as (m & Hr & Hfb).
    { intros x Hx. split; [reflexivity|apply (Hsc x Hx)]. }
    exists m. split; [|exact Hfb].
    assert (Hin : stalemateFree E 0 p = true).
    { cbn [stalemateFree]. apply forallb_forall. intros x Hx.
      apply inRange_spec. destruct (Hsc x Hx). split; lra. }
    rewrite (search_root E 0 p Hin) in Hr. injection Hr as Hr'.
    exact Hr'.
Qed.

Lemma depth_zero_returns_the_first_best_move_witness :
  exists m,
    alphabeta.search (table.engine table.stalemateGame) 0
                     (table.position table.stalemateGame 7)
                     (- MaxFloat64) MaxFloat64
    = (m, fst (alphabeta.evaluate
                 (table.engine table.stalemateGame)
                 (Position_Move (table.engine table.stalemateGame)
                                (table.position table.stalemateGame 7) m)))
    /\ firstBest Black
                 (fun x =>
                    fst (alphabeta.evaluate
                           (table.engine table.stalemateGame)
                           (Position_Move (table.engine table.stalemateGame)
                                          (table.position table.stalemateGame 7)
                                          x)))
                 [table.mv 61 62; table.mv 61 53] m.
Proof.
  refine (proj2 (depth_zero_returns_the_first_best_move
                   (table.engine table.stalemateGame) (fun _ => None)
                   (fun _ => 0%Q) (table.position table.stalemateGame 7)
                   _ _) _).
  - discriminate.
  - discriminate.
  - intros x Hx. simpl in Hx.
    destruct Hx as [Hx|[Hx|[]]]; subst x; split; vm_compute; reflexivity.
Defined.

(** ** Material *)

Lemma fold_material_opp (f g : Piece -> Q) (l : list Piece) :
  Forall (fun pc => f (swapPiece pc) == - g pc)%Q l ->
  forall a b,
    (a == - b)%Q ->
    (fold_left (fun total pc => total + f pc) (map swapPiece l) a
     == - fold_left (fun total pc => total + g pc) l b)%Q.
Proof.
  induction l as [|pc l IH]; intros Hall a b Hab; simpl; [exact Hab|].
  inversion Hall as [|? ? Hpc Hall']; subst.
  apply (IH Hall'). rewrite Hab, Hpc. ring.
Qed.

Lemma fold_material_eq (f g : Piece -> Q) (l : list Piece) :
  Forall (fun pc => f pc == g pc)%Q l ->
  forall a b,
    (a == b)%Q ->
    (fold_left (fun total pc => total + f pc) l a
     == fold_left (fun total pc => total + g pc) l b)%Q.
Proof.
  induction l as [|pc l IH]; intros Hall a b Hab; simpl; [exact Hab|].
  inversion Hall as [|? ? Hpc Hall']; subst.
  apply (IH Hall'). rewrite Hab, Hpc. reflexivity.
Qed.

Lemma getPositionValue_sum (l : list Piece) :
  forall a b,
    (a == b)%Q ->
    (fold_left
       (fun totalValue piece =>
          let val :=
            match PType piece with
            | Pawn => 1
            | Rook => 5
            | Knight => 29 # 10
            | Bishop => 3
            | Queen => 8
            | King => 10000
            | NoPieceType => 0
            end in
          if Color_eqb (PColor piece) White then totalValue + val
          else if Color_eqb (PColor piece) Black then totalValue - val
          else totalValue)
       l a
     == fold_left (fun total pc => total + positionValueOf pc) l b)%Q.
Proof.
  induction l as [|pc l IH]; intros a b Hab; simpl; [exact Hab|].
  apply IH. unfold positionValueOf.
  destruct (Color_eqb (PColor pc) White);
    [|destruct (Color_eqb (PColor pc) Black)]; rewrite Hab; ring.
Qed.

(** X10.  Material is antisymmetric in colour.  Exchanging the colours of
    all pieces negates [getPositionValue] (package mcts) on every board,
    and negates [sumMaterial] (packages alphabeta and minmax) on every
    board whose pieces without colour are empty squares; on such boards
    the three sums agree.  ([getPieceValue] counts a piece that is neither
    White nor Black as Black's, [getPositionValue] leaves it out.) *)
Theorem material_is_antisymmetric (p : Position) :
  (mcts_parallel.getPositionValue (swapColors p)
   == - mcts_parallel.getPositionValue p)%Q
  /\ (Forall colored (Board p) ->
      (alphabeta.sumMaterial (swapColors p) == - alphabeta.sumMaterial p)%Q
      /\ (minmax.sumMaterial (swapColors p) == - minmax.sumMaterial p)%Q
      /\ (alphabeta.sumMaterial p == mcts_parallel.getPositionValue p)%Q
      /\ (minmax.sumMaterial p == mcts_parallel.getPositionValue p)%Q).
Proof.
  split.
  - unfold mcts_parallel.getPositionValue, swapColors. cbn [Board].
    rewrite (getPositionValue_sum (map swapPiece (Board p)) 0 0 (Qeq_refl _)).
    rewrite (getPositionValue_sum (Board p) 0 0 (Qeq_refl _)).
    apply fold_material_opp; [|reflexivity].
    apply Forall_forall. intros [ty [| |]] _; destruct ty; reflexivity.
  - intros Hc.
    assert (Hopp : Forall (fun pc => alphabeta.getPieceValue (swapPiece pc)
                                     == - alphabeta.getPieceValue pc)%Q
                          (Board p)).
    { apply Forall_forall. intros pc Hin.
      rewrite Forall_forall in Hc. specialize (Hc pc Hin). unfold colored in Hc.
      destruct pc as [ty [| |]]; cbn in *;
        [rewrite (Hc eq_refl)|destruct ty|destruct ty]; reflexivity. }
    assert (Heq : Forall (fun pc => alphabeta.getPieceValue pc
                                    == positionValueOf pc)%Q (Board p)).
    { apply Forall_forall. intros pc Hin.
      rewrite Forall_forall in Hc. specialize (Hc pc Hin). unfold colored in Hc.
      destruct pc as [ty [| |]]; cbn in *;
        [rewrite (Hc eq_refl)|destruct ty|destruct ty]; reflexivity. }
    assert (H1 : (alphabeta.sumMaterial (swapColors p)
                  == - alphabeta.sumMaterial p)%Q).
    { unfold alphabeta.sumMaterial, swapColors. cbn [Board].
      apply fold_material_opp; [exact Hopp|reflexivity]. }
    assert (H2 : (alphabeta.sumMaterial p
                  == mcts_parallel.getPositionValue p)%Q).
    { unfold alphabeta.sumMaterial, mcts_parallel.getPositionValue.
      rewrite (getPositionValue_sum (Board p) 0 0 (Qeq_refl _)).
      apply fold_material_eq; [exact Heq|reflexivity]. }
    repeat split; assumption.
Qed.

Lemma material_is_antisymmetric_witness :
  (alphabeta.sumMaterial
     (swapColors (table.position table.queenUpGame 0))
   == - alphabeta.sumMaterial (table.position table.queenUpGame 0))%Q.
Proof.
  refine (proj1 (proj2 (material_is_antisymmetric
                          (table.position table.queenUpGame 0)) _)).
  apply Forall_forall. intros pc Hin Hc.
  vm_compute in Hin.
  repeat (destruct Hin as [Hin|Hin];
          [subst pc; first [reflexivity|discriminate Hc]|]).
  destruct Hin.
Defined.

(** ** The threat-count evaluator *)

Lemma wrap64_small (z : Z) :
  (- 2 ^ 63 <= z < 2 ^ 63)%Z -> wrap64 z = z.
Proof.
  intros H. unfold wrap64.
  rewrite Z.mod_small; lia.
Qed.

Lemma wrap64_range (z : Z) : (- 2 ^ 63 <= wrap64 z < 2 ^ 63)%Z.
Proof.
  unfold wrap64.
  pose proof (Z.mod_pos_bound (z + 2 ^ 63) (2 ^ 64) ltac:(lia)). lia.
Qed.

Lemma count_up (king : Square) (l : list Move) :
  forall total,
    (- 2 ^ 63 <= total)%Z ->
    (total + Z.of_nat (List.length l) <= MaxInt64)%Z ->
    fold_left (fun total move =>
                 if Nat.eqb (ToSquare move) king then incr64 total else total)
              l total
    = (total + Z.of_nat (List.length
                           (filter (fun move => Nat.eqb (ToSquare move) king)
                                   l)))%Z.
Proof.
  unfold MaxInt64.
  induction l as [|move l IH]; intros total Hlo Hhi; cbn [fold_left filter];
    [cbn; lia|].
  cbn [List.length] in Hhi.
  destruct (Nat.eqb (ToSquare move) king).
  - unfold incr64. rewrite wrap64_small by lia.
    rewrite IH by lia. cbn [List.length]. lia.
  - apply IH; lia.
Qed.

Lemma count_down (king : Square) (l : list Move) :
  forall total,
    (total <= MaxInt64)%Z ->
    (- 2 ^ 63 <= total - Z.of_nat (List.length l))%Z ->
    fold_left (fun total move =>
                 if Nat.eqb (ToSquare move) king then decr64 total else total)
              l total
    = (total - Z.of_nat (List.length
                           (filter (fun move => Nat.eqb (ToSquare move) king)
                                   l)))%Z.
Proof.
  unfold MaxInt64.
  induction l as [|move l IH]; intros total Hhi Hlo; cbn [fold_left filter];
    [cbn; lia|].
  cbn [List.length] in Hlo.
  destruct (Nat.eqb (ToSquare move) king).
  - unfold decr64. rewrite wrap64_small by lia.
    rewrite IH by lia. cbn [List.length]. lia.
  - apply IH; lia.
Qed.

Lemma filter_length_le {A : Type} (f : A -> bool) (l : list A) :
  (List.length (filter f l) <= List.length l)%nat.
Proof.
  induction l as [|x l IH]; simpl; [lia|]. destruct (f x); simpl; lia.
Qed.

(** The counter of [numPseudoLegalChecks] stays an int64 whatever is
    counted. *)
Lemma fold_counter_range (f : Z -> Move -> Z) (l : list Move) :
  (forall total move,
      (- 2 ^ 63 <= total < 2 ^ 63)%Z -> (- 2 ^ 63 <= f total move < 2 ^ 63)%Z) ->
  forall total,
    (- 2 ^ 63 <= total < 2 ^ 63)%Z ->
    (- 2 ^ 63 <= fold_left f l total < 2 ^ 63)%Z.
Proof.
  intros Hf. induction l as [|move l IH]; intros total H; simpl; [exact H|].
  apply IH. apply Hf. exact H.
Qed.

Lemma numPseudoLegalChecks_range (E : RulesEngine) (p : Position) :
  (- 2 ^ 63 <= fst (alphabeta.numPseudoLegalChecks E p) < 2 ^ 63)%Z.
Proof.
  unfold alphabeta.numPseudoLegalChecks. cbn [fst].
  apply fold_counter_range.
  - intros total move H. destruct (Nat.eqb _ _); [apply wrap64_range|exact H].
  - apply fold_counter_range; [|lia].
    intros total move H. destruct (Nat.eqb _ _); [apply wrap64_range|exact H].
Qed.

Lemma material_bound (f : Piece -> Q) (l : list Piece) :
  (forall pc, - (10000) <= f pc /\ f pc <= 10000)%Q ->
  forall a,
    (a - 10000 * inject_Z (Z.of_nat (List.length l))
     <= fold_left (fun total pc => total + f pc) l a)%Q
    /\ (fold_left (fun total pc => total + f pc) l a
        <= a + 10000 * inject_Z (Z.of_nat (List.length l)))%Q.
Proof.
  intros Hf. induction l as [|pc l IH]; intros a.
  - simpl. change (inject_Z 0) with 0%Q. split; lra.
  - cbn [fold_left List.length]. destruct (IH (a + f pc)%Q) as [H1 H2].
    destruct (Hf pc) as [H3 H4].
    rewrite Nat2Z.inj_succ. unfold Z.succ. rewrite inject_Z_plus.
    change (inject_Z 1) with 1%Q. split; lra.
Qed.

Lemma getPieceValue_bound (pc : Piece) :
  (- (10000) <= alphabeta.getPieceValue pc
   /\ alphabeta.getPieceValue pc <= 10000)%Q.
Proof.
  destruct pc as [ty c]. unfold alphabeta.getPieceValue. cbn.
  destruct (Color_eqb c White); destruct ty; split;
    unfold Qle; cbn; lia.
Qed.

(** X11.  What [evaluate] of package alphabeta computes.  With fewer
    than [2^63] pseudo-legal moves on either side, the score is the
    material sum plus 0.2 for every pseudo-legal move of White onto the
    square of Black's king and minus 0.2 for every pseudo-legal move of
    Black onto the square of White's king, each side generated as if it
    were to move.  The score does not depend on whose turn it is in the
    position given. *)
Theorem evaluate_is_material_plus_net_checks
        (E : RulesEngine) (p : Position) :
  (Z.of_nat (List.length (GeneratePseudoLegalMoves E (setTurn p White)))
   <= MaxInt64)%Z ->
  (Z.of_nat (List.length (GeneratePseudoLegalMoves E (setTurn p Black)))
   <= MaxInt64)%Z ->
  fst (alphabeta.evaluate E p)
  = (alphabeta.sumMaterial p
     + inject_Z (Z.of_nat (checksBy E p White)
                 - Z.of_nat (checksBy E p Black)) * (1 # 5))%Q
  /\ forall c, fst (alphabeta.evaluate E (setTurn p c))
               = fst (alphabeta.evaluate E p).
Proof.
  intros HW HB. split; [|intros c; reflexivity].
  unfold alphabeta.evaluate, alphabeta.numPseudoLegalChecks, checksBy.
  cbn [fst opponent].
  change (setTurn (setTurn p White) Black) with (setTurn p Black).
  set (wm := GeneratePseudoLegalMoves E (setTurn p White)) in *.
  set (bm := GeneratePseudoLegalMoves E (setTurn p Black)) in *.
  set (bk := alphabeta.findKing E (setTurn p White) Black).
  set (wk := alphabeta.findKing E (setTurn p Black) White).
  pose proof (filter_length_le (fun move => Nat.eqb (ToSquare move) bk) wm).
  pose proof (filter_length_le (fun move => Nat.eqb (ToSquare move) wk) bm).
  unfold MaxInt64 in *.
  rewrite (count_up bk wm 0%Z) by (unfold MaxInt64; lia).
  rewrite count_down by (unfold MaxInt64; lia).
  reflexivity.
Qed.

Lemma evaluate_is_material_plus_net_checks_witness :
  fst (alphabeta.evaluate (table.engine table.queenUpGame)
                          (table.position table.queenUpGame 0))
  = (alphabeta.sumMaterial (table.position table.queenUpGame 0)
     + inject_Z (Z.of_nat (checksBy (table.engine table.queenUpGame)
                                    (table.position table.queenUpGame 0) White)
                 - Z.of_nat (checksBy (table.engine table.queenUpGame)
                                      (table.position table.queenUpGame 0)
                                      Black)) * (1 # 5))%Q.
Proof.
  refine (proj1 (evaluate_is_material_plus_net_checks
                   (table.engine table.queenUpGame)
                   (table.position table.queenUpGame 0) _ _));
    vm_compute; discriminate.
Defined.

(** X12.  On a board of at most 64 squares, [evaluate] of package
    alphabeta stays strictly within [+-MaxFloat64], whatever the rules
    engine answers: the material sum is at most [64 * 10000] in magnitude
    and the check counter is an int64.  The sentinels [+-MaxFloat64] of
    the searchers are therefore never the evaluation of a position. *)
Theorem evaluate_within_the_sentinels (E : RulesEngine) (p : Position) :
  (List.length (Board p) <= 64)%nat ->
  (- MaxFloat64 < fst (alphabeta.evaluate E p))%Q
  /\ (fst (alphabeta.evaluate E p) < MaxFloat64)%Q
  /\ inRange (fst (alphabeta.evaluate E p)) = true.
Proof.
  intros Hlen.
  assert (H : (- MaxFloat64 < fst (alphabeta.evaluate E p)
               /\ fst (alphabeta.evaluate E p) < MaxFloat64)%Q).
  { unfold alphabeta.evaluate.
    pose proof (numPseudoLegalChecks_range E p) as Hc.
    destruct (alphabeta.numPseudoLegalChecks E p) as [checks p'].
    cbn [fst] in *.
    destruct (material_bound alphabeta.getPieceValue (Board p)
                getPieceValue_bound 0%Q) as [H1 H2].
    fold (alphabeta.sumMaterial p) in H1, H2.
    assert (Hl : (inject_Z (Z.of_nat (List.length (Board p))) <= 64)%Q).
    { change 64%Q with (inject_Z 64). rewrite <- Zle_Qle. lia. }
    assert (Hc1 : (inject_Z (- 2 ^ 63) <= inject_Z checks)%Q)
      by (rewrite <- Zle_Qle; lia).
    assert (Hc2 : (inject_Z checks <= inject_Z (2 ^ 63))%Q)
      by (rewrite <- Zle_Qle; lia).
    assert (Hbig : (640000 + inject_Z (2 ^ 63) < MaxFloat64)%Q)
      by (unfold Qlt; vm_compute; reflexivity).
    assert (Hneg : (inject_Z (- 2 ^ 63) == - inject_Z (2 ^ 63))%Q)
      by (unfold Qeq; vm_compute; reflexivity).
    assert (Hpos : (0 <= inject_Z (2 ^ 63))%Q)
      by (unfold Qle; vm_compute; discriminate).
    rewrite Hneg in Hc1.
    split; lra. }
  destruct H as [H1 H2]. split; [exact H1|]. split; [exact H2|].
  apply inRange_spec. split; lra.
Qed.

Lemma evaluate_within_the_sentinels_witness :
  inRange (fst (alphabeta.evaluate (table.engine table.queenUpGame)
                                   (table.position table.queenUpGame 0)))
  = true.
Proof.
  refine (proj2 (proj2 (evaluate_within_the_sentinels
                          (table.engine table.queenUpGame)
                          (table.position table.queenUpGame 0) _))).
  vm_compute. lia.
Defined.

(** ** [findKing] *)

(** X13.  [findKing] returns the first square of [chess.AllSquares] on
    which a king of the colour asked for stands, and [chess.NoSquare] when
    there is none. *)
Theorem findKing_first_king_square
        (E : RulesEngine) (p : Position) (c : Color) :
  let isKing := fun square =>
                  PieceType_eqb (PType (PieceAt E p square)) King
                  && Color_eqb (PColor (PieceAt E p square)) c in
  (forallb (fun square => negb (isKing square)) (AllSquares E) = true
   /\ alphabeta.findKing E p c = NoSquare E)
  \/ exists l1 l2,
       AllSquares E = l1 ++ alphabeta.findKing E p c :: l2
       /\ isKing (alphabeta.findKing E p c) = true
       /\ forallb (fun square => negb (isKing square)) l1 = true.
Proof.
  intros isKing. unfold alphabeta.findKing.
  induction (AllSquares E) as [|square rest IH]; cbn [alphabeta.findKing_loop].
  - left. split; reflexivity.
  - fold (isKing square). destruct (isKing square) eqn:Hk.
    + right. exists [], rest. repeat split; [exact Hk].
    + destruct IH as [[Hall Hr]|(l1 & l2 & Heq & Hking & Hall)].
      * left. cbn [forallb]. rewrite Hk, Hall. split; [reflexivity|exact Hr].
      * right. exists (square :: l1), l2. cbn [forallb app].
        rewrite Hk, Hall. rewrite <- Heq. repeat split; assumption.
Qed.

(** ** The exchange evaluator of [minmax/minmax.go] *)

Section Exchange.

Variable E : RulesEngine.

Lemma simulateAttacks_loop_none (p : Position) (square : Square)
      (legalMoves : list Move) :
  forallb (fun move => negb (Nat.eqb (ToSquare move) square)) legalMoves
  = true ->
  forall lowestCost lowestCostMove,
    minmax.simulateAttacks_loop E p square legalMoves lowestCost lowestCostMove
    = (lowestCost, lowestCostMove).
Proof.
  induction legalMoves as [|move rest IH]; intros H lc lm;
    cbn [minmax.simulateAttacks_loop]; [reflexivity|].
  cbn [forallb] in H. apply andb_true_iff in H. destruct H as [H1 H2].
  rewrite H1. apply (IH H2).
Qed.

Lemma simulateAttacks_loop_no_color (p : Position) (square : Square)
      (legalMoves : list Move) :
  Turn p = NoColor ->
  forall lowestCost lowestCostMove,
    minmax.simulateAttacks_loop E p square legalMoves lowestCost lowestCostMove
    = (lowestCost, lowestCostMove).
Proof.
  intros Ht.
  induction legalMoves as [|move rest IH]; intros lc lm;
    cbn [minmax.simulateAttacks_loop]; [reflexivity|].
  rewrite Ht. cbn. destruct (Nat.eqb (ToSquare move) square); apply IH.
Qed.

(** More fuel does not change an answer. *)
Lemma simulateAttacks_fuel (fuel : nat) :
  forall p square r,
    minmax.simulateAttacks E fuel p square = Some r ->
    minmax.simulateAttacks E (S fuel) p square = Some r.
Proof.
  induction fuel as [|fuel IH]; intros p square r H; [discriminate|].
  cbn [minmax.simulateAttacks] in H |- *.
  destruct (minmax.simulateAttacks_loop E p square (GenerateLegalMoves E p)
              (if Color_eqb (Turn p) Black
               then (MaxFloat64 * - (1))%Q else MaxFloat64) noMove)
    as [lc lm].
  destruct (Move_eqb lm noMove); [exact H|].
  destruct (minmax.simulateAttacks E fuel (Position_Move E p lm) square)
    as [r0|] eqn:Hr; [|discriminate].
  apply IH in Hr. cbn [minmax.simulateAttacks] in Hr. rewrite Hr. exact H.
Qed.

Lemma calcAttacks_loop_fuel (fuel : nat) (p : Position)
      (squares : list Square) :
  forall total r,
    minmax.calcAttacks_loop E fuel p squares total = Some r ->
    minmax.calcAttacks_loop E (S fuel) p squares total = Some r.
Proof.
  induction squares as [|square rest IH]; intros total r H;
    cbn [minmax.calcAttacks_loop] in H |- *; [exact H|].
  destruct (minmax.simulateAttacks E fuel p square) as [r0|] eqn:Hr;
    [|discriminate].
  rewrite (simulateAttacks_fuel fuel p square r0 Hr). apply IH. exact H.
Qed.

Lemma calcAttacks_loop_zero (fuel : nat) (p : Position)
      (squares : list Square) :
  (forall square, minmax.simulateAttacks E fuel p square = Some 0%Q) ->
  forall total,
    exists r, minmax.calcAttacks_loop E fuel p squares total = Some r
              /\ (r == total)%Q.
Proof.
  intros Hz. induction squares as [|square rest IH]; intros total;
    cbn [minmax.calcAttacks_loop].
  - exists total. split; reflexivity.
  - rewrite Hz. destruct (IH (total + 0)%Q) as (r & Hr & Heq).
    exists r. split; [exact Hr|]. rewrite Heq. ring.
Qed.

End Exchange.

(** X14.  The exchange evaluator at its edges.  [simulateAttacks] answers
    0 for a square on which no legal move of the side to move ends, and
    for every square when the turn is neither White's nor Black's; hence
    on a position without legal moves (checkmate or stalemate) [evaluate]
    of [minmax/minmax.go] is the material sum alone.  An answer does not
    depend on the recursion budget: once [evaluate] answers, it gives the
    same answer with any larger budget. *)
Theorem exchange_evaluator_edges
        (E : RulesEngine) (fuel : nat) (p : Position) :
  (forall square,
      forallb (fun move => negb (Nat.eqb (ToSquare move) square))
              (GenerateLegalMoves E p) = true ->
      minmax.simulateAttacks E (S fuel) p square = Some 0%Q)
  /\ (GenerateLegalMoves E p = [] \/ Turn p = NoColor ->
      exists r, minmax.evaluate E (S fuel) p = Some r
                /\ (r == minmax.sumMaterial p)%Q)
  /\ (forall r, minmax.evaluate E fuel p = Some r ->
                minmax.evaluate E (S fuel) p = Some r).
Proof.
  assert (H1 : forall square,
             forallb (fun move => negb (Nat.eqb (ToSquare move) square))
                     (GenerateLegalMoves E p) = true ->
             minmax.simulateAttacks E (S fuel) p square = Some 0%Q).
  { intros square H. cbn [minmax.simulateAttacks].
    rewrite (simulateAttacks_loop_none E p square _ H). reflexivity. }
  split; [exact H1|]. split.
  - intros Hedge.
    assert (Hz : forall square,
               minmax.simulateAttacks E (S fuel) p square = Some 0%Q).
    { intros square. destruct Hedge as [Hnil|Hturn].
      - apply H1. rewrite Hnil. reflexivity.
      - cbn [minmax.simulateAttacks].
        rewrite (simulateAttacks_loop_no_color E p square _ Hturn).
        reflexivity. }
    unfold minmax.evaluate, minmax.calcAttacks.
    destruct (calcAttacks_loop_zero E (S fuel) p (AllSquares E) Hz 0%Q)
      as (r & Hr & Heq).
    rewrite Hr. eexists. split; [reflexivity|]. rewrite Heq. ring.
  - intros r H. unfold minmax.evaluate, minmax.calcAttacks in *.
    destruct (minmax.calcAttacks_loop E fuel p (AllSquares E) 0%Q)
      as [a|] eqn:Ha; [|discriminate].
    rewrite (calcAttacks_loop_fuel E fuel p _ _ _ Ha). exact H.
Qed.

Lemma exchange_evaluator_edges_witness :
  exists r,
    minmax.evaluate (table.engine table.mateInOneGame) 1
                    (table.position table.mateInOneGame 1) = Some r
    /\ (r == minmax.sumMaterial (table.position table.mateInOneGame 1))%Q.
Proof.
  refine (proj1 (proj2 (exchange_evaluator_edges
                          (table.engine table.mateInOneGame) 0
                          (table.position table.mateInOneGame 1))) _).
  left. reflexivity.
Defined.

(** ** The choice of the move and of the child *)

Lemma bestMove_loop_first_greatest (cs : list mcts_core.node) :
  forall bestMove bestMoveScore,
    (mcts_core.bestMove_loop cs bestMove bestMoveScore = bestMove
     /\ Forall (fun x => average x <= bestMoveScore)%Q cs)
    \/ exists i c,
         nth_error cs i = Some c
         /\ mcts_core.bestMove_loop cs bestMove bestMoveScore
            = mcts_core.mov c
         /\ (bestMoveScore < average c)%Q
         /\ firstGreatest average cs i.
Proof.
  induction cs as [|child rest IH]; intros bm s;
    cbn [mcts_core.bestMove_loop]; [left; split; [reflexivity|constructor]|].
  fold (average child).
  destruct (Qltb s (average child)) eqn:T;
    [apply Qltb_lt in T|apply Qltb_ge in T].
  - right.
    destruct (IH (mcts_core.mov child) (average child))
      as [[Hr Hall]|(i & c & Hn & Hr & Hlt & Hfg)].
    + exists 0%nat, child. split; [reflexivity|]. split; [exact Hr|].
      split; [exact T|]. exists [], child, rest.
      repeat split; [constructor|exact Hall].
    + exists (S i), c. split; [exact Hn|]. split; [exact Hr|].
      split; [lra|].
      destruct Hfg as (l1 & c' & l2 & Heq & Hlen & H1 & H2).
      assert (Hc : c' = c).
      { rewrite Heq in Hn. rewrite nth_error_app2 in Hn by lia.
        rewrite Hlen, Nat.sub_diag in Hn. inversion Hn. reflexivity. }
      subst c'. exists (child :: l1), c, l2.
      split; [rewrite Heq; reflexivity|]. split; [simpl; lia|].
      split; [constructor; assumption|exact H2].
  - destruct (IH bm s) as [[Hr Hall]|(i & c & Hn & Hr & Hlt & Hfg)].
    + left. split; [exact Hr|constructor; assumption].
    + right. exists (S i), c. split; [exact Hn|]. split; [exact Hr|].
      split; [exact Hlt|].
      destruct Hfg as (l1 & c' & l2 & Heq & Hlen & H1 & H2).
      assert (Hc : c' = c).
      { rewrite Heq in Hn. rewrite nth_error_app2 in Hn by lia.
        rewrite Hlen, Nat.sub_diag in Hn. inversion Hn. reflexivity. }
      subst c'. exists (child :: l1), c, l2.
      split; [rewrite Heq; reflexivity|]. split; [simpl; lia|].
      split; [constructor; [lra|exact H1]|exact H2].
Qed.

(** X15.  [bestMove] returns the move of the child of greatest average
    reward [w / n], the first such child in case of a tie, when every
    child has been visited and no reward is negative; on a node without
    children it panics. *)
Theorem bestMove_first_greatest_average (t : mcts_core.node) :
  (mcts_core.children t = [] -> mcts_core.bestMove t = None)
  /\ (mcts_core.children t <> [] ->
      Forall (fun c => (0 < mcts_core.n c)%Z /\ (0 <= mcts_core.w c)%Q)
             (mcts_core.children t) ->
      exists i c,
        nth_error (mcts_core.children t) i = Some c
        /\ mcts_core.bestMove t = Some (mcts_core.mov c)
        /\ firstGreatest average (mcts_core.children t) i).
Proof.
  unfold mcts_core.bestMove. split.
  - intros H. rewrite H. reflexivity.
  - intros Hne Hall.
    destruct (mcts_core.children t) as [|first rest] eqn:Hcs;
      [contradiction|].
    destruct (bestMove_loop_first_greatest (first :: rest)
                (mcts_core.mov first) (- MaxFloat64)%Q)
      as [[_ Hle]|(i & c & Hn & Hr & _ & Hfg)].
    + exfalso. inversion Hle as [|? ? H1 _]; subst.
      inversion Hall as [|? ? [Hn Hw] _]; subst.
      assert (H0 : (0 <= average first)%Q).
      { unfold average. apply Qle_shift_div_l.
        - change 0%Q with (inject_Z 0). rewrite <- Zlt_Qlt. exact Hn.
        - lra. }
      assert (Hneg : (- MaxFloat64 < 0)%Q)
        by (unfold Qlt; vm_compute; reflexivity).
      lra.
    + exists i, c. split; [exact Hn|]. split; [rewrite Hr; reflexivity|].
      exact Hfg.
Qed.

Section SelectByUCB.

Variables Sqrt Log : Q -> Q.
Variable mctsn : Z.

Let ucb := mcts_core.calcUCB Sqrt Log mctsn.

Lemma maxUCB_loop_first_greatest (cs : list mcts_core.node) :
  forall k maxUCB bestChild,
    (mcts_core.maxUCB_loop Sqrt Log mctsn cs k maxUCB bestChild = bestChild
     /\ Forall (fun x => ucb x <= maxUCB)%Q cs)
    \/ exists i c,
         nth_error cs i = Some c
         /\ mcts_core.maxUCB_loop Sqrt Log mctsn cs k maxUCB bestChild
            = (k + i)%nat
         /\ (maxUCB < ucb c)%Q
         /\ firstGreatest ucb cs i.
Proof.
  induction cs as [|child rest IH]; intros k s best;
    cbn [mcts_core.maxUCB_loop]; [left; split; [reflexivity|constructor]|].
  fold (ucb child).
  destruct (Qltb s (ucb child)) eqn:T;
    [apply Qltb_lt in T|apply Qltb_ge in T].
  - right.
    destruct (IH (S k) (ucb child) k)
      as [[Hr Hall]|(i & c & Hn & Hr & Hlt & Hfg)].
    + exists 0%nat, child. split; [reflexivity|].
      split; [rewrite Hr; lia|].
      split; [exact T|]. exists [], child, rest.
      repeat split; [constructor|exact Hall].
    + exists (S i), c. split; [exact Hn|]. split; [rewrite Hr; lia|].
      split; [lra|].
      destruct Hfg as (l1 & c' & l2 & Heq & Hlen & H1 & H2).
      assert (Hc : c' = c).
      { rewrite Heq in Hn. rewrite nth_error_app2 in Hn by lia.
        rewrite Hlen, Nat.sub_diag in Hn. inversion Hn. reflexivity. }
      subst c'. exists (child :: l1), c, l2.
      split; [rewrite Heq; reflexivity|]. split; [simpl; lia|].
      split; [constructor; assumption|exact H2].
  - destruct (IH (S k) s best) as [[Hr Hall]|(i & c & Hn & Hr & Hlt & Hfg)].
    + left. split; [exact Hr|constructor; assumption].
    + right. exists (S i), c. split; [exact Hn|]. split; [rewrite Hr; lia|].
      split; [exact Hlt|].
      destruct Hfg as (l1 & c' & l2 & Heq & Hlen & H1 & H2).
      assert (Hc : c' = c).
      { rewrite Heq in Hn. rewrite nth_error_app2 in Hn by lia.
        rewrite Hlen, Nat.sub_diag in Hn. inversion Hn. reflexivity. }
      subst c'. exists (child :: l1), c, l2.
      split; [rewrite Heq; reflexivity|]. split; [simpl; lia|].
      split; [constructor; [lra|exact H1]|exact H2].
Qed.

Lemma firstUnvisited_none (cs : list mcts_core.node) :
  Forall (fun c => mcts_core.n c <> 0%Z) cs ->
  forall k, mcts_core.firstUnvisited cs k = None.
Proof.
  induction cs as [|c cs IH]; intros H k; cbn [mcts_core.firstUnvisited];
    [reflexivity|].
  inversion H as [|? ? Hc H']; subst.
  apply Z.eqb_neq in Hc. rewrite Hc. apply (IH H').
Qed.

End SelectByUCB.

(** X16.  When every child has been visited, [selectNode] returns the
    child of greatest UCB value [w/n + c * sqrt (log mcts.n / n)], the
    first such child in case of a tie (the UCB value of the first child
    being above [-MaxFloat64], the initial value of the running
    maximum). *)
Theorem selectNode_first_greatest_ucb
        (Sqrt Log : Q -> Q) (mctsn : Z) (cs : list mcts_core.node) :
  cs <> [] ->
  Forall (fun c => mcts_core.n c <> 0%Z) cs ->
  Forall (fun c => - MaxFloat64 < mcts_core.calcUCB Sqrt Log mctsn c)%Q cs ->
  exists i,
    mcts_core.selectNode Sqrt Log mctsn cs = Some i
    /\ firstGreatest (mcts_core.calcUCB Sqrt Log mctsn) cs i.
Proof.
  intros Hne Hvis Hucb. unfold mcts_core.selectNode.
  rewrite (firstUnvisited_none cs Hvis).
  destruct cs as [|first rest]; [contradiction|].
  destruct (maxUCB_loop_first_greatest Sqrt Log mctsn (first :: rest) 0
              (- MaxFloat64)%Q 0%nat)
    as [[_ Hle]|(i & c & Hn & Hr & _ & Hfg)].
  - exfalso. inversion Hle as [|? ? H1 _]; subst.
    inversion Hucb as [|? ? H2 _]; subst. lra.
  - exists i. split; [rewrite Hr; reflexivity|exact Hfg].
Qed.

Lemma selectNode_first_greatest_ucb_witness :
  exists i,
    mcts_core.selectNode (fun x => x) (fun x => x) 3
                         [mcts_core.Node 1 2 noMove (mkPosition [] White 0) [];
                          mcts_core.Node 1 1 noMove (mkPosition [] White 0) []]
    = Some i
    /\ firstGreatest (mcts_core.calcUCB (fun x => x) (fun x => x) 3)
                     [mcts_core.Node 1 2 noMove (mkPosition [] White 0) [];
                      mcts_core.Node 1 1 noMove (mkPosition [] White 0) []]
                     i.
Proof.
  apply (selectNode_first_greatest_ucb (fun x => x) (fun x => x) 3).
  - discriminate.
  - repeat constructor; discriminate.
  - repeat constructor; vm_compute; reflexivity.
Defined.

Lemma bestMove_first_greatest_average_witness :
  exists i c,
    nth_error [mcts_core.Node 1 2 (table.mv 1 2) (mkPosition [] White 0) [];
               mcts_core.Node 1 1 (table.mv 3 4) (mkPosition [] White 0) []]
              i = Some c
    /\ mcts_core.bestMove
         (mcts_core.Node 0 0 noMove (mkPosition [] White 0)
            [mcts_core.Node 1 2 (table.mv 1 2) (mkPosition [] White 0) [];
             mcts_core.Node 1 1 (table.mv 3 4) (mkPosition [] White 0) []])
       = Some (mcts_core.mov c)
    /\ firstGreatest average
         [mcts_core.Node 1 2 (table.mv 1 2) (mkPosition [] White 0) [];
          mcts_core.Node 1 1 (table.mv 3 4) (mkPosition [] White 0) []] i.
Proof.
  refine (proj2 (bestMove_first_greatest_average
                   (mcts_core.Node 0 0 noMove (mkPosition [] White 0)
                      [mcts_core.Node 1 2 (table.mv 1 2)
                                      (mkPosition [] White 0) [];
                       mcts_core.Node 1 1 (table.mv 3 4)
                                      (mkPosition [] White 0) []])) _ _).
  - discriminate.
  - repeat constructor; try lia; unfold Qle; simpl; lia.
Defined.

(** ** How the children of a node are built *)

Lemma makeParentNode_loop_spec (E : RulesEngine) (moves : list Move) :
  forall p cs,
    mcts_parallel.makeParentNode_loop E p moves cs
    = (fold_left (Position_Move E) moves p, cs ++ parentChildren E p moves).
Proof.
  induction moves as [|move rest IH]; intros p cs;
    cbn [mcts_parallel.makeParentNode_loop parentChildren fold_left].
  - rewrite app_nil_r. reflexivity.
  - rewrite IH. rewrite <- app_assoc. reflexivity.
Qed.

Lemma parentChildren_nth (E : RulesEngine) (moves : list Move) :
  forall p k c,
    nth_error (parentChildren E p moves) k = Some c ->
    exists move,
      nth_error moves k = Some move
      /\ c = mcts_core.Node 0 0 move
                            (fold_left (Position_Move E) (firstn k moves) p) [].
Proof.
  induction moves as [|move rest IH]; intros p [|k] c H;
    cbn [parentChildren nth_error firstn fold_left] in *; try discriminate.
  - inversion H. exists move. split; reflexivity.
  - apply (IH _ _ _ H).
Qed.

Lemma parentChildren_mov (E : RulesEngine) (moves : list Move) :
  forall p, map mcts_core.mov (parentChildren E p moves) = moves.
Proof.
  induction moves as [|move rest IH]; intros p; cbn; [reflexivity|].
  rewrite IH. reflexivity.
Qed.

Lemma makeParentNode_moves (E : RulesEngine) (p : Position) :
  map mcts_core.mov (mcts_core.children (mcts_parallel.makeParentNode E p))
  = GenerateLegalMoves E p.
Proof.
  unfold mcts_parallel.makeParentNode.
  rewrite makeParentNode_loop_spec. cbn. apply parentChildren_mov.
Qed.

(** X17.  How the two revisions build the children of a node.
    [fillInChildren], on a node without children, appends one child per
    legal move, in generation order, each holding its move and the
    position after that move.  [makeParentNode] (parallel-root revision)
    also builds one child per legal move of [p], in generation order, but
    the [k]-th child holds the position reached from [p] by the first [k]
    legal moves made one after another on the same position value, its own
    move not among them: the first child holds [p] itself, and the
    parent ends up with the position after all of them.  All children are
    new: [w = 0], [n = 0], no children. *)
Theorem children_as_built (E : RulesEngine) (p : Position) :
  let legalMoves := GenerateLegalMoves E p in
  (forall w n mov,
      mcts_core.children (mcts_core.fillInChildren E
                            (mcts_core.Node w n mov p []))
      = map (fun move => mcts_core.Node 0 0 move (Position_Move E p move) [])
            legalMoves)
  /\ map mcts_core.mov (mcts_core.children (mcts_parallel.makeParentNode E p))
     = legalMoves
  /\ mcts_core.pos (mcts_parallel.makeParentNode E p)
     = fold_left (Position_Move E) legalMoves p
  /\ (forall k c,
         nth_error (mcts_core.children (mcts_parallel.makeParentNode E p)) k
         = Some c ->
         exists move,
           nth_error legalMoves k = Some move
           /\ c = mcts_core.Node
                    0 0 move
                    (fold_left (Position_Move E) (firstn k legalMoves) p) []).
Proof.
  cbv zeta. split; [intros w n mov; reflexivity|].
  unfold mcts_parallel.makeParentNode.
  rewrite makeParentNode_loop_spec. cbn.
  split; [apply parentChildren_mov|]. split; [reflexivity|].
  intros k c H. apply (parentChildren_nth E _ _ _ _ H).
Qed.

(** ** The move that [Mcts.GetMove] returns *)

Lemma bestMove_loop_in (cs : list mcts_core.node) :
  forall bestMove bestMoveScore,
    mcts_core.bestMove_loop cs bestMove bestMoveScore = bestMove
    \/ In (mcts_core.bestMove_loop cs bestMove bestMoveScore)
          (map mcts_core.mov cs).
Proof.
  induction cs as [|child rest IH]; intros bm s;
    cbn [mcts_core.bestMove_loop]; [left; reflexivity|].
  destruct (Qltb s _).
  - destruct (IH (mcts_core.mov child)
                 (mcts_core.w child / inject_Z (mcts_core.n child))%Q)
      as [H|H]; right; [left; symmetry; exact H|right; exact H].
  - destruct (IH bm s) as [H|H]; [left; exact H|right; right; exact H].
Qed.

Lemma bestMove_in (t : mcts_core.node) :
  mcts_core.children t <> [] ->
  exists m, mcts_core.bestMove t = Some m
            /\ In m (map mcts_core.mov (mcts_core.children t)).
Proof.
  intros Hne. unfold mcts_core.bestMove.
  destruct (mcts_core.children t) as [|first rest]; [contradiction|].
  eexists. split; [reflexivity|].
  destruct (bestMove_loop_in (first :: rest) (mcts_core.mov first)
                             (- MaxFloat64)%Q) as [H|H];
    [rewrite H; left; reflexivity|exact H].
Qed.

Lemma map_replace_nth {A B : Type} (f : A -> B) (l : list A) :
  forall i a x,
    nth_error l i = Some a -> f x = f a ->
    map f (mcts_core.replace_nth i x l) = map f l.
Proof.
  induction l as [|y l IH]; intros [|i] a x Hn Hf; simpl in *;
    try discriminate.
  - inversion Hn; subst. rewrite Hf. reflexivity.
  - rewrite (IH i a x Hn Hf). reflexivity.
Qed.

Section MovesKept.

Variable E : RulesEngine.
Variables Sqrt Log : Q -> Q.
Variable randomRollout :
  Position -> Color -> mcts_core.Rand -> Q * mcts_core.Rand.

Let iterate := mcts_core.iterate E Sqrt Log randomRollout.

(** [iterate] never changes the move or the position of the node it is
    called on, nor the moves of its children once it has some. *)
Lemma iterate_keeps_moves (mctsn : Z) (agentColor : Color) :
  forall t g r t' g',
    iterate mctsn agentColor t g = Some (r, t', g') ->
    mcts_core.mov t' = mcts_core.mov t
    /\ mcts_core.pos t' = mcts_core.pos t
    /\ (map mcts_core.mov (mcts_core.children t')
        = map mcts_core.mov (mcts_core.children t)
        \/ (mcts_core.children t = []
            /\ map mcts_core.mov (mcts_core.children t')
               = GenerateLegalMoves E (mcts_core.pos t))).
Proof.
  intros t. induction t as [w0 n0 mov0 pos0 cs IH] using node_ind'.
  intros g r t' g' H. unfold iterate in *. rewrite iterate_unfold in H.
  unfold mcts_core.iterate_body in H.
  set (t := mcts_core.Node w0 n0 mov0 pos0 cs) in *.
  fold (expanded E t) in H. change (mcts_core.pos t) with pos0 in *.
  destruct (IsCheckMate E pos0 && negb (Color_eqb (Turn pos0) agentColor)).
  { inversion H; subst. cbn. auto. }
  destruct (IsStaleMate E pos0 || IsCheckMate E pos0).
  { inversion H; subst. cbn. auto. }
  destruct (mcts_core.selectNode Sqrt Log mctsn
              (mcts_core.children (expanded E t))) as [i|]; [|discriminate].
  destruct (nth_error (mcts_core.children (expanded E t)) i) as [sel|] eqn:Hn;
    [|discriminate].
  destruct (expanded_fields E t) as (_ & _ & Hmov & Hpos).
  assert (Hsel : forall r0 sel' g0,
             (if (mcts_core.n sel =? 0)%Z
              then let '(result, g'0) :=
                     randomRollout (mcts_core.pos (expanded E t)) agentColor g
                   in Some (result, sel, g'0)
              else mcts_core.iterate E Sqrt Log randomRollout mctsn agentColor sel g) = Some (r0, sel', g0) ->
             mcts_core.mov sel' = mcts_core.mov sel).
  { intros r0 sel' g0 Hs. destruct (mcts_core.n sel =? 0)%Z eqn:Hz.
    - destruct (randomRollout (mcts_core.pos (expanded E t)) agentColor g).
      inversion Hs; subst. reflexivity.
    - assert (Hin : In sel cs).
      { destruct (expanded_cases E t) as [[_ Hfresh]|[_ Heq]].
        - apply nth_error_In in Hn. apply Hfresh in Hn.
          destruct Hn as (H0 & _). rewrite H0 in Hz. discriminate.
        - rewrite Heq in Hn. apply nth_error_In in Hn. exact Hn. }
      rewrite Forall_forall in IH.
      apply (IH sel Hin g r0 sel' g0 Hs). }
  destruct (if (mcts_core.n sel =? 0)%Z
            then let '(result, g'0) :=
                   randomRollout (mcts_core.pos (expanded E t)) agentColor g
                 in Some (result, sel, g'0)
            else mcts_core.iterate E Sqrt Log randomRollout mctsn agentColor sel g)
    as [[[r0 sel'] g0]|] eqn:Hs; [|discriminate].
  specialize (Hsel r0 sel' g0 eq_refl).
  inversion H; subst. cbn [mcts_core.mov mcts_core.pos mcts_core.children].
  split; [exact Hmov|]. split; [exact Hpos|].
  rewrite (map_replace_nth mcts_core.mov _ i sel _ Hn)
    by (cbn; exact Hsel).
  unfold expanded. destruct cs as [|c cs']; cbn.
  - right. split; [reflexivity|]. rewrite map_map. cbn. apply map_id.
  - left. reflexivity.
Qed.

End MovesKept.

Section MovesOfTheRoot.

Variable E : RulesEngine.
Variables Sqrt Log : Q -> Q.
Variable randomRollout :
  Position -> Color -> mcts_core.Rand -> Q * mcts_core.Rand.

(** Below a node that is not terminal, [iterate] leaves the moves of the
    (expanded) node's children as they are. *)
Lemma iterate_keeps_child_moves (mctsn : Z) (agentColor : Color)
      (t : mcts_core.node) (g : mcts_core.Rand) r t' g' :
  nonTerminal E t ->
  mcts_core.iterate E Sqrt Log randomRollout mctsn agentColor t g
  = Some (r, t', g') ->
  map mcts_core.mov (mcts_core.children t')
  = map mcts_core.mov (mcts_core.children (expanded E t)).
Proof.
  intros [Hm Hs] H. rewrite iterate_unfold in H.
  unfold mcts_core.iterate_body in H. rewrite Hm, Hs in H. simpl in H.
  fold (expanded E t) in H.
  destruct (mcts_core.selectNode Sqrt Log mctsn
              (mcts_core.children (expanded E t))) as [i|]; [|discriminate].
  destruct (nth_error (mcts_core.children (expanded E t)) i) as [sel|] eqn:Hn;
    [|discriminate].
  destruct (if (mcts_core.n sel =? 0)%Z
            then let '(result, g'0) :=
                   randomRollout (mcts_core.pos (expanded E t)) agentColor g
                 in Some (result, sel, g'0)
            else mcts_core.iterate E Sqrt Log randomRollout mctsn agentColor
                                   sel g)
    as [[[r0 sel'] g0]|] eqn:Hsel; [|discriminate].
  assert (Hmov : mcts_core.mov sel' = mcts_core.mov sel).
  { destruct (mcts_core.n sel =? 0)%Z.
    - destruct (randomRollout (mcts_core.pos (expanded E t)) agentColor g).
      inversion Hsel; subst. reflexivity.
    - apply (iterate_keeps_moves E Sqrt Log randomRollout mctsn agentColor
               sel g r0 sel' g0 Hsel). }
  inversion H; subst. cbn [mcts_core.children].
  apply (map_replace_nth mcts_core.mov _ i sel _ Hn). cbn. exact Hmov.
Qed.

Lemma expanded_moves (t : mcts_core.node) :
  mcts_core.children t = []
  \/ map mcts_core.mov (mcts_core.children t)
     = GenerateLegalMoves E (mcts_core.pos t) ->
  map mcts_core.mov (mcts_core.children (expanded E t))
  = GenerateLegalMoves E (mcts_core.pos t).
Proof.
  intros H. unfold expanded.
  destruct (mcts_core.children t) as [|c cs] eqn:Hcs; cbn.
  - rewrite Hcs. cbn. rewrite map_map. cbn. apply map_id.
  - rewrite Hcs. destruct H as [H|H]; [discriminate|exact H].
Qed.

End MovesOfTheRoot.

Section SingleTreeMove.

Variable E : RulesEngine.
Variables Sqrt Log : Q -> Q.
Variable p : Position.

Let rooted (st : Z * mcts_core.node * mcts_core.Rand) : Prop :=
  mcts_core.pos (snd (fst st)) = p
  /\ (mcts_core.children (snd (fst st)) = []
      \/ map mcts_core.mov (mcts_core.children (snd (fst st)))
         = GenerateLegalMoves E p).

Let grown (st : Z * mcts_core.node * mcts_core.Rand) : Prop :=
  mcts_core.pos (snd (fst st)) = p
  /\ map mcts_core.mov (mcts_core.children (snd (fst st)))
     = GenerateLegalMoves E p.

Hypothesis root_not_checkmate : IsCheckMate E p = false.
Hypothesis root_not_stalemate : IsStaleMate E p = false.

Lemma GetMove_step_grows (agentColor : Color) st st' :
  rooted st ->
  mcts_single.GetMove_step E Sqrt Log agentColor st = Some st' ->
  grown st'.
Proof.
  unfold rooted, grown. destruct st as [[N t] g]. intros [Hpos Hcs] H.
  unfold mcts_single.GetMove_step, mcts_single.iterate in H.
  destruct (mcts_core.iterate E Sqrt Log (mcts_single.randomRollout E)
              N agentColor t g) as [[[r t'] g']|] eqn:Hit; [|discriminate].
  inversion H; subst st'. cbn [fst snd] in *.
  assert (Hnt : nonTerminal E t).
  { split; rewrite Hpos; assumption. }
  destruct (iterate_keeps_moves E Sqrt Log _ N agentColor t g r t' g' Hit)
    as (_ & Hpos' & _).
  split; [rewrite Hpos'; exact Hpos|].
  rewrite (iterate_keeps_child_moves E Sqrt Log _ N agentColor t g r t' g'
             Hnt Hit).
  rewrite expanded_moves; rewrite Hpos; [reflexivity|exact Hcs].
Qed.

Lemma GetMove_loop_grown (batches : nat) (g : mcts_core.Rand) st :
  (1 <= batches)%nat ->
  mcts_single.GetMove_loop E Sqrt Log batches p g = Some st ->
  grown st.
Proof.
  intros Hb H. unfold mcts_single.GetMove_loop in H. cbv zeta in H.
  rewrite repeat_step_mul in H.
  destruct (batches * mcts_core.iterationsBetweenTimeChecks)%nat as [|k] eqn:Hk;
    [unfold mcts_core.iterationsBetweenTimeChecks in Hk; lia|].
  cbn [mcts_core.repeat_step] in H.
  destruct (mcts_single.GetMove_step E Sqrt Log (Turn p)
              (0%Z, mcts_core.Node 0 0 noMove p [], g)) as [st1|] eqn:H1;
    [|discriminate].
  apply GetMove_step_grows in H1; [|split; [reflexivity|left; reflexivity]].
  apply (repeat_step_preserves
           (mcts_single.GetMove_step E Sqrt Log (Turn p)) grown)
    with (k := k) (st := st1); [|exact H1|exact H].
  intros s s' [Hpos Hcs] Hs.
  apply (GetMove_step_grows (Turn p) s s'); [|exact Hs].
  split; [exact Hpos|right; exact Hcs].
Qed.

End SingleTreeMove.

Section ParallelMove.

Variable E : RulesEngine.
Variables Sqrt Log : Q -> Q.
Variable readFirst : bool.
Hypothesis engine_sane : sane E.

Lemma concurrentIterate_step_mov (agentColor : Color) st st' :
  mcts_parallel.concurrentIterate_step E Sqrt Log readFirst agentColor st
  = Some st' ->
  mcts_core.mov (snd (fst st')) = mcts_core.mov (snd (fst st)).
Proof.
  destruct st as [[N t] g]. intros H.
  unfold mcts_parallel.concurrentIterate_step, mcts_parallel.iterate in H.
  destruct (mcts_core.iterate E Sqrt Log (mcts_parallel.randomRollout E)
              N agentColor t g) as [[[r t'] g']|] eqn:Hit; [|discriminate].
  inversion H; subst st'. cbn [fst snd mcts_core.mov].
  apply (iterate_keeps_moves E Sqrt Log _ N agentColor t g r t' g' Hit).
Qed.

Lemma concurrentIterate_step_total (agentColor : Color) st :
  mcts_parallel.concurrentIterate_step E Sqrt Log readFirst agentColor st
  <> None.
Proof.
  destruct st as [[N t] g].
  unfold mcts_parallel.concurrentIterate_step, mcts_parallel.iterate.
  pose proof (iterate_total E Sqrt Log (mcts_parallel.randomRollout E)
                N agentColor engine_sane t g) as Hne.
  destruct (mcts_core.iterate E Sqrt Log (mcts_parallel.randomRollout E)
              N agentColor t g) as [[[r t'] g']|];
    [discriminate|contradiction].
Qed.

Lemma concurrentIterate_mov (batches : nat) (t : mcts_core.node)
      (agentColor : Color) (g : mcts_core.Rand) :
  exists N t' g',
    mcts_parallel.concurrentIterate E Sqrt Log readFirst batches t
                                    agentColor g = Some (N, t', g')
    /\ mcts_core.mov t' = mcts_core.mov t.
Proof.
  unfold mcts_parallel.concurrentIterate. rewrite repeat_step_mul.
  pose proof (repeat_step_total
                (mcts_parallel.concurrentIterate_step E Sqrt Log readFirst
                                                      agentColor)
                (concurrentIterate_step_total agentColor)
                (batches * mcts_core.iterationsBetweenTimeChecks)
                (0%Z, t, g)) as Hne.
  destruct (mcts_core.repeat_step _ _ _) as [[[N t'] g']|] eqn:Hrun;
    [|contradiction].
  exists N, t', g'. split; [reflexivity|].
  apply (repeat_step_preserves
           _ (fun st => mcts_core.mov (snd (fst st)) = mcts_core.mov t)
           (fun s s' Hs Hstep =>
              eq_trans (concurrentIterate_step_mov agentColor s s' Hstep) Hs)
           _ (0%Z, t, g) (N, t', g') eq_refl Hrun).
Qed.

Lemma runChildren_mov (batches : nat -> nat) (rands : nat -> mcts_core.Rand)
      (agentColor : Color) (cs : list mcts_core.node) :
  forall i,
    exists cs',
      mcts_parallel.runChildren E Sqrt Log readFirst batches rands
                                agentColor i cs = Some cs'
      /\ map mcts_core.mov cs' = map mcts_core.mov cs.
Proof.
  induction cs as [|child rest IH]; intros i;
    cbn [mcts_parallel.runChildren].
  - exists []. split; reflexivity.
  - destruct (concurrentIterate_mov (batches i) child agentColor (rands i))
      as (N & child' & g' & Hrun & Hmov).
    rewrite Hrun. destruct (IH (S i)) as (rest' & Hrest & Hmovs).
    rewrite Hrest. exists (child' :: rest'). split; [reflexivity|].
    cbn. rewrite Hmov, Hmovs. reflexivity.
Qed.

End ParallelMove.

(** X18.  In a rules engine in which a position without legal moves is
    checkmate or stalemate, [Mcts.GetMove] returns a legal move of the
    position it is given: the single-tree revision when the position is
    neither checkmate nor stalemate and the clock admits at least one
    batch of iterations, the parallel-root revision whenever the position
    has a legal move (whatever the clock admits in each goroutine).
    Otherwise there is no child to choose from and [bestMove] panics: in
    the single-tree revision on a checkmate or stalemate position and when
    the clock admits no batch, in the parallel-root revision on a position
    without legal moves. *)
Theorem mcts_returns_a_legal_move
        (E : RulesEngine) (Sqrt Log : Q -> Q) (readFirst : bool)
        (p : Position) :
  sane E ->
  (forall batches g,
      IsCheckMate E p = false -> IsStaleMate E p = false ->
      (1 <= batches)%nat ->
      exists m, mcts_single.GetMove E Sqrt Log batches p g = Some m
                /\ In m (GenerateLegalMoves E p))
  /\ (forall batches rands,
         GenerateLegalMoves E p <> [] ->
         exists m,
           mcts_parallel.GetMove E Sqrt Log readFirst batches rands p = Some m
           /\ In m (GenerateLegalMoves E p))
  /\ (forall g, mcts_single.GetMove E Sqrt Log 0 p g = None)
  /\ (forall batches g,
         IsCheckMate E p || IsStaleMate E p = true ->
         mcts_single.GetMove E Sqrt Log batches p g = None)
  /\ (forall batches rands,
         GenerateLegalMoves E p = [] ->
         mcts_parallel.GetMove E Sqrt Log readFirst batches rands p = None).
Proof.
  intros Hsane. split; [|split; [|split; [|split]]].
  - intros batches g Hm Hs Hb. unfold mcts_single.GetMove.
    pose proof (GetMove_loop_total E Sqrt Log batches p g Hsane) as Hne.
    destruct (mcts_single.GetMove_loop E Sqrt Log batches p g)
      as [[[N t] g']|] eqn:Hloop; [|contradiction].
    destruct (GetMove_loop_grown E Sqrt Log p Hm Hs batches g _ Hb Hloop)
      as [Hpos Hcs]. cbn [fst snd] in *.
    destruct (bestMove_in t) as (m & Hbest & Hin).
    { intros Hnil. rewrite Hnil in Hcs. cbn in Hcs. symmetry in Hcs.
      apply Hsane in Hcs. rewrite Hm, Hs in Hcs. discriminate. }
    exists m. split; [exact Hbest|]. rewrite Hcs in Hin. exact Hin.
  - intros batches rands Hne. unfold mcts_parallel.GetMove. cbv zeta.
    pose proof (makeParentNode_moves E p) as Hmovs.
    destruct (runChildren_mov E Sqrt Log readFirst Hsane batches rands (Turn p)
                (mcts_core.children (mcts_parallel.makeParentNode E p)) 0)
      as (cs' & Hrun & Hmov).
    rewrite Hrun.
    match goal with
    | |- context [mcts_core.bestMove ?t] =>
        destruct (bestMove_in t) as (m & Hbest & Hin)
    end.
    { cbn [mcts_core.children]. intros Hnil. rewrite Hnil in Hmov.
      cbn in Hmov. rewrite Hmovs in Hmov. apply Hne. symmetry. exact Hmov. }
    exists m. split; [exact Hbest|]. cbn [mcts_core.children] in Hin.
    rewrite Hmov, Hmovs in Hin. exact Hin.
  - intros g. reflexivity.
  - intros batches g Hterm. unfold mcts_single.GetMove.
    destruct (mcts_single.GetMove_loop E Sqrt Log batches p g)
      as [[[N t] g']|] eqn:Hloop; [|reflexivity].
    unfold mcts_single.GetMove_loop in Hloop. cbv zeta in Hloop.
    rewrite repeat_step_mul in Hloop.
    assert (Hinv : mcts_core.pos t = p /\ mcts_core.children t = []).
    { apply (repeat_step_preserves
               _ (fun st => mcts_core.pos (snd (fst st)) = p
                            /\ mcts_core.children (snd (fst st)) = [])) in Hloop;
        [exact Hloop| |split; reflexivity].
      intros [[N0 t0] g0] st' [Hpos Hcs] Hstep. cbn [fst snd] in *.
      unfold mcts_single.GetMove_step, mcts_single.iterate in Hstep.
      destruct (mcts_core.iterate E Sqrt Log (mcts_single.randomRollout E)
                  N0 (Turn p) t0 g0) as [[[r t1] g1]|] eqn:Hit;
        [|discriminate].
      inversion Hstep; subst st'. cbn [fst snd].
      rewrite iterate_unfold in Hit. unfold mcts_core.iterate_body in Hit.
      rewrite Hpos in Hit.
      destruct (IsCheckMate E p && negb (Color_eqb (Turn p) (Turn p))).
      { inversion Hit; subst. cbn. auto. }
      rewrite orb_comm in Hterm. rewrite Hterm in Hit.
      inversion Hit; subst. cbn. auto. }
    destruct Hinv as [_ Hcs]. unfold mcts_core.bestMove. rewrite Hcs.
    reflexivity.
  - intros batches rands Hnil. unfold mcts_parallel.GetMove. cbv zeta.
    unfold mcts_parallel.makeParentNode. rewrite Hnil. reflexivity.
Qed.

Lemma mcts_returns_a_legal_move_witness :
  exists m,
    mcts_single.GetMove (table.engine table.queenUpGame)
                        (fun x => x) (fun x => x) 1
                        (table.position table.queenUpGame 0) table.zeros
    = Some m
    /\ In m (GenerateLegalMoves (table.engine table.queenUpGame)
                                (table.position table.queenUpGame 0)).
Proof.
  refine (proj1 (mcts_returns_a_legal_move
                   (table.engine table.queenUpGame) (fun x => x) (fun x => x)
                   true (table.position table.queenUpGame 0)
                   (table_engine_sane _))
                1%nat table.zeros _ _ _).
  - reflexivity.
  - reflexivity.
  - lia.
Defined.

(** ** Visit accounting at the root *)

Lemma sumVisits_replace_nth (cs : list mcts_core.node) :
  forall i a x,
    nth_error cs i = Some a ->
    sumVisits (mcts_core.replace_nth i x cs)
    = (sumVisits cs - mcts_core.n a + mcts_core.n x)%Z.
Proof.
  induction cs as [|c cs IH]; intros [|i] a x H; simpl in *; try discriminate.
  - inversion H; subst. lia.
  - rewrite (IH i a x H). lia.
Qed.

Lemma sumVisits_bound (cs : list mcts_core.node) :
  Forall (fun c => 0 <= mcts_core.n c)%Z cs ->
  (0 <= sumVisits cs)%Z
  /\ forall i a, nth_error cs i = Some a -> (mcts_core.n a <= sumVisits cs)%Z.
Proof.
  induction cs as [|c cs IH]; intros H; simpl.
  - split; [lia|]. intros [|i] a Hn; discriminate.
  - inversion H as [|? ? Hc H']; subst. destruct (IH H') as [H0 Hle].
    split; [lia|]. intros [|i] a Hn; simpl in Hn.
    + inversion Hn; subst. lia.
    + specialize (Hle i a Hn). lia.
Qed.

Lemma replace_nth_nonempty {A : Type} (l : list A) (i : nat) (a x : A) :
  nth_error l i = Some a -> mcts_core.replace_nth i x l <> [].
Proof.
  destruct l as [|y l]; destruct i; simpl; intros H; discriminate.
Qed.

Lemma repeat_step_counted {A : Type} (step : A -> option A)
      (J : nat -> A -> Prop) (K : nat) :
  (forall j st st', (j < K)%nat -> J j st -> step st = Some st' ->
                    J (S j) st') ->
  forall k j st st',
    (j + k <= K)%nat -> J j st ->
    mcts_core.repeat_step step k st = Some st' -> J (j + k)%nat st'.
Proof.
  intros Hstep k. induction k as [|k IH]; intros j st st' Hk HJ H;
    cbn [mcts_core.repeat_step] in H.
  - inversion H; subst. rewrite Nat.add_0_r. exact HJ.
  - destruct (step st) as [st1|] eqn:H1; [|discriminate].
    replace (j + S k)%nat with (S j + k)%nat by lia.
    apply (IH (S j) st1 st'); [lia| |exact H].
    apply (Hstep j st st1); [lia|exact HJ|exact H1].
Qed.

Lemma fresh_children_counted (f : Move -> Position) (l : list Move) :
  Forall (fun c => 0 <= mcts_core.n c)%Z
         (map (fun move => mcts_core.Node 0 0 move (f move) []) l)
  /\ sumVisits (map (fun move => mcts_core.Node 0 0 move (f move) []) l)
     = 0%Z.
Proof.
  induction l as [|m l [IH1 IH2]]; cbn [map].
  - split; [constructor|reflexivity].
  - split; [constructor; [cbn; lia|exact IH1]|].
    unfold sumVisits in *. cbn [fold_right mcts_core.n]. rewrite IH2.
    reflexivity.
Qed.

Section VisitAccounting.

Variable E : RulesEngine.
Variables Sqrt Log : Q -> Q.
Variable p : Position.

Hypothesis root_not_checkmate : IsCheckMate E p = false.
Hypothesis root_not_stalemate : IsStaleMate E p = false.
Hypothesis children_not_terminal :
  forall m, In m (GenerateLegalMoves E p) ->
            IsCheckMate E (Position_Move E p m) = false
            /\ IsStaleMate E (Position_Move E p m) = false.

(** What holds of the children of the expanded root. *)
Let counted (j : nat) (cs : list mcts_core.node) : Prop :=
  map mcts_core.pos cs = map (Position_Move E p) (GenerateLegalMoves E p)
  /\ Forall (fun c => 0 <= mcts_core.n c)%Z cs
  /\ sumVisits cs = Z.of_nat j.

(** The state of the loop of [GetMove] after [j] iterations. *)
Let after (j : nat) (st : Z * mcts_core.node * mcts_core.Rand) : Prop :=
  fst (fst st) = Z.of_nat j
  /\ mcts_core.pos (snd (fst st)) = p
  /\ ((j = 0%nat /\ mcts_core.children (snd (fst st)) = [])
      \/ (mcts_core.children (snd (fst st)) <> []
          /\ counted j (mcts_core.children (snd (fst st))))).

Lemma counted_expanded (j : nat) (st : Z * mcts_core.node * mcts_core.Rand) :
  after j st -> counted j (mcts_core.children (expanded E (snd (fst st)))).
Proof.
  destruct st as [[N t] g]. unfold after, counted. cbn [fst snd].
  intros (_ & Hpos & [[Hj Hcs]|[Hne Hc]]).
  - unfold expanded. rewrite Hcs. cbn. rewrite Hcs, Hpos. cbn. subst j.
    rewrite map_map. cbn. split; [reflexivity|].
    apply (fresh_children_counted (Position_Move E p)).
  - unfold expanded.
    destruct (mcts_core.children t) as [|c cs] eqn:Hcs; [contradiction|].
    cbn [List.length Nat.eqb]. rewrite Hcs. exact Hc.
Qed.

Lemma GetMove_step_counts (agentColor : Color) (j : nat) st st' :
  (Z.of_nat j < MaxInt64)%Z ->
  after j st ->
  mcts_single.GetMove_step E Sqrt Log agentColor st = Some st' ->
  after (S j) st'.
Proof.
  intros Hj Hafter H. pose proof (counted_expanded j st Hafter) as Hc.
  destruct st as [[N t] g]. destruct Hafter as (HN & Hpos & _).
  cbn [fst snd] in *.
  destruct Hc as (Hposs & Hnn & Hsum).
  unfold mcts_single.GetMove_step, mcts_single.iterate in H.
  destruct (mcts_core.iterate E Sqrt Log (mcts_single.randomRollout E)
              N agentColor t g) as [[[r t'] g']|] eqn:Hit; [|discriminate].
  inversion H; subst st'. clear H.
  rewrite iterate_unfold in Hit. unfold mcts_core.iterate_body in Hit.
  rewrite Hpos, root_not_checkmate, root_not_stalemate in Hit.
  cbn [andb orb] in Hit. fold (expanded E t) in Hit.
  set (cs := mcts_core.children (expanded E t)) in *.
  destruct (mcts_core.selectNode Sqrt Log N cs) as [i|]; [|discriminate].
  destruct (nth_error cs i) as [sel|] eqn:Hn; [|discriminate].
  assert (Hselpos : exists m, In m (GenerateLegalMoves E p)
                              /\ mcts_core.pos sel = Position_Move E p m).
  { pose proof (map_nth_error mcts_core.pos i cs Hn) as Hp.
    rewrite Hposs in Hp. apply nth_error_In in Hp.
    apply in_map_iff in Hp. destruct Hp as (m & Hm & Hin).
    exists m. split; [exact Hin|symmetry; exact Hm]. }
  destruct Hselpos as (m & Hin & Hselpos).
  destruct (sumVisits_bound cs Hnn) as [_ Hle]. specialize (Hle i sel Hn).
  assert (Hsel0 : (0 <= mcts_core.n sel)%Z).
  { rewrite Forall_forall in Hnn. apply Hnn.
    apply (nth_error_In _ _ Hn). }
  destruct (if (mcts_core.n sel =? 0)%Z
            then let '(result, g'0) :=
                   mcts_single.randomRollout E (mcts_core.pos (expanded E t))
                                             agentColor g
                 in Some (result, sel, g'0)
            else mcts_core.iterate E Sqrt Log (mcts_single.randomRollout E)
                                   N agentColor sel g)
    as [[[r0 sel'] g0]|] eqn:Hsel; [|discriminate].
  assert (Hsel' : mcts_core.n sel' = mcts_core.n sel
                  /\ mcts_core.pos sel' = mcts_core.pos sel).
  { destruct (mcts_core.n sel =? 0)%Z.
    - destruct (mcts_single.randomRollout E (mcts_core.pos (expanded E t))
                                          agentColor g).
      inversion Hsel; subst. split; reflexivity.
    - assert (Hnt : nonTerminal E sel).
      { unfold nonTerminal. rewrite Hselpos.
        apply (children_not_terminal m Hin). }
      destruct (iterate_frame E Sqrt Log _ N agentColor sel g r0 sel' g0
                              Hnt Hsel) as (_ & H1 & _ & H2 & _).
      split; assumption. }
  destruct Hsel' as [Hn' Hpos'].
  inversion Hit; subst r0 t' g0. clear Hit.
  unfold after, counted. cbn [fst snd mcts_core.pos mcts_core.children].
  destruct (expanded_fields E t) as (_ & _ & _ & Hposx).
  split.
  { rewrite HN. rewrite incr64_small by (unfold MaxInt64 in *; lia). lia. }
  split; [rewrite Hposx; exact Hpos|].
  right. split; [apply (replace_nth_nonempty cs i sel _ Hn)|].
  assert (Hnx : mcts_core.n (mcts_core.backpropagate sel' r)
                = (mcts_core.n sel + 1)%Z).
  { cbn. rewrite Hn'. apply incr64_small. unfold MaxInt64 in *. lia. }
  split; [|split].
  - rewrite (map_replace_nth mcts_core.pos cs i sel _ Hn);
      [exact Hposs|cbn; exact Hpos'].
  - apply Forall_replace_nth; [exact Hnn|]. cbn beta. rewrite Hnx. lia.
  - rewrite (sumVisits_replace_nth cs i sel _ Hn). rewrite Hnx. lia.
Qed.

Lemma GetMove_loop_counts (batches : nat) (g : mcts_core.Rand) st :
  (100 * Z.of_nat batches <= MaxInt64)%Z ->
  mcts_single.GetMove_loop E Sqrt Log batches p g = Some st ->
  fst (fst st) = (100 * Z.of_nat batches)%Z
  /\ sumVisits (mcts_core.children (snd (fst st)))
     = (100 * Z.of_nat batches)%Z.
Proof.
  intros Hroom H. unfold mcts_single.GetMove_loop in H. cbv zeta in H.
  rewrite repeat_step_mul in H.
  apply (repeat_step_counted
           (mcts_single.GetMove_step E Sqrt Log (Turn p)) after
           (batches * mcts_core.iterationsBetweenTimeChecks)%nat)
    with (j := 0%nat) in H.
  - cbn [Nat.add] in H. destruct H as (HN & _ & Hcs).
    assert (Hk : Z.of_nat (batches * mcts_core.iterationsBetweenTimeChecks)
                 = (100 * Z.of_nat batches)%Z)
      by (unfold mcts_core.iterationsBetweenTimeChecks; lia).
    rewrite Hk in *.
    split; [exact HN|].
    destruct Hcs as [[Hj Hcs]|[_ (_ & _ & Hsum)]].
    + rewrite Hcs. unfold sumVisits. cbn [fold_right].
      unfold mcts_core.iterationsBetweenTimeChecks in Hj. lia.
    + rewrite Hsum. exact Hk.
  - intros j s s' Hj. apply GetMove_step_counts.
    unfold mcts_core.iterationsBetweenTimeChecks in Hj. lia.
  - lia.
  - unfold after. cbn [fst snd]. split; [reflexivity|].
    split; [reflexivity|]. left. split; reflexivity.
Qed.

End VisitAccounting.

(** X19.  Visit accounting where it holds.  In the single-tree revision,
    if the root position is not terminal and no legal move from it leads
    to a checkmate or stalemate position, then after the iteration loop
    of [GetMove] the visit counters of the root's children add up to the
    number of iterations made, [100 * batches], which is also the value
    of [mcts.n] (in a rules engine in which a position without legal
    moves is checkmate or stalemate the loop does complete).  A child is
    counted once per iteration that selects it; only a child that is
    itself a terminal position is counted twice. *)
Theorem visits_equal_iterations_without_terminal_children
        (E : RulesEngine) (Sqrt Log : Q -> Q) (p : Position)
        (batches : nat) (g : mcts_core.Rand) :
  sane E ->
  IsCheckMate E p = false -> IsStaleMate E p = false ->
  (forall m, In m (GenerateLegalMoves E p) ->
             IsCheckMate E (Position_Move E p m) = false
             /\ IsStaleMate E (Position_Move E p m) = false) ->
  (100 * Z.of_nat batches <= MaxInt64)%Z ->
  exists parentNode g',
    mcts_single.GetMove_loop E Sqrt Log batches p g
    = Some ((100 * Z.of_nat batches)%Z, parentNode, g')
    /\ sumVisits (mcts_core.children parentNode)
       = (100 * Z.of_nat batches)%Z.
Proof.
  intros Hsane Hm Hs Hch Hroom.
  pose proof (GetMove_loop_total E Sqrt Log batches p g Hsane) as Hne.
  destruct (mcts_single.GetMove_loop E Sqrt Log batches p g)
    as [[[N t] g']|] eqn:Hloop; [|contradiction].
  destruct (GetMove_loop_counts E Sqrt Log p Hm Hs Hch batches g _ Hroom Hloop)
    as [HN Hsum]. cbn [fst snd] in *.
  exists t, g'. split; [rewrite HN; reflexivity|exact Hsum].
Qed.

Lemma visits_equal_iterations_without_terminal_children_witness :
  exists parentNode g',
    mcts_single.GetMove_loop (table.engine table.queenUpGame)
                             (fun x => x) (fun x => x) 2
                             (table.position table.queenUpGame 0)
                             table.zeros
    = Some ((100 * Z.of_nat 2)%Z, parentNode, g')
    /\ sumVisits (mcts_core.children parentNode) = (100 * Z.of_nat 2)%Z.
Proof.
  apply (visits_equal_iterations_without_terminal_children
           (table.engine table.queenUpGame) (fun x => x) (fun x => x)
           (table.position table.queenUpGame 0) 2 table.zeros).
  - apply table_engine_sane.
  - reflexivity.
  - reflexivity.
  - intros m Hin. simpl in Hin. destruct Hin as [Hin|[]]. subst m.
    split; reflexivity.
  - vm_compute. discriminate.
Defined.

(** ** What [iterate] returns and where a rollout starts *)

Section IterateResult.

Variable E : RulesEngine.
Variables Sqrt Log : Q -> Q.
Variable randomRollout :
  Position -> Color -> mcts_core.Rand -> Q * mcts_core.Rand.
Hypothesis rollout_reward :
  forall p agentColor g, isReward (fst (randomRollout p agentColor g)).

Lemma iterate_isReward (mctsn : Z) (agentColor : Color) :
  forall t g r t' g',
    mcts_core.iterate E Sqrt Log randomRollout mctsn agentColor t g
    = Some (r, t', g') ->
    isReward r.
Proof.
  intros t. induction t as [w0 n0 mov0 pos0 cs IH] using node_ind'.
  intros g r t' g' H. rewrite iterate_unfold in H.
  unfold mcts_core.iterate_body in H.
  set (t := mcts_core.Node w0 n0 mov0 pos0 cs) in *.
  fold (expanded E t) in H. change (mcts_core.pos t) with pos0 in *.
  destruct (IsCheckMate E pos0 && negb (Color_eqb (Turn pos0) agentColor)).
  { inversion H; subst. right; right; reflexivity. }
  destruct (IsStaleMate E pos0 || IsCheckMate E pos0).
  { inversion H; subst. left; reflexivity. }
  destruct (mcts_core.selectNode Sqrt Log mctsn
              (mcts_core.children (expanded E t))) as [i|]; [|discriminate].
  destruct (nth_error (mcts_core.children (expanded E t)) i) as [sel|] eqn:Hn;
    [|discriminate].
  destruct (mcts_core.n sel =? 0)%Z eqn:Hz.
  - pose proof (rollout_reward (mcts_core.pos (expanded E t)) agentColor g)
      as Hr.
    destruct (randomRollout (mcts_core.pos (expanded E t)) agentColor g)
      as [r0 g0].
    inversion H; subst. exact Hr.
  - assert (Hin : In sel cs).
    { destruct (expanded_cases E t) as [[_ Hfresh]|[_ Heq]].
      - apply nth_error_In in Hn. apply Hfresh in Hn.
        destruct Hn as (H0 & _). rewrite H0 in Hz. discriminate.
      - rewrite Heq in Hn. apply nth_error_In in Hn. exact Hn. }
    rewrite Forall_forall in IH.
    destruct (mcts_core.iterate E Sqrt Log randomRollout mctsn agentColor
                                sel g) as [[[r0 sel'] g0]|] eqn:Hs;
      [|discriminate].
    inversion H; subst. apply (IH sel Hin g r sel' g' Hs).
Qed.

(** The first visit of a child. *)
Lemma iterate_first_visit (mctsn : Z) (agentColor : Color)
      (t : mcts_core.node) (g : mcts_core.Rand) (i : nat)
      (sel : mcts_core.node) :
  nonTerminal E t ->
  mcts_core.firstUnvisited (mcts_core.children (expanded E t)) 0 = Some i ->
  nth_error (mcts_core.children (expanded E t)) i = Some sel ->
  mcts_core.iterate E Sqrt Log randomRollout mctsn agentColor t g
  = Some (fst (randomRollout (mcts_core.pos t) agentColor g),
          mcts_core.Node
            (mcts_core.w t) (mcts_core.n t) (mcts_core.mov t) (mcts_core.pos t)
            (mcts_core.replace_nth
               i
               (mcts_core.backpropagate
                  sel (fst (randomRollout (mcts_core.pos t) agentColor g)))
               (mcts_core.children (expanded E t))),
          snd (randomRollout (mcts_core.pos t) agentColor g)).
Proof.
  intros [Hm Hs] Hfirst Hn. rewrite iterate_unfold.
  unfold mcts_core.iterate_body. rewrite Hm, Hs. cbn [andb orb].
  fold (expanded E t). unfold mcts_core.selectNode. rewrite Hfirst, Hn.
  pose proof (firstUnvisited_spec (mcts_core.children (expanded E t)) 0)
    as Hspec.
  rewrite Hfirst in Hspec. destruct Hspec as (_ & (c & Hc & Hzero) & _).
  rewrite Nat.sub_0_r in Hc. rewrite Hn in Hc. inversion Hc; subst c.
  rewrite Hzero. cbn [Z.eqb].
  destruct (expanded_fields E t) as (Hw & Hnn & Hmov & Hpos).
  rewrite Hw, Hnn, Hmov, Hpos.
  destruct (randomRollout (mcts_core.pos t) agentColor g) as [r g'].
  reflexivity.
Qed.

End IterateResult.

(** X20.  What [iterate] returns.  In both revisions the value returned
    (and added to the selected child's [w]) is 0, 0.5 or 1.  On a node
    whose position is checkmate it is 1 when the side to move there is not
    the agent's, and [w] and [n] of the node are incremented; it is 0 when
    the side to move is the agent's, and on a node whose position is
    stalemate, and only [n] is incremented.  The random source is not
    consulted on a terminal node. *)
Theorem iterate_returns_a_reward
        (E : RulesEngine) (Sqrt Log : Q -> Q) (mctsn : Z)
        (agentColor : Color) (t : mcts_core.node) (g : mcts_core.Rand) :
  match mcts_single.iterate E Sqrt Log mctsn agentColor t g with
  | Some (r, _, _) => isReward r
  | None => True
  end
  /\ match mcts_parallel.iterate E Sqrt Log mctsn agentColor t g with
     | Some (r, _, _) => isReward r
     | None => True
     end
  /\ (forall randomRollout,
         IsCheckMate E (mcts_core.pos t) = true ->
         mcts_core.iterate E Sqrt Log randomRollout mctsn agentColor t g
         = if Color_eqb (Turn (mcts_core.pos t)) agentColor
           then Some (0%Q,
                      mcts_core.Node (mcts_core.w t) (incr64 (mcts_core.n t))
                                     (mcts_core.mov t) (mcts_core.pos t)
                                     (mcts_core.children t), g)
           else Some (1%Q,
                      mcts_core.Node (mcts_core.w t + 1)%Q
                                     (incr64 (mcts_core.n t))
                                     (mcts_core.mov t) (mcts_core.pos t)
                                     (mcts_core.children t), g))
  /\ (forall randomRollout,
         IsCheckMate E (mcts_core.pos t) = false ->
         IsStaleMate E (mcts_core.pos t) = true ->
         mcts_core.iterate E Sqrt Log randomRollout mctsn agentColor t g
         = Some (0%Q,
                 mcts_core.Node (mcts_core.w t) (incr64 (mcts_core.n t))
                                (mcts_core.mov t) (mcts_core.pos t)
                                (mcts_core.children t), g)).
Proof.
  split; [|split; [|split]].
  - unfold mcts_single.iterate.
    destruct (mcts_core.iterate E Sqrt Log (mcts_single.randomRollout E)
                mctsn agentColor t g) as [[[r t'] g']|] eqn:H; [|exact I].
    apply (iterate_isReward E Sqrt Log (mcts_single.randomRollout E)
             (fun p a g0 => single_rollout_isReward E _ p a g0)
             mctsn agentColor t g r t' g' H).
  - unfold mcts_parallel.iterate.
    destruct (mcts_core.iterate E Sqrt Log (mcts_parallel.randomRollout E)
                mctsn agentColor t g) as [[[r t'] g']|] eqn:H; [|exact I].
    apply (iterate_isReward E Sqrt Log (mcts_parallel.randomRollout E)
             (fun p a g0 => parallel_rollout_isReward E _ p a g0)
             mctsn agentColor t g r t' g' H).
  - intros randomRollout Hm. rewrite iterate_unfold.
    unfold mcts_core.iterate_body. rewrite Hm, orb_true_r. cbn [andb].
    destruct (Color_eqb (Turn (mcts_core.pos t)) agentColor); reflexivity.
  - intros randomRollout Hm Hs. rewrite iterate_unfold.
    unfold mcts_core.iterate_body. rewrite Hm, Hs. reflexivity.
Qed.

(** X21.  Where a rollout starts.  When [iterate] selects a child that has
    not been visited (the first such child of the node, expanded if it had
    no children), the reward it returns and credits to that child is the
    outcome of a rollout that starts from the position of the node itself,
    the parent, not from the position of the child selected; the child
    gets [n + 1] and [w + reward], and nothing else in the tree changes. *)
Theorem first_visit_rolls_out_from_the_parent
        (E : RulesEngine) (Sqrt Log : Q -> Q)
        (randomRollout :
           Position -> Color -> mcts_core.Rand -> Q * mcts_core.Rand)
        (mctsn : Z) (agentColor : Color)
        (t : mcts_core.node) (g : mcts_core.Rand) (i : nat)
        (sel : mcts_core.node) :
  IsCheckMate E (mcts_core.pos t) = false ->
  IsStaleMate E (mcts_core.pos t) = false ->
  mcts_core.firstUnvisited (mcts_core.children (expanded E t)) 0 = Some i ->
  nth_error (mcts_core.children (expanded E t)) i = Some sel ->
  mcts_core.iterate E Sqrt Log randomRollout mctsn agentColor t g
  = Some (fst (randomRollout (mcts_core.pos t) agentColor g),
          mcts_core.Node
            (mcts_core.w t) (mcts_core.n t) (mcts_core.mov t) (mcts_core.pos t)
            (mcts_core.replace_nth
               i
               (mcts_core.backpropagate
                  sel (fst (randomRollout (mcts_core.pos t) agentColor g)))
               (mcts_core.children (expanded E t))),
          snd (randomRollout (mcts_core.pos t) agentColor g)).
Proof.
  intros Hm Hs. apply iterate_first_visit. split; assumption.
Qed.

Lemma first_visit_rolls_out_from_the_parent_witness :
  mcts_core.iterate (table.engine table.queenUpGame) (fun x => x) (fun x => x)
                    (mcts_single.randomRollout
                       (table.engine table.queenUpGame))
                    0 White
                    (mcts_core.Node 0 0 noMove
                                    (table.position table.queenUpGame 0) [])
                    table.zeros
  = Some (fst (mcts_single.randomRollout
                 (table.engine table.queenUpGame)
                 (table.position table.queenUpGame 0) White table.zeros),
          mcts_core.Node
            0 0 noMove (table.position table.queenUpGame 0)
            [mcts_core.backpropagate
               (mcts_core.Node 0 0 (table.mv 4 5)
                               (table.position table.queenUpGame 1) [])
               (fst (mcts_single.randomRollout
                       (table.engine table.queenUpGame)
                       (table.position table.queenUpGame 0) White
                       table.zeros))],
          snd (mcts_single.randomRollout
                 (table.engine table.queenUpGame)
                 (table.position table.queenUpGame 0) White table.zeros)).
Proof.
  apply (first_visit_rolls_out_from_the_parent
           (table.engine table.queenUpGame) (fun x => x) (fun x => x)
           (mcts_single.randomRollout (table.engine table.queenUpGame))
           0 White
           (mcts_core.Node 0 0 noMove (table.position table.queenUpGame 0) [])
           table.zeros 0
           (mcts_core.Node 0 0 (table.mv 4 5)
                           (table.position table.queenUpGame 1) []));
    reflexivity.
Defined.

(** ** Rollouts *)

Section Rollouts.

Variable E : RulesEngine.

Lemma determineReward_complementary (p : Position) :
  (mcts_parallel.determineReward p White
   + mcts_parallel.determineReward p Black == 1)%Q.
Proof.
  unfold mcts_parallel.determineReward.
  destruct (Qltb 8 (mcts_parallel.getPositionValue p)); [reflexivity|].
  destruct (Qltb (mcts_parallel.getPositionValue p) (- (8))); reflexivity.
Qed.

Variable p0 : Position.

Hypothesis mated_side_has_a_colour :
  forall q, reachable E p0 q -> IsCheckMate E q = true -> Turn q <> NoColor.

Lemma drawn_move_is_legal (p : Position) (g : mcts_core.Rand) :
  Nat.eqb (List.length (GenerateLegalMoves E p)) 0 = false ->
  In (nth (fst (mcts_core.IntN g (List.length (GenerateLegalMoves E p))))
          (GenerateLegalMoves E p) noMove)
     (GenerateLegalMoves E p).
Proof.
  intros Hlen. apply Nat.eqb_neq in Hlen. apply nth_In.
  unfold mcts_core.IntN. cbn [fst]. apply Nat.mod_upper_bound. exact Hlen.
Qed.

Lemma parallel_rollout_complementary (i : nat) :
  forall p g,
    reachable E p0 p ->
    (fst (mcts_parallel.randomRollout_loop E i p White g)
     + fst (mcts_parallel.randomRollout_loop E i p Black g) == 1)%Q
    /\ snd (mcts_parallel.randomRollout_loop E i p White g)
       = snd (mcts_parallel.randomRollout_loop E i p Black g).
Proof.
  induction i as [|i IH]; intros p g Hp;
    cbn [mcts_parallel.randomRollout_loop].
  - cbn [fst snd]. split; [apply determineReward_complementary|reflexivity].
  - destruct (IsCheckMate E p) eqn:Hm.
    + pose proof (mated_side_has_a_colour p Hp Hm) as Ht.
      destruct (Turn p); [contradiction| |]; cbn; split; reflexivity.
    + cbn [andb].
      destruct (Nat.eqb (List.length (GenerateLegalMoves E p)) 0) eqn:Hlen;
        [cbn; split; reflexivity|].
      pose proof (drawn_move_is_legal p g Hlen) as Hin.
      destruct (mcts_core.IntN g (List.length (GenerateLegalMoves E p)))
        as [k g']. apply IH. apply reachable_move; assumption.
Qed.

Lemma single_rollout_complementary (i : nat) :
  forall p g,
    reachable E p0 p ->
    (fst (mcts_single.randomRollout_loop E i p White g)
     + fst (mcts_single.randomRollout_loop E i p Black g) == 1)%Q
    /\ snd (mcts_single.randomRollout_loop E i p White g)
       = snd (mcts_single.randomRollout_loop E i p Black g).
Proof.
  induction i as [|i IH]; intros p g Hp;
    cbn [mcts_single.randomRollout_loop].
  - cbn [fst snd]. split; reflexivity.
  - destruct (IsCheckMate E p) eqn:Hm.
    + pose proof (mated_side_has_a_colour p Hp Hm) as Ht.
      destruct (Turn p); [contradiction| |]; cbn; split; reflexivity.
    + cbn [andb].
      destruct (Nat.eqb (List.length (GenerateLegalMoves E p)) 0) eqn:Hlen;
        [cbn; split; reflexivity|].
      pose proof (drawn_move_is_legal p g Hlen) as Hin.
      destruct (mcts_core.IntN g (List.length (GenerateLegalMoves E p)))
        as [k g']. apply IH. apply reachable_move; assumption.
Qed.

End Rollouts.

Lemma parallel_rollout_draws (E : RulesEngine) (agentColor : Color)
      (i : nat) :
  forall p g,
    let g' := snd (mcts_parallel.randomRollout_loop E i p agentColor g) in
    mcts_core.draws g' = mcts_core.draws g
    /\ (mcts_core.cursor g <= mcts_core.cursor g'
        <= mcts_core.cursor g + i)%nat.
Proof.
  induction i as [|i IH]; intros p g;
    cbn [mcts_parallel.randomRollout_loop]; [cbn; split; [reflexivity|lia]|].
  destruct (IsCheckMate E p && negb (Color_eqb (Turn p) agentColor));
    [cbn; split; [reflexivity|lia]|].
  destruct (IsCheckMate E p && Color_eqb (Turn p) agentColor);
    [cbn; split; [reflexivity|lia]|].
  destruct (Nat.eqb (List.length (GenerateLegalMoves E p)) 0);
    [cbn; split; [reflexivity|lia]|].
  unfold mcts_core.IntN.
  match goal with
  | |- context [mcts_parallel.randomRollout_loop E i ?q agentColor ?h] =>
      destruct (IH q h) as [H1 H2]
  end.
  cbv zeta. cbn [mcts_core.draws mcts_core.cursor] in *.
  split; [exact H1|lia].
Qed.

Lemma single_rollout_draws (E : RulesEngine) (agentColor : Color)
      (i : nat) :
  forall p g,
    let g' := snd (mcts_single.randomRollout_loop E i p agentColor g) in
    mcts_core.draws g' = mcts_core.draws g
    /\ (mcts_core.cursor g <= mcts_core.cursor g'
        <= mcts_core.cursor g + i)%nat.
Proof.
  induction i as [|i IH]; intros p g;
    cbn [mcts_single.randomRollout_loop]; [cbn; split; [reflexivity|lia]|].
  destruct (IsCheckMate E p && negb (Color_eqb (Turn p) agentColor));
    [cbn; split; [reflexivity|lia]|].
  destruct (IsCheckMate E p && Color_eqb (Turn p) agentColor);
    [cbn; split; [reflexivity|lia]|].
  destruct (Nat.eqb (List.length (GenerateLegalMoves E p)) 0);
    [cbn; split; [reflexivity|lia]|].
  unfold mcts_core.IntN.
  match goal with
  | |- context [mcts_single.randomRollout_loop E i ?q agentColor ?h] =>
      destruct (IH q h) as [H1 H2]
  end.
  cbv zeta. cbn [mcts_core.draws mcts_core.cursor] in *.
  split; [exact H1|lia].
Qed.

(** X22.  A rollout is zero-sum.  If, in every position that play by
    legal moves reaches from [p], a checkmate has White or Black to move,
    then the rewards that a rollout from [p] with the same random draws
    gives to White and to Black as agent add up to 1, in both revisions,
    the material fallback of the parallel-root revision included; the two
    rollouts play the same moves and consume the same draws. *)
Theorem rollout_rewards_add_up_to_one
        (E : RulesEngine) (p : Position) (g : mcts_core.Rand) :
  (forall q, reachable E p q -> IsCheckMate E q = true -> Turn q <> NoColor) ->
  ((fst (mcts_parallel.randomRollout E p White g)
    + fst (mcts_parallel.randomRollout E p Black g) == 1)%Q
   /\ snd (mcts_parallel.randomRollout E p White g)
      = snd (mcts_parallel.randomRollout E p Black g))
  /\ ((fst (mcts_single.randomRollout E p White g)
       + fst (mcts_single.randomRollout E p Black g) == 1)%Q
      /\ snd (mcts_single.randomRollout E p White g)
         = snd (mcts_single.randomRollout E p Black g)).
Proof.
  intros H. split.
  - apply (parallel_rollout_complementary E p H _ p g (reachable_start E p)).
  - apply (single_rollout_complementary E p H _ p g (reachable_start E p)).
Qed.

(** Play in a game given by a table stays in the table. *)
Lemma table_reachable (t : list table.Entry) (k : nat) (q : Position) :
  reachable (table.engine t) (table.position t k) q ->
  exists k', q = table.position t k'.
Proof.
  intros H. induction H as [|q m _ [k' IH] _].
  - exists k. reflexivity.
  - subst q. cbn.
    destruct (table.target m (table.moves (table.entry t k'))) as [k''|].
    + exists k''. reflexivity.
    + exists k'. reflexivity.
Qed.

Lemma rollout_rewards_add_up_to_one_witness :
  (fst (mcts_parallel.randomRollout (table.engine table.forcedMateGame)
          (table.position table.forcedMateGame 0) White table.zeros)
   + fst (mcts_parallel.randomRollout (table.engine table.forcedMateGame)
            (table.position table.forcedMateGame 0) Black table.zeros)
   == 1)%Q.
Proof.
  refine (proj1 (proj1 (rollout_rewards_add_up_to_one
                          (table.engine table.forcedMateGame)
                          (table.position table.forcedMateGame 0)
                          table.zeros _))).
  intros q Hq Hm. apply table_reachable in Hq. destruct Hq as [k' Hq].
  subst q.
  change (table.checkmate (table.entry table.forcedMateGame k') = true) in Hm.
  change (table.turn (table.entry table.forcedMateGame k') <> NoColor).
  do 5 (destruct k' as [|k']; [try discriminate Hm; discriminate|]).
  destruct k'; discriminate Hm.
Defined.

Lemma rollout_from_terminal (E : RulesEngine) (p : Position)
      (agentColor : Color) (g : mcts_core.Rand) (i : nat) :
  IsCheckMate E p = true \/ GenerateLegalMoves E p = [] ->
  snd (mcts_parallel.randomRollout_loop E (S i) p agentColor g) = g
  /\ snd (mcts_single.randomRollout_loop E (S i) p agentColor g) = g.
Proof.
  intros Hterm.
  cbn [mcts_parallel.randomRollout_loop mcts_single.randomRollout_loop].
  destruct (IsCheckMate E p) eqn:Hm.
  - destruct (Color_eqb (Turn p) agentColor); cbn; split; reflexivity.
  - destruct Hterm as [Hx|Hnil]; [discriminate|]. rewrite Hnil. cbn.
    split; reflexivity.
Qed.

(** X23.  What a rollout consumes.  A rollout calls [rand.IntN] once per
    ply it plays and plays at most [randomRolloutLength] plies: 20 in the
    parallel-root revision, 50 in the single-tree revision.  From a
    position that is checkmate or has no legal move it plays none. *)
Theorem rollout_plays_at_most_its_length
        (E : RulesEngine) (p : Position) (agentColor : Color)
        (g : mcts_core.Rand) :
  (mcts_core.draws (snd (mcts_parallel.randomRollout E p agentColor g))
   = mcts_core.draws g
   /\ (mcts_core.cursor g
       <= mcts_core.cursor (snd (mcts_parallel.randomRollout E p agentColor g))
       <= mcts_core.cursor g + 20)%nat)
  /\ (mcts_core.draws (snd (mcts_single.randomRollout E p agentColor g))
      = mcts_core.draws g
      /\ (mcts_core.cursor g
          <= mcts_core.cursor (snd (mcts_single.randomRollout E p agentColor g))
          <= mcts_core.cursor g + 50)%nat)
  /\ (IsCheckMate E p = true \/ GenerateLegalMoves E p = [] ->
      snd (mcts_parallel.randomRollout E p agentColor g) = g
      /\ snd (mcts_single.randomRollout E p agentColor g) = g).
Proof.
  unfold mcts_parallel.randomRollout, mcts_single.randomRollout.
  split; [exact (parallel_rollout_draws
                   E agentColor mcts_parallel.randomRolloutLength p g)|].
  split; [exact (single_rollout_draws
                   E agentColor mcts_single.randomRolloutLength p g)|].
  intros Hterm.
  split.
  - exact (proj1 (rollout_from_terminal E p agentColor g 19 Hterm)).
  - exact (proj2 (rollout_from_terminal E p agentColor g 49 Hterm)).
Qed.

(** ** The harness: the human player and the exit status *)

Lemma PieceType_eqb_eq (a b : PieceType) :
  PieceType_eqb a b = true <-> a = b.
Proof. destruct a, b; simpl; split; intro H; congruence. Qed.

Lemma Move_eqb_eq (a b : Move) : Move_eqb a b = true <-> a = b.
Proof.
  destruct a as [f1 t1 p1], b as [f2 t2 p2]. unfold Move_eqb. cbn.
  rewrite !andb_true_iff, !Nat.eqb_eq, PieceType_eqb_eq.
  split; [intros [[H1 H2] H3]; subst; reflexivity|].
  intros H. inversion H. auto.
Qed.

Lemma existsb_Move_eqb (move : Move) (l : list Move) :
  existsb (Move_eqb move) l = true <-> In move l.
Proof.
  rewrite existsb_exists. split.
  - intros (x & Hin & Heq). apply Move_eqb_eq in Heq. subst. exact Hin.
  - intros Hin. exists move. split; [exact Hin|apply Move_eqb_eq; reflexivity].
Qed.

(** X24.  [Human.GetMove] returns the move of the first line of standard
    input that parses to a legal move of the position, having read and
    passed over every line before it; it never returns a move that is not
    legal.  When no line of the input qualifies it ends the program with
    exit code 1, having read all of it. *)
Theorem Human_returns_the_first_legal_input
        (E : RulesEngine) (ParseUCIMove : string -> option Move)
        (p : Position) (stdin : main.Stdin) :
  match main.Human E ParseUCIMove p stdin with
  | (main.Return move, rest) =>
      In move (GenerateLegalMoves E p)
      /\ exists skipped input,
           stdin = skipped ++ input :: rest
           /\ ParseUCIMove input = Some move
           /\ Forall (rejected ParseUCIMove (GenerateLegalMoves E p)) skipped
  | (main.OsExit code, rest) =>
      code = 1%Z /\ rest = []
      /\ Forall (rejected ParseUCIMove (GenerateLegalMoves E p)) stdin
  end.
Proof.
  unfold main.Human.
  induction stdin as [|input rest IH]; cbn [main.Human_scan].
  - repeat split. constructor.
  - assert (Hskip :
             rejected ParseUCIMove (GenerateLegalMoves E p) input ->
             match main.Human_scan ParseUCIMove (GenerateLegalMoves E p) rest
             with
             | (main.Return move, rest0) =>
                 In move (GenerateLegalMoves E p)
                 /\ exists skipped input0,
                      input :: rest = skipped ++ input0 :: rest0
                      /\ ParseUCIMove input0 = Some move
                      /\ Forall (rejected ParseUCIMove (GenerateLegalMoves E p))
                                skipped
             | (main.OsExit code, rest0) =>
                 code = 1%Z /\ rest0 = []
                 /\ Forall (rejected ParseUCIMove (GenerateLegalMoves E p))
                           (input :: rest)
             end).
    { intros Hrej.
      destruct (main.Human_scan ParseUCIMove (GenerateLegalMoves E p) rest)
        as [[move|code] rest0].
      - destruct IH as (Hin & skipped & input0 & Heq & Hp & Hall).
        split; [exact Hin|]. exists (input :: skipped), input0.
        split; [rewrite Heq; reflexivity|]. split; [exact Hp|].
        constructor; assumption.
      - destruct IH as (Hc & Hr & Hall). repeat split; try assumption.
        constructor; assumption. }
    destruct (ParseUCIMove input) as [move|] eqn:Hparse.
    + destruct (existsb (Move_eqb move) (GenerateLegalMoves E p)) eqn:Hlegal.
      * apply existsb_Move_eqb in Hlegal. split; [exact Hlegal|].
        exists [], input. repeat split; [exact Hparse|constructor].
      * apply Hskip. unfold rejected. rewrite Hparse. intros Hin.
        apply existsb_Move_eqb in Hin. congruence.
    + apply Hskip. unfold rejected. rewrite Hparse. exact I.
Qed.

Section ExitStatus.

Variable E : RulesEngine.
Variable G : main.GameEngine.
Variable ParseUCIMove : string -> option Move.
Variables Mcts Minmax AlphaBeta : Z -> main.ChessAgent.

Hypothesis Mcts_exits : forall d, exitsNonZero (Mcts d).
Hypothesis Minmax_exits : forall d, exitsNonZero (Minmax d).
Hypothesis AlphaBeta_exits : forall d, exitsNonZero (AlphaBeta d).

Lemma Human_scan_exit_code (legalMoves : list Move) (stdin : main.Stdin) :
  fst (main.Human_scan ParseUCIMove legalMoves stdin) <> main.OsExit 0%Z.
Proof.
  induction stdin as [|input rest IH]; cbn [main.Human_scan];
    [cbn; discriminate|].
  destruct (ParseUCIMove input) as [move|]; [|exact IH].
  destruct (existsb (Move_eqb move) legalMoves); [cbn; discriminate|exact IH].
Qed.

Lemma Human_exitsNonZero : exitsNonZero (main.Human E ParseUCIMove).
Proof.
  intros p stdin. unfold main.Human. apply Human_scan_exit_code.
Qed.

Lemma parseAgent_exitsNonZero (player : string) (playerOption : Z) agent :
  main.parseAgent E ParseUCIMove Mcts Minmax AlphaBeta player playerOption
  = Some agent ->
  exitsNonZero agent.
Proof.
  unfold main.parseAgent.
  destruct (String.eqb _ "human");
    [intros H; inversion H; apply Human_exitsNonZero|].
  destruct (String.eqb _ "mcts");
    [intros H; inversion H; apply Mcts_exits|].
  destruct (String.eqb _ "minmax");
    [intros H; inversion H; apply Minmax_exits|].
  destruct (String.eqb _ "ab");
    [intros H; inversion H; apply AlphaBeta_exits|discriminate].
Qed.

Lemma play_status (fuel : nat) :
  forall agents game stdin site code,
    exitsNonZero (fst agents) -> exitsNonZero (snd agents) ->
    main.play G fuel agents game stdin = Some (site, code) ->
    (code = 0%Z <-> site = main.CheckmateEnded)
    /\ (code = 1%Z \/ site = main.CheckmateEnded \/ site = main.InGetMove).
Proof.
  assert (Hafter : forall game site code,
             main.afterLoop G game = (site, code) ->
             (code = 0%Z <-> site = main.CheckmateEnded)
             /\ (code = 1%Z \/ site = main.CheckmateEnded
                 \/ site = main.InGetMove)).
  { intros game site code H. unfold main.afterLoop in H.
    destruct (main.Game_IsCheckMate G game);
      [|destruct (main.Game_CanClaimDraw G game)];
      inversion H; subst; split; try (split; intro; congruence); auto. }
  induction fuel as [|fuel IH]; intros agents game stdin site code H1 H2 H;
    cbn [main.play] in H.
  - destruct (negb (main.Game_IsCheckMate G game)
              && negb (main.Game_CanClaimDraw G game)); [discriminate|].
    inversion H as [Ha]. apply (Hafter game site code Ha).
  - destruct (negb (main.Game_IsCheckMate G game)
              && negb (main.Game_CanClaimDraw G game));
      [|inversion H as [Ha]; apply (Hafter game site code Ha)].
    assert (Hagent :
             forall agent,
               exitsNonZero agent ->
               match agent (main.Game_Position G game) stdin with
               | (main.OsExit code0, _) => Some (main.InGetMove, code0)
               | (main.Return move, stdin0) =>
                   match main.Game_Move G game move with
                   | None => Some (main.InvalidMove, 1%Z)
                   | Some game0 => main.play G fuel agents game0 stdin0
                   end
               end = Some (site, code) ->
               (code = 0%Z <-> site = main.CheckmateEnded)
               /\ (code = 1%Z \/ site = main.CheckmateEnded
                   \/ site = main.InGetMove)).
    { intros agent Hnz Hrun. specialize (Hnz (main.Game_Position G game) stdin).
      destruct (agent (main.Game_Position G game) stdin)
        as [[move|code0] stdin0]; cbn [fst] in Hnz.
      - destruct (main.Game_Move G game move) as [game0|].
        + apply (IH agents game0 stdin0 site code H1 H2 Hrun).
        + inversion Hrun; subst. split; [split; intro; congruence|auto].
      - inversion Hrun; subst. split; [|auto].
        split; [intro; subst; exfalso; apply Hnz; reflexivity
               |intro; discriminate]. }
    destruct (main.Game_Turn G game).
    + inversion H; subst. split; [split; intro; congruence|auto].
    + apply (Hagent (fst agents) H1 H).
    + apply (Hagent (snd agents) H2 H).
Qed.

End ExitStatus.

(** X25.  The exit status of a run.  If the engine agents end the program
    with a non-zero code when they end it at all ([Human] ends it with 1),
    a run of [main] that ends has exit code 0 exactly when the help was
    asked for or the game ended in checkmate; every other exit that
    [main.go] itself makes has code 1. *)
Theorem exit_status_zero_iff_checkmate_or_help
        (E : RulesEngine) (G : main.GameEngine)
        (ParseUCIMove : string -> option Move)
        (Mcts Minmax AlphaBeta : Z -> main.ChessAgent)
        (fuel : nat) (f : main.Flags) (stdin : main.Stdin)
        (site : main.ExitSite) (code : Z) :
  (forall d, exitsNonZero (Mcts d)) ->
  (forall d, exitsNonZero (Minmax d)) ->
  (forall d, exitsNonZero (AlphaBeta d)) ->
  main.main E G ParseUCIMove Mcts Minmax AlphaBeta fuel f stdin
  = Some (site, code) ->
  (code = 0%Z <-> site = main.HelpPrinted \/ site = main.CheckmateEnded)
  /\ (code = 1%Z \/ site = main.HelpPrinted \/ site = main.CheckmateEnded
      \/ site = main.InGetMove).
Proof.
  intros H1 H2 H3 H. unfold main.main, main.parseArgs in H.
  destruct (main.help f).
  { inversion H; subst. split; [split; auto|auto]. }
  destruct (main.parseAgent E ParseUCIMove Mcts Minmax AlphaBeta
              (main.player1 f) (main.player1Option f)) as [agent0|] eqn:Ha0.
  2:{ inversion H; subst. split; [|auto].
      split; [intro; discriminate|intros [Hx|Hx]; discriminate]. }
  destruct (main.parseAgent E ParseUCIMove Mcts Minmax AlphaBeta
              (main.player2 f) (main.player2Option f)) as [agent1|] eqn:Ha1.
  2:{ inversion H; subst. split; [|auto].
      split; [intro; discriminate|intros [Hx|Hx]; discriminate]. }
  destruct (play_status G fuel (agent0, agent1) (main.NewGame G) stdin site code)
    as [Hiff Hcodes]; [| |exact H|].
  - apply (parseAgent_exitsNonZero E ParseUCIMove Mcts Minmax AlphaBeta
             H1 H2 H3 _ _ _ Ha0).
  - apply (parseAgent_exitsNonZero E ParseUCIMove Mcts Minmax AlphaBeta
             H1 H2 H3 _ _ _ Ha1).
  - split.
    + split; [intro Hc; right; apply Hiff; exact Hc|].
      intros [Hx|Hx]; [|apply Hiff; exact Hx].
      subst site. destruct Hcodes as [Hc|[Hc|Hc]]; try discriminate.
      exfalso.
      assert (Hno : forall fuel0 agents game stdin0 c,
                 main.play G fuel0 agents game stdin0
                 <> Some (main.HelpPrinted, c)).
      { induction fuel0 as [|fuel0 IH]; intros agents game stdin0 c;
          cbn [main.play];
          (destruct (negb (main.Game_IsCheckMate G game)
                     && negb (main.Game_CanClaimDraw G game));
           [|unfold main.afterLoop;
             destruct (main.Game_IsCheckMate G game);
             [|destruct (main.Game_CanClaimDraw G game)]; discriminate]);
          [discriminate|].
        destruct (main.Game_Turn G game); [discriminate| |].
        - destruct (fst agents (main.Game_Position G game) stdin0)
            as [[move|code0] stdin1]; [|discriminate].
          destruct (main.Game_Move G game move); [apply IH|discriminate].
        - destruct (snd agents (main.Game_Position G game) stdin0)
            as [[move|code0] stdin1]; [|discriminate].
          destruct (main.Game_Move G game move); [apply IH|discriminate]. }
      apply (Hno _ _ _ _ _ H).
    + destruct Hcodes as [Hc|[Hc|Hc]]; auto.
Qed.

Lemma exit_status_zero_iff_checkmate_or_help_witness :
  main.main (table.engine table.mateInOneGame) games.oneMove games.noParse
            (fun _ => games.always noMove) (fun _ => games.always noMove)
            (fun _ => games.always noMove)
            2 (games.flags "ab" "ab") []
  = Some (main.CheckmateEnded, 0%Z)
  /\ (0%Z = 0%Z <-> main.CheckmateEnded = main.HelpPrinted
                    \/ main.CheckmateEnded = main.CheckmateEnded).
Proof.
  split; [reflexivity|].
  refine (proj1 (exit_status_zero_iff_checkmate_or_help
                   (table.engine table.mateInOneGame) games.oneMove
                   games.noParse
                   (fun _ => games.always noMove)
                   (fun _ => games.always noMove)
                   (fun _ => games.always noMove)
                   2 (games.flags "ab" "ab") [] main.CheckmateEnded 0%Z
                   _ _ _ _)).
  - intros d p stdin. discriminate.
  - intros d p stdin. discriminate.
  - intros d p stdin. discriminate.
  - reflexivity.
Defined.

(** ** The search tree follows the game *)

Lemma gameTree_backpropagate (E : RulesEngine) (t : mcts_core.node) (r : Q) :
  gameTree E t -> gameTree E (mcts_core.backpropagate t r).
Proof.
  intros H. destruct t as [w0 n0 mov0 pos0 cs]. inversion H; subst.
  unfold mcts_core.backpropagate. cbn. constructor; assumption.
Qed.

Lemma gameTree_expanded (E : RulesEngine) (t : mcts_core.node) :
  gameTree E t -> gameTree E (expanded E t).
Proof.
  intros H. destruct t as [w0 n0 mov0 pos0 cs]. unfold expanded.
  destruct cs as [|c cs]; [|exact H].
  cbn. constructor.
  - right. cbn [mcts_core.children mcts_core.pos app]. rewrite map_map.
    reflexivity.
  - cbn [mcts_core.children mcts_core.pos app].
    apply Forall_forall. intros c Hin. apply in_map_iff in Hin.
    destruct Hin as (move & Hc & _). subst c. constructor;
      [left; reflexivity|constructor].
Qed.

Section GameTree.

Variable E : RulesEngine.
Variables Sqrt Log : Q -> Q.
Variable randomRollout :
  Position -> Color -> mcts_core.Rand -> Q * mcts_core.Rand.

Lemma iterate_gameTree (mctsn : Z) (agentColor : Color) :
  forall t g r t' g',
    gameTree E t ->
    mcts_core.iterate E Sqrt Log randomRollout mctsn agentColor t g
    = Some (r, t', g') ->
    gameTree E t'.
Proof.
  intros t. induction t as [w0 n0 mov0 pos0 cs IH] using node_ind'.
  intros g r t' g' Hgt H. rewrite iterate_unfold in H.
  unfold mcts_core.iterate_body in H.
  set (t := mcts_core.Node w0 n0 mov0 pos0 cs) in *.
  fold (expanded E t) in H. change (mcts_core.pos t) with pos0 in *.
  assert (Hsame : forall w1 n1,
             gameTree E (mcts_core.Node w1 n1 mov0 pos0 cs)).
  { intros w1 n1. inversion Hgt; subst. constructor; assumption. }
  destruct (IsCheckMate E pos0 && negb (Color_eqb (Turn pos0) agentColor)).
  { inversion H; subst. apply Hsame. }
  destruct (IsStaleMate E pos0 || IsCheckMate E pos0).
  { inversion H; subst. apply Hsame. }
  pose proof (gameTree_expanded E t Hgt) as Hexp.
  destruct (expanded_fields E t) as (_ & _ & _ & Hpos).
  destruct (mcts_core.selectNode Sqrt Log mctsn
              (mcts_core.children (expanded E t))) as [i|]; [|discriminate].
  destruct (nth_error (mcts_core.children (expanded E t)) i) as [sel|] eqn:Hn;
    [|discriminate].
  assert (Hsel : gameTree E sel).
  { destruct (expanded E t) as [w1 n1 mov1 pos1 cs1]. inversion Hexp; subst.
    cbn in Hn. rewrite Forall_forall in *.
    match goal with
    | Hall : forall x, In x cs1 -> gameTree E x |- _ =>
        apply Hall; apply (nth_error_In _ _ Hn)
    end. }
  destruct (if (mcts_core.n sel =? 0)%Z
            then let '(result, g'0) :=
                   randomRollout (mcts_core.pos (expanded E t)) agentColor g
                 in Some (result, sel, g'0)
            else mcts_core.iterate E Sqrt Log randomRollout mctsn agentColor
                                   sel g)
    as [[[r0 sel'] g0]|] eqn:Hstep; [|discriminate].
  assert (Hsel' : gameTree E sel'
                  /\ mcts_core.mov sel' = mcts_core.mov sel
                  /\ mcts_core.pos sel' = mcts_core.pos sel).
  { destruct (mcts_core.n sel =? 0)%Z eqn:Hz.
    - destruct (randomRollout (mcts_core.pos (expanded E t)) agentColor g).
      inversion Hstep; subst. auto.
    - assert (Hin : In sel cs).
      { destruct (expanded_cases E t) as [[_ Hfresh]|[_ Heq]].
        - apply nth_error_In in Hn. apply Hfresh in Hn.
          destruct Hn as (H0 & _). rewrite H0 in Hz. discriminate.
        - rewrite Heq in Hn. apply nth_error_In in Hn. exact Hn. }
      rewrite Forall_forall in IH. split.
      + apply (IH sel Hin g r0 sel' g0 Hsel Hstep).
      + destruct (iterate_keeps_moves E Sqrt Log randomRollout mctsn
                    agentColor sel g r0 sel' g0 Hstep) as (H1 & H2 & _).
        auto. }
  destruct Hsel' as (Hgt' & Hmov' & Hpos').
  inversion H; subst r0 t' g0. clear H.
  destruct (expanded E t) as [w1 n1 mov1 pos1 cs1] eqn:Het.
  cbn [mcts_core.w mcts_core.n mcts_core.mov mcts_core.pos
       mcts_core.children] in *.
  inversion Hexp as [? ? ? ? ? Hshape Hall]; subst.
  constructor.
  - right.
    rewrite (map_replace_nth
               (fun c => (mcts_core.mov c, mcts_core.pos c)) cs1 i sel _ Hn).
    + destruct Hshape as [Hnil|Hshape]; [|exact Hshape].
      subst cs1. destruct i; discriminate.
    + cbn. rewrite Hmov', Hpos'. reflexivity.
  - apply Forall_replace_nth; [exact Hall|].
    apply gameTree_backpropagate. exact Hgt'.
Qed.

End GameTree.

(** X26.  The search tree follows the game.  In the tree that the
    iteration loop of the single-tree [GetMove] leaves, and in every
    subtree that [concurrentIterate] of the parallel-root revision has
    worked on, a node that has children has exactly one child per legal
    move of its position, in generation order, and each child holds its
    move and the position after that move; the root still holds the
    position [GetMove] was called with. *)
Theorem search_tree_follows_the_game
        (E : RulesEngine) (Sqrt Log : Q -> Q) (readFirst : bool) :
  (forall batches p g,
      match mcts_single.GetMove_loop E Sqrt Log batches p g with
      | Some (_, parentNode, _) =>
          gameTree E parentNode /\ mcts_core.pos parentNode = p
      | None => True
      end)
  /\ (forall batches t agentColor g,
         gameTree E t ->
         match mcts_parallel.concurrentIterate E Sqrt Log readFirst batches t
                                               agentColor g with
         | Some (_, t', _) =>
             gameTree E t' /\ mcts_core.pos t' = mcts_core.pos t
             /\ mcts_core.mov t' = mcts_core.mov t
         | None => True
         end).
Proof.
  split.
  - intros batches p g.
    destruct (mcts_single.GetMove_loop E Sqrt Log batches p g)
      as [[[N t] g']|] eqn:Hloop; [|exact I].
    unfold mcts_single.GetMove_loop in Hloop. cbv zeta in Hloop.
    rewrite repeat_step_mul in Hloop.
    apply (repeat_step_preserves
             _ (fun st => gameTree E (snd (fst st))
                          /\ mcts_core.pos (snd (fst st)) = p)) in Hloop;
      [exact Hloop| |].
    + intros [[N0 t0] g0] st' [Hgt Hpos] Hstep. cbn [fst snd] in *.
      unfold mcts_single.GetMove_step, mcts_single.iterate in Hstep.
      destruct (mcts_core.iterate E Sqrt Log (mcts_single.randomRollout E)
                  N0 (Turn p) t0 g0) as [[[r t1] g1]|] eqn:Hit;
        [|discriminate].
      inversion Hstep; subst st'. cbn [fst snd].
      split; [apply (iterate_gameTree E Sqrt Log _ _ _ _ _ _ _ _ Hgt Hit)|].
      destruct (iterate_keeps_moves E Sqrt Log _ _ _ _ _ _ _ _ Hit)
        as (_ & H2 & _). rewrite H2. exact Hpos.
    + cbn [fst snd]. split; [|reflexivity].
      constructor; [left; reflexivity|constructor].
  - intros batches t agentColor g Hgt.
    destruct (mcts_parallel.concurrentIterate E Sqrt Log readFirst batches t
                                              agentColor g)
      as [[[N t'] g']|] eqn:Hrun; [|exact I].
    unfold mcts_parallel.concurrentIterate in Hrun.
    rewrite repeat_step_mul in Hrun.
    apply (repeat_step_preserves
             _ (fun st => gameTree E (snd (fst st))
                          /\ mcts_core.pos (snd (fst st)) = mcts_core.pos t
                          /\ mcts_core.mov (snd (fst st)) = mcts_core.mov t))
      in Hrun; [exact Hrun| |].
    + intros [[N0 t0] g0] st' (Hgt0 & Hpos & Hmov) Hstep. cbn [fst snd] in *.
      unfold mcts_parallel.concurrentIterate_step, mcts_parallel.iterate
        in Hstep.
      destruct (mcts_core.iterate E Sqrt Log (mcts_parallel.randomRollout E)
                  N0 agentColor t0 g0) as [[[r t1] g1]|] eqn:Hit;
        [|discriminate].
      inversion Hstep; subst st'. cbn [fst snd mcts_core.pos mcts_core.mov].
      pose proof (iterate_gameTree E Sqrt Log _ _ _ _ _ _ _ _ Hgt0 Hit) as Hg1.
      destruct (iterate_keeps_moves E Sqrt Log _ _ _ _ _ _ _ _ Hit)
        as (H1 & H2 & _).
      split; [|split; congruence].
      destruct t1 as [w1 n1 mov1 pos1 cs1]. inversion Hg1; subst.
      cbn. constructor; assumption.
    + cbn [fst snd]. auto.
Qed.

(** ** Visit accounting in the parallel-root revision *)

Section ParallelAccounting.

Variable E : RulesEngine.
Variables Sqrt Log : Q -> Q.
Variable readFirst : bool.
Variable agentColor : Color.
Variable q : Position.

(** The state of the inner loop of [concurrentIterate] after [j] rounds on
    a node of position [q], which counts [per] visits a round. *)
Let after (per : Z) (j : nat) (st : Z * mcts_core.node * mcts_core.Rand)
  : Prop :=
  fst (fst st) = Z.of_nat j
  /\ mcts_core.pos (snd (fst st)) = q
  /\ mcts_core.n (snd (fst st)) = (per * Z.of_nat j)%Z.

Lemma concurrentIterate_step_counts (j : nat) st st' :
  IsCheckMate E q = false -> IsStaleMate E q = false ->
  (Z.of_nat j < MaxInt64)%Z ->
  after 1 j st ->
  mcts_parallel.concurrentIterate_step E Sqrt Log readFirst agentColor st
  = Some st' ->
  after 1 (S j) st'.
Proof.
  unfold after. destruct st as [[N t] g]. cbn [fst snd].
  intros Hm Hs Hj (HN & Hpos & Hn) H.
  unfold mcts_parallel.concurrentIterate_step, mcts_parallel.iterate in H.
  destruct (mcts_core.iterate E Sqrt Log (mcts_parallel.randomRollout E)
              N agentColor t g) as [[[r t'] g']|] eqn:Hit; [|discriminate].
  inversion H; subst st'. cbn [fst snd mcts_core.pos mcts_core.n].
  assert (Hnt : nonTerminal E t) by (split; rewrite Hpos; assumption).
  destruct (iterate_frame E Sqrt Log _ N agentColor t g r t' g' Hnt Hit)
    as (_ & Hn' & _ & Hpos' & _).
  rewrite Hn', Hpos', Hn, HN.
  rewrite !incr64_small by (unfold MaxInt64 in *; lia).
  repeat split; [lia|exact Hpos|lia].
Qed.

Lemma concurrentIterate_step_counts_twice (j : nat) st st' :
  IsCheckMate E q || IsStaleMate E q = true ->
  (2 * Z.of_nat j + 1 < MaxInt64)%Z ->
  after 2 j st ->
  mcts_parallel.concurrentIterate_step E Sqrt Log readFirst agentColor st
  = Some st' ->
  after 2 (S j) st'.
Proof.
  unfold after. destruct st as [[N t] g]. cbn [fst snd].
  intros Hterm Hj (HN & Hpos & Hn) H.
  unfold mcts_parallel.concurrentIterate_step, mcts_parallel.iterate in H.
  rewrite iterate_unfold in H. unfold mcts_core.iterate_body in H.
  rewrite Hpos in H. rewrite orb_comm in Hterm.
  destruct (IsCheckMate E q && negb (Color_eqb (Turn q) agentColor)).
  - inversion H; subst st'. cbn [fst snd mcts_core.pos mcts_core.n].
    rewrite Hn, HN.
    rewrite (incr64_small (2 * Z.of_nat j)) by (unfold MaxInt64 in *; lia).
    rewrite !incr64_small by (unfold MaxInt64 in *; lia).
    repeat split; lia.
  - rewrite Hterm in H.
    inversion H; subst st'. cbn [fst snd mcts_core.pos mcts_core.n].
    rewrite Hn, HN.
    rewrite (incr64_small (2 * Z.of_nat j)) by (unfold MaxInt64 in *; lia).
    rewrite !incr64_small by (unfold MaxInt64 in *; lia).
    repeat split; lia.
Qed.

End ParallelAccounting.

(** X27.  Visit accounting in the parallel-root revision.  On a new node
    ([n = 0]) whose position is neither checkmate nor stalemate,
    [concurrentIterate] leaves [n] equal to the number of iterations it
    made, [100 * batches], which is also its [mcts.n]; on a node whose
    position is checkmate or stalemate it leaves twice that number,
    because [iterate] counts the visit and [concurrentIterate] counts it
    again.  Either way the node keeps its position.  (In a rules engine in
    which a position without legal moves is checkmate or stalemate the
    loop completes.) *)
Theorem concurrentIterate_counts_its_iterations
        (E : RulesEngine) (Sqrt Log : Q -> Q) (readFirst : bool)
        (batches : nat) (t : mcts_core.node) (agentColor : Color)
        (g : mcts_core.Rand) :
  sane E ->
  mcts_core.n t = 0%Z ->
  (200 * Z.of_nat batches < MaxInt64)%Z ->
  exists t' g',
    mcts_parallel.concurrentIterate E Sqrt Log readFirst batches t
                                    agentColor g
    = Some ((100 * Z.of_nat batches)%Z, t', g')
    /\ mcts_core.pos t' = mcts_core.pos t
    /\ mcts_core.n t'
       = if IsCheckMate E (mcts_core.pos t) || IsStaleMate E (mcts_core.pos t)
         then (200 * Z.of_nat batches)%Z
         else (100 * Z.of_nat batches)%Z.
Proof.
  intros Hsane Hn0 Hroom.
  unfold mcts_parallel.concurrentIterate. rewrite repeat_step_mul.
  pose proof (repeat_step_total
                (mcts_parallel.concurrentIterate_step E Sqrt Log readFirst
                                                      agentColor)
                (concurrentIterate_step_total E Sqrt Log readFirst Hsane
                                              agentColor)
                (batches * mcts_core.iterationsBetweenTimeChecks)
                (0%Z, t, g)) as Hne.
  destruct (mcts_core.repeat_step _ _ _) as [[[N t'] g']|] eqn:Hrun;
    [|contradiction].
  assert (Hk : Z.of_nat (batches * mcts_core.iterationsBetweenTimeChecks)
               = (100 * Z.of_nat batches)%Z)
    by (unfold mcts_core.iterationsBetweenTimeChecks; lia).
  exists t', g'.
  destruct (IsCheckMate E (mcts_core.pos t) || IsStaleMate E (mcts_core.pos t))
    eqn:Hterm.
  - apply (repeat_step_counted
             _ (fun j st =>
                  fst (fst st) = Z.of_nat j
                  /\ mcts_core.pos (snd (fst st)) = mcts_core.pos t
                  /\ mcts_core.n (snd (fst st)) = (2 * Z.of_nat j)%Z)
             (batches * mcts_core.iterationsBetweenTimeChecks)%nat)
      with (j := 0%nat) in Hrun.
    + cbn [Nat.add fst snd] in Hrun. destruct Hrun as (HN & Hpos & Hn).
      rewrite Hk in *. subst N. split; [reflexivity|].
      split; [exact Hpos|]. rewrite Hn. lia.
    + intros j st st' Hj.
      apply (concurrentIterate_step_counts_twice
               E Sqrt Log readFirst agentColor (mcts_core.pos t) j st st'
               Hterm).
      unfold mcts_core.iterationsBetweenTimeChecks in Hj. lia.
    + lia.
    + cbn [fst snd]. repeat split; [exact Hn0].
  - apply orb_false_iff in Hterm. destruct Hterm as [Hm Hs].
    apply (repeat_step_counted
             _ (fun j st =>
                  fst (fst st) = Z.of_nat j
                  /\ mcts_core.pos (snd (fst st)) = mcts_core.pos t
                  /\ mcts_core.n (snd (fst st)) = (1 * Z.of_nat j)%Z)
             (batches * mcts_core.iterationsBetweenTimeChecks)%nat)
      with (j := 0%nat) in Hrun.
    + cbn [Nat.add fst snd] in Hrun. destruct Hrun as (HN & Hpos & Hn).
      rewrite Hk in *. subst N. split; [reflexivity|].
      split; [exact Hpos|]. rewrite Hn. lia.
    + intros j st st' Hj.
      apply (concurrentIterate_step_counts
               E Sqrt Log readFirst agentColor (mcts_core.pos t) j st st'
               Hm Hs).
      unfold mcts_core.iterationsBetweenTimeChecks in Hj. lia.
    + lia.
    + cbn [fst snd]. repeat split; [exact Hn0].
Qed.

Lemma concurrentIterate_counts_its_iterations_witness :
  exists t' g',
    mcts_parallel.concurrentIterate
      (table.engine table.mateInOneGame) (fun x => x) (fun x => x) true 1
      (mcts_core.Node 0 0 (table.mv 60 4)
                      (table.position table.mateInOneGame 1) [])
      White table.zeros
    = Some ((100 * Z.of_nat 1)%Z, t', g')
    /\ mcts_core.pos t' = table.position table.mateInOneGame 1
    /\ mcts_core.n t' = (200 * Z.of_nat 1)%Z.
Proof.
  apply (concurrentIterate_counts_its_iterations
           (table.engine table.mateInOneGame) (fun x => x) (fun x => x) true 1
           (mcts_core.Node 0 0 (table.mv 60 4)
                           (table.position table.mateInOneGame 1) [])
           White table.zeros).
  - apply table_engine_sane.
  - reflexivity.
  - vm_compute. reflexivity.
Defined.

(** ** The score of minimax is the minimax value *)

Lemma Qltb_compat (a a' b b' : Q) :
  (a == a')%Q -> (b == b')%Q -> Qltb a b = Qltb a' b'.
Proof.
  intros Ha Hb. unfold Qltb. rewrite Ha, Hb. reflexivity.
Qed.

Lemma fold_pick_NoColor {A : Type} (f : A -> Q) (l : list A) (x : Q) :
  fold_left (fun best a => pick NoColor best (f a)) l x = x.
Proof.
  revert x. induction l as [|a l IH]; intros x; cbn [fold_left pick];
    [reflexivity|apply IH].
Qed.

Section MinimaxValue.

Variable E : RulesEngine.

Let ev := minmax.evaluate_threat E.

Lemma max_leaf_value (p : Position) (moves : list Move) :
  forallb (fun move =>
             inRange (fst (alphabeta.evaluate E (Position_Move E p move))))
          moves = true ->
  forall h h' bm,
    (h == h')%Q -> (h <= MaxFloat64)%Q ->
    exists m s,
      minmax.max_leaf E ev p moves h bm = Some (m, s)
      /\ (s == fold_left
                 (fun best move =>
                    pick White best
                         (fst (alphabeta.evaluate E (Position_Move E p move))))
                 moves h')%Q
      /\ (h <= s)%Q /\ (s <= MaxFloat64)%Q.
Proof.
  induction moves as [|move rest IH]; intros Hr h h' bm Hh Hhi;
    cbn [minmax.max_leaf fold_left].
  - exists bm, h. repeat split; [exact Hh|lra|exact Hhi].
  - cbn [forallb] in Hr. apply andb_true_iff in Hr. destruct Hr as [He Hr].
    apply inRange_spec in He. unfold ev, minmax.evaluate_threat.
    set (e := fst (alphabeta.evaluate E (Position_Move E p move))) in *.
    cbn [pick]. rewrite <- (Qltb_compat h h' e e Hh (Qeq_refl e)).
    destruct (Qltb h e) eqn:T; [apply Qltb_lt in T|apply Qltb_ge in T].
    + destruct (IH Hr e e move (Qeq_refl e)) as (m & s & H1 & H2 & H3 & H4);
        [lra|].
      exists m, s. repeat split; [exact H1|exact H2|lra|exact H4].
    + destruct (IH Hr h h' bm Hh Hhi) as (m & s & H1 & H2 & H3 & H4).
      exists m, s. repeat split; assumption.
Qed.

Lemma min_leaf_value (p : Position) (moves : list Move) :
  forallb (fun move =>
             inRange (fst (alphabeta.evaluate E (Position_Move E p move))))
          moves = true ->
  forall l l' bm,
    (l == l')%Q -> (- MaxFloat64 <= l)%Q ->
    exists m s,
      minmax.min_leaf E ev p moves l bm = Some (m, s)
      /\ (s == fold_left
                 (fun best move =>
                    pick Black best
                         (fst (alphabeta.evaluate E (Position_Move E p move))))
                 moves l')%Q
      /\ (s <= l)%Q /\ (- MaxFloat64 <= s)%Q.
Proof.
  induction moves as [|move rest IH]; intros Hr l l' bm Hl Hlo;
    cbn [minmax.min_leaf fold_left].
  - exists bm, l. repeat split; [exact Hl|lra|exact Hlo].
  - cbn [forallb] in Hr. apply andb_true_iff in Hr. destruct Hr as [He Hr].
    apply inRange_spec in He. unfold ev, minmax.evaluate_threat.
    set (e := fst (alphabeta.evaluate E (Position_Move E p move))) in *.
    cbn [pick]. rewrite <- (Qltb_compat e e l l' (Qeq_refl e) Hl).
    destruct (Qltb e l) eqn:T; [apply Qltb_lt in T|apply Qltb_ge in T].
    + destruct (IH Hr e e move (Qeq_refl e)) as (m & s & H1 & H2 & H3 & H4);
        [lra|].
      exists m, s. repeat split; [exact H1|exact H2|lra|exact H4].
    + destruct (IH Hr l l' bm Hl Hlo) as (m & s & H1 & H2 & H3 & H4).
      exists m, s. repeat split; assumption.
Qed.

Section Deeper.

Variable d : nat.

Hypothesis search_value :
  forall q,
    stalemateFree E d q = true ->
    exists m s,
      minmax.search E ev d q = Some (m, s)
      /\ (s == minimaxValue E d q)%Q
      /\ (- MaxFloat64 <= s)%Q /\ (s <= MaxFloat64)%Q.

(** What a move is worth to the side [c] at depth [S d]. *)
Let worth (c : Color) (p : Position) (move : Move) : Q :=
  if IsCheckMate E (Position_Move E p move) then mateScore c
  else minimaxValue E d (Position_Move E p move).

Lemma worth_range (c : Color) (p : Position) (move : Move) (rest : list Move) :
  c <> NoColor ->
  childrenInScope E d p (move :: rest) = true ->
  (- MaxFloat64 <= worth c p move)%Q /\ (worth c p move <= MaxFloat64)%Q.
Proof.
  intros Hc Hsc. unfold worth.
  destruct (child_cases E d p move rest Hsc)
    as [_ [Hmate|(Hmate & _ & Hq)]]; rewrite Hmate.
  - pose proof MaxFloat64_pos.
    destruct c; [contradiction| |]; cbn [mateScore]; split; lra.
  - destruct (search_value _ Hq) as (m & s & _ & Hs & Hlo & Hhi).
    rewrite <- Hs. split; assumption.
Qed.

(** Once the running best is [MaxFloat64] it stays there. *)
Lemma fold_stays_at_the_top (p : Position) (moves : list Move) :
  childrenInScope E d p moves = true ->
  forall x,
    (x == MaxFloat64)%Q ->
    (fold_left (fun best move => pick White best (worth White p move)) moves x
     == MaxFloat64)%Q.
Proof.
  induction moves as [|move rest IH]; intros Hsc x Hx; cbn [fold_left];
    [exact Hx|].
  destruct (worth_range White p move rest ltac:(discriminate) Hsc) as [_ Hw].
  destruct (child_cases E d p move rest Hsc) as [Hrest _].
  apply (IH Hrest). cbn [pick].
  destruct (Qltb x (worth White p move)) eqn:T;
    [apply Qltb_lt in T; lra|exact Hx].
Qed.

Lemma fold_stays_at_the_bottom (p : Position) (moves : list Move) :
  childrenInScope E d p moves = true ->
  forall x,
    (x == - MaxFloat64)%Q ->
    (fold_left (fun best move => pick Black best (worth Black p move)) moves x
     == - MaxFloat64)%Q.
Proof.
  induction moves as [|move rest IH]; intros Hsc x Hx; cbn [fold_left];
    [exact Hx|].
  destruct (worth_range Black p move rest ltac:(discriminate) Hsc) as [Hw _].
  destruct (child_cases E d p move rest Hsc) as [Hrest _].
  apply (IH Hrest). cbn [pick].
  destruct (Qltb (worth Black p move) x) eqn:T;
    [apply Qltb_lt in T; lra|exact Hx].
Qed.

Lemma max_loop_value (p : Position) (moves : list Move) :
  childrenInScope E d p moves = true ->
  forall h h' bm,
    (h == h')%Q -> (h <= MaxFloat64)%Q ->
    exists m s,
      minmax.max_loop E (minmax.search E ev d) p moves h bm = Some (m, s)
      /\ (s == fold_left (fun best move => pick White best (worth White p move))
                         moves h')%Q
      /\ (h <= s)%Q /\ (s <= MaxFloat64)%Q.
Proof.
  induction moves as [|move rest IH]; intros Hsc h h' bm Hh Hhi;
    cbn [minmax.max_loop fold_left].
  - exists bm, h. repeat split; [exact Hh|lra|exact Hhi].
  - destruct (child_cases E d p move rest Hsc)
      as [Hrest [Hmate|(Hmate & Hst & Hq)]].
    + rewrite Hmate. exists move, MaxFloat64.
      split; [reflexivity|]. split; [|split; [exact Hhi|lra]].
      symmetry. apply (fold_stays_at_the_top p rest Hrest).
      unfold worth. rewrite Hmate. cbn [pick mateScore].
      destruct (Qltb h' MaxFloat64) eqn:T; [reflexivity|].
      apply Qltb_ge in T. lra.
    + rewrite Hmate, Hst. cbn [andb].
      destruct (search_value _ Hq) as (mq & sq & Hs & Hv & Hlo & Hhiq).
      rewrite Hs.
      assert (Hw : worth White p move
                   = minimaxValue E d (Position_Move E p move))
        by (unfold worth; rewrite Hmate; reflexivity).
      rewrite Hw. cbn [pick].
      rewrite <- (Qltb_compat h h' sq _ Hh Hv).
      destruct (Qltb h sq) eqn:T; [apply Qltb_lt in T|apply Qltb_ge in T].
      * destruct (IH Hrest sq (minimaxValue E d (Position_Move E p move))
                     move Hv Hhiq) as (m & s & H1 & H2 & H3 & H4).
        exists m, s. repeat split; [exact H1|exact H2|lra|exact H4].
      * destruct (IH Hrest h h' bm Hh Hhi) as (m & s & H1 & H2 & H3 & H4).
        exists m, s. repeat split; assumption.
Qed.

Lemma min_loop_value (p : Position) (moves : list Move) :
  childrenInScope E d p moves = true ->
  forall l l' bm,
    (l == l')%Q -> (- MaxFloat64 <= l)%Q ->
    exists m s,
      minmax.min_loop E (minmax.search E ev d) p moves l bm = Some (m, s)
      /\ (s == fold_left (fun best move => pick Black best (worth Black p move))
                         moves l')%Q
      /\ (s <= l)%Q /\ (- MaxFloat64 <= s)%Q.
Proof.
  induction moves as [|move rest IH]; intros Hsc l l' bm Hl Hlo;
    cbn [minmax.min_loop fold_left].
  - exists bm, l. repeat split; [exact Hl|lra|exact Hlo].
  - destruct (child_cases E d p move rest Hsc)
      as [Hrest [Hmate|(Hmate & Hst & Hq)]].
    + rewrite Hmate. exists move, (- MaxFloat64)%Q.
      split; [reflexivity|]. split; [|split; [exact Hlo|lra]].
      symmetry. apply (fold_stays_at_the_bottom p rest Hrest).
      unfold worth. rewrite Hmate. cbn [pick mateScore].
      destruct (Qltb (- MaxFloat64) l') eqn:T; [reflexivity|].
      apply Qltb_ge in T. lra.
    + rewrite Hmate, Hst. cbn [andb].
      destruct (search_value _ Hq) as (mq & sq & Hs & Hv & Hloq & Hhi).
      rewrite Hs.
      assert (Hw : worth Black p move
                   = minimaxValue E d (Position_Move E p move))
        by (unfold worth; rewrite Hmate; reflexivity).
      rewrite Hw. cbn [pick].
      rewrite <- (Qltb_compat sq _ l l' Hv Hl).
      destruct (Qltb sq l) eqn:T; [apply Qltb_lt in T|apply Qltb_ge in T].
      * destruct (IH Hrest sq (minimaxValue E d (Position_Move E p move))
                     move Hv Hloq) as (m & s & H1 & H2 & H3 & H4).
        exists m, s. repeat split; [exact H1|exact H2|lra|exact H4].
      * destruct (IH Hrest l l' bm Hl Hlo) as (m & s & H1 & H2 & H3 & H4).
        exists m, s. repeat split; assumption.
Qed.

End Deeper.

Lemma search_value_all (depth : nat) :
  forall q,
    stalemateFree E depth q = true ->
    exists m s,
      minmax.search E ev depth q = Some (m, s)
      /\ (s == minimaxValue E depth q)%Q
      /\ (- MaxFloat64 <= s)%Q /\ (s <= MaxFloat64)%Q.
Proof.
  induction depth as [|d IH]; intros q Hsc;
    cbn [minmax.search minimaxValue stalemateFree] in *;
    destruct (Turn q); cbn [sentinel].
  - exists noMove, 0%Q. split; [reflexivity|].
    split; [|split; unfold Qle; vm_compute; discriminate].
    rewrite fold_pick_NoColor. reflexivity.
  - destruct (max_leaf_value q _ Hsc (- MaxFloat64)%Q (- MaxFloat64)%Q noMove
                (Qeq_refl _) MaxFloat64_pos) as (m & s & H1 & H2 & H3 & H4).
    exists m, s. repeat split; assumption.
  - destruct (min_leaf_value q _ Hsc MaxFloat64 MaxFloat64 noMove
                (Qeq_refl _) MaxFloat64_pos) as (m & s & H1 & H2 & H3 & H4).
    exists m, s. repeat split; assumption.
  - exists noMove, 0%Q. split; [reflexivity|].
    split; [|split; unfold Qle; vm_compute; discriminate].
    rewrite fold_pick_NoColor. reflexivity.
  - destruct (max_loop_value d IH q _ Hsc (- MaxFloat64)%Q (- MaxFloat64)%Q
                noMove (Qeq_refl _) MaxFloat64_pos)
      as (m & s & H1 & H2 & H3 & H4).
    exists m, s. repeat split; assumption.
  - destruct (min_loop_value d IH q _ Hsc MaxFloat64 MaxFloat64
                noMove (Qeq_refl _) MaxFloat64_pos)
      as (m & s & H1 & H2 & H3 & H4).
    exists m, s. repeat split; assumption.
Qed.

End MinimaxValue.

(** X28.  The score of the searchers is the minimax value.  Where no
    stalemate lies within the horizon (and the leaf evaluations lie within
    [+-MaxFloat64]), the score that [Minmax]'s search returns with the
    threat-count evaluator, and with it the score of [AlphaBeta]'s search
    started as [GetMove] starts it, equals the minimax value of the
    position to that depth: the best for the side to move over its legal
    moves, a mating move being worth [+-MaxFloat64] and a move at the
    horizon the evaluation of the position it leads to. *)
Theorem search_score_is_the_minimax_value
        (E : RulesEngine) (depth : nat) (p : Position) :
  stalemateFree E depth p = true ->
  exists m s,
    minmax.search E (minmax.evaluate_threat E) depth p = Some (m, s)
    /\ alphabeta.search E depth p (- MaxFloat64) MaxFloat64 = (m, s)
    /\ (s == minimaxValue E depth p)%Q.
Proof.
  intros H.
  destruct (search_value_all E depth p H) as (m & s & Hs & Hv & _).
  exists m, s. split; [exact Hs|]. split; [|exact Hv].
  rewrite (search_root E depth p H) in Hs. injection Hs as Hs. exact Hs.
Qed.

Lemma search_score_is_the_minimax_value_witness :
  exists m s,
    minmax.search (table.engine table.forcedMateGame)
                  (minmax.evaluate_threat (table.engine table.forcedMateGame))
                  2 (table.position table.forcedMateGame 0)
    = Some (m, s)
    /\ alphabeta.search (table.engine table.forcedMateGame) 2
                        (table.position table.forcedMateGame 0)
                        (- MaxFloat64) MaxFloat64 = (m, s)
    /\ (s == minimaxValue (table.engine table.forcedMateGame) 2
                          (table.position table.forcedMateGame 0))%Q.
Proof.
  apply (search_score_is_the_minimax_value
           (table.engine table.forcedMateGame) 2
           (table.position table.forcedMateGame 0)).
  vm_compute. reflexivity.
Defined.

(** ** Alpha-beta with any window *)

(** X29.  What a window does to the score.  Where no stalemate lies within
    the horizon (and the leaf evaluations lie within [+-MaxFloat64]), for
    every window [alpha <= beta] within [+-MaxFloat64] the score [r] of
    [AlphaBeta]'s search relates to the score [v] of [Minmax]'s search
    (same evaluator) in one of three ways: [r = v]; or the search was cut
    off above the window, [beta < r <= v]; or it was cut off below it,
    [v <= r < alpha].  A score that lies within the window is therefore
    the minimax score, and a score outside it bounds the minimax score on
    the same side. *)
Theorem alphabeta_score_and_the_window
        (E : RulesEngine) (depth : nat) (p : Position) (alpha beta : Q) :
  (- MaxFloat64 <= alpha)%Q -> (alpha <= beta)%Q -> (beta <= MaxFloat64)%Q ->
  stalemateFree E depth p = true ->
  exists move v,
    minmax.search E (minmax.evaluate_threat E) depth p = Some (move, v)
    /\ bounds v (snd (alphabeta.search E depth p alpha beta)) alpha beta
    /\ ((alpha <= snd (alphabeta.search E depth p alpha beta))%Q ->
        (snd (alphabeta.search E depth p alpha beta) <= beta)%Q ->
        snd (alphabeta.search E depth p alpha beta) = v).
Proof.
  intros Ha Hab Hb Hsc.
  destruct (search_bounds_all E depth p alpha beta Ha Hab Hb Hsc)
    as (mv & v & Hs & _ & _ & Hbd).
  exists mv, v. split; [exact Hs|]. split; [exact Hbd|].
  intros H1 H2. destruct Hbd as [Hr|[[Hr _]|[_ Hr]]];
    [exact Hr|exfalso; lra|exfalso; lra].
Qed.

Lemma alphabeta_score_and_the_window_witness :
  exists move v,
    minmax.search (table.engine table.stalemateGame)
                  (minmax.evaluate_threat (table.engine table.stalemateGame))
                  0 (table.position table.stalemateGame 7)
    = Some (move, v)
    /\ bounds v
              (snd (alphabeta.search (table.engine table.stalemateGame) 0
                                     (table.position table.stalemateGame 7)
                                     3 MaxFloat64))
              3 MaxFloat64.
Proof.
  destruct (alphabeta_score_and_the_window
              (table.engine table.stalemateGame) 0
              (table.position table.stalemateGame 7) 3%Q MaxFloat64)
    as (move & v & H1 & H2 & _).
  - unfold Qle. vm_compute. discriminate.
  - unfold Qle. vm_compute. discriminate.
  - apply Qle_refl.
  - vm_compute. reflexivity.
  - exists move, v. split; assumption.
Defined.

(** ** The move of the single-tree [GetMove] *)

Lemma unvisited_replace_nth (cs : list mcts_core.node) :
  forall i a x,
    nth_error cs i = Some a -> mcts_core.n x <> 0%Z ->
    unvisited (mcts_core.replace_nth i x cs)
    = (unvisited cs - (if (mcts_core.n a =? 0)%Z then 1 else 0))%nat.
Proof.
  unfold unvisited.
  induction cs as [|c cs IH]; intros [|i] a x Hn Hx;
    cbn [nth_error mcts_core.replace_nth filter] in *; try discriminate.
  - inversion Hn; subst. apply Z.eqb_neq in Hx. rewrite Hx.
    destruct (mcts_core.n a =? 0)%Z; cbn [List.length]; lia.
  - specialize (IH i a x Hn Hx).
    destruct (mcts_core.n c =? 0)%Z; cbn [List.length]; [|exact IH].
    rewrite IH.
    destruct (mcts_core.n a =? 0)%Z eqn:Ha; [|lia].
    assert (Hin : In a (filter (fun c0 => (mcts_core.n c0 =? 0)%Z) cs)).
    { apply filter_In. split; [apply (nth_error_In _ _ Hn)|exact Ha]. }
    destruct (filter (fun c0 => (mcts_core.n c0 =? 0)%Z) cs);
      [contradiction|cbn [List.length]; lia].
Qed.

Lemma unvisited_none (cs : list mcts_core.node) :
  unvisited cs = 0%nat <-> Forall (fun c => mcts_core.n c <> 0%Z) cs.
Proof.
  unfold unvisited. induction cs as [|c cs IH]; simpl.
  - split; [constructor|reflexivity].
  - destruct (mcts_core.n c =? 0)%Z eqn:Hc; simpl.
    + split; [discriminate|]. intros H. inversion H; subst.
      apply Z.eqb_eq in Hc. contradiction.
    + rewrite IH. apply Z.eqb_neq in Hc. split; intros H.
      * constructor; assumption.
      * inversion H; assumption.
Qed.

Lemma unvisited_fresh (f : Move -> Position) (l : list Move) :
  unvisited (map (fun move => mcts_core.Node 0 0 move (f move) []) l)
  = List.length l.
Proof.
  unfold unvisited. induction l as [|m l IH]; simpl; [reflexivity|].
  rewrite IH. reflexivity.
Qed.

(** The child that [selectNode] returns has not been visited, unless all
    have been. *)
Lemma selectNode_unvisited (Sqrt Log : Q -> Q) (mctsn : Z)
      (cs : list mcts_core.node) (i : nat) (sel : mcts_core.node) :
  mcts_core.selectNode Sqrt Log mctsn cs = Some i ->
  nth_error cs i = Some sel ->
  mcts_core.n sel = 0%Z \/ unvisited cs = 0%nat.
Proof.
  unfold mcts_core.selectNode. intros Hs Hn.
  pose proof (firstUnvisited_spec cs 0) as Hspec.
  destruct (mcts_core.firstUnvisited cs 0) as [k|].
  - inversion Hs; subst k. destruct Hspec as (_ & (c & Hc & Hz) & _).
    rewrite Nat.sub_0_r in Hc. rewrite Hn in Hc. inversion Hc; subst.
    left. exact Hz.
  - right. apply unvisited_none. apply Forall_forall. exact Hspec.
Qed.

Lemma Inv_Below_expanded (E : RulesEngine) (B : Z) (t : mcts_core.node) :
  (0 <= B)%Z -> Inv t -> Below B t ->
  Inv (expanded E t) /\ Below B (expanded E t).
Proof.
  intros HB HI HBl. unfold expanded.
  destruct t as [w0 n0 mov0 pos0 cs]. destruct cs as [|c cs]; [|split; assumption].
  cbn. inversion HI; subst. inversion HBl; subst.
  split; constructor; try assumption.
  - apply Forall_forall. intros c Hin. apply in_map_iff in Hin.
    destruct Hin as (move & Hc & _). subst c.
    constructor; [apply Qle_refl|change (inject_Z 0) with 0%Q; apply Qle_refl
                 |constructor].
  - apply Forall_forall. intros c Hin. apply in_map_iff in Hin.
    destruct Hin as (move & Hc & _). subst c.
    constructor; [exact HB|constructor].
Qed.

Lemma Inv_children (t : mcts_core.node) :
  Inv t -> Forall Inv (mcts_core.children t).
Proof. intros H. inversion H; subst. assumption. Qed.

Lemma Below_children (B : Z) (t : mcts_core.node) :
  Below B t -> Forall (Below B) (mcts_core.children t).
Proof. intros H. inversion H; subst. assumption. Qed.

Lemma Below_n (B : Z) (t : mcts_core.node) :
  Below B t -> (mcts_core.n t <= B)%Z.
Proof. intros H. inversion H; subst. assumption. Qed.

Lemma expanded_id (E : RulesEngine) (t : mcts_core.node) :
  mcts_core.children t <> [] -> expanded E t = t.
Proof.
  intros H. unfold expanded.
  destruct (mcts_core.children t); [contradiction|reflexivity].
Qed.

Section BestVisitedMove.

Variable E : RulesEngine.
Variables Sqrt Log : Q -> Q.
Variable p : Position.

Hypothesis engine_sane : sane E.
Hypothesis root_not_checkmate : IsCheckMate E p = false.
Hypothesis root_not_stalemate : IsStaleMate E p = false.

(** The state of the loop of [GetMove] after [j] iterations. *)
Let visited (j : nat) (st : Z * mcts_core.node * mcts_core.Rand) : Prop :=
  mcts_core.pos (snd (fst st)) = p
  /\ Inv (snd (fst st))
  /\ Below (2 * Z.of_nat j) (snd (fst st))
  /\ (unvisited (mcts_core.children (expanded E (snd (fst st))))
      <= List.length (GenerateLegalMoves E p) - j)%nat
  /\ (j = 0%nat -> mcts_core.children (snd (fst st)) = []).

Lemma GetMove_step_visits (agentColor : Color) (j : nat) st st' :
  (2 * Z.of_nat j <= MaxInt64 - 2)%Z ->
  visited j st ->
  mcts_single.GetMove_step E Sqrt Log agentColor st = Some st' ->
  visited (S j) st'
  /\ mcts_core.children (snd (fst st')) <> [].
Proof.
  intros Hroom Hv H. destruct st as [[N t] g].
  destruct Hv as (Hpos & HI & HB & Hun & _). cbn [fst snd] in *.
  pose proof (GetMove_step_keeps E Sqrt Log agentColor (2 * Z.of_nat j) N t g
                Hroom HI HB) as Hkeeps.
  rewrite H in Hkeeps.
  unfold mcts_single.GetMove_step, mcts_single.iterate in H.
  destruct (mcts_core.iterate E Sqrt Log (mcts_single.randomRollout E)
              N agentColor t g) as [[[r t'] g']|] eqn:Hit; [|discriminate].
  inversion H; subst st'. clear H. cbn [fst snd] in *.
  destruct Hkeeps as (HI' & _ & HB').
  destruct (Inv_Below_expanded E (2 * Z.of_nat j) t ltac:(lia) HI HB)
    as [HIe HBe].
  rewrite iterate_unfold in Hit. unfold mcts_core.iterate_body in Hit.
  rewrite Hpos, root_not_checkmate, root_not_stalemate in Hit.
  cbn [andb orb] in Hit. fold (expanded E t) in Hit.
  destruct (expanded_fields E t) as (_ & _ & _ & Hpose).
  set (te := expanded E t) in *.
  destruct (mcts_core.selectNode Sqrt Log N (mcts_core.children te))
    as [i|] eqn:Hsel; [|discriminate].
  destruct (nth_error (mcts_core.children te) i) as [sel|] eqn:Hn;
    [|discriminate].
  assert (Hselinv : Inv sel /\ Below (2 * Z.of_nat j) sel).
  { pose proof (Inv_children te HIe) as H1.
    pose proof (Below_children _ te HBe) as H2.
    rewrite Forall_forall in H1, H2.
    split; [apply H1|apply H2]; apply (nth_error_In _ _ Hn). }
  destruct Hselinv as [HIs HBs].
  destruct (if (mcts_core.n sel =? 0)%Z
            then let '(result, g'0) :=
                   mcts_single.randomRollout E (mcts_core.pos te) agentColor g
                 in Some (result, sel, g'0)
            else mcts_core.iterate E Sqrt Log (mcts_single.randomRollout E)
                                   N agentColor sel g)
    as [[[r0 sel'] g0]|] eqn:Hstep; [|discriminate].
  assert (Hn' : (0 <= mcts_core.n sel' < MaxInt64)%Z).
  { destruct (mcts_core.n sel =? 0)%Z.
    - destruct (mcts_single.randomRollout E (mcts_core.pos te) agentColor g).
      inversion Hstep; subst sel'.
      pose proof (Inv_nonneg _ HIs). pose proof (Below_n _ _ HBs).
      unfold MaxInt64 in *. lia.
    - destruct (iterate_keeps E Sqrt Log (mcts_single.randomRollout E)
                  (fun p0 a g2 => single_rollout_isReward E _ p0 a g2)
                  N agentColor (2 * Z.of_nat j) Hroom sel HIs HBs
                  g r0 sel' g0 Hstep) as (_ & _ & HIs' & _ & Hle & _).
      pose proof (Inv_nonneg _ HIs'). pose proof (Below_n _ _ HBs).
      unfold MaxInt64 in *. lia. }
  inversion Hit; subst r0 t' g0. clear Hit.
  cbn [mcts_core.pos mcts_core.children] in *.
  assert (Hx : mcts_core.n (mcts_core.backpropagate sel' r) <> 0%Z).
  { cbn. rewrite incr64_small by (unfold MaxInt64 in *; lia). lia. }
  assert (Hne : mcts_core.replace_nth i (mcts_core.backpropagate sel' r)
                                      (mcts_core.children te) <> []).
  { destruct (mcts_core.children te); destruct i; discriminate. }
  split; [|exact Hne].
  unfold visited. cbn [fst snd mcts_core.pos mcts_core.children].
  split; [rewrite Hpose; exact Hpos|]. split; [exact HI'|].
  split; [apply (Below_mono (2 * Z.of_nat j + 2)); [lia|exact HB']|].
  split; [|intros Hj; discriminate].
  rewrite expanded_id by (cbn [mcts_core.children]; exact Hne).
  cbn [mcts_core.children].
  rewrite (unvisited_replace_nth _ i sel _ Hn Hx).
  destruct (selectNode_unvisited Sqrt Log N _ i sel Hsel Hn) as [Hz|Hz].
  - rewrite Hz. cbn [Z.eqb]. lia.
  - rewrite Hz. lia.
Qed.

Lemma GetMove_loop_visits (batches : nat) (g : mcts_core.Rand) st :
  (1 <= batches)%nat ->
  (200 * Z.of_nat batches <= MaxInt64)%Z ->
  (List.length (GenerateLegalMoves E p) <= 100)%nat ->
  mcts_single.GetMove_loop E Sqrt Log batches p g = Some st ->
  mcts_core.children (snd (fst st)) <> []
  /\ Forall (fun c => (0 < mcts_core.n c)%Z /\ (0 <= mcts_core.w c)%Q)
            (mcts_core.children (snd (fst st))).
Proof.
  intros Hb Hroom Hlen H. unfold mcts_single.GetMove_loop in H.
  cbv zeta in H. rewrite repeat_step_mul in H.
  destruct (batches * mcts_core.iterationsBetweenTimeChecks)%nat as [|k] eqn:Hk;
    [unfold mcts_core.iterationsBetweenTimeChecks in Hk; lia|].
  assert (Hk' : (100 <= S k)%nat /\ (2 * Z.of_nat (S k) <= MaxInt64)%Z)
    by (unfold mcts_core.iterationsBetweenTimeChecks in Hk; lia).
  clear Hk. cbn [mcts_core.repeat_step] in H.
  destruct (mcts_single.GetMove_step E Sqrt Log (Turn p)
              (0%Z, mcts_core.Node 0 0 noMove p [], g)) as [st1|] eqn:H1;
    [|discriminate].
  apply (GetMove_step_visits (Turn p) 0) in H1; [|lia|].
  2:{ unfold visited. cbn [fst snd mcts_core.pos mcts_core.children].
      split; [reflexivity|].
      split; [constructor;
              [apply Qle_refl|change (inject_Z 0) with 0%Q; apply Qle_refl
              |constructor]|].
      split; [constructor; [lia|constructor]|].
      split; [|reflexivity].
      unfold expanded, mcts_core.fillInChildren.
      cbn [mcts_core.children mcts_core.pos List.length Nat.eqb app].
      rewrite (unvisited_fresh (Position_Move E p)). lia. }
  assert (Hall :
            visited (1 + k) st /\ mcts_core.children (snd (fst st)) <> []).
  { apply (repeat_step_counted
             (mcts_single.GetMove_step E Sqrt Log (Turn p))
             (fun j s => visited j s
                         /\ mcts_core.children (snd (fst s)) <> [])
             (S k)) with (j := 1%nat) (st := st1) (k := k);
      [|lia|exact H1|exact H].
    intros j s s' Hj [Hv _] Hs.
    apply (GetMove_step_visits (Turn p) j s s'); [lia|exact Hv|exact Hs]. }
  destruct Hall as [(Hpos & HI & _ & Hun & _) Hne].
  split; [exact Hne|].
  rewrite (expanded_id E _ Hne) in Hun.
  assert (Hz : unvisited (mcts_core.children (snd (fst st))) = 0%nat) by lia.
  apply unvisited_none in Hz.
  pose proof (Inv_children _ HI) as Hcs.
  rewrite Forall_forall in *. intros c Hin.
  specialize (Hz c Hin). specialize (Hcs c Hin).
  pose proof (Inv_nonneg c Hcs) as H0. inversion Hcs; subst.
  cbn [mcts_core.n mcts_core.w] in *.
  split; [lia|assumption].
Qed.

End BestVisitedMove.

(** X30.  The move of the single-tree [GetMove].  On a position that is
    not terminal and has at most 100 legal moves, after at least one batch
    of iterations every child of the root has been visited, and [GetMove]
    returns the move of the child of greatest average reward [w / n], the
    first such child in generation order in case of a tie. *)
Theorem mcts_returns_the_move_of_greatest_average
        (E : RulesEngine) (Sqrt Log : Q -> Q) (p : Position)
        (batches : nat) (g : mcts_core.Rand) :
  sane E ->
  IsCheckMate E p = false -> IsStaleMate E p = false ->
  (1 <= batches)%nat ->
  (200 * Z.of_nat batches <= MaxInt64)%Z ->
  (List.length (GenerateLegalMoves E p) <= 100)%nat ->
  exists N parentNode g' i c,
    mcts_single.GetMove_loop E Sqrt Log batches p g
    = Some (N, parentNode, g')
    /\ Forall (fun c => (0 < mcts_core.n c)%Z)
              (mcts_core.children parentNode)
    /\ nth_error (mcts_core.children parentNode) i = Some c
    /\ mcts_single.GetMove E Sqrt Log batches p g = Some (mcts_core.mov c)
    /\ firstGreatest average (mcts_core.children parentNode) i.
Proof.
  intros Hsane Hm Hs Hb Hroom Hlen. unfold mcts_single.GetMove.
  pose proof (GetMove_loop_total E Sqrt Log batches p g Hsane) as Hne.
  destruct (mcts_single.GetMove_loop E Sqrt Log batches p g)
    as [[[N t] g']|] eqn:Hloop; [|contradiction].
  destruct (GetMove_loop_visits E Sqrt Log p Hm Hs batches g _ Hb Hroom Hlen
                                Hloop) as [Hcs Hall].
  cbn [fst snd] in *.
  unfold mcts_core.bestMove.
  destruct (mcts_core.children t) as [|first rest] eqn:Hch; [contradiction|].
  destruct (bestMove_loop_first_greatest (first :: rest)
              (mcts_core.mov first) (- MaxFloat64)%Q)
    as [[_ Hle]|(i & c & Hn & Hr & _ & Hfg)].
  - exfalso. inversion Hle as [|? ? H1 _]; subst.
    inversion Hall as [|? ? [Hn Hw] _]; subst.
    assert (H0 : (0 <= average first)%Q).
    { unfold average. apply Qle_shift_div_l.
      - change 0%Q with (inject_Z 0). rewrite <- Zlt_Qlt. exact Hn.
      - lra. }
    assert (Hneg : (- MaxFloat64 < 0)%Q)
      by (unfold Qlt; vm_compute; reflexivity).
    lra.
  - exists N, t, g', i, c. split; [reflexivity|].
    split; [|split; [rewrite Hch; exact Hn|split;
                     [rewrite Hr; reflexivity|rewrite Hch; exact Hfg]]].
    rewrite Hch. apply Forall_forall. intros x Hx.
    rewrite Forall_forall in Hall. apply (Hall x Hx).
Qed.

Lemma mcts_returns_the_move_of_greatest_average_witness :
  exists N parentNode g' i c,
    mcts_single.GetMove_loop (table.engine table.forcedMateGame)
                             (fun x => x) (fun x => x) 1
                             (table.position table.forcedMateGame 1)
                             table.zeros
    = Some (N, parentNode, g')
    /\ Forall (fun c => (0 < mcts_core.n c)%Z)
              (mcts_core.children parentNode)
    /\ nth_error (mcts_core.children parentNode) i = Some c
    /\ mcts_single.GetMove (table.engine table.forcedMateGame)
                           (fun x => x) (fun x => x) 1
                           (table.position table.forcedMateGame 1)
                           table.zeros
       = Some (mcts_core.mov c)
    /\ firstGreatest average (mcts_core.children parentNode) i.
Proof.
  apply (mcts_returns_the_move_of_greatest_average
           (table.engine table.forcedMateGame) (fun x => x) (fun x => x)
           (table.position table.forcedMateGame 1) 1 table.zeros).
  - apply table_engine_sane.
  - reflexivity.
  - reflexivity.
  - lia.
  - vm_compute. discriminate.
  - cbn. lia.
Defined.
